(** * Graphs module: a shallow embedding of [algorithms/graphs/graph.py]

    The Python module keeps every [Vertex] as a mutable object and lets
    dictionaries be keyed by the vertex objects themselves (hashing by
    identity).  The embedding therefore has an object store: a vertex object
    is an address into [heap], the [Graph] instance holds a dictionary from
    caller keys to addresses, and every method is a computation over that
    store which either returns or raises. *)

From Stdlib Require Import ZArith Lia Classical.
From stdpp Require Import base tactics option list gmap.

(** Object identities: the position of the object in the store. *)
Abbreviation addr := nat (only parsing).

(** [sys.maxsize] of a 64-bit CPython. Python integers do not wrap, so
    [sys.maxsize + w] is an ordinary integer. *)
Definition sys_maxsize : Z := 9223372036854775807.

(** Colors used by the search algorithms: [WHITE = 0], [BLACK = 1],
    [GRAY = 2]; the code only ever compares them. *)
Inductive Color := WHITE | BLACK | GRAY.

#[global] Instance Color_eq_dec : EqDecision Color.
Proof. solve_decision. Defined.

(** ** Python dictionaries

    A [dict] keeps insertion order, and assigning to a key that is present
    replaces the value in place. *)
Section dict.
Context {K V : Type} `{EqDecision K}.

Fixpoint dict_get (k : K) (d : list (K * V)) : option V :=
  match d with
  | [] => None
  | (k', v) :: d' => if decide (k = k') then Some v else dict_get k d'
  end.

Fixpoint dict_set (k : K) (v : V) (d : list (K * V)) : list (K * V) :=
  match d with
  | [] => [(k, v)]
  | (k', v') :: d' =>
      if decide (k = k') then (k', v) :: d' else (k', v') :: dict_set k v d'
  end.

Definition dict_mem (k : K) (d : list (K * V)) : bool :=
  bool_decide (is_Some (dict_get k d)).
End dict.

(** ** The outcome of a call *)
Inductive failure :=
| KeyError              (* a missing dictionary key *)
| NegativeWeightCycle   (* ValueError("Negative Weight Cycle Found") *)
| NotEnoughValues       (* ValueError raised by a failed tuple unpacking *)
| BlocksForever         (* [Queue.put] on a full bounded queue *)
| RecursionError        (* the interpreter's recursion limit was reached *)
| OutOfFuel.            (* the loop exceeded the given bound *)

Inductive result (A : Type) :=
| Ok (a : A)
| Fail (f : failure).
Arguments Ok {A} a.
Arguments Fail {A} f.

#[global] Instance failure_eq_dec : EqDecision failure.
Proof. solve_decision. Defined.

(** ** The priority queue Dijkstra uses *)

(** Modelled from the spec: [datastructures.heap.MutablePriorityQueue] is
    not part of the sources at hand.  Its interface is taken as given:
    [add_task] inserts the item or updates its priority, [pop_task] removes
    and returns a minimum-priority item (and raises [KeyError] on an empty
    queue), [empty] tells whether no task is left.  [tasks] is the content
    of a queue as a finite map; which of several minimal items [pop_task]
    returns is left to the implementation. *)
Record MutablePriorityQueue := mkPQ {
  pq : Type;
  pq_new : pq;
  add_task : pq → addr → Z → pq;
  pop_task : pq → option (addr * pq);
  empty : pq → bool;
  tasks : pq → gmap addr Z;
}.

Definition pq_lawful (P : MutablePriorityQueue) : Prop :=
  tasks P (pq_new P) = ∅ ∧
  (∀ q a p, tasks P (add_task P q a p) = <[a:=p]> (tasks P q)) ∧
  (∀ q, empty P q = true ↔ tasks P q = ∅) ∧
  (∀ q, match pop_task P q with
        | None => tasks P q = ∅
        | Some (a, q') =>
            (∃ p, tasks P q !! a = Some p ∧
                  ∀ b p', tasks P q !! b = Some p' → (p ≤ p')%Z) ∧
            tasks P q' = delete a (tasks P q)
        end).

Section model.
Context {key : Type} `{EqDecision key} `{Inhabited key}.

(** ** class Vertex *)
Record Vertex := mkVertex {
  id : key;
  connected_to : list (addr * Z);   (* neighbour vertex -> weight *)
  dist : list (addr * Z);           (* source vertex -> distance *)
  color : Color;
  predecessor : option addr;
}.

#[global] Instance Vertex_inhabited : Inhabited Vertex :=
  populate (mkVertex inhabitant [] [] WHITE None).

(** What [print] wrote: [print(x.get_id(), end=" ")] and the
    "No path from {} to {} exists!" line. *)
Inductive output :=
| PrintId (k : key)
| PrintNoPath (k_source k_destination : key).

(** ** class Graph, together with the object store *)
Record state := mkState {
  heap : list Vertex;
  vertices : list (key * addr);
  num_vertices : Z;
  directed : bool;
  stdout : list output;
}.

(** [Graph(directed)] *)
Definition Graph (d : bool) : state := mkState [] [] 0 d [].

Definition M (A : Type) : Type := state → result A * state.

Definition ret {A} (a : A) : M A := λ st, (Ok a, st).
Definition raise {A} (f : failure) : M A := λ st, (Fail f, st).
Definition bind {A B} (m : M A) (k : A → M B) : M B :=
  λ st, match m st with
        | (Ok a, st') => k a st'
        | (Fail f, st') => (Fail f, st')
        end.
Definition gets {A} (f : state → A) : M A := λ st, (Ok (f st), st).
Definition modify (f : state → state) : M unit := λ st, (Ok (), f st).

Notation "'let*' x := m 'in' k" := (bind m (λ x, k))
  (at level 10, x name, m at level 100, k at level 200).
Notation "m >> k" := (bind m (λ _, k))
  (at level 100, k at level 200, right associativity).

Fixpoint for_each {A} (l : list A) (body : A → M unit) : M unit :=
  match l with
  | [] => ret ()
  | x :: l' => body x >> for_each l' body
  end.

(** A [for] loop that also rebinds a local variable. *)
Fixpoint for_fold {A B} (l : list A) (acc : B) (body : A → B → M B) : M B :=
  match l with
  | [] => ret acc
  | x :: l' => let* acc' := body x acc in for_fold l' acc' body
  end.

(** *** Reading and writing the fields of a vertex object *)
Definition vtx (st : state) (a : addr) : Vertex := heap st !!! a.

Definition set_heap (f : list Vertex → list Vertex) (st : state) : state :=
  mkState (f (heap st)) (vertices st) (num_vertices st) (directed st) (stdout st).

Definition update (a : addr) (f : Vertex → Vertex) : M unit :=
  modify (set_heap (alter f a)).

Definition with_connected_to (f : list (addr * Z) → list (addr * Z)) (v : Vertex) :=
  mkVertex (id v) (f (connected_to v)) (dist v) (color v) (predecessor v).
Definition with_dist (f : list (addr * Z) → list (addr * Z)) (v : Vertex) :=
  mkVertex (id v) (connected_to v) (f (dist v)) (color v) (predecessor v).
Definition with_color (c : Color) (v : Vertex) :=
  mkVertex (id v) (connected_to v) (dist v) c (predecessor v).
Definition with_predecessor (p : option addr) (v : Vertex) :=
  mkVertex (id v) (connected_to v) (dist v) (color v) p.

(** [v.color = c], [v.predecessor = p], [v.dist[source] = d] *)
Definition set_color (v : addr) (c : Color) : M unit := update v (with_color c).
Definition set_predecessor (v : addr) (p : option addr) : M unit :=
  update v (with_predecessor p).
Definition set_dist (v source : addr) (d : Z) : M unit :=
  update v (with_dist (dict_set source d)).

(** [v.dist[source]], which raises [KeyError] when the entry is missing *)
Definition get_dist (v source : addr) : M Z :=
  λ st, match dict_get source (dist (vtx st v)) with
        | Some d => (Ok d, st)
        | None => (Fail KeyError, st)
        end.

Definition print (o : output) : M unit :=
  modify (λ st, mkState (heap st) (vertices st) (num_vertices st) (directed st)
                        (stdout st ++ [o])).

(** *** Vertex methods *)
Definition add_neighbour (self neighbour : addr) (weight : Z) : M unit :=
  update self (with_connected_to (dict_set neighbour weight)).

Definition get_connections (self : addr) : M (list addr) :=
  gets (λ st, (connected_to (vtx st self)).*1).

Definition get_id (self : addr) : M key := gets (λ st, id (vtx st self)).

Definition get_weight (self neighbour : addr) : M Z :=
  λ st, match dict_get neighbour (connected_to (vtx st self)) with
        | Some w => (Ok w, st)
        | None => (Fail KeyError, st)
        end.

(** *** Basic commands and queries for the Graph *)

(** [for v in self]: the stored vertex objects, in insertion order *)
Definition iter_graph : M (list addr) := gets (λ st, (vertices st).*2).

Definition get_vertex (k : key) : M addr :=
  λ st, match dict_get k (vertices st) with
        | Some a => (Ok a, st)
        | None => (Fail KeyError, st)
        end.

Definition get_vertices : M (list key) := gets (λ st, (vertices st).*1).

(** The triples hold the two vertex objects, not their keys. *)
Definition get_edges : M (list (addr * addr * Z)) :=
  let* vs := iter_graph in
  for_fold vs [] (λ v edges,
    let* us := get_connections v in
    for_fold us edges (λ u edges,
      let* w := get_weight v u in
      ret (edges ++ [(v, u, w)]))).

Definition add_vertex (k : key) : M unit :=
  modify (λ st, mkState (heap st) (vertices st) (num_vertices st + 1)
                        (directed st) (stdout st)) >>
  let* new_vertex := (λ st, (Ok (length (heap st)),
                             set_heap (λ h, h ++ [mkVertex k [] [] WHITE None]) st)) in
  modify (λ st, mkState (heap st) (dict_set k new_vertex (vertices st))
                        (num_vertices st) (directed st) (stdout st)).

(** The positional arguments a call of [add_edge(self, *edge)] receives. *)
Inductive call_args :=
| Args2 (vertex_1 vertex_2 : key)              (* add_edge(k1, k2) *)
| Args3 (vertex_1 vertex_2 : key) (weight : Z) (* add_edge(k1, k2, w) *)
| Args1 (edge : key * key * option Z).         (* add_edge(t), [t] one tuple *)

(** [vertex_1, vertex_2, *cost = edge] needs at least two values. *)
Definition unpack (edge : call_args) : M (key * key * list Z) :=
  match edge with
  | Args2 k1 k2 => ret (k1, k2, [])
  | Args3 k1 k2 w => ret (k1, k2, [w])
  | Args1 _ => raise NotEnoughValues
  end.

Definition add_edge (edge : call_args) : M unit :=
  let* e := unpack edge in
  let '(vertex_1, vertex_2, cost) := e in
  (let* present := gets (λ st, dict_mem vertex_1 (vertices st)) in
   if present then ret () else add_vertex vertex_1) >>
  (let* present := gets (λ st, dict_mem vertex_2 (vertices st)) in
   if present then ret () else add_vertex vertex_2) >>
  let weight := match cost with [] => 0%Z | c :: _ => c end in
  let* v1 := get_vertex vertex_1 in
  let* v2 := get_vertex vertex_2 in
  add_neighbour v1 v2 weight >>
  let* d := gets directed in
  if d then ret ()
  else
    let* v2 := get_vertex vertex_2 in
    let* v1 := get_vertex vertex_1 in
    add_neighbour v2 v1 weight.

(** [add_edges] hands each tuple to [add_edge] as one positional argument. *)
Definition add_edges (edges : list (key * key * option Z)) : M unit :=
  for_each edges (λ edge, add_edge (Args1 edge)).

(** *** Search algorithms for the graph *)

Definition connected (key_1 key_2 : key) : M bool :=
  let* v1 := get_vertex key_1 in
  let* neighbours := get_connections v1 in
  let* ids := gets (λ st, (λ n, id (vtx st n)) <$> neighbours) in
  ret (bool_decide (key_2 ∈ ids)).

(** The recursive methods take the room the interpreter has left:
    [depth] is the number of activations of the method that can be nested
    below the caller before [sys.getrecursionlimit()] is reached, each
    still able to make the method calls of its body.  A call for which no
    room is left raises [RecursionError] before it has done anything. *)
Fixpoint _print_path_util (depth : nat) (source destination : addr) : M unit :=
  match depth with
  | O => raise RecursionError
  | S depth' =>
      if decide (source = destination) then
        let* i := get_id source in print (PrintId i)
      else
        let* p := gets (λ st, predecessor (vtx st destination)) in
        match p with
        | None =>
            let* i := get_id source in
            let* j := get_id destination in
            print (PrintNoPath i j)
        | Some p =>
            _print_path_util depth' source p >>
            let* j := get_id destination in print (PrintId j)
        end
  end.

Definition print_path (depth : nat) (key_source key_destination : key) : M unit :=
  let* source := get_vertex key_source in
  let* destination := get_vertex key_destination in
  _print_path_util depth source destination.

(** [queue.Queue(maxsize).put(x)]: blocks while the queue is full; a
    [maxsize] of zero or less means unbounded. *)
Definition q_put (maxsize : Z) (q : list addr) (x : addr) : M (list addr) :=
  if decide (0 < maxsize ∧ maxsize ≤ Z.of_nat (length q))%Z
  then raise BlocksForever
  else ret (q ++ [x]).

Definition bfs_visit (source u : addr) (maxsize : Z) (v : addr) (q : list addr)
  : M (list addr) :=
  let* c := gets (λ st, color (vtx st v)) in
  if decide (c = WHITE) then
    set_color v GRAY >>
    let* d := get_dist u source in
    set_dist v source (d + 1) >>
    set_predecessor v (Some u) >>
    q_put maxsize q v
  else ret q.

Fixpoint bfs_while (fuel : nat) (source : addr) (maxsize : Z) (q : list addr)
  : M unit :=
  match q with
  | [] => ret ()
  | u :: q =>
      match fuel with
      | O => raise OutOfFuel
      | S fuel' =>
          let* vs := get_connections u in
          let* q := for_fold vs q (bfs_visit source u maxsize) in
          set_color u BLACK >>
          bfs_while fuel' source maxsize q
      end
  end.

Definition bfs (source_key : key) : M unit :=
  let* source := get_vertex source_key in
  let* us := iter_graph in
  for_each us (λ u,
    if decide (u = source) then ret ()
    else
      set_color u WHITE >>
      set_predecessor u None >>
      set_dist u source sys_maxsize) >>
  set_color source GRAY >>
  set_dist source source 0 >>
  set_predecessor source None >>
  let* n := gets num_vertices in
  let* q := q_put n [] source in
  let* fuel := gets (λ st, S (length (heap st))) in
  bfs_while fuel source n q.

Fixpoint dfs_visit (depth : nat) (u : addr) : M unit :=
  match depth with
  | O => raise RecursionError
  | S depth' =>
      let* i := get_id u in
      print (PrintId i) >>
      set_color u GRAY >>
      let* vs := get_connections u in
      for_each vs (λ v,
        let* c := gets (λ st, color (vtx st v)) in
        if decide (c = WHITE) then
          set_predecessor v (Some u) >>
          dfs_visit depth' v
        else ret ()) >>
      set_color u BLACK
  end.

Definition dfs (depth : nat) : M unit :=
  let* us := iter_graph in
  for_each us (λ u, set_color u WHITE >> set_predecessor u None) >>
  let* us := iter_graph in
  for_each us (λ u,
    let* c := gets (λ st, color (vtx st u)) in
    if decide (c = WHITE) then dfs_visit depth u else ret ()).

Definition initialize_single_source (source : addr) : M unit :=
  let* vs := iter_graph in
  for_each vs (λ v, set_dist v source sys_maxsize >> set_predecessor v None) >>
  set_dist source source 0.

Definition relax (source u v : addr) (weight : Z) : M unit :=
  let* dv := get_dist v source in
  let* du := get_dist u source in
  if decide (dv > du + weight)%Z then
    let* du := get_dist u source in
    set_dist v source (du + weight) >>
    set_predecessor v (Some u)
  else ret ().

Definition bellman_ford (source_key : key) : M unit :=
  let* source := get_vertex source_key in
  initialize_single_source source >>
  let* n := gets num_vertices in
  for_each (seq 0 (Z.to_nat (n - 1))) (λ _,
    let* edges := get_edges in
    for_each edges (λ edge, relax source edge.1.1 edge.1.2 edge.2)) >>
  let* edges := get_edges in
  for_each edges (λ edge,
    let* d1 := get_dist edge.1.2 source in
    let* d0 := get_dist edge.1.1 source in
    if decide (d1 > d0 + edge.2)%Z then raise NegativeWeightCycle else ret ()).

Section dijkstra.
Variable P : MutablePriorityQueue.

Definition relax_with_priority_update (source u v : addr) (weight : Z)
    (priority_queue : pq P) : M (pq P) :=
  let* dv := get_dist v source in
  let* du := get_dist u source in
  if decide (dv > du + weight)%Z then
    let* du := get_dist u source in
    set_dist v source (du + weight) >>
    set_predecessor v (Some u) >>
    let* dv := get_dist v source in
    ret (add_task P priority_queue v dv)
  else ret priority_queue.

Fixpoint dijkstra_while (fuel : nat) (source : addr) (priority_queue : pq P)
  : M unit :=
  if empty P priority_queue then ret ()
  else
    match fuel with
    | O => raise OutOfFuel
    | S fuel' =>
        match pop_task P priority_queue with
        | None => raise KeyError
        | Some (u, priority_queue) =>
            let* vs := get_connections u in
            let* priority_queue :=
              for_fold vs priority_queue (λ v priority_queue,
                let* w := get_weight u v in
                relax_with_priority_update source u v w priority_queue) in
            dijkstra_while fuel' source priority_queue
        end
    end.

Definition dijkstra (fuel : nat) (source_key : key) : M unit :=
  let* source := get_vertex source_key in
  initialize_single_source source >>
  let* v_keys := get_vertices in
  let* priority_queue :=
    for_fold v_keys (pq_new P) (λ v_key priority_queue,
      let* v := get_vertex v_key in
      let* dv := get_dist v source in
      ret (add_task P priority_queue v dv)) in
  dijkstra_while fuel source priority_queue.
End dijkstra.
End model.


Arguments Vertex : clear implicits.
Arguments state : clear implicits.
Arguments output : clear implicits.
Arguments call_args : clear implicits.
Arguments M : clear implicits.

Notation "'let*' x := m 'in' k" := (bind m (λ x, k))
  (at level 10, x name, m at level 100, k at level 200).
Notation "m >> k" := (bind m (λ _, k))
  (at level 100, k at level 200, right associativity).

(** ** What the statements below talk about *)
Section notions.
Context {key : Type} `{!EqDecision key} `{!Inhabited key}.
Implicit Types (st : state key) (u v source : addr).

(** The state a call leaves behind, whether it returned or raised. *)
Definition after {A} (m : M key A) st : state key := (m st).2.

(** The vertex objects the graph holds, in iteration order. *)
Definition stored st : list addr := (vertices st).*2.

Definition dist_from st source v : option Z := dict_get source (dist (vtx st v)).

(** Everything but the per-vertex [color], [dist] and [predecessor] (and
    what was printed): the vertex dictionary, the counter, the [directed]
    flag, and the identity and adjacency of every vertex object. *)
Definition skeleton st :=
  (vertices st, num_vertices st, directed st,
   (λ x, (id x, connected_to x)) <$> heap st).

(** [u] is stored and its adjacency maps [v] to [w]. *)
Definition edge st u v (w : Z) : Prop :=
  u ∈ stored st ∧ dict_get v (connected_to (vtx st u)) = Some w.

(** Facts about the representation that every sequence of calls keeps. *)
Record graph_inv st : Prop := {
  inv_keys : NoDup (vertices st).*1;
  inv_objects : NoDup (stored st);
  inv_valid : ∀ a, a ∈ stored st → a < length (heap st);
  inv_ids : ∀ k a, (k, a) ∈ vertices st → id (vtx st a) = k;
  inv_adjacent : ∀ a, NoDup (connected_to (vtx st a)).*1;
  inv_counter : (Z.of_nat (length (vertices st)) ≤ num_vertices st)%Z;
}.

(** No adjacency entry of a stored vertex refers to a vertex object that
    the graph no longer holds. *)
Definition closed st : Prop := ∀ u v w, edge st u v w → v ∈ stored st.
End notions.

(** ** Concrete graphs *)

Definition min_task (l : list (nat * Z)) : option (nat * Z) :=
  foldr (λ x acc, match acc with
                  | None => Some x
                  | Some y => if decide (x.2 ≤ y.2)%Z then Some x else Some y
                  end) None l.

(** A priority queue that is nothing but its finite map of tasks. *)
Definition gmap_pq : MutablePriorityQueue :=
  mkPQ (gmap nat Z) ∅ (λ q a p, <[a:=p]> q)
       (λ q, match min_task (map_to_list q) with
             | None => None
             | Some (a, _) => Some (a, delete a q)
             end)
       (λ q, bool_decide (q = ∅)) (λ q, q).

(** Run a list of calls one after the other, from left to right. *)
Definition script {key A} (ms : list (M key A)) (st : state key) : state key :=
  foldl (λ st m, after m st) st ms.

(** The graph of the module's [__main__] block. *)
Definition demo : state Z :=
  script ((add_vertex <$> [0; 1; 2; 3; 4; 5]%Z) ++
          (add_edge <$> [Args3 0 1 5; Args3 0 5 2; Args3 1 2 4; Args3 2 3 9;
                         Args3 3 4 7; Args3 3 5 3; Args3 4 0 1; Args3 5 4 8;
                         Args3 5 2 1]%Z))
         (Graph true).

(** [dist[source]] of every stored vertex, by key. *)
Definition dists (source : nat) (st : state Z) : list (Z * option Z) :=
  (λ '(k, a), (k, dist_from st source a)) <$> vertices st.

(** ** Reasoning about calls *)
Section reasoning.
Context {key : Type} `{!EqDecision key} `{!Inhabited key}.

(** [wp m Q st]: running [m] from [st] ends in an outcome and a state that
    satisfy [Q]. *)
Definition wp {A} (m : M key A) (Q : result A → state key → Prop)
    (st : state key) : Prop :=
  Q (m st).1 (m st).2.

(** [stable R m]: whatever [m] does, returning or raising, it takes a state
    to an [R]-related one. *)
Definition stable (R : relation (state key)) {A} (m : M key A) : Prop :=
  ∀ st, R st (after m st).

Definition same_skeleton : relation (state key) :=
  λ st st', skeleton st' = skeleton st.
End reasoning.

(** ** Histories of calls *)
Section histories.
Context {key : Type} `{!EqDecision key} `{!Inhabited key}.
Variable P : MutablePriorityQueue.

(** A call of a recursive method comes with the room for nested
    activations that the interpreter has at that point, a call of
    [dijkstra] with the bound on its loop. *)
Inductive call :=
| Call_add_vertex (k : key)
| Call_add_edge (e : call_args key)
| Call_add_edges (es : list (key * key * option Z))
| Call_get_edges
| Call_connected (k1 k2 : key)
| Call_print_path (depth : nat) (k1 k2 : key)
| Call_bfs (k : key)
| Call_dfs (depth : nat)
| Call_bellman_ford (k : key)
| Call_dijkstra (fuel : nat) (k : key).

Definition exec (c : call) : M key unit :=
  match c with
  | Call_add_vertex k => add_vertex k
  | Call_add_edge e => add_edge e
  | Call_add_edges es => add_edges es
  | Call_get_edges => get_edges >> ret ()
  | Call_connected k1 k2 => connected k1 k2 >> ret ()
  | Call_print_path depth k1 k2 => print_path depth k1 k2
  | Call_bfs k => bfs k
  | Call_dfs depth => dfs depth
  | Call_bellman_ford k => bellman_ford k
  | Call_dijkstra fuel k => dijkstra P fuel k
  end.

(** The state after a sequence of calls; a call that raises leaves the
    state it had reached, and the caller goes on. *)
Definition history (cs : list call) (st : state key) : state key :=
  foldl (λ st c, after (exec c) st) st cs.

(** How many [add_vertex] invocations of a call were given a key that was
    already present.  [add_edge] invokes [add_vertex] only behind its
    [not in] test, hence never with such a key. *)
Definition repeated_key (c : call) (st : state key) : nat :=
  match c with
  | Call_add_vertex k => if dict_mem k (vertices st) then 1 else 0
  | _ => 0
  end.

Fixpoint repeated_keys (cs : list call) (st : state key) : nat :=
  match cs with
  | [] => 0
  | c :: cs => repeated_key c st + repeated_keys cs (after (exec c) st)
  end.

(** [bellman_ford] with the number of passes made explicit. *)
Definition bellman_ford_passes (passes : nat) (source_key : key) : M key unit :=
  let* source := get_vertex source_key in
  initialize_single_source source >>
  for_each (seq 0 passes) (λ _,
    let* edges := get_edges in
    for_each edges (λ edge, relax source edge.1.1 edge.1.2 edge.2)) >>
  let* edges := get_edges in
  for_each edges (λ edge,
    let* d1 := get_dist edge.1.2 source in
    let* d0 := get_dist edge.1.1 source in
    if decide (d1 > d0 + edge.2)%Z then raise NegativeWeightCycle else ret ()).
End histories.
Arguments call : clear implicits.

(** ** Construction *)
Section construction_notions.
Context {key : Type} `{!EqDecision key} `{!Inhabited key}.

(** [add_edges] as its docstring and the interface describe it: one
    [add_edge] call per tuple, on the tuple's components. *)
Definition add_edges_as_documented (edges : list (key * key * option Z)) : M key unit :=
  for_each edges (λ '(k1, k2, w),
    add_edge (match w with None => Args2 k1 k2 | Some w => Args3 k1 k2 w end)).

(** How far the counter is ahead of the number of stored vertices. *)
Definition counter_gap (st : state key) : Z :=
  (num_vertices st - Z.of_nat (length (vertices st)))%Z.

Definition same_gap : relation (state key) :=
  λ st st', counter_gap st' = counter_gap st.

(** The triples [get_edges] lists: for every stored vertex, in iteration
    order, one triple per entry of its adjacency, in insertion order. *)
Definition edges_of (st : state key) : list (addr * addr * Z) :=
  a ← stored st; (λ e : addr * Z, (a, e.1, e.2)) <$> connected_to (vtx st a).

(** Every edge has its mirror image, with the same weight. *)
Definition mirrored (st : state key) : Prop :=
  ∀ u v w, edge st u v w → edge st v u w.
End construction_notions.

Section construction_steps.
Context {key : Type} `{!EqDecision key} `{!Inhabited key}.

(** The two steps [add_edge] is made of, as functions on the state: making
    sure a key has a vertex, and entering one adjacency. *)
Definition ensure (k : key) (st : state key) : state key :=
  if dict_mem k (vertices st) then st else after (add_vertex k) st.

Definition link (a b : addr) (w : Z) (st : state key) : state key :=
  set_heap (alter (with_connected_to (dict_set b w)) a) st.

(** A call that takes states with [I] to states with [I]. *)
Definition keeps (I : state key → Prop) : relation (state key) :=
  λ st st', I st → I st'.

(** The weight an [add_edge] call enters. *)
Definition weight_of (e : call_args key) : Z :=
  match e with
  | Args3 _ _ w => w
  | _ => 0%Z
  end.

(** A graph in which a key was re-added, and the distances Bellman-Ford
    leaves in it. *)
Definition readded : state Z :=
  script [add_vertex 0%Z; add_vertex 0%Z; add_edge (Args3 0 0 (-1))%Z] (Graph true).
End construction_steps.

Section well_formedness.
Context {key : Type} `{!EqDecision key} `{!Inhabited key}.

(** What holds of a graph as long as no key is added a second time. *)
Definition well_formed (st : state key) : Prop :=
  graph_inv st ∧ closed st ∧ (directed st = false → mirrored st).

(** "Each edge appears as two separate triples, one in each direction,
    with identical weight", said of a list of triples. *)
Definition listed_both_ways (edges : list (addr * addr * Z)) : Prop :=
  ∀ a b w, (a, b, w) ∈ edges →
    ∃ i j, i ≠ j ∧ edges !! i = Some (a, b, w) ∧ edges !! j = Some (b, a, w).

(** An undirected graph with one edge from a vertex to itself. *)
Definition self_loop : state Z := after (add_edge (Args3 7 7 5)%Z) (Graph false).
End well_formedness.

(** ** Predecessor chains *)
Section chains.
Context {key : Type} `{!EqDecision key} `{!Inhabited key}.

(** [chain st r l d]: following [predecessor] from [d] ends at [r], which
    has none; [l] lists the vertices after [r] up to and including [d], in
    the order from [r] to [d]. *)
Inductive chain (st : state key) : addr → list addr → addr → Prop :=
| chain_root r : predecessor (vtx st r) = None → chain st r [] r
| chain_link r l p d :
    chain st r l p → predecessor (vtx st d) = Some p → chain st r (l ++ [d]) d.

(** The state after printing [os]. *)
Definition printed (os : list (output key)) (st : state key) : state key :=
  mkState (heap st) (vertices st) (num_vertices st) (directed st) (stdout st ++ os).

End chains.

(** ** Running an algorithm again *)
Section resets.
Context {key : Type} `{!EqDecision key} `{!Inhabited key}.

(** What the initialisation of [bfs] makes of the stored vertex [a]. *)
Definition bfs_reset (source a : addr) (x : Vertex key) : Vertex key :=
  if decide (a = source)
  then mkVertex (id x) (connected_to x) (dict_set source 0%Z (dist x)) GRAY None
  else mkVertex (id x) (connected_to x) (dict_set source sys_maxsize (dist x)) WHITE None.

(** What [initialize_single_source] makes of the stored vertex [a]. *)
Definition sssp_reset (source a : addr) (x : Vertex key) : Vertex key :=
  mkVertex (id x) (connected_to x)
           (dict_set source (if decide (a = source) then 0%Z else sys_maxsize) (dist x))
           (color x) None.

(** Two states that an initialisation [reset] of the vertices [V] cannot
    tell apart. *)
Definition agree (reset : addr → Vertex key → Vertex key) (V : list addr)
  : relation (state key) :=
  λ st st',
    skeleton st' = skeleton st ∧ stdout st' = stdout st ∧
    ∀ a, if decide (a ∈ V) then reset a (vtx st' a) = reset a (vtx st a)
         else vtx st' a = vtx st a.

(** The fields of the graph object itself, and the output, are the same. *)
Definition same_graph : relation (state key) :=
  λ st st', vertices st' = vertices st ∧ num_vertices st' = num_vertices st ∧
            directed st' = directed st ∧ stdout st' = stdout st.

(** The first part of [bfs], up to the creation of the queue. *)
Definition bfs_initialize (source : addr) : M key unit :=
  let* us := iter_graph in
  for_each us (λ u,
    if decide (u = source) then ret ()
    else
      set_color u WHITE >>
      set_predecessor u None >>
      set_dist u source sys_maxsize) >>
  set_color source GRAY >>
  set_dist source source 0 >>
  set_predecessor source None.

(** A graph in which a key was re-added after edges to it and from it
    were entered. *)
Definition stale : state Z :=
  script [add_edge (Args2 0 1)%Z; add_edge (Args2 1 2)%Z; add_vertex 1%Z] (Graph true).
End resets.

Section search_parts.
Context {key : Type} `{!EqDecision key} `{!Inhabited key}.

(** The second part of [bfs]: the queue and the loop. *)
Definition bfs_search (source : addr) : M key unit :=
  let* n := gets num_vertices in
  let* q := q_put n [] source in
  let* fuel := gets (λ st : state key, S (length (heap st))) in
  bfs_while fuel source n q.

(** The passes and the final scan of [bellman_ford]. *)
Definition bellman_ford_relax (source : addr) : M key unit :=
  let* n := gets num_vertices in
  for_each (seq 0 (Z.to_nat (n - 1))) (λ _,
    let* edges := get_edges in
    for_each edges (λ edge, relax source edge.1.1 edge.1.2 edge.2)) >>
  let* edges := get_edges in
  for_each edges (λ edge,
    let* d1 := get_dist edge.1.2 source in
    let* d0 := get_dist edge.1.1 source in
    if decide (d1 > d0 + edge.2)%Z then raise NegativeWeightCycle else ret ()).

(** The queue and the loop of [dijkstra]. *)
Definition dijkstra_search (P : MutablePriorityQueue) (fuel : nat) (source : addr)
  : M key unit :=
  let* v_keys := get_vertices in
  let* priority_queue :=
    for_fold v_keys (pq_new P) (λ v_key priority_queue,
      let* v := get_vertex v_key in
      let* dv := get_dist v source in
      ret (add_task P priority_queue v dv)) in
  dijkstra_while P fuel source priority_queue.
End search_parts.

(** ** Deciding the invariants of a concrete graph *)
Section checks.
Context {key : Type} `{!EqDecision key} `{!Inhabited key}.

Definition closedb (st : state key) : bool :=
  forallb (λ u, forallb (λ e : addr * Z, bool_decide (e.1 ∈ stored st))
                        (connected_to (vtx st u)))
          (stored st).

Definition nonnegativeb (st : state key) : bool :=
  forallb (λ u, forallb (λ e : addr * Z, bool_decide (0 ≤ e.2)%Z)
                        (connected_to (vtx st u)))
          (stored st).

Definition graph_invb (st : state key) : bool :=
  bool_decide (NoDup (vertices st).*1) &&
  bool_decide (NoDup (stored st)) &&
  forallb (λ a, bool_decide (a < length (heap st))) (stored st) &&
  forallb (λ e : key * addr, bool_decide (id (vtx st e.2) = e.1)) (vertices st) &&
  forallb (λ x : Vertex key, bool_decide (NoDup (connected_to x).*1)) (heap st) &&
  bool_decide (Z.of_nat (length (vertices st)) ≤ num_vertices st)%Z.
End checks.

(** ** Walks, distances and cycles *)
Section walks.
Context {key : Type} `{!EqDecision key} `{!Inhabited key}.
Implicit Types (st : state key).

(** [walk st a p b w]: a walk along edges from the stored vertex [a] to
    [b]; [p] lists the vertices it leaves, in order, so it has [length p]
    edges, and [w] is the sum of its weights. *)
Inductive walk st : addr → list addr → addr → Z → Prop :=
| walk_nil a : a ∈ stored st → walk st a [] a 0
| walk_snoc a p b c w w' :
    walk st a p b w → edge st b c w' → walk st a (p ++ [b]) c (w + w').

Definition reachable st (s v : addr) : Prop := ∃ p w, walk st s p v w.

(** The least number of edges of a walk from [s] to [v]. *)
Definition hop_distance st (s v : addr) (n : nat) : Prop :=
  (∃ p w, walk st s p v w ∧ length p = n) ∧
  (∀ p w, walk st s p v w → n ≤ length p).

(** The least weight of a walk from [s] to [v]. *)
Definition shortest_distance st (s v : addr) (d : Z) : Prop :=
  (∃ p, walk st s p v d) ∧ (∀ p w, walk st s p v w → (d ≤ w)%Z).

(** A cycle of negative total weight, anywhere in the graph, and one that
    can be reached from [s]. *)
Definition negative_cycle st : Prop :=
  ∃ a p w, walk st a p a w ∧ p ≠ [] ∧ (w < 0)%Z.

Definition reachable_negative_cycle st (s : addr) : Prop :=
  ∃ a p w, reachable st s a ∧ walk st a p a w ∧ p ≠ [] ∧ (w < 0)%Z.

(** [tree_path st s v n]: following [predecessor] from [v] leads to [s] in
    [n] steps, each of which goes against an edge of the graph. *)
Inductive tree_path st (s : addr) : addr → nat → Prop :=
| tree_root : predecessor (vtx st s) = None → tree_path st s s 0
| tree_step u v n w :
    tree_path st s u n → predecessor (vtx st v) = Some u → edge st u v w →
    tree_path st s v (S n).

(** The value [initialize_single_source] gives a vertex. *)
Definition initial (s x : addr) : Z := if decide (x = s) then 0%Z else sys_maxsize.

(** [d] is the least of [initial s x + w] over the walks of weight [w] from
    any stored vertex [x] to [v]. *)
Definition least_estimate st (s v : addr) (d : Z) : Prop :=
  (∃ x p w, walk st x p v w ∧ d = (initial s x + w)%Z) ∧
  (∀ x p w, walk st x p v w → (d ≤ initial s x + w)%Z).

(** A source [0] without edges, and two other vertices on a cycle of
    weight [-2]. *)
Definition far_cycle : state Z :=
  script [add_vertex 0%Z; add_edge (Args3 1 2 (-1))%Z; add_edge (Args3 2 1 (-1))%Z]
         (Graph true).

(** The state a relaxation of the edge from [u] to [v] leaves when it
    lowers the estimate of [v] to [d]. *)
Definition lowered (s u v : addr) (d : Z) st : state key :=
  set_heap (alter (λ x, mkVertex (id x) (connected_to x) (dict_set s d (dist x))
                                 (color x) (Some u)) v) st.

(** The state [bfs] leaves when it discovers [v] from [u] at distance [d]. *)
Definition discovered (s u v : addr) (d : Z) st : state key :=
  set_heap (alter (λ x, mkVertex (id x) (connected_to x) (dict_set s d (dist x))
                                 GRAY (Some u)) v) st.
End walks.

(** ** Estimates of the shortest-path algorithms *)
Section estimates.
Context {key : Type} `{!EqDecision key} `{!Inhabited key}.
Implicit Types (st : state key).

(** [dist[source]] of [v] as a number. *)
Definition estimate st (s v : addr) : Z := default 0%Z (dist_from st s v).

(** What relaxations keep, [st0] being the graph the run started from:
    the skeleton, and an estimate for every stored vertex that is at most
    its initial value and is the value of some walk. *)
Record sssp_inv (st0 : state key) (s : addr) st : Prop := {
  si_skeleton : skeleton st = skeleton st0;
  si_defined : ∀ v, v ∈ stored st0 → dist_from st s v = Some (estimate st s v);
  si_initial : ∀ v, v ∈ stored st0 → (estimate st s v ≤ initial s v)%Z;
  si_walk : ∀ v, v ∈ stored st0 →
            ∃ x p w, walk st0 x p v w ∧ estimate st s v = (initial s x + w)%Z;
}.

(** The estimates are below the values of all walks of at most [k] edges. *)
Definition upper (st0 : state key) (s : addr) (k : nat) st : Prop :=
  ∀ x p v w, walk st0 x p v w → length p ≤ k →
             (estimate st s v ≤ initial s x + w)%Z.

(** One pass of [bellman_ford] over a list of edges, and its final scan. *)
Definition relax_all (s : addr) (edges : list (addr * addr * Z)) : M key unit :=
  for_each edges (λ edge, relax s edge.1.1 edge.1.2 edge.2).

Definition scan (s : addr) (edges : list (addr * addr * Z)) : M key unit :=
  for_each edges (λ edge,
    let* d1 := get_dist edge.1.2 s in
    let* d0 := get_dist edge.1.1 s in
    if decide (d1 > d0 + edge.2)%Z then raise NegativeWeightCycle else ret ()).

Definition relaxable st (s : addr) (e : addr * addr * Z) : Prop :=
  (estimate st s e.1.2 > estimate st s e.1.1 + e.2)%Z.

#[global] Instance relaxable_dec st s e : Decision (relaxable st s e).
Proof. unfold relaxable. apply _. Defined.
End estimates.

(** ** The loop of Dijkstra's algorithm *)
Section dijkstra_notions.
Context {key : Type} `{!EqDecision key} `{!Inhabited key}.
Implicit Types (st : state key).

(** What holds whenever the loop tests its queue: [done] are the vertices
    popped so far. *)
Record dijkstra_inv (P : MutablePriorityQueue) (st0 : state key) (s : addr)
    (done : list addr) (q : pq P) st : Prop := {
  di_sssp : sssp_inv st0 s st;
  di_done : NoDup done ∧ ∀ u, u ∈ done → u ∈ stored st0;
  di_tasks : ∀ v, tasks P q !! v =
                  if decide (v ∈ stored st0 ∧ v ∉ done)
                  then Some (estimate st s v) else None;
  di_order : ∀ u x, u ∈ done → x ∈ stored st0 → x ∉ done →
                    (estimate st s u ≤ estimate st s x)%Z;
  di_settled : ∀ u v w, u ∈ done → edge st0 u v w →
                        (estimate st s v ≤ estimate st s u + w)%Z;
}.

(** What holds while the neighbours of the vertex [u] are relaxed; [u] is
    the head of [done]. *)
Record scan_inv (P : MutablePriorityQueue) (st0 : state key) (s u : addr)
    (done : list addr) (q : pq P) st : Prop := {
  sc_sssp : sssp_inv st0 s st;
  sc_tasks : ∀ v, tasks P q !! v =
                  if decide (v ∈ stored st0 ∧ v ∉ done)
                  then Some (estimate st s v) else None;
  sc_order : ∀ a x, a ∈ done → x ∈ stored st0 → x ∉ done →
                    (estimate st s a ≤ estimate st s x)%Z;
  sc_last : ∀ a, a ∈ done → (estimate st s a ≤ estimate st s u)%Z;
  sc_settled : ∀ a v w, a ∈ done → a ≠ u → edge st0 a v w →
                        (estimate st s v ≤ estimate st s a + w)%Z;
}.

(** The loop over the neighbours of the popped vertex [u]. *)
Definition dijkstra_scan (P : MutablePriorityQueue) (s u : addr) (vs : list addr)
    (q : pq P) : M key (pq P) :=
  for_fold vs q (λ v q,
    let* w := get_weight u v in
    relax_with_priority_update P s u v w q).

(** The loop that loads the queue. *)
Definition dijkstra_load (P : MutablePriorityQueue) (s : addr) (v_keys : list key)
    (q : pq P) : M key (pq P) :=
  for_fold v_keys q (λ v_key q,
    let* v := get_vertex v_key in
    let* dv := get_dist v s in
    ret (add_task P q v dv)).
End dijkstra_notions.

(** ** The loop of breadth-first search *)
Section bfs_notions.
Context {key : Type} `{!EqDecision key} `{!Inhabited key}.
Implicit Types (st : state key).

(** What holds of the vertices [vis] discovered so far, [st0] being the
    graph the search started from. *)
Record bfs_inv (st0 : state key) (s : addr) (vis : list addr) st : Prop := {
  bi_skeleton : skeleton st = skeleton st0;
  bi_nodup : NoDup vis;
  bi_stored : ∀ x, x ∈ vis → x ∈ stored st0;
  bi_defined : ∀ x, x ∈ stored st0 → dist_from st s x = Some (estimate st s x);
  bi_white : ∀ x, x ∈ stored st0 → color (vtx st x) = WHITE ↔ x ∉ vis;
  bi_unseen : ∀ x, x ∈ stored st0 → x ∉ vis →
              estimate st s x = sys_maxsize ∧ predecessor (vtx st x) = None;
  bi_source : s ∈ vis ∧ estimate st s s = 0%Z ∧ predecessor (vtx st s) = None;
  bi_tree : ∀ x, x ∈ vis → x ≠ s →
            ∃ u w, predecessor (vtx st x) = Some u ∧ edge st0 u x w ∧ u ∈ vis ∧
                   estimate st s x = (estimate st s u + 1)%Z;
  bi_nonneg : ∀ x, x ∈ vis → (0 ≤ estimate st s x)%Z;
}.

(** The levels: [B] are the vertices scanned, [cur] the one being
    scanned, if any, [q] the queue; [k] is the distance of [cur]. *)
Record bfs_levels (st0 : state key) (s : addr) (B cur q : list addr) (k : Z) st
  : Prop := {
  bl_black : ∀ x, x ∈ B → (estimate st s x ≤ k)%Z;
  bl_cur : ∀ x, x ∈ cur → estimate st s x = k;
  bl_queue : ∃ q1 q2, q = q1 ++ q2 ∧ (∀ x, x ∈ q1 → estimate st s x = k) ∧
                      (∀ x, x ∈ q2 → estimate st s x = (k + 1)%Z);
  bl_closed : ∀ u v w, u ∈ B → edge st0 u v w →
              v ∈ B ++ cur ++ q ∧ (estimate st s v ≤ estimate st s u + 1)%Z;
}.
End bfs_notions.

(** ** A graph on which the two shortest-path algorithms part *)

(** The edges 0 -> 1 -> 2 are entered and [dijkstra] is run from [0], which
    leaves [dist[source] = 10] on the vertex of key [1]; then the weight of
    0 -> 1 is lowered to [3] and key [1] is added again, so that the vertex
    object at address [1] is no longer stored but is still what the vertex of
    key [0] is connected to. *)
Definition detour : state Z :=
  script [add_edge (Args3 0 1 10)%Z; add_edge (Args3 1 2 1)%Z;
          dijkstra gmap_pq 3 0%Z;
          add_edge (Args3 0 1 3)%Z; add_vertex 1%Z]
         (Graph true).

(** The distances the description gives for the sample graph. *)
Definition described_distances : list (Z * option Z) :=
  [(0, Some 0); (1, Some 5); (2, Some 3); (3, Some 5); (4, Some 8); (5, Some 2)]%Z.

(** ** Reconstructed paths *)
Section trails.
Context {key : Type} `{!EqDecision key} `{!Inhabited key}.
Implicit Types (st : state key).

(** [trail st s l d]: following [predecessor] from [d] meets [s]; [l] lists
    the vertices after [s] up to and including [d], in the order from [s]
    to [d]. *)
Inductive trail st (s : addr) : list addr → addr → Prop :=
| trail_here : trail st s [] s
| trail_link l p d :
    trail st s l p → predecessor (vtx st d) = Some p → d ≠ s →
    trail st s (l ++ [d]) d.

(** What [print(x.get_id(), end=" ")] writes for the vertices [l], one
    after the other. *)
Definition ids st (l : list addr) : list (output key) :=
  (λ x, PrintId (id (vtx st x))) <$> l.
End trails.

(** ** The keys of a graph *)
Section key_order.
Context {key : Type} `{!EqDecision key} `{!Inhabited key}.

(** The keys a call hands to [add_vertex], directly or behind the
    [not in] tests of [add_edge], in the order of the tests.  [add_edges]
    raises before it adds anything. *)
Definition mentioned (c : call key) : list key :=
  match c with
  | Call_add_vertex k => [k]
  | Call_add_edge (Args2 k1 k2) | Call_add_edge (Args3 k1 k2 _) => [k1; k2]
  | _ => []
  end.

(** A key that is new goes to the end; one that was seen stays where it
    is. *)
Definition see (seen : list key) (k : key) : list key :=
  if decide (k ∈ seen) then seen else seen ++ [k].
End key_order.

(** ** Depth-first search *)
Section dfs_notions.
Context {key : Type} `{!EqDecision key} `{!Inhabited key}.
Implicit Types (st : state key).

(** The vertices stored in [st0] that are WHITE in [st]. *)
Definition whites (st0 st : state key) : list addr :=
  filter (λ x, color (vtx st x) = WHITE) (stored st0).

(** What a part of the search that goes from [st] to [st'] and visits the
    vertices [new], in this order, does: they were WHITE and are BLACK,
    their ids were printed, and every other vertex is as it was. *)
Record dfs_step (st0 : state key) (new : list addr) st st' : Prop := {
  dv_skeleton : skeleton st' = skeleton st;
  dv_nodup : NoDup new;
  dv_white : ∀ x, x ∈ new → x ∈ stored st0 ∧ color (vtx st x) = WHITE;
  dv_black : ∀ x, x ∈ new → color (vtx st' x) = BLACK;
  dv_other : ∀ x, x ∉ new → vtx st' x = vtx st x;
  dv_dist : ∀ x, dist (vtx st' x) = dist (vtx st x);
  dv_out : stdout st' = stdout st ++ ids st0 new;
}.

(** The predecessor of every vertex of [new] is a vertex of [ext] or of
    [new] that has an edge to it. *)
Definition dfs_parents (st0 : state key) (ext new : list addr) st : Prop :=
  ∀ x, x ∈ new →
    ∃ p w, p ∈ ext ++ new ∧ predecessor (vtx st x) = Some p ∧ edge st0 p x w.

(** The vertices of [done] have no predecessor or one among [done] that
    has an edge to them. *)
Definition dfs_forest (st0 : state key) (done : list addr) st : Prop :=
  ∀ x, x ∈ done →
    predecessor (vtx st x) = None ∨
    ∃ p w, p ∈ done ∧ predecessor (vtx st x) = Some p ∧ edge st0 p x w.

(** What the first loop of [dfs] makes of a stored vertex. *)
Definition dfs_reset (x : Vertex key) : Vertex key :=
  mkVertex (id x) (connected_to x) (dist x) WHITE None.
End dfs_notions.

(** ** Distances from other sources *)
Section other_sources.
Context {key : Type} `{!EqDecision key} `{!Inhabited key}.

(** [dists_but s st st']: every [dist] entry is in [st'] as it is in [st],
    but for the entries for the source [s], if one is given. *)
Definition dists_but (s : option addr) : relation (state key) :=
  λ st st', ∀ v s', s ≠ Some s' → dist_from st' s' v = dist_from st s' v.
End other_sources.

(** ** The predecessors of the shortest-path algorithms *)
Section tree_notions.
Context {key : Type} `{!EqDecision key} `{!Inhabited key}.
Implicit Types (st : state key).

(** What relaxations keep of the predecessors, in a graph [st0] without
    negative cycles: a vertex has a predecessor exactly if its estimate was
    lowered, the predecessor has an edge to it along which the estimate
    cannot be lowered further than it is, and following the predecessors
    from any vertex ends. *)
Record tree_inv (st0 : state key) (s : addr) st : Prop := {
  ti_sssp : sssp_inv st0 s st;
  ti_pred : ∀ v p, v ∈ stored st0 → predecessor (vtx st v) = Some p →
            (estimate st s v < initial s v)%Z ∧
            ∃ w, edge st0 p v w ∧ (estimate st s p + w ≤ estimate st s v)%Z;
  ti_none : ∀ v, v ∈ stored st0 → predecessor (vtx st v) = None →
            estimate st s v = initial s v;
  ti_rooted : ∀ v, v ∈ stored st0 → ∃ r l, chain st r l v;
}.
End tree_notions.

(** ** Checking the weights of a concrete graph *)
Section weight_checks.
Context {key : Type} `{!EqDecision key} `{!Inhabited key}.

Definition boundedb (W : Z) (st : state key) : bool :=
  forallb (λ u, forallb (λ e : addr * Z, bool_decide (Z.abs e.2 ≤ W)%Z)
                        (connected_to (vtx st u)))
          (stored st).
End weight_checks.

(** ** Vertex objects *)
Section objects.
Context {key : Type} `{!EqDecision key} `{!Inhabited key}.
Implicit Types (st : state key).

(** Every vertex object was made by [add_vertex], which counted it, and
    what a vertex object is connected to are vertex objects, stored or
    not. *)
Definition objects_inv st : Prop :=
  Z.of_nat (length (heap st)) = num_vertices st ∧
  ∀ a x, x ∈ (connected_to (vtx st a)).*1 → x < length (heap st).

(** What holds of the vertex objects [B] that [bfs] has taken from its
    queue and of the queue [q], whatever the graph: they are different
    objects, none of them WHITE, and those in the queue have a distance. *)
Record bfs_live (st0 : state key) (s : addr) (B q : list addr) st : Prop := {
  lv_skeleton : skeleton st = skeleton st0;
  lv_nodup : NoDup (B ++ q);
  lv_valid : ∀ x, x ∈ B ++ q → x < length (heap st0);
  lv_seen : ∀ x, x ∈ B ++ q → color (vtx st x) ≠ WHITE;
  lv_dist : ∀ x, x ∈ q → dist_from st s x = Some (estimate st s x);
}.
End objects.

(** ** A second run on a graph with replaced vertex objects *)
Section second_runs.
Context {key : Type} `{!EqDecision key} `{!Inhabited key}.

(** [st'] comes later than [st] in a search from [source] that only
    relaxes: the graph and the output are the same, no colour has changed,
    and a vertex object either is as it was or has a smaller
    [dist[source]] in place of the one it had. *)
Definition lower (source : addr) : relation (state key) :=
  λ st st',
    skeleton st' = skeleton st ∧ stdout st' = stdout st ∧
    ∀ a, color (vtx st' a) = color (vtx st a) ∧
         match dist_from st source a with
         | Some d => ∃ d', (d' ≤ d)%Z ∧
                           dist (vtx st' a) = dict_set source d' (dist (vtx st a))
         | None => vtx st' a = vtx st a
         end.

(** [Y] is the state of the second run at the point where the first run
    was in [X]: the stored vertices [V] are as in [X], every other vertex
    object is as the first run left it in the end, in [F]. *)
Definition couple (V : list addr) (F : state key) : relation (state key) :=
  λ X Y, skeleton Y = skeleton X ∧ stdout Y = stdout X ∧ stored X = V ∧
         ∀ a, vtx Y a = if decide (a ∈ V) then vtx X a else vtx F a.

(** [m] does in the second run what it did in the first. *)
Definition coupled (source : addr) (V : list addr) {A} (m : M key A) : Prop :=
  ∀ F X Y, lower source (after m X) F → couple V F X Y →
           (m Y).1 = (m X).1 ∧ couple V F (after m X) (after m Y).
End second_runs.

(** A path of three vertices, 0 -> 1 -> 2. *)
Definition path3 : state Z :=
  script [add_edge (Args2 0 1)%Z; add_edge (Args2 1 2)%Z] (Graph true).

(** * Properties *)

(** ** Dictionaries *)
Section dict_facts.
Context {K V : Type} `{!EqDecision K}.
Implicit Types (d : list (K * V)).

Lemma dict_get_set_eq k v d : dict_get k (dict_set k v d) = Some v.
Proof.
  induction d as [|[k' v'] d IH]; simpl; repeat case_decide; simpl;
    repeat case_decide; congruence.
Qed.

Lemma dict_get_set_ne k k' v d : k ≠ k' → dict_get k' (dict_set k v d) = dict_get k' d.
Proof.
  intros Hne. induction d as [|[k0 v0] d IH]; simpl; repeat case_decide; simpl;
    repeat case_decide; congruence.
Qed.

Lemma dict_set_set k v v' d : dict_set k v (dict_set k v' d) = dict_set k v d.
Proof.
  induction d as [|[k0 v0] d IH]; simpl; repeat case_decide; simpl;
    repeat case_decide; congruence.
Qed.

Lemma dict_get_Some k v d : dict_get k d = Some v → (k, v) ∈ d.
Proof.
  induction d as [|[k0 v0] d IH]; simpl; [done|].
  case_decide; intros; simplify_eq; [left | right; auto].
Qed.

Lemma dict_get_None k d : dict_get k d = None ↔ k ∉ d.*1.
Proof.
  induction d as [|[k0 v0] d IH]; simpl.
  - split; [intros _; apply not_elem_of_nil | done].
  - rewrite not_elem_of_cons. case_decide; subst; split; try done; try tauto.
Qed.

Lemma dict_get_is_Some k d : is_Some (dict_get k d) ↔ k ∈ d.*1.
Proof.
  rewrite <-not_eq_None_Some, dict_get_None.
  destruct (decide (k ∈ d.*1)); tauto.
Qed.

Lemma dict_get_NoDup k v d : NoDup d.*1 → (k, v) ∈ d → dict_get k d = Some v.
Proof.
  induction d as [|[k0 v0] d IH]; simpl; intros Hnd Hin.
  - by apply elem_of_nil in Hin.
  - apply NoDup_cons in Hnd as [Hk0 Hnd]. apply elem_of_cons in Hin as [Heq|Hin].
    + simplify_eq. by rewrite decide_True.
    + case_decide; [|by auto]. subst. destruct Hk0.
      apply list_elem_of_fmap. by exists (k0, v).
Qed.

Lemma dict_set_keys_present k v d : k ∈ d.*1 → (dict_set k v d).*1 = d.*1.
Proof.
  induction d as [|[k0 v0] d IH]; simpl; intros Hin.
  - by apply elem_of_nil in Hin.
  - case_decide; [done|]. simpl. f_equal. apply IH.
    apply elem_of_cons in Hin as [?|?]; [congruence|done].
Qed.

Lemma dict_set_keys_absent k v d : k ∉ d.*1 → (dict_set k v d).*1 = d.*1 ++ [k].
Proof.
  induction d as [|[k0 v0] d IH]; simpl; intros Hin; [done|].
  apply not_elem_of_cons in Hin as [? ?]. rewrite decide_False by done.
  simpl. f_equal. by apply IH.
Qed.

Lemma dict_set_absent k v d : k ∉ d.*1 → dict_set k v d = d ++ [(k, v)].
Proof.
  induction d as [|[k0 v0] d IH]; simpl; intros Hin; [done|].
  apply not_elem_of_cons in Hin as [? ?]. rewrite decide_False by done.
  f_equal. by apply IH.
Qed.

Lemma dict_set_length_present k v d : k ∈ d.*1 → length (dict_set k v d) = length d.
Proof.
  intros Hin. rewrite <-(length_fmap fst), dict_set_keys_present by done.
  by rewrite length_fmap.
Qed.

Lemma dict_set_NoDup k v d : NoDup d.*1 → NoDup (dict_set k v d).*1.
Proof.
  intros Hnd. destruct (decide (k ∈ d.*1)).
  - by rewrite dict_set_keys_present.
  - rewrite dict_set_keys_absent by done. apply NoDup_app. split_and!; [done| |].
    + intros x Hx ->%list_elem_of_singleton. done.
    + apply NoDup_singleton.
Qed.

Lemma dict_mem_true k d : dict_mem k d = true ↔ k ∈ d.*1.
Proof. unfold dict_mem. rewrite bool_decide_eq_true. apply dict_get_is_Some. Qed.

Lemma dict_mem_false k d : dict_mem k d = false ↔ k ∉ d.*1.
Proof. unfold dict_mem. rewrite bool_decide_eq_false. by rewrite dict_get_is_Some. Qed.
End dict_facts.

(** ** The object store *)
Section store_facts.
Context {key : Type} `{!EqDecision key} `{!Inhabited key}.
Implicit Types (st : state key) (f : Vertex key → Vertex key).

Lemma vtx_alter_eq a f st :
  a < length (heap st) → vtx (set_heap (alter f a) st) a = f (vtx st a).
Proof.
  intros Hlt. unfold vtx; simpl.
  by rewrite list_lookup_total_alter_eq.
Qed.

Lemma vtx_alter_ne a b f st : a ≠ b → vtx (set_heap (alter f a) st) b = vtx st b.
Proof. intros Hne. unfold vtx; simpl. by rewrite list_lookup_total_alter_ne. Qed.

Lemma vtx_alter a b f st :
  vtx (set_heap (alter f a) st) b =
  if decide (a = b ∧ a < length (heap st)) then f (vtx st b) else vtx st b.
Proof.
  case_decide as Hc.
  - destruct Hc as [-> ?]. by apply vtx_alter_eq.
  - destruct (decide (a = b)) as [->|]; [|by apply vtx_alter_ne].
    unfold vtx; simpl. rewrite !list_lookup_total_alt.
    rewrite list_lookup_alter_eq.
    rewrite (lookup_ge_None_2 (heap st) b); [done|lia].
Qed.

Lemma skeleton_alter a f st :
  (∀ x, id (f x) = id x ∧ connected_to (f x) = connected_to x) →
  skeleton (set_heap (alter f a) st) = skeleton st.
Proof.
  intros Hf. unfold skeleton; simpl. f_equal.
  apply list_eq; intros i. rewrite !list_lookup_fmap.
  destruct (decide (a = i)) as [->|].
  - rewrite list_lookup_alter_eq. destruct (heap st !! i) as [x|]; simpl; [|done].
    by destruct (Hf x) as [-> ->].
  - by rewrite list_lookup_alter_ne.
Qed.

Lemma skeleton_vertices st st' : skeleton st' = skeleton st → vertices st' = vertices st.
Proof. unfold skeleton. congruence. Qed.
Lemma skeleton_stored st st' : skeleton st' = skeleton st → stored st' = stored st.
Proof. unfold stored. by intros ->%skeleton_vertices. Qed.
Lemma skeleton_num_vertices st st' :
  skeleton st' = skeleton st → num_vertices st' = num_vertices st.
Proof. unfold skeleton. congruence. Qed.
Lemma skeleton_directed st st' : skeleton st' = skeleton st → directed st' = directed st.
Proof. unfold skeleton. congruence. Qed.
Lemma skeleton_length st st' :
  skeleton st' = skeleton st → length (heap st') = length (heap st).
Proof.
  unfold skeleton. intros Heq.
  assert (Hl : (λ x : Vertex key, (id x, connected_to x)) <$> heap st'
               = (λ x, (id x, connected_to x)) <$> heap st) by congruence.
  apply (f_equal length) in Hl. by rewrite !length_fmap in Hl.
Qed.
Lemma skeleton_vtx st st' a :
  skeleton st' = skeleton st →
  id (vtx st' a) = id (vtx st a) ∧ connected_to (vtx st' a) = connected_to (vtx st a).
Proof.
  unfold skeleton. intros Heq.
  assert (Hl : (λ x : Vertex key, (id x, connected_to x)) <$> heap st'
               = (λ x, (id x, connected_to x)) <$> heap st) by congruence.
  apply (f_equal (λ l, l !! a)) in Hl. rewrite !list_lookup_fmap in Hl.
  unfold vtx. rewrite !list_lookup_total_alt.
  destruct (heap st' !! a), (heap st !! a); simpl in *; simplify_eq; done.
Qed.
Lemma skeleton_connected_to st st' a :
  skeleton st' = skeleton st → connected_to (vtx st' a) = connected_to (vtx st a).
Proof. intros Hs. by destruct (skeleton_vtx _ _ a Hs). Qed.
Lemma skeleton_edge st st' u v w : skeleton st' = skeleton st → edge st' u v w ↔ edge st u v w.
Proof.
  intros Hs. unfold edge.
  by rewrite (skeleton_stored _ _ Hs), (skeleton_connected_to _ _ u Hs).
Qed.
Lemma skeleton_closed st st' : skeleton st' = skeleton st → closed st → closed st'.
Proof.
  intros Hs Hc u v w He. rewrite (skeleton_stored _ _ Hs).
  apply (Hc u v w). by apply (skeleton_edge _ _ _ _ _ Hs).
Qed.
Lemma skeleton_graph_inv st st' : skeleton st' = skeleton st → graph_inv st → graph_inv st'.
Proof.
  intros Hs [H1 H2 H3 H4 H5 H6]. split.
  - by rewrite (skeleton_vertices _ _ Hs).
  - by rewrite (skeleton_stored _ _ Hs).
  - rewrite (skeleton_stored _ _ Hs), (skeleton_length _ _ Hs). done.
  - intros k a. rewrite (skeleton_vertices _ _ Hs).
    destruct (skeleton_vtx _ _ a Hs) as [-> _]. auto.
  - intros a. by rewrite (skeleton_connected_to _ _ a Hs).
  - by rewrite (skeleton_vertices _ _ Hs), (skeleton_num_vertices _ _ Hs).
Qed.
End store_facts.

(** ** Rules for [wp] and [stable] *)
Section rules.
Context {key : Type} `{!EqDecision key} `{!Inhabited key}.
Implicit Types (st : state key).

Lemma wp_ret {A} (a : A) (Q : result A → state key → Prop) st :
  Q (Ok a) st → wp (ret a) Q st.
Proof. done. Qed.

Lemma wp_raise {A} f (Q : result A → state key → Prop) st :
  Q (Fail f) st → wp (raise f) Q st.
Proof. done. Qed.

Lemma wp_gets {A} (g : state key → A) (Q : result A → state key → Prop) st :
  Q (Ok (g st)) st → wp (gets g) Q st.
Proof. done. Qed.

Lemma wp_modify g (Q : result unit → state key → Prop) st :
  Q (Ok ()) (g st) → wp (modify g) Q st.
Proof. done. Qed.

Lemma wp_bind {A B} (m : M key A) (k : A → M key B) Q st :
  wp m (λ r st', match r with
                 | Ok a => wp (k a) Q st'
                 | Fail f => Q (Fail f) st'
                 end) st →
  wp (bind m k) Q st.
Proof. unfold wp, bind. by destruct (m st) as [[a|f] st']. Qed.

Lemma wp_mono {A} (m : M key A) (Q Q' : result A → state key → Prop) st :
  wp m Q st → (∀ r st', Q r st' → Q' r st') → wp m Q' st.
Proof. unfold wp. auto. Qed.

Lemma wp_for_fold {A B} (I : list A → B → state key → Prop) (l : list A)
    (body : A → B → M key B) (Q : result B → state key → Prop) acc st :
  I [] acc st →
  (∀ done x rest acc st, l = done ++ x :: rest → I done acc st →
     wp (body x acc) (λ r st', match r with
                               | Ok acc' => I (done ++ [x]) acc' st'
                               | Fail f => Q (Fail f) st'
                               end) st) →
  (∀ acc st, I l acc st → Q (Ok acc) st) →
  wp (for_fold l acc body) Q st.
Proof.
  intros Hinit Hbody Hexit.
  assert (Hgen : ∀ rest done acc st, l = done ++ rest → I done acc st →
                   wp (for_fold rest acc body) Q st).
  { induction rest as [|x rest IH]; intros done acc0 st0 Hl HI; simpl.
    - rewrite app_nil_r in Hl; subst. by apply Hexit.
    - apply wp_bind. eapply wp_mono; [by eapply Hbody|].
      intros [acc'|f] st'; [|done]. apply IH.
      by rewrite <-app_assoc. }
  by apply (Hgen l []).
Qed.

Lemma wp_for_each {A} (I : list A → state key → Prop) (l : list A)
    (body : A → M key unit) (Q : result unit → state key → Prop) st :
  I [] st →
  (∀ done x rest st, l = done ++ x :: rest → I done st →
     wp (body x) (λ r st', match r with
                           | Ok _ => I (done ++ [x]) st'
                           | Fail f => Q (Fail f) st'
                           end) st) →
  (∀ st, I l st → Q (Ok ()) st) →
  wp (for_each l body) Q st.
Proof.
  intros Hinit Hbody Hexit.
  assert (Hgen : ∀ rest done st, l = done ++ rest → I done st →
                   wp (for_each rest body) Q st).
  { induction rest as [|x rest IH]; intros done st0 Hl HI; simpl.
    - rewrite app_nil_r in Hl; subst. by apply Hexit.
    - apply wp_bind. eapply wp_mono; [by eapply Hbody|].
      intros [[]|f] st'; [|done]. apply IH.
      by rewrite <-app_assoc. }
  by apply (Hgen l []).
Qed.

Section stable_rules.
Context (R : relation (state key)) `{!PreOrder R}.

Lemma stable_ret {A} (a : A) : stable R (ret a).
Proof. intros st. reflexivity. Qed.
Lemma stable_raise {A} f : stable R (raise (A:=A) f).
Proof. intros st. reflexivity. Qed.
Lemma stable_gets {A} (g : state key → A) : stable R (gets g).
Proof. intros st. reflexivity. Qed.
Lemma stable_bind {A B} (m : M key A) (k : A → M key B) :
  stable R m → (∀ a, stable R (k a)) → stable R (bind m k).
Proof.
  intros Hm Hk st. specialize (Hm st). unfold after, bind in *.
  destruct (m st) as [[a|f] st']; simpl in *; [|done].
  etrans; [exact Hm|]. apply Hk.
Qed.
Lemma stable_for_each {A} (l : list A) (body : A → M key unit) :
  (∀ x, stable R (body x)) → stable R (for_each l body).
Proof.
  intros Hb. induction l as [|x l IH]; simpl.
  - apply stable_ret.
  - apply stable_bind; auto.
Qed.
Lemma stable_for_fold {A B} (l : list A) (body : A → B → M key B) acc :
  (∀ x acc, stable R (body x acc)) → stable R (for_fold l acc body).
Proof.
  intros Hb. revert acc. induction l as [|x l IH]; intros acc; simpl.
  - apply stable_ret.
  - apply stable_bind; auto.
Qed.
Lemma stable_get_dist v source : stable R (get_dist (key:=key) v source).
Proof. intros st. unfold after, get_dist. case_match; simpl; reflexivity. Qed.
Lemma stable_get_weight v u : stable R (get_weight (key:=key) v u).
Proof. intros st. unfold after, get_weight. case_match; simpl; reflexivity. Qed.
Lemma stable_get_vertex k : stable R (get_vertex (key:=key) k).
Proof. intros st. unfold after, get_vertex. case_match; simpl; reflexivity. Qed.
End stable_rules.
End rules.

(** ** What the algorithms leave alone *)
Section frame.
Context {key : Type} `{!EqDecision key} `{!Inhabited key}.
Implicit Types (st : state key).

#[global] Instance same_skeleton_preorder : PreOrder (same_skeleton (key:=key)).
Proof.
  split.
  - by intros st.
  - intros st1 st2 st3 H12 H23. unfold same_skeleton in *. congruence.
Qed.

Lemma update_same_skeleton a f :
  (∀ x : Vertex key, id (f x) = id x ∧ connected_to (f x) = connected_to x) →
  stable same_skeleton (update a f).
Proof. intros Hf st. by apply skeleton_alter. Qed.

Lemma set_color_same_skeleton a c : stable same_skeleton (set_color (key:=key) a c).
Proof. by apply update_same_skeleton. Qed.
Lemma set_predecessor_same_skeleton a p :
  stable same_skeleton (set_predecessor (key:=key) a p).
Proof. by apply update_same_skeleton. Qed.
Lemma set_dist_same_skeleton a s d : stable same_skeleton (set_dist (key:=key) a s d).
Proof. by apply update_same_skeleton. Qed.
Lemma print_same_skeleton o : stable same_skeleton (print (key:=key) o).
Proof. by intros st. Qed.
Lemma q_put_same_skeleton n q x : stable same_skeleton (q_put (key:=key) n q x).
Proof. unfold q_put. case_decide; [apply stable_raise | apply stable_ret]; apply _. Qed.

Ltac frame_step :=
  first
    [ apply stable_ret; apply _
    | apply stable_raise; apply _
    | apply stable_gets; apply _
    | apply stable_get_dist; apply _
    | apply stable_get_weight; apply _
    | apply stable_get_vertex; apply _
    | apply set_color_same_skeleton
    | apply set_predecessor_same_skeleton
    | apply set_dist_same_skeleton
    | apply print_same_skeleton
    | apply q_put_same_skeleton
    | apply stable_bind; [apply _| |intros ?]
    | apply stable_for_each; [apply _|intros ?]
    | apply stable_for_fold; [apply _|intros ? ?]
    | case_decide
    | case_match ].

Lemma get_edges_same_skeleton : stable same_skeleton (get_edges (key:=key)).
Proof. unfold get_edges, iter_graph, get_connections. repeat frame_step. Qed.

Lemma connected_same_skeleton k1 k2 : stable same_skeleton (connected (key:=key) k1 k2).
Proof. unfold connected, get_connections. repeat frame_step. Qed.

Lemma print_path_util_same_skeleton depth s d :
  stable same_skeleton (_print_path_util (key:=key) depth s d).
Proof.
  revert d. induction depth as [|depth IH]; intros d; simpl; unfold get_id.
  - repeat frame_step.
  - repeat first [apply IH | frame_step].
Qed.

Lemma print_path_same_skeleton depth k1 k2 :
  stable same_skeleton (print_path (key:=key) depth k1 k2).
Proof.
  unfold print_path. repeat first [apply print_path_util_same_skeleton | frame_step].
Qed.

Lemma bfs_while_same_skeleton fuel source n q :
  stable same_skeleton (bfs_while (key:=key) fuel source n q).
Proof.
  revert q. induction fuel as [|fuel IH]; intros [|u q]; simpl;
    unfold bfs_visit, get_connections; repeat first [apply IH | frame_step].
Qed.

Lemma bfs_same_skeleton k : stable same_skeleton (bfs (key:=key) k).
Proof.
  unfold bfs, iter_graph. repeat first [apply bfs_while_same_skeleton | frame_step].
Qed.

Lemma dfs_visit_same_skeleton depth u : stable same_skeleton (dfs_visit (key:=key) depth u).
Proof.
  revert u. induction depth as [|depth IH]; intros u; simpl;
    unfold get_id, get_connections; repeat first [apply IH | frame_step].
Qed.

Lemma dfs_same_skeleton depth : stable same_skeleton (dfs (key:=key) depth).
Proof.
  unfold dfs, iter_graph. repeat first [apply dfs_visit_same_skeleton | frame_step].
Qed.

Lemma initialize_single_source_same_skeleton s :
  stable same_skeleton (initialize_single_source (key:=key) s).
Proof. unfold initialize_single_source, iter_graph. repeat frame_step. Qed.

Lemma relax_same_skeleton s u v w : stable same_skeleton (relax (key:=key) s u v w).
Proof. unfold relax. repeat frame_step. Qed.

Lemma bellman_ford_passes_same_skeleton n k :
  stable same_skeleton (bellman_ford_passes (key:=key) n k).
Proof.
  unfold bellman_ford_passes.
  repeat first [ apply initialize_single_source_same_skeleton
               | apply get_edges_same_skeleton
               | apply relax_same_skeleton
               | frame_step ].
Qed.

Lemma bind_ext {A B} (m : M key A) (k1 k2 : A → M key B) st :
  (∀ a st', m st = (Ok a, st') → k1 a st' = k2 a st') →
  bind m k1 st = bind m k2 st.
Proof. intros Hk. unfold bind. destruct (m st) as [[a|f] st']; auto. Qed.

Lemma bellman_ford_passes_eq k st :
  bellman_ford k st = bellman_ford_passes (Z.to_nat (num_vertices st - 1)) k st.
Proof.
  unfold bellman_ford, bellman_ford_passes.
  apply bind_ext. intros source st1 Hg.
  assert (st1 = st) as ->.
  { unfold get_vertex in Hg. case_match; by simplify_eq. }
  apply bind_ext. intros [] st2 Hi.
  pose proof (initialize_single_source_same_skeleton source st) as Hs.
  unfold after in Hs. rewrite Hi in Hs. simpl in Hs.
  unfold bind at 1, gets at 1.
  by rewrite (skeleton_num_vertices _ _ Hs).
Qed.

Lemma bellman_ford_same_skeleton k : stable same_skeleton (bellman_ford (key:=key) k).
Proof.
  intros st. unfold after. rewrite bellman_ford_passes_eq.
  apply bellman_ford_passes_same_skeleton.
Qed.

Section dijkstra_frame.
Variable P : MutablePriorityQueue.

Lemma relax_with_priority_update_same_skeleton s u v w q :
  stable same_skeleton (relax_with_priority_update (key:=key) P s u v w q).
Proof. unfold relax_with_priority_update. repeat frame_step. Qed.

Lemma dijkstra_while_same_skeleton fuel s q :
  stable same_skeleton (dijkstra_while (key:=key) P fuel s q).
Proof.
  revert q. induction fuel as [|fuel IH]; intros q; simpl; unfold get_connections;
    repeat first [ apply IH | apply relax_with_priority_update_same_skeleton
                 | frame_step ].
Qed.

Lemma dijkstra_same_skeleton fuel k : stable same_skeleton (dijkstra (key:=key) P fuel k).
Proof.
  unfold dijkstra, get_vertices.
  repeat first [ apply initialize_single_source_same_skeleton
               | apply dijkstra_while_same_skeleton | frame_step ].
Qed.
End dijkstra_frame.

(** C8. A run of [bfs], [dfs], [dijkstra] or [bellman_ford], whether it
    returns or raises, leaves the vertex dictionary, the vertex counter,
    the [directed] flag and the identity, adjacency and edge weights of
    every vertex object as they were: only [color], [dist] and
    [predecessor] (and the printed output) can differ. *)
Theorem algorithms_keep_skeleton (P : MutablePriorityQueue) (st : state key) :
  (∀ k, skeleton (after (bfs k) st) = skeleton st) ∧
  (∀ depth, skeleton (after (dfs depth) st) = skeleton st) ∧
  (∀ fuel k, skeleton (after (dijkstra P fuel k) st) = skeleton st) ∧
  (∀ k, skeleton (after (bellman_ford k) st) = skeleton st).
Proof.
  split_and!; intros.
  - apply bfs_same_skeleton.
  - apply dfs_same_skeleton.
  - apply dijkstra_same_skeleton.
  - apply bellman_ford_same_skeleton.
Qed.
End frame.

(** ** Building a graph *)
Section construction.
Context {key : Type} `{!EqDecision key} `{!Inhabited key}.
Implicit Types (st : state key).

Lemma add_vertex_after k st :
  add_vertex k st =
  (Ok (), mkState (heap st ++ [mkVertex k [] [] WHITE None])
                  (dict_set k (length (heap st)) (vertices st))
                  (num_vertices st + 1) (directed st) (stdout st)).
Proof. done. Qed.

(** C6. [add_edges] passes each tuple to [add_edge] as a single positional
    argument, so the unpacking in [add_edge] fails on the first tuple: on a
    non-empty list the call raises and the graph is left as it was, where
    the documented behaviour adds the edges. *)
Theorem add_edges_raises :
  (∀ (st : state key) e es, add_edges (e :: es) st = (Fail NotEnoughValues, st)) ∧
  (∀ (st : state key), add_edges [] st = (Ok (), st)) ∧
  (add_edges [(1, 2, Some 3)]%Z (Graph true) = (Fail NotEnoughValues, Graph true) ∧
   (add_edges_as_documented [(1, 2, Some 3)]%Z (Graph true)).1 = Ok () ∧
   vertices (after (add_edges_as_documented [(1, 2, Some 3)]%Z) (Graph true))
     = [(1%Z, 0); (2%Z, 1)] ∧
   edges_of (after (add_edges_as_documented [(1, 2, Some 3)]%Z) (Graph true))
     = [(0, 1, 3%Z)]).
Proof. split_and!; done. Qed.

(** *** The counter *)
#[global] Instance same_gap_preorder : PreOrder (same_gap (key:=key)).
Proof.
  split; [by intros st|]. intros st1 st2 st3. unfold same_gap. congruence.
Qed.

Lemma same_skeleton_gap {A} (m : M key A) : stable same_skeleton m → stable same_gap m.
Proof.
  intros Hm st. specialize (Hm st). unfold same_gap, counter_gap.
  by rewrite (skeleton_vertices _ _ Hm), (skeleton_num_vertices _ _ Hm).
Qed.

Lemma add_vertex_gap k st :
  counter_gap (after (add_vertex k) st) =
  (counter_gap st + if dict_mem k (vertices st) then 1 else 0)%Z.
Proof.
  unfold after. rewrite add_vertex_after. unfold counter_gap; simpl.
  destruct (dict_mem k (vertices st)) eqn:Hm.
  - apply dict_mem_true in Hm. rewrite dict_set_length_present by done. lia.
  - apply dict_mem_false in Hm. rewrite dict_set_absent by done.
    rewrite length_app; simpl. lia.
Qed.

Lemma ensure_vertex_gap k :
  stable same_gap (let* present := gets (λ st : state key, dict_mem k (vertices st)) in
                   if present then ret () else add_vertex k).
Proof.
  intros st. unfold after, bind, gets; simpl.
  destruct (dict_mem k (vertices st)) eqn:Hm; [done|].
  pose proof (add_vertex_gap k st) as Hg. rewrite Hm in Hg.
  unfold same_gap, after in *. rewrite Hg. lia.
Qed.

Lemma add_neighbour_gap a b w : stable same_gap (add_neighbour (key:=key) a b w).
Proof. by intros st. Qed.

Lemma add_edge_gap e : stable same_gap (add_edge (key:=key) e).
Proof.
  unfold add_edge, unpack.
  destruct e as [k1 k2|k1 k2 w|e];
    repeat first
      [ apply ensure_vertex_gap
      | apply add_neighbour_gap
      | apply stable_ret; apply _
      | apply stable_raise; apply _
      | apply stable_gets; apply _
      | apply stable_get_vertex; apply _
      | apply stable_bind; [apply _| |intros ?]
      | case_match ].
Qed.

Lemma add_edges_gap es : stable same_gap (add_edges (key:=key) es).
Proof. apply stable_for_each; [apply _|]. intros e. apply add_edge_gap. Qed.

Section with_queue.
Variable P : MutablePriorityQueue.

Lemma exec_gap c st :
  counter_gap (after (exec P c) st) = (counter_gap st + Z.of_nat (repeated_key c st))%Z.
Proof.
  assert (Hs : ∀ m : M key unit, stable same_gap m →
                 counter_gap (after m st) = (counter_gap st + Z.of_nat 0)%Z).
  { intros m Hm. rewrite (Hm st). lia. }
  destruct c; simpl.
  - rewrite add_vertex_gap. by destruct (dict_mem _ _).
  - apply Hs, add_edge_gap.
  - apply Hs, add_edges_gap.
  - apply Hs, same_skeleton_gap, stable_bind; [apply _| |intros ?; apply stable_ret; apply _].
    apply get_edges_same_skeleton.
  - apply Hs, same_skeleton_gap, stable_bind; [apply _| |intros ?; apply stable_ret; apply _].
    apply connected_same_skeleton.
  - apply Hs, same_skeleton_gap, print_path_same_skeleton.
  - apply Hs, same_skeleton_gap, bfs_same_skeleton.
  - apply Hs, same_skeleton_gap, dfs_same_skeleton.
  - apply Hs, same_skeleton_gap, bellman_ford_same_skeleton.
  - apply Hs, same_skeleton_gap, dijkstra_same_skeleton.
Qed.

Lemma history_gap cs st :
  counter_gap (history P cs st) = (counter_gap st + Z.of_nat (repeated_keys P cs st))%Z.
Proof.
  revert st. induction cs as [|c cs IH]; intros st; simpl.
  - lia.
  - change (history P (c :: cs) st) with (history P cs (after (exec P c) st)).
    rewrite IH, exec_gap. lia.
Qed.
End with_queue.
End construction.

Section construction_invariants.
Context {key : Type} `{!EqDecision key} `{!Inhabited key}.
Implicit Types (st : state key).

Lemma elem_of_dict_set {K V} `{!EqDecision K} (k k' : K) (v v' : V) d :
  (k', v') ∈ dict_set k v d → (k' = k ∧ v' = v) ∨ (k', v') ∈ d.
Proof.
  induction d as [|[k0 v0] d IH]; simpl.
  - intros Heq%list_elem_of_singleton. simplify_eq. by left.
  - case_decide; subst; intros [Heq|Hin]%elem_of_cons.
    + left. by simplify_eq.
    + right. by right.
    + right. rewrite Heq. left.
    + destruct (IH Hin); [tauto|]. right. by right.
Qed.

Lemma dict_set_values_NoDup {K V} `{!EqDecision K} (k : K) (v : V) d :
  NoDup d.*2 → v ∉ d.*2 → NoDup (dict_set k v d).*2.
Proof.
  induction d as [|[k0 v0] d IH]; simpl; intros Hnd Hv.
  - apply NoDup_singleton.
  - apply NoDup_cons in Hnd as [Hv0 Hnd]. apply not_elem_of_cons in Hv as [Hne Hv].
    case_decide; simpl; apply NoDup_cons; split; auto.
    intros Hin. apply list_elem_of_fmap in Hin as ([k1 v1] & -> & Hin).
    apply elem_of_dict_set in Hin as [[_ ->]|Hin]; simpl in *; [done|].
    apply Hv0. apply list_elem_of_fmap. by exists (k1, v1).
Qed.

Lemma elem_of_dict_set_values {K V} `{!EqDecision K} (k : K) (v x : V) d :
  x ∈ (dict_set k v d).*2 → x = v ∨ x ∈ d.*2.
Proof.
  intros ([k1 v1] & -> & Hin)%list_elem_of_fmap.
  apply elem_of_dict_set in Hin as [[_ ->]|Hin]; [by left|right].
  apply list_elem_of_fmap. by exists (k1, v1).
Qed.

Lemma vtx_alloc st x vs n d o a :
  vtx (mkState (heap st ++ [x]) vs n d o) a =
  if decide (a < length (heap st)) then vtx st a
  else if decide (a = length (heap st)) then x else inhabitant.
Proof.
  unfold vtx; simpl. rewrite !list_lookup_total_alt.
  repeat case_decide.
  - by rewrite lookup_app_l.
  - subst. rewrite lookup_app_r by lia. by rewrite Nat.sub_diag.
  - rewrite lookup_ge_None_2; [done|]. rewrite length_app; simpl. lia.
Qed.

Lemma add_vertex_graph_inv k st : graph_inv st → graph_inv (after (add_vertex k) st).
Proof.
  intros [H1 H2 H3 H4 H5 H6]. unfold after. rewrite add_vertex_after; simpl.
  split; simpl.
  - by apply dict_set_NoDup.
  - unfold stored; simpl. apply dict_set_values_NoDup; [done|].
    intros Hin%H3. lia.
  - unfold stored; simpl. intros a [->|Hin%H3]%elem_of_dict_set_values;
      rewrite length_app; simpl; lia.
  - intros k' a Hin. rewrite vtx_alloc.
    apply elem_of_dict_set in Hin as [[-> ->]|Hin].
    + rewrite decide_False by lia. by rewrite decide_True.
    + rewrite decide_True; [by apply H4|]. apply H3.
      apply list_elem_of_fmap. by exists (k', a).
  - intros a. rewrite vtx_alloc. repeat case_decide; simpl; auto using NoDup_nil_2.
  - destruct (decide (k ∈ (vertices st).*1)).
    + rewrite dict_set_length_present by done. lia.
    + rewrite dict_set_absent by done. rewrite length_app; simpl. lia.
Qed.

Lemma link_graph_inv a b w st : graph_inv st → graph_inv (link a b w st).
Proof.
  intros [H1 H2 H3 H4 H5 H6]. unfold link. split; simpl; try done.
  - intros x Hx. rewrite length_alter. by apply H3.
  - intros k x Hin. rewrite vtx_alter. case_decide; simpl; by apply H4.
  - intros x. rewrite vtx_alter. case_decide; simpl; [|done].
    by apply dict_set_NoDup.
Qed.

#[global] Instance keeps_preorder (I : state key → Prop) : PreOrder (keeps I).
Proof.
  split; [intros st Hst; exact Hst|].
  intros st1 st2 st3 H12 H23 Hst. auto.
Qed.

Lemma add_vertex_keeps_inv k : stable (keeps graph_inv) (add_vertex (key:=key) k).
Proof. intros st Hst. by apply add_vertex_graph_inv. Qed.

Lemma add_neighbour_keeps_inv a b w : stable (keeps graph_inv) (add_neighbour (key:=key) a b w).
Proof. intros st Hst. by apply (link_graph_inv a b w). Qed.

Lemma add_edge_graph_inv e : stable (keeps graph_inv) (add_edge (key:=key) e).
Proof.
  unfold add_edge, unpack.
  destruct e as [k1 k2|k1 k2 w|e];
    repeat first
      [ apply stable_ret; apply _
      | apply stable_raise; apply _
      | apply stable_gets; apply _
      | apply stable_get_vertex; apply _
      | apply add_vertex_keeps_inv
      | apply add_neighbour_keeps_inv
      | apply stable_bind; [apply _| |intros ?]
      | case_match ].
Qed.

Lemma same_skeleton_keeps_inv {A} (m : M key A) :
  stable same_skeleton m → stable (keeps graph_inv) m.
Proof. intros Hm st Hst. eapply skeleton_graph_inv; [apply Hm|done]. Qed.

Lemma Graph_graph_inv d : graph_inv (Graph (key:=key) d).
Proof.
  split; simpl; try done; try apply NoDup_nil_2.
  - intros a Hin. by apply elem_of_nil in Hin.
  - intros k a Hin. by apply elem_of_nil in Hin.
  - intros a. unfold vtx; simpl. apply NoDup_nil_2.
Qed.

Lemma exec_graph_inv P c : stable (keeps graph_inv) (exec (key:=key) P c).
Proof.
  destruct c; simpl.
  - apply add_vertex_keeps_inv.
  - apply add_edge_graph_inv.
  - apply stable_for_each; [apply _|]. intros e. apply add_edge_graph_inv.
  - apply same_skeleton_keeps_inv, stable_bind;
      [apply _| |intros ?; apply stable_ret; apply _].
    apply get_edges_same_skeleton.
  - apply same_skeleton_keeps_inv, stable_bind;
      [apply _| |intros ?; apply stable_ret; apply _].
    apply connected_same_skeleton.
  - apply same_skeleton_keeps_inv, print_path_same_skeleton.
  - apply same_skeleton_keeps_inv, bfs_same_skeleton.
  - apply same_skeleton_keeps_inv, dfs_same_skeleton.
  - apply same_skeleton_keeps_inv, bellman_ford_same_skeleton.
  - apply same_skeleton_keeps_inv, dijkstra_same_skeleton.
Qed.

(** Every state a sequence of calls can produce satisfies [graph_inv]. *)
Lemma history_graph_inv P cs st : graph_inv st → graph_inv (history P cs st).
Proof.
  revert st. induction cs as [|c cs IH]; intros st Hst; [done|].
  change (history P (c :: cs) st) with (history P cs (after (exec P c) st)).
  apply IH. by apply exec_graph_inv.
Qed.
End construction_invariants.

(** ** Edges under construction *)
Section edges.
Context {key : Type} `{!EqDecision key} `{!Inhabited key}.
Implicit Types (st : state key).

Lemma elem_of_stored st a : a ∈ stored st ↔ ∃ k, (k, a) ∈ vertices st.
Proof.
  unfold stored. rewrite list_elem_of_fmap. split.
  - intros ([k a'] & -> & Hin). by exists k.
  - intros (k & Hin). by exists (k, a).
Qed.

Lemma get_vertex_stored k a st : dict_get k (vertices st) = Some a → a ∈ stored st.
Proof. intros Hg%dict_get_Some. apply elem_of_stored. by exists k. Qed.

Lemma ensure_present k st : k ∈ (vertices st).*1 → ensure k st = st.
Proof. intros Hin%dict_mem_true. unfold ensure. by rewrite Hin. Qed.

Lemma ensure_absent k st :
  k ∉ (vertices st).*1 →
  ensure k st = mkState (heap st ++ [mkVertex k [] [] WHITE None])
                        (vertices st ++ [(k, length (heap st))])
                        (num_vertices st + 1) (directed st) (stdout st).
Proof.
  intros Hin. unfold ensure. rewrite (proj2 (dict_mem_false _ _) Hin).
  unfold after. rewrite add_vertex_after; simpl. by rewrite dict_set_absent.
Qed.

Lemma ensure_keys k st : k ∈ (vertices (ensure k st)).*1.
Proof.
  destruct (decide (k ∈ (vertices st).*1)) as [Hin|Hin].
  - by rewrite ensure_present.
  - rewrite ensure_absent by done. simpl. rewrite fmap_app.
    apply elem_of_app. right. by apply list_elem_of_singleton.
Qed.

Lemma ensure_keys_mono k k' st :
  k' ∈ (vertices st).*1 → k' ∈ (vertices (ensure k st)).*1.
Proof.
  intros Hk'. destruct (decide (k ∈ (vertices st).*1)) as [Hin|Hin].
  - by rewrite ensure_present.
  - rewrite ensure_absent by done. simpl. rewrite fmap_app.
    apply elem_of_app. by left.
Qed.

Lemma ensure_directed k st : directed (ensure k st) = directed st.
Proof. unfold ensure. by case_match. Qed.

Lemma ensure_stored k st a : a ∈ stored st → a ∈ stored (ensure k st).
Proof.
  intros Ha. destruct (decide (k ∈ (vertices st).*1)) as [Hin|Hin].
  - by rewrite ensure_present.
  - rewrite ensure_absent by done. unfold stored in *; simpl.
    rewrite fmap_app. apply elem_of_app. by left.
Qed.

Lemma ensure_graph_inv k st : graph_inv st → graph_inv (ensure k st).
Proof. intros Hst. unfold ensure. case_match; [done|]. by apply add_vertex_graph_inv. Qed.

Lemma ensure_edge k st u v w :
  graph_inv st → edge (ensure k st) u v w ↔ edge st u v w.
Proof.
  intros Hinv. destruct (decide (k ∈ (vertices st).*1)) as [Hin|Hin].
  { by rewrite ensure_present. }
  rewrite ensure_absent by done. unfold edge, stored; simpl.
  rewrite vtx_alloc, fmap_app, elem_of_app; simpl.
  rewrite list_elem_of_singleton. split.
  - intros [[Hu| ->] Hg].
    + pose proof (inv_valid _ Hinv u Hu). by rewrite decide_True in Hg.
    + rewrite decide_False in Hg by lia. by rewrite decide_True in Hg.
  - intros [Hu Hg]. pose proof (inv_valid _ Hinv u Hu).
    rewrite decide_True by done. auto.
Qed.

Lemma link_stored a b w st : stored (link a b w st) = stored st.
Proof. done. Qed.

Lemma link_edge a b w st u v x :
  a < length (heap st) →
  edge (link a b w st) u v x ↔
  u ∈ stored st ∧ ((u = a ∧ v = b ∧ x = w) ∨
                   (¬ (u = a ∧ v = b) ∧ dict_get v (connected_to (vtx st u)) = Some x)).
Proof.
  intros Ha. unfold edge, link. rewrite vtx_alter. simpl.
  change (stored (set_heap _ st)) with (stored st).
  destruct (decide (a = u)) as [->|Hne].
  - rewrite decide_True by done. simpl.
    destruct (decide (b = v)) as [->|Hne].
    + rewrite dict_get_set_eq. split.
      * intros [? ?]. simplify_eq. auto.
      * intros [? [(_ & _ & ->)|[Hn _]]]; [done|]. by destruct Hn.
    + rewrite dict_get_set_ne by done. split.
      * intros [? ?]. split; [done|]. right. split; [|done]. intros [_ ?]. congruence.
      * intros [? [(_ & ? & _)|[_ ?]]]; [congruence|done].
  - rewrite decide_False by (intros [? ?]; congruence). split.
    + intros [? ?]. split; [done|]. right. split; [|done]. intros [? _]. congruence.
    + intros [? [(? & _ & _)|[_ ?]]]; [congruence|done].
Qed.

Lemma link_closed a b w st :
  graph_inv st → closed st → a ∈ stored st → b ∈ stored st → closed (link a b w st).
Proof.
  intros Hinv Hc Ha Hb u v x He. rewrite link_stored.
  apply link_edge in He; [|by apply (inv_valid _ Hinv)].
  destruct He as [Hu [(_ & -> & _)|[_ Hg]]]; [done|].
  by apply (Hc u v x).
Qed.

Lemma link_mirrored a b w st :
  graph_inv st → mirrored st → a ∈ stored st → b ∈ stored st →
  mirrored (link b a w (link a b w st)).
Proof.
  intros Hinv Hm Ha Hb u v x He.
  pose proof (inv_valid _ Hinv a Ha) as Hla.
  pose proof (inv_valid _ Hinv b Hb) as Hlb.
  assert (Hlb' : b < length (heap (link a b w st))).
  { unfold link; simpl. by rewrite length_alter. }
  assert (Hstep : ∀ u v x, edge (link b a w (link a b w st)) u v x ↔
            (u = b ∧ v = a ∧ x = w) ∨ (u = a ∧ v = b ∧ x = w) ∨
            (¬ (u = b ∧ v = a) ∧ ¬ (u = a ∧ v = b) ∧ edge st u v x)).
  { intros u' v' x'. rewrite link_edge by done. rewrite link_stored.
    split.
    - intros [Hu [?|[Hn Hg]]]; [by left|right].
      assert (He' : edge (link a b w st) u' v' x') by done.
      apply link_edge in He'; [|done].
      destruct He' as [_ [?|[? ?]]]; [by left|right]. done.
    - intros [(-> & -> & ->)|[(-> & -> & ->)|(Hn1 & Hn2 & [Hu Hg])]].
      + split; [done|]. by left.
      + split; [done|]. destruct (decide (a = b ∧ b = a)) as [[-> _]|Hn]; [by left|].
        right. split; [tauto|].
        assert (He' : edge (link a b w st) a b w).
        { apply link_edge; [done|]. split; [done|]. by left. }
        by destruct He'.
      + split; [done|]. right. split; [done|].
        assert (He' : edge (link a b w st) u' v' x').
        { apply link_edge; [done|]. split; [done|]. by right. }
        by destruct He'. }
  apply Hstep in He. apply Hstep.
  destruct He as [(-> & -> & ->)|[(-> & -> & ->)|(Hn1 & Hn2 & He)]]; [tauto|tauto|].
  right; right. split_and!; [tauto|tauto|]. by apply Hm.
Qed.

Lemma bind_run {A B} (m : M key A) (k : A → M key B) a st st' :
  m st = (Ok a, st') → bind m k st = k a st'.
Proof. intros Hm. unfold bind. by rewrite Hm. Qed.

Lemma bind_fail {A B} (m : M key A) (k : A → M key B) f st st' :
  m st = (Fail f, st') → bind m k st = (Fail f, st').
Proof. intros Hm. unfold bind. by rewrite Hm. Qed.

Lemma get_vertex_run k a st : dict_get k (vertices st) = Some a → get_vertex k st = (Ok a, st).
Proof. intros Hg. unfold get_vertex. by rewrite Hg. Qed.

Lemma ensure_run k st :
  (let* present := gets (λ st : state key, dict_mem k (vertices st)) in
   if present then ret () else add_vertex k) st = (Ok (), ensure k st).
Proof. unfold bind, gets, ensure; simpl. by destruct (dict_mem _ _). Qed.

Lemma add_edge_after e k1 k2 st :
  e = Args2 k1 k2 ∨ (∃ w, e = Args3 k1 k2 w) →
  ∃ a1 a2,
    dict_get k1 (vertices (ensure k2 (ensure k1 st))) = Some a1 ∧
    dict_get k2 (vertices (ensure k2 (ensure k1 st))) = Some a2 ∧
    add_edge e st =
      (Ok (),
       if directed st then link a1 a2 (weight_of e) (ensure k2 (ensure k1 st))
       else link a2 a1 (weight_of e)
              (link a1 a2 (weight_of e) (ensure k2 (ensure k1 st)))).
Proof.
  intros He.
  destruct (dict_get k1 (vertices (ensure k2 (ensure k1 st)))) as [a1|] eqn:H1; last first.
  { apply dict_get_None in H1. destruct H1. apply ensure_keys_mono, ensure_keys. }
  destruct (dict_get k2 (vertices (ensure k2 (ensure k1 st)))) as [a2|] eqn:H2; last first.
  { apply dict_get_None in H2. destruct H2. apply ensure_keys. }
  exists a1, a2. split_and!; [done..|].
  assert (Hd : directed (ensure k2 (ensure k1 st)) = directed st).
  { by rewrite !ensure_directed. }
  unfold add_edge.
  assert (∃ cost, unpack e = ret (k1, k2, cost) ∧
                  weight_of e = match cost with [] => 0%Z | c :: _ => c end)
    as (cost & -> & ->).
  { destruct He as [->|[w ->]]; [by exists []|by exists [w]]. }
  erewrite bind_run; [|done]. simpl.
  erewrite bind_run; [|apply ensure_run].
  erewrite bind_run; [|apply ensure_run].
  erewrite bind_run; [|by apply get_vertex_run].
  erewrite bind_run; [|by apply get_vertex_run].
  erewrite bind_run; [|done].
  erewrite bind_run; [|done].
  change (directed (set_heap ?f ?s)) with (directed s). rewrite Hd.
  destruct (directed st); [done|].
  erewrite bind_run; [|by apply get_vertex_run].
  erewrite bind_run; [|by apply get_vertex_run].
  done.
Qed.

Lemma add_edge_well_formed e st : well_formed st → well_formed (after (add_edge e) st).
Proof.
  intros (Hinv & Hc & Hm).
  destruct e as [k1 k2|k1 k2 w|e]; [| |done].
  - destruct (add_edge_after (Args2 k1 k2) k1 k2 st) as (a1 & a2 & H1 & H2 & Hrun); [by left|].
    unfold after. rewrite Hrun. clear Hrun. simpl.
    set (st2 := ensure k2 (ensure k1 st)) in *.
    assert (Hinv2 : graph_inv st2) by by apply ensure_graph_inv, ensure_graph_inv.
    assert (He2 : ∀ u v x, edge st2 u v x ↔ edge st u v x).
    { intros. unfold st2. rewrite !ensure_edge; by try apply ensure_graph_inv. }
    assert (Hst : ∀ a, a ∈ stored st → a ∈ stored st2).
    { intros a Ha. by apply ensure_stored, ensure_stored. }
    assert (Hc2 : closed st2).
    { intros u v x He%He2. eapply Hst, Hc, He. }
    apply get_vertex_stored in H1, H2.
    destruct (directed st) eqn:Hdir.
    + split_and!.
      * by apply link_graph_inv.
      * by apply link_closed.
      * simpl. unfold st2. rewrite !ensure_directed. congruence.
    + split_and!.
      * by apply link_graph_inv, link_graph_inv.
      * apply link_closed; try done; [by apply link_graph_inv|by apply link_closed].
      * intros _. apply link_mirrored; try done.
        intros u v x He%He2. apply He2. by apply Hm.
  - destruct (add_edge_after (Args3 k1 k2 w) k1 k2 st) as (a1 & a2 & H1 & H2 & Hrun);
      [right; by exists w|].
    unfold after. rewrite Hrun. clear Hrun. simpl.
    set (st2 := ensure k2 (ensure k1 st)) in *.
    assert (Hinv2 : graph_inv st2) by by apply ensure_graph_inv, ensure_graph_inv.
    assert (He2 : ∀ u v x, edge st2 u v x ↔ edge st u v x).
    { intros. unfold st2. rewrite !ensure_edge; by try apply ensure_graph_inv. }
    assert (Hst : ∀ a, a ∈ stored st → a ∈ stored st2).
    { intros a Ha. by apply ensure_stored, ensure_stored. }
    assert (Hc2 : closed st2).
    { intros u v x He%He2. eapply Hst, Hc, He. }
    apply get_vertex_stored in H1, H2.
    destruct (directed st) eqn:Hdir.
    + split_and!.
      * by apply link_graph_inv.
      * by apply link_closed.
      * simpl. unfold st2. rewrite !ensure_directed. congruence.
    + split_and!.
      * by apply link_graph_inv, link_graph_inv.
      * apply link_closed; try done; [by apply link_graph_inv|by apply link_closed].
      * intros _. apply link_mirrored; try done.
        intros u v x He%He2. apply He2. by apply Hm.
Qed.
End edges.

Section histories_facts.
Context {key : Type} `{!EqDecision key} `{!Inhabited key}.
Implicit Types (st : state key).

Lemma ensure_well_formed k st : well_formed st → well_formed (ensure k st).
Proof.
  intros (Hinv & Hc & Hm). split_and!.
  - by apply ensure_graph_inv.
  - intros u v w He%ensure_edge; [|done]. eapply ensure_stored, Hc, He.
  - rewrite ensure_directed. intros Hd u v w He%ensure_edge; [|done].
    apply ensure_edge; [done|]. by apply Hm.
Qed.

Lemma add_vertex_well_formed k st :
  k ∉ (vertices st).*1 → well_formed st → well_formed (after (add_vertex k) st).
Proof.
  intros Hk Hwf. replace (after (add_vertex k) st) with (ensure k st).
  - by apply ensure_well_formed.
  - unfold ensure. by rewrite (proj2 (dict_mem_false _ _) Hk).
Qed.

Lemma skeleton_well_formed st st' :
  skeleton st' = skeleton st → well_formed st → well_formed st'.
Proof.
  intros Hs (Hinv & Hc & Hm). split_and!.
  - by eapply skeleton_graph_inv.
  - by eapply skeleton_closed.
  - rewrite (skeleton_directed _ _ Hs). intros Hd u v w He.
    apply (skeleton_edge _ _ _ _ _ Hs). apply Hm; [done|].
    by apply (skeleton_edge _ _ _ _ _ Hs).
Qed.

Lemma same_skeleton_keeps_well_formed {A} (m : M key A) :
  stable same_skeleton m → stable (keeps well_formed) m.
Proof. intros Hm st Hst. eapply skeleton_well_formed; [apply Hm|done]. Qed.

Lemma Graph_well_formed d : well_formed (Graph (key:=key) d).
Proof.
  split_and!.
  - apply Graph_graph_inv.
  - intros u v w [Hu _]. by apply elem_of_nil in Hu.
  - intros _ u v w [Hu _]. by apply elem_of_nil in Hu.
Qed.

Lemma exec_well_formed P c st :
  repeated_key c st = 0 → well_formed st → well_formed (after (exec P c) st).
Proof.
  intros Hr.
  assert (Hk : ∀ m : M key unit, stable (keeps well_formed) m →
                 well_formed st → well_formed (after m st)).
  { intros m Hm. apply Hm. }
  destruct c; simpl in *.
  - apply add_vertex_well_formed. apply dict_mem_false. by destruct (dict_mem _ _).
  - apply add_edge_well_formed.
  - apply Hk, stable_for_each; [apply _|]. intros e st' Hst'.
    by apply add_edge_well_formed.
  - apply Hk, same_skeleton_keeps_well_formed, stable_bind;
      [apply _| |intros ?; apply stable_ret; apply _].
    apply get_edges_same_skeleton.
  - apply Hk, same_skeleton_keeps_well_formed, stable_bind;
      [apply _| |intros ?; apply stable_ret; apply _].
    apply connected_same_skeleton.
  - apply Hk, same_skeleton_keeps_well_formed, print_path_same_skeleton.
  - apply Hk, same_skeleton_keeps_well_formed, bfs_same_skeleton.
  - apply Hk, same_skeleton_keeps_well_formed, dfs_same_skeleton.
  - apply Hk, same_skeleton_keeps_well_formed, bellman_ford_same_skeleton.
  - apply Hk, same_skeleton_keeps_well_formed, dijkstra_same_skeleton.
Qed.

(** As long as no key is added twice, what the calls build is well formed. *)
Lemma history_well_formed P cs st :
  repeated_keys P cs st = 0 → well_formed st → well_formed (history P cs st).
Proof.
  revert st. induction cs as [|c cs IH]; intros st Hr Hst; [done|].
  change (history P (c :: cs) st) with (history P cs (after (exec P c) st)).
  simpl in Hr. apply IH; [lia|]. apply exec_well_formed; [lia|done].
Qed.

(** *** [get_edges] *)
Lemma get_edges_inner v adj (l : list (addr * Z)) edges st :
  connected_to (vtx st v) = adj →
  (∀ e, e ∈ l → dict_get e.1 adj = Some e.2) →
  for_fold l.*1 edges
    (λ u edges, let* w := get_weight v u in ret (edges ++ [(v, u, w)])) st
  = (Ok (edges ++ ((λ e : addr * Z, (v, e.1, e.2)) <$> l)), st).
Proof.
  intros Hadj. revert edges. induction l as [|[u w] l IH]; intros edges Hl; simpl.
  - by rewrite app_nil_r.
  - assert (Hw : dict_get u adj = Some w) by (apply (Hl (u, w)); left).
    erewrite bind_run; last first.
    { erewrite bind_run; [done|]. unfold get_weight. by rewrite Hadj, Hw. }
    rewrite IH.
    + by rewrite <-app_assoc.
    + intros e He. apply Hl. by right.
Qed.

Lemma get_edges_outer (vs : list addr) edges st :
  (∀ a, NoDup (connected_to (vtx st a)).*1) →
  for_fold vs edges
    (λ v edges,
       let* us := get_connections v in
       for_fold us edges
         (λ u edges, let* w := get_weight v u in ret (edges ++ [(v, u, w)]))) st
  = (Ok (edges ++ (a ← vs; (λ e : addr * Z, (a, e.1, e.2)) <$> connected_to (vtx st a))), st).
Proof.
  intros Hnd. revert edges. induction vs as [|v vs IH]; intros edges; simpl.
  - by rewrite app_nil_r.
  - erewrite bind_run; last first.
    { erewrite bind_run; [|done].
      apply (get_edges_inner v (connected_to (vtx st v)) (connected_to (vtx st v)));
        [done|].
      intros [u w] He. by apply dict_get_NoDup. }
    rewrite IH. by rewrite <-app_assoc.
Qed.

Lemma get_edges_run st : graph_inv st → get_edges st = (Ok (edges_of st), st).
Proof.
  intros Hinv. unfold get_edges. erewrite bind_run; [|done].
  rewrite get_edges_outer; [done|]. apply (inv_adjacent _ Hinv).
Qed.

Lemma elem_of_edges_of st a b w :
  (a, b, w) ∈ edges_of st ↔ a ∈ stored st ∧ (b, w) ∈ connected_to (vtx st a).
Proof.
  unfold edges_of. rewrite list_elem_of_bind. split.
  - intros (a' & Hin & Ha'). apply list_elem_of_fmap in Hin as ([b' w'] & Heq & Hin).
    simpl in *. by simplify_eq.
  - intros [Ha Hin]. exists a. split; [|done].
    apply list_elem_of_fmap. by exists (b, w).
Qed.

Lemma edges_of_edge st a b w :
  graph_inv st → (a, b, w) ∈ edges_of st ↔ edge st a b w.
Proof.
  intros Hinv. rewrite elem_of_edges_of. unfold edge. split.
  - intros [Ha Hin]. split; [done|]. apply dict_get_NoDup; [|done].
    apply (inv_adjacent _ Hinv).
  - intros [Ha Hg]. split; [done|]. by apply dict_get_Some.
Qed.

Lemma stored_id st a : graph_inv st → a ∈ stored st → (id (vtx st a), a) ∈ vertices st.
Proof.
  intros Hinv (k & Hk)%elem_of_stored. by rewrite (inv_ids _ Hinv k a Hk).
Qed.

(** C7, as the code has it. After any sequence of calls, [get_edges]
    returns one triple per adjacency entry of every stored vertex, in
    iteration order; the first two components are the endpoint vertex
    objects, not their keys, and the first is the vertex stored under its
    own [id].  If no key was added twice, the second is a stored vertex as
    well and, in an undirected graph, the mirror image of every listed
    triple is listed too, with the same weight. *)
Theorem get_edges_lists_adjacency (P : MutablePriorityQueue) (d : bool)
    (cs : list (call key)) :
  let st := history P cs (Graph d) in
  get_edges st = (Ok (edges_of st), st) ∧
  (∀ a b w, (a, b, w) ∈ edges_of st → (id (vtx st a), a) ∈ vertices st) ∧
  (repeated_keys P cs (Graph d) = 0 →
     (∀ a b w, (a, b, w) ∈ edges_of st → (id (vtx st b), b) ∈ vertices st) ∧
     (d = false → ∀ a b w, (a, b, w) ∈ edges_of st → (b, a, w) ∈ edges_of st)).
Proof.
  intros st.
  assert (Hinv : graph_inv st) by apply history_graph_inv, Graph_graph_inv.
  split_and!.
  - by apply get_edges_run.
  - intros a b w [Ha _]%elem_of_edges_of. by apply stored_id.
  - intros Hr.
    destruct (history_well_formed P cs (Graph d) Hr (Graph_well_formed d))
      as (_ & Hc & Hm).
    fold st in Hc, Hm. split.
    + intros a b w He%edges_of_edge; [|done]. apply stored_id; [done|].
      by apply (Hc a b w).
    + intros -> a b w He%edges_of_edge; [|done]. apply edges_of_edge; [done|].
      apply Hm; [|done].
      assert (Hg : counter_gap st = counter_gap st) by done.
      clear Hg. unfold st.
      assert (Hdir : ∀ cs' (s : state key), directed (history P cs' s) = directed s).
      { induction cs' as [|c cs' IH]; intros s; [done|].
        change (history P (c :: cs') s) with (history P cs' (after (exec P c) s)).
        rewrite IH. destruct c; simpl; try done.
        - destruct e as [k1 k2|k1 k2 w'|e]; [| |done].
          + destruct (add_edge_after (Args2 k1 k2) k1 k2 s) as (a1 & a2 & _ & _ & Hrun);
              [by left|].
            unfold after. rewrite Hrun. simpl.
            destruct (directed s) eqn:Hd; simpl; by rewrite !ensure_directed.
          + destruct (add_edge_after (Args3 k1 k2 w') k1 k2 s) as (a1 & a2 & _ & _ & Hrun);
              [right; by exists w'|].
            unfold after. rewrite Hrun. simpl.
            destruct (directed s) eqn:Hd; simpl; by rewrite !ensure_directed.
        - by destruct es.
        - apply skeleton_directed, stable_bind;
            [apply _| |intros ?; apply stable_ret; apply _].
          apply get_edges_same_skeleton.
        - apply skeleton_directed, stable_bind;
            [apply _| |intros ?; apply stable_ret; apply _].
          apply connected_same_skeleton.
        - apply skeleton_directed, print_path_same_skeleton.
        - apply skeleton_directed, bfs_same_skeleton.
        - apply skeleton_directed, dfs_same_skeleton.
        - apply skeleton_directed, bellman_ford_same_skeleton.
        - apply skeleton_directed, dijkstra_same_skeleton. }
      by rewrite Hdir.
Qed.

(** C10. After any sequence of calls on a new graph the counter
    [num_vertices] is the number of stored vertices plus the number of
    [add_vertex] calls that were given a key already present, so the two
    agree exactly when there was no such call.  Such a call stores a fresh
    vertex, with no adjacency and the initial state, under the key, keeps
    the number of stored vertices and still increments the counter.
    [bellman_ford] makes [num_vertices - 1] passes, whatever the number of
    stored vertices is. *)
Theorem num_vertices_counts_calls (P : MutablePriorityQueue) :
  (∀ d (cs : list (call key)),
     let st := history P cs (Graph d) in
     num_vertices st =
       (Z.of_nat (length (vertices st)) + Z.of_nat (repeated_keys P cs (Graph d)))%Z ∧
     (num_vertices st = Z.of_nat (length (vertices st))
      ↔ repeated_keys P cs (Graph d) = 0)) ∧
  (∀ (st : state key) k a,
     dict_get k (vertices st) = Some a →
     let st' := after (add_vertex k) st in
     dict_get k (vertices st') = Some (length (heap st)) ∧
     vtx st' (length (heap st)) = mkVertex k [] [] WHITE None ∧
     length (vertices st') = length (vertices st) ∧
     num_vertices st' = (num_vertices st + 1)%Z) ∧
  (∀ (st : state key) k,
     bellman_ford k st = bellman_ford_passes (Z.to_nat (num_vertices st - 1)) k st) ∧
  (length (vertices readded) = 1 ∧ num_vertices readded = 2%Z ∧
   vertices readded = [(0%Z, 1)] ∧
   dists 1 (after (bellman_ford 0%Z) readded) = [(0%Z, Some (-1)%Z)] ∧
   dists 1 (after (bellman_ford_passes (length (vertices readded) - 1) 0%Z) readded)
     = [(0%Z, Some 0%Z)]).
Proof.
  split_and!.
  - intros d cs st.
    pose proof (history_gap P cs (Graph d)) as Hg. fold st in Hg.
    unfold counter_gap in Hg; simpl in Hg. split; [lia|]. split; lia.
  - intros st k a Hg st'. unfold st', after. rewrite add_vertex_after; simpl.
    split_and!; [apply dict_get_set_eq| | |done].
    + rewrite vtx_alloc. rewrite decide_False by lia. by rewrite decide_True.
    + apply dict_set_length_present. apply dict_get_is_Some. by exists a.
  - intros st k. apply bellman_ford_passes_eq.
  - done.
  - done.
  - done.
  - by vm_compute.
  - by vm_compute.
Qed.
End histories_facts.

(** ** Path reconstruction *)
Section paths.
Context {key : Type} `{!EqDecision key} `{!Inhabited key}.
Implicit Types (st : state key).

Lemma chain_functional st r l d r' l' :
  chain st r l d → chain st r' l' d → r = r' ∧ l = l'.
Proof.
  intros Hc. revert r' l'. induction Hc as [r Hr|r l p d Hc IH Hp]; intros r' l' Hc'.
  - inversion Hc' as [? Hr'|? l0 p0 ? Hc0 Hp0]; subst; [done|congruence].
  - inversion Hc' as [? Hr'|? l0 p0 ? Hc0 Hp0]; subst; [congruence|].
    assert (p0 = p) as -> by congruence.
    destruct (IH _ _ Hc0) as [-> ->]. done.
Qed.

Lemma chain_prefix st r l d l1 x l2 :
  chain st r l d → l = l1 ++ x :: l2 → chain st r (l1 ++ [x]) x.
Proof.
  intros Hc. revert l1 x l2. induction Hc as [r Hr|r l p d Hc IH Hp]; intros l1 x l2 Hl.
  - by destruct l1.
  - destruct (decide (l2 = [])) as [->|Hne].
    + apply app_inj_tail in Hl as [-> ->]. by eapply chain_link.
    + destruct (exists_last Hne) as (l2' & y & ->).
      rewrite app_comm_cons, app_assoc in Hl.
      apply app_inj_tail in Hl as [-> _]. by eapply IH.
Qed.

Lemma chain_NoDup st r l d : chain st r l d → NoDup l.
Proof.
  induction 1 as [r Hr|r l p d Hc IH Hp]; [apply NoDup_nil_2|].
  apply NoDup_app. split_and!; [done| |apply NoDup_singleton].
  intros x Hx ->%list_elem_of_singleton.
  apply list_elem_of_split in Hx as (l1 & l2 & Hl).
  pose proof (chain_prefix _ _ _ _ _ _ _ Hc Hl) as Hc1.
  pose proof (chain_link _ _ _ _ _ Hc Hp) as Hc2.
  destruct (chain_functional _ _ _ _ _ _ Hc1 Hc2) as [_ Heq].
  apply app_inj_tail in Heq as [Heq _]. subst l1.
  apply (f_equal length) in Hl. rewrite length_app in Hl; simpl in Hl. lia.
Qed.

Lemma chain_valid st r l d x : chain st r l d → x ∈ l → x < length (heap st).
Proof.
  induction 1 as [r Hr|r l p d Hc IH Hp]; [by intros ?%elem_of_nil|].
  intros [Hx| ->%list_elem_of_singleton]%elem_of_app; [auto|].
  destruct (decide (d < length (heap st))) as [|Hge]; [done|].
  unfold vtx in Hp. rewrite list_lookup_total_alt in Hp.
  rewrite lookup_ge_None_2 in Hp by lia. done.
Qed.

Lemma chain_length st r l d : chain st r l d → length l ≤ length (heap st).
Proof.
  intros Hc. trans (length (seq 0 (length (heap st)))); [|by rewrite length_seq].
  apply submseteq_length, NoDup_submseteq; [by eapply chain_NoDup|].
  intros x Hx. apply elem_of_seq. pose proof (chain_valid _ _ _ _ _ Hc Hx). lia.
Qed.

Lemma vtx_printed os st a : vtx (printed os st) a = vtx st a.
Proof. done. Qed.

Lemma print_path_util_same depth s st :
  _print_path_util (S depth) s s st = (Ok (), printed [PrintId (id (vtx st s))] st).
Proof. simpl. by rewrite decide_True. Qed.

Lemma print_path_util_chain st s r l d depth :
  chain st r l d → s ∉ r :: l → length l < depth →
  _print_path_util depth s d st =
  (Ok (), printed (PrintNoPath (id (vtx st s)) (id (vtx st r))
                   :: ((λ x, PrintId (id (vtx st x))) <$> l)) st).
Proof.
  intros Hc. revert depth. induction Hc as [r Hr|r l p d Hc IH Hp]; intros depth Hs Hf.
  - destruct depth as [|depth]; [simpl in Hf; lia|]. simpl.
    rewrite decide_False by (intros ->; apply Hs; left).
    erewrite bind_run; [|done]. by rewrite Hr.
  - rewrite length_app in Hf; simpl in Hf.
    destruct depth as [|depth]; [lia|]. simpl.
    rewrite decide_False; last first.
    { intros ->. apply Hs. right. apply elem_of_app. right. left. }
    erewrite bind_run; [|done]. rewrite Hp.
    erewrite bind_run; last first.
    { apply IH; [|lia]. intros [->|Hin]%elem_of_cons; apply Hs; [left|].
      right. apply elem_of_app. by left. }
    erewrite bind_run; [|done]. unfold print, modify, printed; simpl.
    rewrite fmap_app; simpl. rewrite <-app_assoc. done.
Qed.


End paths.

(** ** Initialisation *)
Section initialisation.
Context {key : Type} `{!EqDecision key} `{!Inhabited key}.
Implicit Types (st : state key).

Lemma state_eq st st' :
  same_graph st st' → length (heap st') = length (heap st) →
  (∀ a, vtx st' a = vtx st a) → st' = st.
Proof.
  intros (Hv & Hn & Hd & Ho) Hl Hvtx.
  destruct st as [h vs n d o], st' as [h' vs' n' d' o']; simpl in *. subst.
  f_equal. apply list_eq. intros i.
  destruct (decide (i < length h)) as [Hlt|Hge].
  - destruct (lookup_lt_is_Some_2 h i Hlt) as [x Hx].
    destruct (lookup_lt_is_Some_2 h' i ltac:(lia)) as [y Hy].
    specialize (Hvtx i). unfold vtx in Hvtx; simpl in Hvtx.
    rewrite !list_lookup_total_alt, Hx, Hy in Hvtx. simpl in Hvtx. congruence.
  - rewrite !lookup_ge_None_2 by lia. done.
Qed.

#[global] Instance same_graph_preorder : PreOrder (same_graph (key:=key)).
Proof.
  split; [by intros st|].
  intros st1 st2 st3 (?&?&?&?) (?&?&?&?). unfold same_graph. split_and!; congruence.
Qed.

Lemma same_graph_alter g a st : same_graph st (set_heap (alter g a) st).
Proof. done. Qed.

Lemma for_each_alter (g : addr → Vertex key → Vertex key) (body : addr → M key unit) l st :
  (∀ x st, body x st = (Ok (), set_heap (alter (g x) x) st)) →
  (∀ x v, g x (g x v) = g x v) →
  ∃ st1, for_each l body st = (Ok (), st1) ∧ same_graph st st1 ∧
         length (heap st1) = length (heap st) ∧
         ∀ a, vtx st1 a =
              if decide (a ∈ l ∧ a < length (heap st)) then g a (vtx st a) else vtx st a.
Proof.
  intros Hbody Hidem. revert st. induction l as [|x l IH]; intros st; simpl.
  - exists st. split_and!; try done.
    all: intros a; rewrite decide_False; [done|]; intros [[]%elem_of_nil _].
  - destruct (IH (set_heap (alter (g x) x) st)) as (st1 & Hrun & Hsg & Hlen & Hvtx).
    exists st1. split_and!.
    + erewrite bind_run; [|apply Hbody]. done.
    + etrans; [|exact Hsg]. apply same_graph_alter.
    + rewrite Hlen. simpl. by rewrite length_alter.
    + intros a. rewrite Hvtx. simpl. rewrite length_alter, vtx_alter.
      destruct (decide (x = a)) as [->|Hne].
      * destruct (decide (a < length (heap st))) as [Hlt|Hge].
        -- rewrite (decide_True (P:=a = a ∧ _)) by done.
           rewrite (decide_True (P:=a ∈ a :: l ∧ _)) by (split; [left|done]).
           case_decide; [apply Hidem|done].
        -- rewrite !decide_False; [done| | |]; intros [_ ?]; lia.
      * rewrite (decide_False (P:=x = a ∧ _)) by (intros [? _]; done).
        repeat case_decide; try done.
        -- destruct H0. split; [right|]; tauto.
        -- destruct H. destruct H0 as [[?|?]%elem_of_cons ?]; [congruence|done].
Qed.

Lemma bfs_reset_idem source a (x : Vertex key) :
  bfs_reset source a (bfs_reset source a x) = bfs_reset source a x.
Proof. unfold bfs_reset. destruct (decide (a = source)); simpl; by rewrite dict_set_set. Qed.

Lemma sssp_reset_idem source a (x : Vertex key) :
  sssp_reset source a (sssp_reset source a x) = sssp_reset source a x.
Proof. unfold sssp_reset. simpl. by rewrite dict_set_set. Qed.

Lemma set_heap_set_heap f g st :
  set_heap f (set_heap g st) = set_heap (f ∘ g) st.
Proof. done. Qed.

Lemma bfs_initialize_run source st :
  source ∈ stored st →
  ∃ st1, bfs_initialize source st = (Ok (), st1) ∧ same_graph st st1 ∧
         length (heap st1) = length (heap st) ∧
         ∀ a, vtx st1 a =
              if decide (a ∈ stored st ∧ a < length (heap st))
              then bfs_reset source a (vtx st a) else vtx st a.
Proof.
  intros Hs. unfold bfs_initialize.
  set (g := λ (u : addr) (x : Vertex key),
              if decide (u = source) then x else bfs_reset source u x).
  destruct (for_each_alter g
              (λ u, if decide (u = source) then ret ()
                    else set_color u WHITE >> set_predecessor u None >>
                         set_dist u source sys_maxsize)
              (stored st) st) as (st1 & Hrun & Hsg & Hlen & Hvtx).
  { intros x st0. unfold g. case_decide.
    - unfold ret, set_heap. f_equal. destruct st0; simpl. f_equal.
      symmetry. by apply list_alter_id.
    - unfold bind, set_color, set_predecessor, set_dist, update, modify; simpl.
      f_equal. unfold set_heap; simpl. f_equal.
      rewrite !list_alter_alter_eq. apply list_alter_ext; [|done].
      intros v _. unfold bfs_reset. by rewrite decide_False. }
  { intros x v. unfold g. case_decide; [done|]. apply bfs_reset_idem. }
  eexists. split_and!.
  - erewrite bind_run; [|done]. erewrite bind_run; [|exact Hrun].
    unfold bind, set_color, set_predecessor, set_dist, update, modify; simpl. done.
  - etrans; [exact Hsg|]. done.
  - simpl. by rewrite !length_alter.
  - intros a. rewrite !vtx_alter. simpl. rewrite !length_alter, Hlen, Hvtx.
    unfold g. destruct (decide (source = a)) as [->|Hne].
    + destruct (decide (a < length (heap st))) as [Hlt|Hge].
      * rewrite !(decide_True (P:=a = a ∧ _)) by done.
        rewrite decide_True by done. rewrite decide_True by done.
        rewrite decide_True by done. unfold bfs_reset. rewrite decide_True by done.
        done.
      * rewrite !(decide_False (P:=a = a ∧ _)) by (intros [_ ?]; lia).
        rewrite !(decide_False (P:=_ ∧ a < _)) by (intros [_ ?]; lia). done.
    + rewrite !(decide_False (P:=source = a ∧ _)) by (intros [? _]; done).
      case_decide; [|done]. by rewrite decide_False by done.
Qed.

Lemma initialize_single_source_run source st :
  source ∈ stored st →
  ∃ st1, initialize_single_source source st = (Ok (), st1) ∧ same_graph st st1 ∧
         length (heap st1) = length (heap st) ∧
         ∀ a, vtx st1 a =
              if decide (a ∈ stored st ∧ a < length (heap st))
              then sssp_reset source a (vtx st a) else vtx st a.
Proof.
  intros Hs. unfold initialize_single_source.
  set (g := λ (u : addr) (x : Vertex key),
              mkVertex (id x) (connected_to x) (dict_set source sys_maxsize (dist x))
                       (color x) None).
  destruct (for_each_alter g
              (λ v, set_dist v source sys_maxsize >> set_predecessor v None)
              (stored st) st) as (st1 & Hrun & Hsg & Hlen & Hvtx).
  { intros x st0.
    unfold bind, set_predecessor, set_dist, update, modify; simpl.
    f_equal. unfold set_heap; simpl. f_equal.
    rewrite !list_alter_alter_eq. by apply list_alter_ext. }
  { intros x v. unfold g. simpl. by rewrite dict_set_set. }
  eexists. split_and!.
  - erewrite bind_run; [|done]. erewrite bind_run; [|exact Hrun]. done.
  - etrans; [exact Hsg|]. done.
  - simpl. by rewrite !length_alter.
  - intros a. rewrite !vtx_alter. simpl. rewrite Hlen, Hvtx.
    unfold g, sssp_reset. destruct (decide (source = a)) as [->|Hne].
    + destruct (decide (a < length (heap st))) as [Hlt|Hge].
      * rewrite !(decide_True (P:=a = a ∧ _)) by done.
        rewrite decide_True by done. rewrite decide_True by done.
        unfold with_dist; simpl. by rewrite dict_set_set, decide_True.
      * rewrite !(decide_False (P:=a = a ∧ _)) by (intros [_ ?]; lia).
        rewrite !(decide_False (P:=_ ∧ a < _)) by (intros [_ ?]; lia). done.
    + rewrite !(decide_False (P:=source = a ∧ _)) by (intros [? _]; done).
      case_decide; [|done]. by rewrite decide_False by done.
Qed.
End initialisation.

(** ** Running an algorithm a second time *)
Section again.
Context {key : Type} `{!EqDecision key} `{!Inhabited key}.
Implicit Types (st : state key).

Lemma wp_get_dist v source (Q : result Z → state key → Prop) st :
  (∀ d, dist_from st source v = Some d → Q (Ok d) st) →
  (dist_from st source v = None → Q (Fail KeyError) st) →
  wp (get_dist v source) Q st.
Proof.
  intros Hs Hn. unfold wp, get_dist, dist_from in *.
  destruct (dict_get source (dist (vtx st v))); simpl; auto.
Qed.

Lemma wp_get_weight u v (Q : result Z → state key → Prop) st :
  (∀ w, dict_get v (connected_to (vtx st u)) = Some w → Q (Ok w) st) →
  (dict_get v (connected_to (vtx st u)) = None → Q (Fail KeyError) st) →
  wp (get_weight u v) Q st.
Proof.
  intros Hs Hn. unfold wp, get_weight.
  destruct (dict_get v (connected_to (vtx st u))); simpl; auto.
Qed.

Lemma wp_get_vertex k (Q : result addr → state key → Prop) st :
  (∀ a, dict_get k (vertices st) = Some a → Q (Ok a) st) →
  (dict_get k (vertices st) = None → Q (Fail KeyError) st) →
  wp (get_vertex k) Q st.
Proof.
  intros Hs Hn. unfold wp, get_vertex.
  destruct (dict_get k (vertices st)); simpl; auto.
Qed.

Lemma wp_update a f (Q : result unit → state key → Prop) st :
  Q (Ok ()) (set_heap (alter f a) st) → wp (update a f) Q st.
Proof. done. Qed.

Lemma wp_q_put n q x (Q : result (list addr) → state key → Prop) st :
  Q (Ok (q ++ [x])) st → Q (Fail BlocksForever) st → wp (q_put n q x) Q st.
Proof. intros H1 H2. unfold wp, q_put. by case_decide. Qed.

Lemma wp_after {A} (m : M key A) (I : state key → Prop) st :
  I (after m st) → wp m (λ _ st', I st') st.
Proof. done. Qed.

Lemma bind_assoc {A B C} (m : M key A) (k : A → M key B) (h : B → M key C) st :
  bind (bind m k) h st = bind m (λ a, bind (k a) h) st.
Proof. unfold bind. by destruct (m st) as [[a|f] st']. Qed.

Lemma vtx_invalid st a : length (heap st) ≤ a → vtx st a = inhabitant.
Proof.
  intros Hge. unfold vtx. rewrite list_lookup_total_alt.
  by rewrite lookup_ge_None_2.
Qed.

Lemma skeleton_of_vtx st st' :
  same_graph st st' → length (heap st') = length (heap st) →
  (∀ a, id (vtx st' a) = id (vtx st a) ∧
        connected_to (vtx st' a) = connected_to (vtx st a)) →
  skeleton st' = skeleton st.
Proof.
  intros (Hv & Hn & Hd & Ho) Hl Hvtx. unfold skeleton. rewrite Hv, Hn, Hd. f_equal.
  apply list_eq. intros i. rewrite !list_lookup_fmap.
  destruct (decide (i < length (heap st))) as [Hlt|Hge].
  - destruct (lookup_lt_is_Some_2 (heap st) i Hlt) as [x Hx].
    destruct (lookup_lt_is_Some_2 (heap st') i ltac:(lia)) as [y Hy].
    specialize (Hvtx i). unfold vtx in Hvtx.
    rewrite !list_lookup_total_alt, Hx, Hy in Hvtx. simpl in *.
    rewrite Hx, Hy. simpl. destruct Hvtx. congruence.
  - rewrite !lookup_ge_None_2 by lia. done.
Qed.

Section with_reset.
Variables (reset : addr → Vertex key → Vertex key) (V : list addr).
Hypothesis reset_skeleton :
  ∀ a x, id (reset a x) = id x ∧ connected_to (reset a x) = connected_to x.
Hypothesis reset_idem : ∀ a x, reset a (reset a x) = reset a x.

#[global] Instance agree_preorder : PreOrder (agree reset V).
Proof.
  split.
  - intros st. split_and!; [done..|]. intros a. by case_decide.
  - intros st1 st2 st3 (Hs1 & Ho1 & H1) (Hs2 & Ho2 & H2). split_and!; [congruence..|].
    intros a. specialize (H1 a). specialize (H2 a). case_decide; congruence.
Qed.

Lemma agree_update v g st0 st :
  v ∈ V → (∀ x, reset v (g x) = reset v x) →
  agree reset V st0 st → agree reset V st0 (set_heap (alter g v) st).
Proof.
  intros Hv Hg (Hs & Ho & Hvtx). split_and!.
  - rewrite <-Hs. apply skeleton_alter. intros x.
    destruct (reset_skeleton v (g x)) as [<- <-].
    destruct (reset_skeleton v x) as [<- <-]. by rewrite Hg.
  - done.
  - intros a. specialize (Hvtx a). rewrite vtx_alter.
    destruct (decide (v = a ∧ v < length (heap st))) as [[-> _]|Hn]; [|done].
    rewrite decide_True in * by done. by rewrite Hg.
Qed.

Lemma agree_initialize (init : M key unit) st st1 :
  V = stored st →
  init st = (Ok (), st1) → same_graph st st1 →
  length (heap st1) = length (heap st) →
  (∀ a, vtx st1 a = if decide (a ∈ stored st ∧ a < length (heap st))
                    then reset a (vtx st a) else vtx st a) →
  agree reset V st st1.
Proof.
  intros -> Hrun Hsg Hlen Hvtx. split_and!.
  - apply skeleton_of_vtx; [done..|]. intros a. rewrite Hvtx.
    case_decide; [apply reset_skeleton|done].
  - by destruct Hsg as (_ & _ & _ & ?).
  - intros a. rewrite Hvtx. repeat case_decide; try done; try tauto.
Qed.

Lemma agree_initialize_eq (init : M key unit) st st' st1 st1' :
  V = stored st → agree reset V st st' →
  init st = (Ok (), st1) → same_graph st st1 →
  length (heap st1) = length (heap st) →
  (∀ a, vtx st1 a = if decide (a ∈ stored st ∧ a < length (heap st))
                    then reset a (vtx st a) else vtx st a) →
  init st' = (Ok (), st1') → same_graph st' st1' →
  length (heap st1') = length (heap st') →
  (∀ a, vtx st1' a = if decide (a ∈ stored st' ∧ a < length (heap st'))
                     then reset a (vtx st' a) else vtx st' a) →
  st1' = st1.
Proof.
  intros -> (Hs & Ho & Hag) Hrun Hsg Hlen Hvtx Hrun' Hsg' Hlen' Hvtx'.
  pose proof (skeleton_length _ _ Hs) as Hl.
  apply state_eq.
  - destruct Hsg as (?&?&?&?), Hsg' as (?&?&?&?).
    pose proof (skeleton_vertices _ _ Hs). pose proof (skeleton_num_vertices _ _ Hs).
    pose proof (skeleton_directed _ _ Hs).
    unfold same_graph. split_and!; congruence.
  - congruence.
  - intros a. rewrite Hvtx, Hvtx'. rewrite (skeleton_stored _ _ Hs), Hl.
    specialize (Hag a). repeat case_decide; try done; try tauto.
    assert (length (heap st) ≤ a).
    { destruct (decide (a < length (heap st))); [tauto|lia]. }
    rewrite !vtx_invalid; [done|lia..].
Qed.
End with_reset.

Lemma bfs_reset_skeleton source a (x : Vertex key) :
  id (bfs_reset source a x) = id x ∧ connected_to (bfs_reset source a x) = connected_to x.
Proof. unfold bfs_reset. by case_decide. Qed.

Lemma sssp_reset_skeleton source a (x : Vertex key) :
  id (sssp_reset source a x) = id x ∧ connected_to (sssp_reset source a x) = connected_to x.
Proof. done. Qed.

(** The shape every one of the three algorithms has: look the source up,
    initialise, search. *)
Lemma run_again (reset : addr → addr → Vertex key → Vertex key)
    (init body : addr → M key unit) k st :
  (∀ source a x, id (reset source a x) = id x ∧
                 connected_to (reset source a x) = connected_to x) →
  (∀ source a x, reset source a (reset source a x) = reset source a x) →
  (∀ source st', source ∈ stored st' →
     ∃ st1, init source st' = (Ok (), st1) ∧ same_graph st' st1 ∧
            length (heap st1) = length (heap st') ∧
            ∀ a, vtx st1 a = if decide (a ∈ stored st' ∧ a < length (heap st'))
                             then reset source a (vtx st' a) else vtx st' a) →
  (∀ source st1, source ∈ stored st → skeleton st1 = skeleton st →
     agree (reset source) (stored st) st1 (after (body source) st1)) →
  bind (get_vertex k) (λ source, init source >> body source)
       (after (bind (get_vertex k) (λ source, init source >> body source)) st)
  = bind (get_vertex k) (λ source, init source >> body source) st.
Proof.
  intros Hskel Hidem Hinit Hbody. unfold after.
  destruct (dict_get k (vertices st)) as [s|] eqn:Hk; last first.
  { assert (Hf : get_vertex k st = (Fail KeyError, st)).
    { unfold get_vertex. by rewrite Hk. }
    rewrite !(bind_fail _ _ _ _ _ Hf).
    change ((Fail (A:=unit) KeyError, st).2) with st. done. }
  pose proof (get_vertex_stored _ _ _ Hk) as Hs.
  destruct (Hinit s st Hs) as (st1 & Hrun & Hsg & Hlen & Hvtx).
  destruct (body s st1) as [r st2] eqn:Hb.
  assert (Halg : bind (get_vertex k) (λ source, init source >> body source) st = (r, st2)).
  { erewrite bind_run; [|by apply get_vertex_run]. erewrite bind_run; [|exact Hrun]. done. }
  rewrite Halg. simpl.
  assert (Hag1 : agree (reset s) (stored st) st st1).
  { eapply agree_initialize; eauto. }
  pose proof (Hbody s st1 Hs (proj1 Hag1)) as Hag2.
  unfold after in Hag2. rewrite Hb in Hag2. simpl in Hag2.
  assert (Hag : agree (reset s) (stored st) st st2).
  { etrans; [exact Hag1|exact Hag2]. }
  destruct Hag as (Hs2 & Ho2 & Hv2).
  assert (Hs' : s ∈ stored st2) by by rewrite (skeleton_stored _ _ Hs2).
  destruct (Hinit s st2 Hs') as (st1' & Hrun' & Hsg' & Hlen' & Hvtx').
  assert (st1' = st1) as ->.
  { eapply agree_initialize_eq with (st := st) (st' := st2) (init := init s)
                                    (reset := reset s) (V := stored st); try done. }
  erewrite bind_run; last first.
  { apply get_vertex_run. by rewrite (skeleton_vertices _ _ Hs2). }
  erewrite bind_run; [|exact Hrun']. done.
Qed.
End again.

Section again_bfs.
Context {key : Type} `{!EqDecision key} `{!Inhabited key}.
Implicit Types (st : state key).

Lemma bfs_split k st :
  bfs k st = bind (get_vertex k) (λ source, bfs_initialize source >> bfs_search source) st.
Proof.
  unfold bfs, bfs_initialize, bfs_search. apply bind_ext. intros source st1 _.
  rewrite bind_assoc. apply bind_ext. intros us st2 _.
  rewrite bind_assoc. apply bind_ext. intros [] st3 _.
  rewrite bind_assoc. apply bind_ext. intros [] st4 _.
  rewrite bind_assoc. done.
Qed.

Lemma connections_stored st u v :
  closed st → u ∈ stored st → v ∈ (connected_to (vtx st u)).*1 → v ∈ stored st.
Proof.
  intros Hc Hu Hv. apply dict_get_is_Some in Hv as [w Hw].
  by apply (Hc u v w).
Qed.

Section fixed.
Variables (source : addr) (st0 : state key).
Hypothesis st0_closed : closed st0.

Let R := bfs_reset (key:=key) source.
Let V := stored st0.

Lemma agree_bfs_update v g st :
  v ∈ V →
  (∀ x, id (g x) = id x ∧ connected_to (g x) = connected_to x ∧
        ∃ d, dist (g x) = dist x ∨ dist (g x) = dict_set source d (dist x)) →
  agree R V st0 st → agree R V st0 (set_heap (alter g v) st).
Proof.
  intros Hv Hg. apply agree_update; [apply bfs_reset_skeleton|done|].
  intros x. destruct (Hg x) as (Hi & Hc & d & [Hd|Hd]); unfold R, bfs_reset;
    case_decide; rewrite Hi, Hc, Hd, ?dict_set_set; done.
Qed.

Lemma bfs_visit_agree u n v q st :
  v ∈ V → Forall (λ x, x ∈ V) q → agree R V st0 st →
  wp (bfs_visit source u n v q)
     (λ r st', agree R V st0 st' ∧ ∀ q', r = Ok q' → Forall (λ x, x ∈ V) q') st.
Proof.
  intros Hv Hq Hag. unfold bfs_visit.
  apply wp_bind, wp_gets. case_decide.
  - apply wp_bind, wp_update.
    assert (Hag1 : agree R V st0 (set_heap (alter (with_color GRAY) v) st)).
    { apply agree_bfs_update; [done| |done]. intros x. split_and!; [done..|].
      exists 0%Z. by left. }
    apply wp_bind, wp_get_dist; [intros d Hd|intros Hd; by split].
    apply wp_bind, wp_update. apply wp_bind, wp_update.
    assert (Hag2 : agree R V st0
              (set_heap (alter (with_predecessor (Some u)) v)
                 (set_heap (alter (with_dist (dict_set source (d + 1)%Z)) v)
                    (set_heap (alter (with_color GRAY) v) st)))).
    { apply agree_bfs_update; [done| |].
      { intros x. split_and!; [done..|]. exists 0%Z. by left. }
      apply agree_bfs_update; [done| |done].
      intros x. split_and!; [done..|]. exists (d + 1)%Z. by right. }
    apply wp_q_put; (split; [done|]); [|done].
    intros q' [= <-]. apply Forall_app. split; [done|]. by apply Forall_singleton.
  - apply wp_ret. split; [done|]. by intros q' [= <-].
Qed.

Lemma bfs_while_agree fuel n q st :
  Forall (λ x, x ∈ V) q → agree R V st0 st →
  agree R V st0 (after (bfs_while fuel source n q) st).
Proof.
  revert q st. induction fuel as [|fuel IH]; intros [|u q] st Hq Hag; simpl; try done.
  apply Forall_cons in Hq as [Hu Hq].
  change (wp (let* vs := get_connections u in
              let* q0 := for_fold vs q (bfs_visit source u n) in
              set_color u BLACK >> bfs_while fuel source n q0)
             (λ _ st', agree R V st0 st') st).
  apply wp_bind, wp_gets. apply wp_bind.
  apply (wp_for_fold (λ _ q' st', agree R V st0 st' ∧ Forall (λ x, x ∈ V) q')).
  - done.
  - intros done v rest q' st' Hvs [Hag' Hq'].
    eapply wp_mono.
    + apply bfs_visit_agree; [|done..].
      destruct Hag as (Hs & _ & _).
      apply (connections_stored st0 u); [done..|].
      rewrite <-(skeleton_connected_to _ _ u Hs), Hvs.
      apply elem_of_app. right. left.
    + intros [q''|f] st'' [Hag'' Hq'']; [|done]. split; [done|]. by apply Hq''.
  - intros q' st' [Hag' Hq']. apply wp_bind, wp_update.
    apply IH; [done|]. apply agree_bfs_update; [done| |done].
    intros x. split_and!; [done..|]. exists 0%Z. by left.
Qed.

Lemma bfs_search_agree st :
  source ∈ V → agree R V st0 st → agree R V st0 (after (bfs_search source) st).
Proof.
  intros Hs Hag. unfold bfs_search.
  change (wp (let* n := gets num_vertices in
              let* q := q_put n [] source in
              let* fuel := gets (λ st : state key, S (length (heap st))) in
              bfs_while fuel source n q)
             (λ _ st', agree R V st0 st') st).
  apply wp_bind, wp_gets. apply wp_bind, wp_q_put; [|done].
  apply wp_bind, wp_gets. apply bfs_while_agree; [|done].
  by apply Forall_singleton.
Qed.
End fixed.

Lemma bfs_again k st :
  closed st → bfs k (after (bfs k) st) = bfs k st.
Proof.
  intros Hc. unfold after. rewrite !bfs_split.
  apply (run_again bfs_reset bfs_initialize bfs_search).
  - intros. apply bfs_reset_skeleton.
  - intros. apply bfs_reset_idem.
  - intros source st' Hs. by apply bfs_initialize_run.
  - intros source st1 Hs Hsk.
    rewrite <-(skeleton_stored _ _ Hsk).
    apply bfs_search_agree.
    + by eapply skeleton_closed.
    + by rewrite (skeleton_stored _ _ Hsk).
    + reflexivity.
Qed.
End again_bfs.

Section again_sssp.
Context {key : Type} `{!EqDecision key} `{!Inhabited key}.
Implicit Types (st : state key).

(** What [get_edges] returns are edges; it does not change the state. *)
Lemma wp_get_edges (Q : result (list (addr * addr * Z)) → state key → Prop) st :
  (∀ edges, (∀ a b w, (a, b, w) ∈ edges → edge st a b w) → Q (Ok edges) st) →
  Q (Fail KeyError) st →
  wp get_edges Q st.
Proof.
  intros Hok Hfail. unfold get_edges.
  apply wp_bind, wp_gets.
  apply (wp_for_fold (λ _ edges st', st' = st ∧ ∀ a b w, (a, b, w) ∈ edges → edge st a b w)).
  - split; [done|]. by intros a b w ?%elem_of_nil.
  - intros done v rest edges st' Hl [-> Hedges].
    apply wp_bind, wp_gets.
    apply (wp_for_fold
             (λ _ edges st', st' = st ∧ ∀ a b w, (a, b, w) ∈ edges → edge st a b w)).
    + done.
    + intros done' u rest' edges' st' Hl' [-> Hedges'].
      apply wp_bind, wp_get_weight; [|done].
      intros w Hw. apply wp_ret. split; [done|].
      intros a b w' [Hin|Hin%list_elem_of_singleton]%elem_of_app; [by apply Hedges'|].
      simplify_eq. split; [|done]. unfold stored. rewrite Hl.
      apply elem_of_app. right. left.
    + done.
  - intros edges st' [-> Hedges]. by apply Hok.
Qed.

Section fixed.
Variables (source : addr) (st0 : state key).
Hypothesis st0_closed : closed st0.

Let R := sssp_reset (key:=key) source.
Let V := stored st0.

Lemma agree_sssp_update v g st :
  v ∈ V →
  (∀ x, id (g x) = id x ∧ connected_to (g x) = connected_to x ∧ color (g x) = color x ∧
        ∃ d, dist (g x) = dist x ∨ dist (g x) = dict_set source d (dist x)) →
  agree R V st0 st → agree R V st0 (set_heap (alter g v) st).
Proof.
  intros Hv Hg. apply agree_update; [apply sssp_reset_skeleton|done|].
  intros x. destruct (Hg x) as (Hi & Hc & Hcol & d & [Hd|Hd]); unfold R, sssp_reset;
    rewrite Hi, Hc, Hcol, Hd, ?dict_set_set; done.
Qed.

Lemma agree_edge_target st a b w :
  agree R V st0 st → edge st a b w → b ∈ V.
Proof.
  intros (Hs & _ & _) He%(skeleton_edge _ _ _ _ _ Hs). by apply (st0_closed a b w).
Qed.

Lemma relax_agree u v w st :
  v ∈ V → agree R V st0 st → agree R V st0 (after (relax source u v w) st).
Proof.
  intros Hv Hag. unfold relax.
  change (wp (let* dv := get_dist v source in
              let* du := get_dist u source in
              if decide (dv > du + w)%Z
              then let* du0 := get_dist u source in
                   set_dist v source (du0 + w) >> set_predecessor v (Some u)
              else ret ())
             (λ _ st', agree R V st0 st') st).
  apply wp_bind, wp_get_dist; [intros dv Hdv|done].
  apply wp_bind, wp_get_dist; [intros du Hdu|done].
  case_decide; [|done].
  apply wp_bind, wp_get_dist; [intros du' Hdu'|done].
  apply wp_bind, wp_update, wp_update.
  apply agree_sssp_update; [done| |].
  { intros x. split_and!; [done..|]. exists 0%Z. by left. }
  apply agree_sssp_update; [done| |done].
  intros x. split_and!; [done..|]. exists (du' + w)%Z. by right.
Qed.

Lemma bellman_ford_relax_agree st :
  agree R V st0 st → agree R V st0 (after (bellman_ford_relax source) st).
Proof.
  intros Hag. unfold bellman_ford_relax.
  change (wp (let* n := gets num_vertices in
              for_each (seq 0 (Z.to_nat (n - 1)))
                (λ _, let* edges := get_edges in
                      for_each edges (λ edge, relax source edge.1.1 edge.1.2 edge.2)) >>
              let* edges := get_edges in
              for_each edges
                (λ edge, let* d1 := get_dist edge.1.2 source in
                         let* d0 := get_dist edge.1.1 source in
                         if decide (d1 > d0 + edge.2)%Z
                         then raise NegativeWeightCycle else ret ()))
             (λ _ st', agree R V st0 st') st).
  apply wp_bind, wp_gets. apply wp_bind.
  apply (wp_for_each (λ _ st', agree R V st0 st')); [done| |].
  - intros done i rest st' _ Hag'.
    apply wp_bind, wp_get_edges; [|done]. intros edges Hedges.
    apply (wp_for_each (λ _ st'', agree R V st0 st'')); [done| |done].
    intros done' [[a b] w] rest' st'' Hl Hag''. simpl.
    eapply wp_mono; [apply (wp_after _ (agree R V st0)), relax_agree|]; [|done|].
    + apply (agree_edge_target st' a b w); [done|].
      apply Hedges. rewrite Hl. apply elem_of_app. right. left.
    + by intros [[]|f] st3 ?.
  - intros st' Hag'.
    apply wp_bind, wp_get_edges; [|done]. intros edges Hedges.
    apply (wp_for_each (λ _ st'', agree R V st0 st'')); [done| |done].
    intros done' [[a b] w] rest' st'' Hl Hag''. simpl.
    apply wp_bind, wp_get_dist; [intros d1 Hd1|done].
    apply wp_bind, wp_get_dist; [intros d2 Hd2|done].
    by case_decide.
Qed.

Section with_queue.
Variable P : MutablePriorityQueue.
Hypothesis P_lawful : pq_lawful P.

Definition tasks_in (q : pq P) : Prop := ∀ a, is_Some (tasks P q !! a) → a ∈ V.

Lemma tasks_in_new : tasks_in (pq_new P).
Proof.
  destruct P_lawful as (Hnew & _). intros a. rewrite Hnew, lookup_empty.
  by intros [? ?].
Qed.

Lemma tasks_in_add q a p : tasks_in q → a ∈ V → tasks_in (add_task P q a p).
Proof.
  destruct P_lawful as (_ & Hadd & _). intros Hq Ha b. rewrite Hadd.
  destruct (decide (a = b)) as [->|Hne]; [done|].
  rewrite lookup_insert_ne by done. apply Hq.
Qed.

Lemma tasks_in_pop q u q' :
  tasks_in q → pop_task P q = Some (u, q') → u ∈ V ∧ tasks_in q'.
Proof.
  destruct P_lawful as (_ & _ & _ & Hpop). intros Hq Hp.
  specialize (Hpop q). rewrite Hp in Hpop. destruct Hpop as [(p & Hu & _) Hq'].
  split; [apply Hq; by exists p|].
  intros a. rewrite Hq'. destruct (decide (u = a)) as [->|Hne].
  - rewrite lookup_delete_eq. by intros [? ?].
  - rewrite lookup_delete_ne by done. apply Hq.
Qed.

Lemma relax_with_priority_update_agree u v w q st :
  v ∈ V → tasks_in q → agree R V st0 st →
  wp (relax_with_priority_update P source u v w q)
     (λ r st', agree R V st0 st' ∧ ∀ q', r = Ok q' → tasks_in q') st.
Proof.
  intros Hv Hq Hag. unfold relax_with_priority_update.
  apply wp_bind, wp_get_dist; [intros dv Hdv|done].
  apply wp_bind, wp_get_dist; [intros du Hdu|done].
  case_decide; [|apply wp_ret; split; [done|by intros ? [= <-]]].
  apply wp_bind, wp_get_dist; [intros du' Hdu'|done].
  apply wp_bind, wp_update. apply wp_bind, wp_update.
  assert (Hag' : agree R V st0
            (set_heap (alter (with_predecessor (Some u)) v)
               (set_heap (alter (with_dist (dict_set source (du' + w)%Z)) v) st))).
  { apply agree_sssp_update; [done| |].
    { intros x. split_and!; [done..|]. exists 0%Z. by left. }
    apply agree_sssp_update; [done| |done].
    intros x. split_and!; [done..|]. exists (du' + w)%Z. by right. }
  apply wp_bind, wp_get_dist; [intros dv' Hdv'|done].
  apply wp_ret. split; [done|]. intros ? [= <-]. by apply tasks_in_add.
Qed.

Lemma dijkstra_while_agree fuel q st :
  tasks_in q → agree R V st0 st →
  agree R V st0 (after (dijkstra_while P fuel source q) st).
Proof.
  revert q st. induction fuel as [|fuel IH]; intros q st Hq Hag; simpl.
  { by destruct (empty P q). }
  destruct (empty P q); [done|].
  destruct (pop_task P q) as [[u q']|] eqn:Hpop; [|done].
  destruct (tasks_in_pop _ _ _ Hq Hpop) as [Hu Hq'].
  change (wp (let* vs := get_connections u in
              let* q0 := for_fold vs q'
                           (λ v q0, let* w := get_weight u v in
                                    relax_with_priority_update P source u v w q0) in
              dijkstra_while P fuel source q0)
             (λ _ st', agree R V st0 st') st).
  apply wp_bind, wp_gets. apply wp_bind.
  apply (wp_for_fold (λ _ q0 st', agree R V st0 st' ∧ tasks_in q0)); [done| |].
  - intros done v rest q0 st' Hvs [Hag' Hq0].
    apply wp_bind, wp_get_weight; [intros w Hw|done].
    eapply wp_mono.
    + apply relax_with_priority_update_agree; [|done..].
      destruct Hag as (Hs & _ & _).
      apply (connections_stored st0 u); [done..|].
      rewrite <-(skeleton_connected_to _ _ u Hs), Hvs.
      apply elem_of_app. right. left.
    + intros [q''|f] st'' [Hag'' Hq'']; [|done]. split; [done|]. by apply Hq''.
  - intros q0 st' [Hag' Hq0]. by apply IH.
Qed.

Lemma dijkstra_search_agree fuel st :
  agree R V st0 st → agree R V st0 (after (dijkstra_search P fuel source) st).
Proof.
  intros Hag. unfold dijkstra_search.
  change (wp (let* v_keys := get_vertices in
              let* q := for_fold v_keys (pq_new P)
                          (λ v_key q, let* v := get_vertex v_key in
                                      let* dv := get_dist v source in
                                      ret (add_task P q v dv)) in
              dijkstra_while P fuel source q)
             (λ _ st', agree R V st0 st') st).
  apply wp_bind, wp_gets. apply wp_bind.
  apply (wp_for_fold (λ _ q st', st' = st ∧ tasks_in q)).
  - split; [done|apply tasks_in_new].
  - intros done k rest q st' _ [-> Hq].
    apply wp_bind, wp_get_vertex; [intros v Hv|done].
    apply wp_bind, wp_get_dist; [intros dv Hdv|done].
    apply wp_ret. split; [done|]. apply tasks_in_add; [done|].
    destruct Hag as (Hs & _ & _). unfold V.
    rewrite <-(skeleton_stored _ _ Hs). by eapply get_vertex_stored.
  - intros q st' [-> Hq]. by apply dijkstra_while_agree.
Qed.
End with_queue.
End fixed.

Lemma bellman_ford_again k st :
  closed st → bellman_ford k (after (bellman_ford k) st) = bellman_ford k st.
Proof.
  intros Hc.
  apply (run_again sssp_reset initialize_single_source bellman_ford_relax).
  - intros. apply sssp_reset_skeleton.
  - intros. apply sssp_reset_idem.
  - intros source st' Hs. by apply initialize_single_source_run.
  - intros source st1 Hs Hsk.
    rewrite <-(skeleton_stored _ _ Hsk).
    apply bellman_ford_relax_agree; [by eapply skeleton_closed|reflexivity].
Qed.

Lemma dijkstra_again P fuel k st :
  pq_lawful P → closed st →
  dijkstra P fuel k (after (dijkstra P fuel k) st) = dijkstra P fuel k st.
Proof.
  intros HP Hc.
  apply (run_again sssp_reset initialize_single_source (dijkstra_search P fuel)).
  - intros. apply sssp_reset_skeleton.
  - intros. apply sssp_reset_idem.
  - intros source st' Hs. by apply initialize_single_source_run.
  - intros source st1 Hs Hsk.
    rewrite <-(skeleton_stored _ _ Hsk).
    apply dijkstra_search_agree; [by eapply skeleton_closed|done|reflexivity].
Qed.
End again_sssp.

(** ** A second [bellman_ford] on any graph *)
Section again_any.
Context {key : Type} `{!EqDecision key} `{!Inhabited key}.
Implicit Types (st X Y F : state key).

Lemma dict_set_get_id {K V} `{!EqDecision K} (k : K) (v : V) d :
  dict_get k d = Some v → dict_set k v d = d.
Proof.
  induction d as [|[k' v'] d IH]; simpl; [done|].
  case_decide as Hk.
  - intros [= ->]. by subst.
  - intros Hg. by rewrite IH.
Qed.

Lemma dist_from_valid st s a d : dist_from st s a = Some d → a < length (heap st).
Proof.
  intros Hd. destruct (decide (a < length (heap st))) as [|Hge]; [done|].
  unfold dist_from in Hd. rewrite vtx_invalid in Hd by lia. done.
Qed.

Lemma lowered_skel s u v d st : skeleton (lowered s u v d st) = skeleton st.
Proof. by apply skeleton_alter. Qed.

Lemma lowered_dist_at s u v d st :
  v < length (heap st) → dist_from (lowered s u v d st) s v = Some d.
Proof.
  intros Hv. unfold dist_from, lowered. rewrite vtx_alter_eq by done.
  simpl. apply dict_get_set_eq.
Qed.

Lemma relax_cases s u v w st :
  relax s u v w st =
  match dist_from st s v, dist_from st s u with
  | Some dv, Some du =>
      (Ok (), if decide (dv > du + w)%Z then lowered s u v (du + w) st else st)
  | _, _ => (Fail KeyError, st)
  end.
Proof.
  unfold relax, bind, get_dist, dist_from.
  destruct (dict_get s (dist (vtx st v))) as [dv|]; [|done].
  destruct (dict_get s (dist (vtx st u))) as [du|] eqn:Hu; [|done].
  case_decide; [|done]. rewrite Hu.
  unfold set_dist, set_predecessor, update, modify, lowered; simpl.
  f_equal. unfold set_heap; simpl. f_equal.
  rewrite list_alter_alter_eq. by apply list_alter_ext.
Qed.

Section fixed.
Variables (source : addr) (V : list addr).

#[global] Instance lower_preorder : PreOrder (lower (key:=key) source).
Proof.
  split.
  - intros st. split_and!; [done..|]. intros a. split; [done|].
    destruct (dist_from st source a) as [d|] eqn:Hd; [|done].
    exists d. split; [lia|]. symmetry. by apply dict_set_get_id.
  - intros st1 st2 st3 (Hs1 & Ho1 & H1) (Hs2 & Ho2 & H2).
    split_and!; [congruence..|]. intros a.
    destruct (H1 a) as [Hc1 Hd1], (H2 a) as [Hc2 Hd2].
    split; [congruence|].
    destruct (dist_from st1 source a) as [d|] eqn:Hd.
    + destruct Hd1 as (d' & Hle & Hd1).
      assert (Hd' : dist_from st2 source a = Some d').
      { unfold dist_from. rewrite Hd1. apply dict_get_set_eq. }
      rewrite Hd' in Hd2. destruct Hd2 as (d'' & Hle' & Hd2).
      exists d''. split; [lia|]. by rewrite Hd2, Hd1, dict_set_set.
    + assert (Hd' : dist_from st2 source a = None).
      { unfold dist_from in *. by rewrite Hd1. }
      rewrite Hd' in Hd2. congruence.
Qed.

Lemma lower_dist st st' a d :
  lower source st st' → dist_from st source a = Some d →
  ∃ d', dist_from st' source a = Some d' ∧ (d' ≤ d)%Z.
Proof.
  intros (_ & _ & H) Hd. destruct (H a) as [_ Ha]. rewrite Hd in Ha.
  destruct Ha as (d' & Hle & Ha). exists d'. split; [|done].
  unfold dist_from. rewrite Ha. apply dict_get_set_eq.
Qed.

Lemma lower_no_dist st st' a :
  lower source st st' → dist_from st source a = None → dist_from st' source a = None.
Proof.
  intros (_ & _ & H) Hd. destruct (H a) as [_ Ha]. rewrite Hd in Ha.
  unfold dist_from in *. by rewrite Ha.
Qed.

Lemma lower_reset st st' a :
  lower source st st' →
  sssp_reset source a (vtx st' a) = sssp_reset source a (vtx st a).
Proof.
  intros (Hs & _ & H). destruct (H a) as [Hc Ha].
  destruct (skeleton_vtx _ _ a Hs) as [Hi Hadj].
  unfold sssp_reset. rewrite Hi, Hadj, Hc. f_equal.
  destruct (dist_from st source a) as [d|]; [|by rewrite Ha].
  destruct Ha as (d' & _ & ->). apply dict_set_set.
Qed.

Lemma lower_lowered u v d dv st :
  dist_from st source v = Some dv → (d ≤ dv)%Z →
  lower source st (lowered source u v d st).
Proof.
  intros Hv Hle. split_and!; [apply lowered_skel|done|].
  intros a. unfold lowered. rewrite vtx_alter.
  case_decide as Ha.
  - destruct Ha as [-> _]. split; [done|]. rewrite Hv. by exists d.
  - split; [done|].
    destruct (dist_from st source a) as [da|] eqn:Hd; [|done].
    exists da. split; [lia|]. symmetry. by apply dict_set_get_id.
Qed.

Lemma relax_lower u v w : stable (lower source) (relax (key:=key) source u v w).
Proof.
  intros st. unfold after. rewrite relax_cases.
  destruct (dist_from st source v) as [dv|] eqn:Hv; [|reflexivity].
  destruct (dist_from st source u) as [du|]; [|reflexivity].
  simpl. case_decide; [|reflexivity].
  apply (lower_lowered _ _ _ dv); [done|lia].
Qed.

Lemma get_edges_lower : stable (lower source) (get_edges (key:=key)).
Proof.
  unfold get_edges, iter_graph, get_connections.
  repeat first [ apply stable_ret; apply _ | apply stable_gets; apply _
               | apply stable_get_weight; apply _
               | apply stable_bind; [apply _| |intros ?]
               | apply stable_for_fold; [apply _|intros ? ?] ].
Qed.

(** *** The two runs side by side *)

Lemma coupled_ret {A} (a : A) : coupled source V (ret (key:=key) a).
Proof. by intros F X Y _ Hc. Qed.

Lemma coupled_gets {A} (g : state key → A) :
  (∀ X Y, skeleton Y = skeleton X → g Y = g X) → coupled source V (gets g).
Proof.
  intros Hg F X Y _ Hc. split; [|done].
  unfold gets; simpl. f_equal. apply Hg. by destruct Hc.
Qed.

Lemma coupled_get_weight u v : coupled source V (get_weight (key:=key) u v).
Proof.
  intros F X Y _ Hc. pose proof Hc as (Hs & _).
  unfold after, get_weight. rewrite (skeleton_connected_to _ _ u Hs).
  by destruct (dict_get v (connected_to (vtx X u))).
Qed.

Lemma coupled_bind {A B} (Φ : A → Prop) (m : M key A) (k : A → M key B) :
  coupled source V m →
  (∀ X a, stored X = V → (m X).1 = Ok a → Φ a) →
  (∀ a, Φ a → coupled source V (k a)) →
  (∀ a, stable (lower source) (k a)) →
  coupled source V (bind m k).
Proof.
  intros Hm HΦ Hk Hst F X Y Hlow Hc.
  specialize (Hm F X Y). specialize (HΦ X).
  unfold after, bind in *.
  destruct (m X) as [[a|f] X'] eqn:HmX; simpl in *.
  - destruct Hm as [Hr Hc']; [|done|].
    { etrans; [apply (Hst a X')|exact Hlow]. }
    destruct (m Y) as [rY Y']; simpl in *; subst rY.
    apply Hk; [|done..]. apply HΦ; [by destruct Hc as (_ & _ & ? & _)|done].
  - destruct Hm as [Hr Hc']; [done..|].
    destruct (m Y) as [rY Y']; simpl in *; subst rY. done.
Qed.

Lemma coupled_for_each {A} (l : list A) (body : A → M key unit) :
  (∀ x, x ∈ l → coupled source V (body x)) →
  (∀ x, stable (lower source) (body x)) →
  coupled source V (for_each l body).
Proof.
  intros Hb Hst. induction l as [|x l IH]; simpl; [apply coupled_ret|].
  apply (coupled_bind (λ _, True)); [apply Hb; left|done| |].
  - intros _ _. apply IH. intros y Hy. apply Hb. by right.
  - intros _. apply stable_for_each; [apply _|done].
Qed.

Lemma coupled_for_fold {A B} (l : list A) (body : A → B → M key B) acc :
  (∀ x acc, coupled source V (body x acc)) →
  (∀ x acc, stable (lower source) (body x acc)) →
  coupled source V (for_fold l acc body).
Proof.
  intros Hb Hst. revert acc. induction l as [|x l IH]; intros acc; simpl;
    [apply coupled_ret|].
  apply (coupled_bind (λ _, True)); [apply Hb|done| |].
  - intros acc' _. apply IH.
  - intros acc'. apply stable_for_fold; [apply _|done].
Qed.

Lemma coupled_get_edges : coupled source V (get_edges (key:=key)).
Proof.
  unfold get_edges, iter_graph, get_connections.
  apply (coupled_bind (λ _, True)); [|done| |].
  - apply coupled_gets. by intros X Y ->%skeleton_vertices.
  - intros vs _. apply coupled_for_fold.
    + intros v edges. apply (coupled_bind (λ _, True)); [|done| |].
      * apply coupled_gets. intros X Y Hs. by rewrite (skeleton_connected_to _ _ v Hs).
      * intros us _. apply coupled_for_fold.
        -- intros u edges'. apply (coupled_bind (λ _, True)); [|done| |].
           ++ apply coupled_get_weight.
           ++ intros w _. apply coupled_ret.
           ++ intros w. apply stable_ret; apply _.
        -- intros u edges'.
           apply stable_bind; [apply _|apply stable_get_weight; apply _|].
           intros w. apply stable_ret; apply _.
      * intros us. apply stable_for_fold; [apply _|]. intros u edges'.
        apply stable_bind; [apply _|apply stable_get_weight; apply _|].
        intros w. apply stable_ret; apply _.
    + intros v edges. apply stable_bind; [apply _|apply stable_gets; apply _|].
      intros us. apply stable_for_fold; [apply _|]. intros u edges'.
      apply stable_bind; [apply _|apply stable_get_weight; apply _|].
      intros w. apply stable_ret; apply _.
  - intros vs. apply stable_for_fold; [apply _|]. intros v edges.
    apply stable_bind; [apply _|apply stable_gets; apply _|].
    intros us. apply stable_for_fold; [apply _|]. intros u edges'.
    apply stable_bind; [apply _|apply stable_get_weight; apply _|].
    intros w. apply stable_ret; apply _.
Qed.

Lemma couple_lowered F X Y u v d :
  v ∈ V → couple V F X Y →
  couple V F (lowered source u v d X) (lowered source u v d Y).
Proof.
  intros Hv (Hs & Ho & Hst & Hvtx). split_and!.
  - by rewrite !lowered_skel.
  - done.
  - by rewrite (skeleton_stored _ _ (lowered_skel _ _ _ _ _)).
  - intros a. unfold lowered. rewrite !vtx_alter, (skeleton_length _ _ Hs), Hvtx.
    case_decide as Ha; [|done]. destruct Ha as [<- _].
    by rewrite !decide_True.
Qed.

Lemma couple_lowered_other F X Y u v d :
  v ∉ V → couple V F X Y → couple V F (lowered source u v d X) Y.
Proof.
  intros Hv (Hs & Ho & Hst & Hvtx). split_and!.
  - by rewrite lowered_skel.
  - done.
  - by rewrite (skeleton_stored _ _ (lowered_skel _ _ _ _ _)).
  - intros a. rewrite Hvtx. case_decide as Ha; [|done].
    unfold lowered. rewrite vtx_alter_ne; [done|]. by intros ->.
Qed.

(** A relaxation towards a stored vertex does the same in both runs;
    towards a vertex object that is not stored it finds, in the second
    run, the distance that the first run has left, which no relaxation
    of the first run can lower any more. *)
Lemma coupled_relax u v w : u ∈ V → coupled source V (relax (key:=key) source u v w).
Proof.
  intros Hu F X Y Hlow Hc. pose proof Hc as (Hs & Ho & Hst & Hvtx).
  unfold after in *. rewrite !relax_cases in *.
  assert (HYu : dist_from Y source u = dist_from X source u).
  { unfold dist_from. by rewrite Hvtx, decide_True. }
  rewrite HYu.
  destruct (decide (v ∈ V)) as [Hv|Hv].
  - assert (HYv : dist_from Y source v = dist_from X source v).
    { unfold dist_from. by rewrite Hvtx, decide_True. }
    rewrite HYv.
    destruct (dist_from X source v) as [dv|]; [|done].
    destruct (dist_from X source u) as [du|]; [|done].
    simpl. split; [done|]. case_decide; [|done]. by apply couple_lowered.
  - assert (HYv : dist_from Y source v = dist_from F source v).
    { unfold dist_from. by rewrite Hvtx, decide_False. }
    rewrite HYv.
    destruct (dist_from X source v) as [dv|] eqn:HXv; last first.
    { simpl in Hlow. by rewrite (lower_no_dist _ _ _ Hlow HXv). }
    destruct (dist_from X source u) as [du|] eqn:HXu; last first.
    { simpl in Hlow. destruct (lower_dist _ _ _ _ Hlow HXv) as (d' & -> & _). done. }
    simpl in *.
    assert (Hfin : ∃ d', dist_from F source v = Some d' ∧ (d' ≤ du + w)%Z).
    { case_decide as Hgt.
      - apply (lower_dist _ _ v (du + w)%Z Hlow).
        rewrite lowered_dist_at by (by eapply dist_from_valid). done.
      - destruct (lower_dist _ _ _ _ Hlow HXv) as (d' & Hd' & Hle).
        exists d'. split; [done|lia]. }
    destruct Hfin as (d' & -> & Hle).
    rewrite (decide_False (P:=(d' > du + w)%Z)) by lia.
    split; [done|]. case_decide; [|done]. by apply couple_lowered_other.
Qed.

Lemma coupled_pass :
  coupled source V
    (let* edges := get_edges (key:=key) in
     for_each edges (λ edge, relax source edge.1.1 edge.1.2 edge.2)).
Proof.
  apply (coupled_bind (λ edges, ∀ e, e ∈ edges → e.1.1 ∈ V)).
  - apply coupled_get_edges.
  - intros X edges HX Hr [[a b] w] He. simpl.
    pose proof (wp_get_edges
                  (λ r _, ∀ es, r = Ok es → ∀ a b w, (a, b, w) ∈ es → a ∈ V) X) as Hwp.
    unfold wp in Hwp. eapply Hwp; [| |exact Hr|exact He].
    + intros es Hes es' [= <-] a' b' w' Hin. rewrite <-HX. by apply (Hes a' b' w').
    + done.
  - intros edges Hedges. apply coupled_for_each.
    + intros e He. apply coupled_relax. by apply Hedges.
    + intros e. apply relax_lower.
  - intros edges. apply stable_for_each; [apply _|]. intros e. apply relax_lower.
Qed.

Lemma coupled_passes {A} (l : list A) :
  coupled source V
    (for_each l (λ _, let* edges := get_edges (key:=key) in
                      for_each edges (λ edge, relax source edge.1.1 edge.1.2 edge.2))).
Proof.
  apply coupled_for_each.
  - intros _ _. apply coupled_pass.
  - intros _. apply stable_bind; [apply _|apply get_edges_lower|].
    intros edges. apply stable_for_each; [apply _|]. intros e. apply relax_lower.
Qed.

Lemma passes_lower {A} (l : list A) :
  stable (lower source)
    (for_each l (λ _, let* edges := get_edges (key:=key) in
                      for_each edges (λ edge, relax source edge.1.1 edge.1.2 edge.2))).
Proof.
  apply stable_for_each; [apply _|]. intros _.
  apply stable_bind; [apply _|apply get_edges_lower|].
  intros edges. apply stable_for_each; [apply _|]. intros e. apply relax_lower.
Qed.
End fixed.

(** The final scan of [bellman_ford] only reads. *)
Lemma final_scan_reads source st :
  after (let* edges := get_edges (key:=key) in
         for_each edges (λ edge,
           let* d1 := get_dist edge.1.2 source in
           let* d0 := get_dist edge.1.1 source in
           if decide (d1 > d0 + edge.2)%Z then raise NegativeWeightCycle else ret ()))
        st = st.
Proof.
  symmetry.
  assert (Hst : stable (key:=key) eq
            (let* edges := get_edges (key:=key) in
             for_each edges (λ edge,
               let* d1 := get_dist edge.1.2 source in
               let* d0 := get_dist edge.1.1 source in
               if decide (d1 > d0 + edge.2)%Z then raise NegativeWeightCycle else ret ())));
    [|apply Hst].
  unfold get_edges, iter_graph, get_connections.
  repeat first [ apply stable_ret; apply _ | apply stable_raise; apply _
               | apply stable_gets; apply _
               | apply stable_get_weight; apply _ | apply stable_get_dist; apply _
               | apply stable_bind; [apply _| |intros ?]
               | apply stable_for_fold; [apply _|intros ? ?]
               | apply stable_for_each; [apply _|intros ?]
               | case_decide ].
Qed.

Lemma couple_same V F Y : couple V F F Y → Y = F.
Proof.
  intros (Hs & Ho & _ & Hvtx). apply state_eq.
  - unfold same_graph.
    rewrite (skeleton_vertices _ _ Hs), (skeleton_num_vertices _ _ Hs),
      (skeleton_directed _ _ Hs). done.
  - by apply skeleton_length.
  - intros a. rewrite Hvtx. by case_decide.
Qed.

(** A second [bellman_ford] from the same key does what the first did and
    ends in the state the first has left, whatever vertex objects the
    graph refers to. *)
Lemma bellman_ford_again_any k st :
  bellman_ford k (after (bellman_ford k) st) = bellman_ford k st.
Proof.
  unfold after.
  destruct (dict_get k (vertices st)) as [s|] eqn:Hk; last first.
  { assert (Hf : get_vertex k st = (Fail KeyError, st)).
    { unfold get_vertex. by rewrite Hk. }
    unfold bellman_ford. rewrite !(bind_fail _ _ _ _ _ Hf). simpl.
    by rewrite ?(bind_fail _ _ _ _ _ Hf). }
  pose proof (get_vertex_stored _ _ _ Hk) as Hs.
  destruct (initialize_single_source_run s st Hs) as (st1 & Hrun & Hsg & Hlen & Hvtx).
  set (passes := λ n : Z,
         for_each (seq 0 (Z.to_nat (n - 1)))
           (λ _, let* edges := get_edges (key:=key) in
                 for_each edges (λ edge, relax s edge.1.1 edge.1.2 edge.2))).
  set (final := let* edges := get_edges (key:=key) in
                for_each edges (λ edge,
                  let* d1 := get_dist edge.1.2 s in
                  let* d0 := get_dist edge.1.1 s in
                  if decide (d1 > d0 + edge.2)%Z then raise NegativeWeightCycle
                  else ret ())).
  assert (Hbf : ∀ st0 st0', dict_get k (vertices st0) = Some s →
            initialize_single_source s st0 = (Ok (), st0') →
            bellman_ford k st0 = bind (passes (num_vertices st0')) (λ _, final) st0').
  { intros st0 st0' Hk0 Hi. unfold bellman_ford.
    erewrite bind_run; [|by apply get_vertex_run].
    erewrite bind_run; [|exact Hi]. done. }
  rewrite (Hbf st st1 Hk Hrun).
  assert (Hskel1 : skeleton st1 = skeleton st).
  { apply skeleton_of_vtx; [done..|]. intros a. rewrite Hvtx. by case_decide. }
  destruct (passes (num_vertices st1) st1) as [r1 F] eqn:Hp.
  assert (Hlow : lower s st1 F).
  { pose proof (passes_lower s (seq 0 (Z.to_nat (num_vertices st1 - 1))) st1) as Hl.
    unfold after in Hl. fold (passes (num_vertices st1)) in Hl. by rewrite Hp in Hl. }
  assert (Hfirst : (bind (passes (num_vertices st1)) (λ _, final) st1).2 = F).
  { unfold bind. rewrite Hp. destruct r1 as [[]|f]; [|done]. apply final_scan_reads. }
  rewrite Hfirst.
  pose proof Hlow as (HsF & HoF & _).
  assert (HkF : dict_get k (vertices F) = Some s).
  { by rewrite (skeleton_vertices _ _ HsF), (skeleton_vertices _ _ Hskel1). }
  assert (HsF' : s ∈ stored F) by by eapply get_vertex_stored.
  destruct (initialize_single_source_run s F HsF') as (Y0 & HrunF & HsgF & HlenF & HvtxF).
  rewrite (Hbf F Y0 HkF HrunF).
  assert (HskelY : skeleton Y0 = skeleton F).
  { apply skeleton_of_vtx; [done..|]. intros a. rewrite HvtxF. by case_decide. }
  assert (Hc : couple (stored st) F st1 Y0).
  { split_and!.
    - by rewrite HskelY, HsF.
    - destruct Hsg as (_ & _ & _ & Ho1), HsgF as (_ & _ & _ & Ho2). congruence.
    - by apply skeleton_stored.
    - intros a. rewrite HvtxF, Hvtx.
      rewrite (skeleton_stored _ _ HsF), (skeleton_stored _ _ Hskel1).
      rewrite (skeleton_length _ _ HsF), (skeleton_length _ _ Hskel1).
      destruct (decide (a ∈ stored st)) as [Ha|Ha].
      + destruct (decide (a < length (heap st))) as [Hl|Hl].
        * rewrite !decide_True by done.
          rewrite (lower_reset s st1 F a Hlow), Hvtx, decide_True by done.
          apply sssp_reset_idem.
        * rewrite !decide_False by (intros [_ ?]; done).
          rewrite !vtx_invalid; [done|lia|].
          rewrite (skeleton_length _ _ HsF), (skeleton_length _ _ Hskel1). lia.
      + by rewrite decide_False by (intros [? _]; done). }
  assert (Hn : num_vertices Y0 = num_vertices st1).
  { by rewrite (skeleton_num_vertices _ _ HskelY), (skeleton_num_vertices _ _ HsF). }
  rewrite Hn.
  destruct (coupled_passes s (stored st) (seq 0 (Z.to_nat (num_vertices st1 - 1)))
              F st1 Y0) as [Hr HcF].
  { unfold after. fold (passes (num_vertices st1)). rewrite Hp. reflexivity. }
  { exact Hc. }
  unfold after in HcF. fold (passes (num_vertices st1)) in Hr, HcF.
  rewrite Hp in Hr, HcF. simpl in Hr, HcF.
  apply couple_same in HcF.
  unfold bind. rewrite Hp.
  destruct (passes (num_vertices st1) Y0) as [r2 Y1]. simpl in *. subst. done.
Qed.
End again_any.

Section again_all.
Context {key : Type} `{!EqDecision key} `{!Inhabited key}.
Implicit Types (st : state key).

(** C9, as the code has it. Running [bellman_ford] again from the same
    key ends with the same outcome and leaves the whole state, hence every
    [dist] and [predecessor], as the first run left it, on every graph.
    For [bfs] and [dijkstra] this holds in a graph whose adjacency entries
    all refer to stored vertices, which is the case as long as no key was
    added twice. *)
Theorem second_run_changes_nothing (P : MutablePriorityQueue) (st : state key)
    (k : key) (fuel : nat) :
  (bellman_ford k (after (bellman_ford k) st) = bellman_ford k st ∧
   after (bellman_ford k) (after (bellman_ford k) st) = after (bellman_ford k) st) ∧
  (closed st → pq_lawful P →
   (bfs k (after (bfs k) st) = bfs k st ∧
    after (bfs k) (after (bfs k) st) = after (bfs k) st) ∧
   (dijkstra P fuel k (after (dijkstra P fuel k) st) = dijkstra P fuel k st ∧
    after (dijkstra P fuel k) (after (dijkstra P fuel k) st)
      = after (dijkstra P fuel k) st)).
Proof.
  pose proof (bellman_ford_again_any k st) as H2.
  split; [split; [done|]|].
  - unfold after at 1. by rewrite H2.
  - intros Hc HP.
    pose proof (bfs_again k st Hc) as H1.
    pose proof (dijkstra_again P fuel k st HP Hc) as H3.
    split_and!; try done.
    + unfold after at 1. by rewrite H1.
    + unfold after at 1. by rewrite H3.
Qed.
End again_all.

(** ** Checking concrete graphs and the map-based queue *)
Section check_facts.
Context {key : Type} `{!EqDecision key} `{!Inhabited key}.
Implicit Types (st : state key).

Lemma closedb_closed st : closedb st = true → closed st.
Proof.
  unfold closedb. rewrite forallb_forall. intros Hall u v w [Hu Hg].
  apply list_elem_of_In, Hall in Hu. rewrite forallb_forall in Hu.
  apply dict_get_Some, list_elem_of_In, Hu in Hg.
  by apply bool_decide_eq_true in Hg.
Qed.

Lemma nonnegativeb_nonnegative st :
  nonnegativeb st = true → ∀ u v w, edge st u v w → (0 ≤ w)%Z.
Proof.
  unfold nonnegativeb. rewrite forallb_forall. intros Hall u v w [Hu Hg].
  apply list_elem_of_In, Hall in Hu. rewrite forallb_forall in Hu.
  apply dict_get_Some, list_elem_of_In, Hu in Hg.
  by apply bool_decide_eq_true in Hg.
Qed.

Lemma boundedb_bounded W st :
  boundedb W st = true → ∀ u v w, edge st u v w → (Z.abs w ≤ W)%Z.
Proof.
  unfold boundedb. rewrite forallb_forall. intros Hall u v w [Hu Hg].
  apply list_elem_of_In, Hall in Hu. rewrite forallb_forall in Hu.
  apply dict_get_Some, list_elem_of_In, Hu in Hg.
  by apply bool_decide_eq_true in Hg.
Qed.

Lemma graph_invb_graph_inv st : graph_invb st = true → graph_inv st.
Proof.
  unfold graph_invb. rewrite !andb_true_iff, !bool_decide_eq_true, !forallb_forall.
  intros [[[[[H1 H2] H3] H4] H5] H6]. split; try done.
  - intros a Ha%list_elem_of_In%H3. by apply bool_decide_eq_true in Ha.
  - intros k a Hin%list_elem_of_In%H4. by apply bool_decide_eq_true in Hin.
  - intros a. destruct (decide (a < length (heap st))) as [Hlt|Hge].
    + destruct (lookup_lt_is_Some_2 (heap st) a Hlt) as [x Hx].
      unfold vtx. rewrite list_lookup_total_alt, Hx. simpl.
      assert (Hin : x ∈ heap st) by (apply list_elem_of_lookup; by exists a).
      apply list_elem_of_In, H5 in Hin. by apply bool_decide_eq_true in Hin.
    + rewrite vtx_invalid by lia. apply NoDup_nil_2.
Qed.
End check_facts.

Lemma min_task_spec l :
  match min_task l with
  | None => l = []
  | Some x => x ∈ l ∧ ∀ y, y ∈ l → (x.2 ≤ y.2)%Z
  end.
Proof.
  induction l as [|x l IH]; simpl; [done|].
  destruct (min_task l) as [y|].
  - destruct IH as [Hy Hmin]. case_decide.
    + split; [left|]. intros z [->|Hz]%elem_of_cons; [lia|].
      specialize (Hmin z Hz). lia.
    + split; [by right|]. intros z [->|Hz]%elem_of_cons; [lia|]. by apply Hmin.
  - subst. split; [left|]. intros z ->%list_elem_of_singleton. lia.
Qed.

Lemma gmap_pq_lawful : pq_lawful gmap_pq.
Proof.
  split_and!; simpl.
  - done.
  - done.
  - intros q. apply bool_decide_eq_true.
  - intros q. pose proof (min_task_spec (map_to_list q)) as Hmin.
    destruct (min_task (map_to_list q)) as [[a p]|].
    + destruct Hmin as [Hin Hmin]. split; [|done]. exists p. split.
      * by apply elem_of_map_to_list.
      * intros b p' Hb. apply (Hmin (b, p')). by apply elem_of_map_to_list.
    + by apply map_to_list_empty_iff.
Qed.

(** ** Walks *)
Section walk_facts.
Context {key : Type} `{!EqDecision key} `{!Inhabited key}.
Implicit Types (st : state key).

Lemma skeleton_walk st st' a p b w :
  skeleton st' = skeleton st → walk st a p b w → walk st' a p b w.
Proof.
  intros Hs. induction 1 as [a Ha|a p b c w w' Hw IH He].
  - apply walk_nil. by rewrite (skeleton_stored _ _ Hs).
  - eapply walk_snoc; [done|]. by apply (skeleton_edge _ _ _ _ _ Hs).
Qed.

Lemma walk_start st a p b w : walk st a p b w → a ∈ stored st.
Proof. by induction 1. Qed.

Lemma walk_end st a p b w : closed st → walk st a p b w → b ∈ stored st.
Proof. intros Hc. destruct 1 as [a Ha|a p b c w w' Hw He]; [done|]. by eapply Hc. Qed.

Lemma walk_edge st a b w : edge st a b w → walk st a [a] b w.
Proof.
  intros He. change [a] with ([] ++ [a]). replace w with (0 + w)%Z by lia.
  eapply walk_snoc; [|done]. apply walk_nil. by destruct He.
Qed.

Lemma walk_app st a p b w q c w' :
  walk st a p b w → walk st b q c w' → walk st a (p ++ q) c (w + w').
Proof.
  intros Hp Hq. induction Hq as [b Hb|b q c e w1 w2 Hq IH He].
  - rewrite app_nil_r. by replace (w + 0)%Z with w by lia.
  - rewrite app_assoc. replace (w + (w1 + w2))%Z with (w + w1 + w2)%Z by lia.
    eapply walk_snoc; [|done]. by apply IH.
Qed.

(** A walk can be cut at any vertex it leaves. *)
Lemma walk_split st a p1 x p2 b w :
  walk st a (p1 ++ x :: p2) b w →
  ∃ w1 w2, walk st a p1 x w1 ∧ walk st x (x :: p2) b w2 ∧ w = (w1 + w2)%Z.
Proof.
  remember (p1 ++ x :: p2) as p eqn:Hp. intros Hw. revert p1 x p2 Hp.
  induction Hw as [a Ha|a p b c w w' Hw IH He]; intros p1 x p2 Hp.
  - by destruct p1.
  - destruct (decide (p2 = [])) as [->|Hne].
    + apply app_inj_tail in Hp as [-> ->].
      exists w, w'. split_and!; [done| |done]. by apply walk_edge.
    + destruct (exists_last Hne) as (p2' & y & ->).
      rewrite app_comm_cons, app_assoc in Hp.
      apply app_inj_tail in Hp as [-> ->].
      destruct (IH p1 x p2' eq_refl) as (w1 & w2 & H1 & H2 & ->).
      exists w1, (w2 + w')%Z. split_and!; [done| |lia].
      rewrite app_comm_cons. by eapply walk_snoc.
Qed.

Lemma walk_left st a p b w x : closed st → walk st a p b w → x ∈ p → x ∈ stored st.
Proof.
  intros Hc. induction 1 as [a Ha|a p b c w w' Hw IH He]; [by intros ?%elem_of_nil|].
  intros [Hx| ->%list_elem_of_singleton]%elem_of_app; [auto|]. by destruct He.
Qed.

Lemma nonnegative_walk st a p b w :
  (∀ u v x, edge st u v x → (0 ≤ x)%Z) → walk st a p b w → (0 ≤ w)%Z.
Proof.
  intros Hnn. induction 1 as [a Ha|a p b c w w' Hw IH He]; [done|].
  specialize (Hnn _ _ _ He). lia.
Qed.

(** A list that repeats an element can be cut around the repetition. *)
Lemma not_NoDup_split (l : list addr) :
  ¬ NoDup l → ∃ l1 x l2 l3, l = l1 ++ x :: l2 ++ x :: l3.
Proof.
  induction l as [|y l IH]; intros Hnd.
  - destruct Hnd. apply NoDup_nil_2.
  - destruct (decide (y ∈ l)) as [Hin|Hnin].
    + apply list_elem_of_split in Hin as (l2 & l3 & ->).
      by exists [], y, l2, l3.
    + destruct IH as (l1 & x & l2 & l3 & ->).
      { intros Hl. apply Hnd. by apply NoDup_cons. }
      by exists (y :: l1), x, l2, l3.
Qed.

(** Without negative cycles, cutting the cycles out of a walk gives a walk
    between the same vertices that is not heavier and passes no vertex
    twice. *)
Lemma walk_simplify st a p b w :
  ¬ negative_cycle st → walk st a p b w →
  ∃ p' w', walk st a p' b w' ∧ (w' ≤ w)%Z ∧ NoDup (p' ++ [b]).
Proof.
  intros Hnc. remember (length p) as n eqn:Hn. revert p a b w Hn.
  induction n as [n IH] using lt_wf_ind. intros p a b w -> Hw.
  destruct (decide (NoDup (p ++ [b]))) as [Hnd|Hnd].
  { exists p, w. split_and!; [done|lia|done]. }
  apply not_NoDup_split in Hnd as (l1 & x & l2 & l3 & Hl).
  destruct (decide (l3 = [])) as [->|Hne].
  - (* the walk comes back to its end *)
    rewrite app_comm_cons, app_assoc in Hl. apply app_inj_tail in Hl as [-> ->].
    destruct (walk_split _ _ _ _ _ _ _ Hw) as (w1 & w2 & H1 & H2 & ->).
    assert (0 ≤ w2)%Z.
    { destruct (decide (0 ≤ w2)%Z) as [|Hneg]; [done|]. destruct Hnc.
      exists x, (x :: l2), w2. split_and!; [done|done|lia]. }
    destruct (IH (length l1)) with (a := a) (b := x) (w := w1) (p := l1)
      as (p' & w' & Hw' & Hle & Hnd'); [|done..|].
    { rewrite length_app; simpl; lia. }
    exists p', w'. split_and!; [done|lia|done].
  - (* the walk passes a vertex twice *)
    destruct (exists_last Hne) as (l3' & y & ->).
    rewrite (app_comm_cons l2), app_comm_cons, !app_assoc in Hl.
    apply app_inj_tail in Hl as [-> ->]. rewrite <-!app_assoc in Hw. simpl in Hw.
    destruct (walk_split _ _ _ _ _ _ _ Hw) as (w1 & w2 & H1 & H2 & ->).
    change (x :: l2 ++ x :: l3') with ((x :: l2) ++ x :: l3') in H2.
    destruct (walk_split _ _ _ _ _ _ _ H2) as (w3 & w4 & H3 & H4 & ->).
    assert (0 ≤ w3)%Z.
    { destruct (decide (0 ≤ w3)%Z) as [|Hneg]; [done|]. destruct Hnc.
      exists x, (x :: l2), w3. split_and!; [done|done|lia]. }
    pose proof (walk_app _ _ _ _ _ _ _ _ H1 H4) as Hcut.
    destruct (IH (length (l1 ++ x :: l3'))) with (a := a) (b := y)
      (w := (w1 + w4)%Z) (p := l1 ++ x :: l3') as (p' & w' & Hw' & Hle & Hnd'); [|done..|].
    { rewrite !length_app; simpl. rewrite ?length_app; simpl. lia. }
    exists p', w'. split_and!; [done|lia|done].
Qed.

(** So such a walk leaves fewer vertices than the graph stores. *)
Lemma walk_short st a p b w :
  closed st → ¬ negative_cycle st → walk st a p b w →
  ∃ p' w', walk st a p' b w' ∧ (w' ≤ w)%Z ∧ length p' < length (stored st).
Proof.
  intros Hc Hnc Hw.
  destruct (walk_simplify _ _ _ _ _ Hnc Hw) as (p' & w' & Hw' & Hle & Hnd).
  exists p', w'. split_and!; [done..|].
  assert (length (p' ++ [b]) ≤ length (stored st)) as Hlen.
  { apply submseteq_length, NoDup_submseteq; [done|].
    intros x [Hx| ->%list_elem_of_singleton]%elem_of_app.
    - by eapply walk_left.
    - by eapply walk_end. }
  rewrite length_app in Hlen; simpl in Hlen. lia.
Qed.

(** If no edge can be relaxed, no cycle is negative. *)
Lemma settled_walk st (d : addr → Z) a p b w :
  (∀ u v x, edge st u v x → (d v ≤ d u + x)%Z) →
  walk st a p b w → (d b ≤ d a + w)%Z.
Proof.
  intros Hd. induction 1 as [a Ha|a p b c w w' Hw IH He]; [lia|].
  specialize (Hd _ _ _ He). lia.
Qed.

Lemma settled_no_negative_cycle st (d : addr → Z) :
  (∀ u v x, edge st u v x → (d v ≤ d u + x)%Z) → ¬ negative_cycle st.
Proof.
  intros Hd (a & p & w & Hw & _ & Hneg).
  pose proof (settled_walk _ _ _ _ _ _ Hd Hw). lia.
Qed.

Lemma nonnegative_no_negative_cycle st :
  (∀ u v x, edge st u v x → (0 ≤ x)%Z) → ¬ negative_cycle st.
Proof.
  intros Hnn (a & p & w & Hw & _ & Hneg).
  pose proof (nonnegative_walk _ _ _ _ _ Hnn Hw). lia.
Qed.

Lemma least_estimate_unique st s v d d' :
  least_estimate st s v d → least_estimate st s v d' → d = d'.
Proof.
  intros [(x & p & w & Hw & ->) Hle] [(x' & p' & w' & Hw' & ->) Hle'].
  specialize (Hle _ _ _ Hw'). specialize (Hle' _ _ _ Hw). lia.
Qed.
End walk_facts.

(** ** Relaxation *)
Section relaxation.
Context {key : Type} `{!EqDecision key} `{!Inhabited key}.
Implicit Types (st : state key).

Lemma dist_from_alter g a st s x :
  a < length (heap st) →
  dist_from (set_heap (alter g a) st) s x =
  if decide (x = a) then dict_get s (dist (g (vtx st a))) else dist_from st s x.
Proof.
  intros Ha. unfold dist_from. rewrite vtx_alter.
  destruct (decide (x = a)) as [->|Hne].
  - by rewrite decide_True.
  - rewrite decide_False; [done|]. intros [-> _]. done.
Qed.

Lemma lowered_skeleton s u v d st : skeleton (lowered s u v d st) = skeleton st.
Proof. by apply skeleton_alter. Qed.

Lemma lowered_dist s u v d st x :
  v < length (heap st) →
  dist_from (lowered s u v d st) s x = if decide (x = v) then Some d else dist_from st s x.
Proof.
  intros Hv. unfold lowered. rewrite dist_from_alter by done.
  case_decide; [|done]. simpl. apply dict_get_set_eq.
Qed.

Lemma lowered_estimate s u v d st x :
  v < length (heap st) →
  estimate (lowered s u v d st) s x = if decide (x = v) then d else estimate st s x.
Proof. intros Hv. unfold estimate. rewrite lowered_dist by done. by case_decide. Qed.

Lemma get_dist_run v s st d : dist_from st s v = Some d → get_dist v s st = (Ok d, st).
Proof. unfold get_dist, dist_from. by intros ->. Qed.

Lemma relax_run s u v w st :
  dist_from st s u = Some (estimate st s u) →
  dist_from st s v = Some (estimate st s v) →
  relax s u v w st =
  (Ok (), if decide (estimate st s v > estimate st s u + w)%Z
          then lowered s u v (estimate st s u + w) st else st).
Proof.
  intros Hu Hv. unfold relax.
  erewrite bind_run; [|by apply get_dist_run].
  erewrite bind_run; [|by apply get_dist_run].
  case_decide; [|done].
  erewrite bind_run; [|by apply get_dist_run].
  unfold bind, set_dist, set_predecessor, update, modify, lowered; simpl.
  f_equal. unfold set_heap; simpl. f_equal.
  rewrite list_alter_alter_eq. by apply list_alter_ext.
Qed.

Section fixed.
Variables (st0 : state key) (s : addr).
Hypothesis st0_inv : graph_inv st0.
Hypothesis st0_closed : closed st0.

Lemma sssp_inv_edge st u v w :
  sssp_inv st0 s st → edge st0 u v w →
  u ∈ stored st0 ∧ v ∈ stored st0 ∧ v < length (heap st) ∧
  dist_from st s u = Some (estimate st s u) ∧
  dist_from st s v = Some (estimate st s v).
Proof.
  intros [Hs Hd _ _] He.
  assert (Hu : u ∈ stored st0) by by destruct He.
  assert (Hv : v ∈ stored st0) by by eapply st0_closed.
  split_and!; auto.
  rewrite (skeleton_length _ _ Hs). by apply (inv_valid _ st0_inv).
Qed.

Lemma sssp_inv_lowered st u v w :
  sssp_inv st0 s st → edge st0 u v w →
  (estimate st s v > estimate st s u + w)%Z →
  sssp_inv st0 s (lowered s u v (estimate st s u + w) st).
Proof.
  intros Hinv He Hgt.
  destruct (sssp_inv_edge _ _ _ _ Hinv He) as (Hu & Hv & Hlt & _ & _).
  destruct Hinv as [Hs Hd Hi Hw]. split.
  - by rewrite lowered_skeleton.
  - intros x Hx. rewrite lowered_dist, lowered_estimate by done.
    case_decide; [done|auto].
  - intros x Hx. rewrite lowered_estimate by done. case_decide; subst; [|auto].
    specialize (Hi v Hv). lia.
  - intros x Hx. rewrite lowered_estimate by done. case_decide; subst; [|auto].
    destruct (Hw u Hu) as (y & p & wp & Hp & Heq).
    exists y, (p ++ [u]), (wp + w)%Z. split; [by eapply walk_snoc|lia].
Qed.

(** One pass of relaxations lowers the estimates and leaves every edge
    of the pass relaxed against the estimates it started from. *)
Lemma relax_all_run edges st :
  sssp_inv st0 s st →
  (∀ e, e ∈ edges → edge st0 e.1.1 e.1.2 e.2) →
  ∃ st', relax_all s edges st = (Ok (), st') ∧ sssp_inv st0 s st' ∧
         (∀ v, estimate st' s v ≤ estimate st s v)%Z ∧
         (∀ e, e ∈ edges → estimate st' s e.1.2 ≤ estimate st s e.1.1 + e.2)%Z.
Proof.
  revert st. induction edges as [|[[u v] w] edges IH]; intros st Hinv Hedges.
  { exists st. split_and!; [done|done|intros; lia|]. by intros e ?%elem_of_nil. }
  assert (He : edge st0 u v w) by (apply (Hedges (u, v, w)); left).
  destruct (sssp_inv_edge _ _ _ _ Hinv He) as (Hu & Hv & Hlt & Hdu & Hdv).
  set (st1 := if decide (estimate st s v > estimate st s u + w)%Z
              then lowered s u v (estimate st s u + w) st else st).
  assert (Hinv1 : sssp_inv st0 s st1).
  { unfold st1. case_decide; [by apply sssp_inv_lowered|done]. }
  assert (Hle1 : ∀ x, (estimate st1 s x ≤ estimate st s x)%Z).
  { intros x. unfold st1. case_decide; [|lia].
    rewrite lowered_estimate by done. case_decide; subst; lia. }
  assert (Huv : (estimate st1 s v ≤ estimate st s u + w)%Z).
  { unfold st1. case_decide; [|lia].
    rewrite lowered_estimate by done. rewrite decide_True by done. lia. }
  destruct (IH st1 Hinv1) as (st' & Hrun & Hinv' & Hle & Hrel).
  { intros e He'. apply Hedges. by right. }
  exists st'. split_and!; [|done| |].
  - unfold relax_all in *. simpl. erewrite bind_run; [|by apply relax_run]. done.
  - intros x. specialize (Hle x). specialize (Hle1 x). lia.
  - intros e [->|He']%elem_of_cons; simpl.
    + specialize (Hle v). lia.
    + specialize (Hrel e He'). specialize (Hle1 e.1.1). lia.
Qed.

Lemma get_edges_run_inv st :
  sssp_inv st0 s st →
  get_edges st = (Ok (edges_of st), st) ∧
  ∀ e, e ∈ edges_of st ↔ edge st0 e.1.1 e.1.2 e.2.
Proof.
  intros [Hs _ _ _].
  assert (Hinv : graph_inv st) by by eapply skeleton_graph_inv.
  split; [by apply get_edges_run|].
  intros [[u v] w]. rewrite edges_of_edge by done. simpl.
  apply skeleton_edge. done.
Qed.

Lemma pass_run k st :
  sssp_inv st0 s st → upper st0 s k st →
  ∃ st', (let* edges := get_edges in relax_all s edges) st = (Ok (), st') ∧
         sssp_inv st0 s st' ∧ upper st0 s (S k) st'.
Proof.
  intros Hinv Hup.
  destruct (get_edges_run_inv _ Hinv) as [Hget Hedges].
  destruct (relax_all_run (edges_of st) st Hinv) as (st' & Hrun & Hinv' & Hle & Hrel).
  { intros e He. by apply Hedges. }
  exists st'. split_and!; [|done|].
  - erewrite bind_run; [|exact Hget]. done.
  - intros x p v w Hw Hlen.
    destruct Hw as [a Ha|a p b c w w' Hw He].
    + pose proof (si_initial _ _ _ Hinv' a Ha). lia.
    + rewrite length_app in Hlen; simpl in Hlen.
      assert (estimate st s b ≤ initial s a + w)%Z by (apply (Hup a p b w); [done|lia]).
      assert (estimate st' s c ≤ estimate st s b + w')%Z.
      { apply (Hrel (b, c, w')). by apply Hedges. }
      lia.
Qed.

Lemma passes_run {A} (l : list A) k st :
  sssp_inv st0 s st → upper st0 s k st →
  ∃ st', for_each l (λ _, let* edges := get_edges in relax_all s edges) st = (Ok (), st') ∧
         sssp_inv st0 s st' ∧ upper st0 s (k + length l) st'.
Proof.
  revert k st. induction l as [|x l IH]; intros k st Hinv Hup; simpl.
  - exists st. rewrite Nat.add_0_r. done.
  - destruct (pass_run k st Hinv Hup) as (st1 & Hrun1 & Hinv1 & Hup1).
    destruct (IH (S k) st1 Hinv1 Hup1) as (st' & Hrun & Hinv' & Hup').
    exists st'. split_and!; [|done|].
    + erewrite bind_run; [|exact Hrun1]. done.
    + by replace (k + S (length l)) with (S k + length l) by lia.
Qed.

(** The final scan raises exactly if some edge can still be relaxed. *)
Lemma scan_run edges st :
  sssp_inv st0 s st →
  (∀ e, e ∈ edges → edge st0 e.1.1 e.1.2 e.2) →
  scan s edges st =
  (if decide (Exists (relaxable st s) edges) then Fail NegativeWeightCycle else Ok (), st).
Proof.
  intros Hinv. induction edges as [|[[u v] w] edges IH]; intros Hedges.
  { simpl. destruct (decide (Exists (relaxable st s) [])) as [Hex|_]; [|done].
    by apply Exists_nil in Hex. }
  assert (He : edge st0 u v w) by (apply (Hedges (u, v, w)); left).
  destruct (sssp_inv_edge _ _ _ _ Hinv He) as (Hu & Hv & Hlt & Hdu & Hdv).
  unfold scan in *. simpl.
  destruct (decide (estimate st s v > estimate st s u + w)%Z) as [Hgt|Hle].
  - erewrite bind_fail; last first.
    { erewrite bind_run; [|by apply get_dist_run].
      erewrite bind_run; [|by apply get_dist_run].
      simpl. rewrite decide_True by done. done. }
    destruct (decide (Exists (relaxable st s) ((u, v, w) :: edges))) as [_|Hex]; [done|].
    destruct Hex. by left.
  - erewrite bind_run; last first.
    { erewrite bind_run; [|by apply get_dist_run].
      erewrite bind_run; [|by apply get_dist_run].
      simpl. rewrite decide_False by done. done. }
    rewrite IH by (intros e He'; apply Hedges; by right).
    destruct (decide (Exists (relaxable st s) edges)) as [Hex|Hex];
      destruct (decide (Exists (relaxable st s) ((u, v, w) :: edges))) as [Hex'|Hex'];
      try done.
    + destruct Hex'. by right.
    + apply Exists_cons in Hex' as [Hr|?]; [|done]. by destruct Hle.
Qed.

Lemma upper_all k st :
  length (stored st0) ≤ S k → ¬ negative_cycle st0 →
  upper st0 s k st → ∀ x p v w, walk st0 x p v w → (estimate st s v ≤ initial s x + w)%Z.
Proof.
  intros Hk Hnc Hup x p v w Hw.
  destruct (walk_short _ _ _ _ _ st0_closed Hnc Hw) as (p' & w' & Hw' & Hle & Hlen).
  assert (estimate st s v ≤ initial s x + w')%Z by (apply (Hup x p' v w'); [done|lia]).
  lia.
Qed.

Lemma all_settled st :
  sssp_inv st0 s st →
  (∀ x p v w, walk st0 x p v w → (estimate st s v ≤ initial s x + w)%Z) →
  ∀ u v w, edge st0 u v w → (estimate st s v ≤ estimate st s u + w)%Z.
Proof.
  intros Hinv Hall u v w He.
  assert (Hu : u ∈ stored st0) by by destruct He.
  destruct (si_walk _ _ _ Hinv u Hu) as (x & p & wp & Hp & ->).
  pose proof (Hall x (p ++ [u]) v (wp + w)%Z (walk_snoc _ _ _ _ _ _ _ Hp He)). lia.
Qed.

Lemma settled_least st v :
  sssp_inv st0 s st → v ∈ stored st0 →
  (∀ u v w, edge st0 u v w → (estimate st s v ≤ estimate st s u + w)%Z) →
  least_estimate st0 s v (estimate st s v).
Proof.
  intros Hinv Hv Hset. split; [by apply (si_walk _ _ _ Hinv)|].
  intros x p w Hw.
  pose proof (settled_walk _ (estimate st s) _ _ _ _ Hset Hw).
  pose proof (si_initial _ _ _ Hinv x (walk_start _ _ _ _ _ Hw)). lia.
Qed.
End fixed.
End relaxation.

(** ** Bellman-Ford *)
Section bellman_ford_facts.
Context {key : Type} `{!EqDecision key} `{!Inhabited key}.
Implicit Types (st : state key).

Lemma walk_nil_inv st a b w : walk st a [] b w → a = b ∧ w = 0%Z.
Proof.
  inversion 1 as [|? p ? ? ? ? ? ? Hp]; [done|]. by destruct p.
Qed.

Lemma initialized st s :
  graph_inv st → s ∈ stored st →
  ∃ st1, initialize_single_source s st = (Ok (), st1) ∧
         sssp_inv st s st1 ∧ upper st s 0 st1 ∧
         (∀ v, v ∈ stored st → estimate st1 s v = initial s v ∧
                                predecessor (vtx st1 v) = None ∧
                                color (vtx st1 v) = color (vtx st v)).
Proof.
  intros Hinv Hs.
  destruct (initialize_single_source_run s st Hs) as (st1 & Hrun & Hsg & Hlen & Hvtx).
  assert (Hest : ∀ v, v ∈ stored st → dist_from st1 s v = Some (initial s v)).
  { intros v Hv. unfold dist_from. rewrite Hvtx.
    rewrite decide_True by (split; [done|by apply (inv_valid _ Hinv)]).
    simpl. by rewrite dict_get_set_eq. }
  assert (Hest' : ∀ v, v ∈ stored st → estimate st1 s v = initial s v).
  { intros v Hv. unfold estimate. by rewrite Hest. }
  exists st1. split_and!; [done| | |].
  - split.
    + apply skeleton_of_vtx; [done..|]. intros a. rewrite Hvtx. by case_decide.
    + intros v Hv. by rewrite Hest, Hest'.
    + intros v Hv. rewrite Hest' by done. lia.
    + intros v Hv. exists v, [], 0%Z. split; [by apply walk_nil|].
      rewrite Hest' by done. lia.
  - intros x p v w Hw Hp. destruct p; [|simpl in Hp; lia].
    pose proof (walk_start _ _ _ _ _ Hw) as Hx.
    apply walk_nil_inv in Hw as [-> ->].
    rewrite Hest' by done. lia.
  - intros v Hv. split_and!; [by apply Hest'| |].
    + rewrite Hvtx. by rewrite decide_True by (split; [done|by apply (inv_valid _ Hinv)]).
    + rewrite Hvtx. by rewrite decide_True by (split; [done|by apply (inv_valid _ Hinv)]).
Qed.

Lemma walk_weight_bound st W a p b w :
  (∀ u v x, edge st u v x → (Z.abs x ≤ W)%Z) →
  walk st a p b w → (Z.abs w ≤ Z.of_nat (length p) * W)%Z.
Proof.
  intros HW. induction 1 as [a Ha|a p b c w w' Hw IH He]; [simpl; lia|].
  specialize (HW _ _ _ He). rewrite length_app; simpl. lia.
Qed.

(** What [bellman_ford] does on a graph without stale adjacency entries. *)
Lemma bellman_ford_run st k s :
  graph_inv st → closed st → dict_get k (vertices st) = Some s →
  ∃ st', sssp_inv st s st' ∧
    ((negative_cycle st ∧ bellman_ford k st = (Fail NegativeWeightCycle, st')) ∨
     (¬ negative_cycle st ∧ bellman_ford k st = (Ok (), st') ∧
      ∀ v, v ∈ stored st → least_estimate st s v (estimate st' s v))).
Proof.
  intros Hinv Hc Hk.
  pose proof (get_vertex_stored _ _ _ Hk) as Hs.
  destruct (initialized st s Hinv Hs) as (st1 & Hrun1 & Hinv1 & Hup1 & _).
  set (n := Z.to_nat (num_vertices st1 - 1)).
  destruct (passes_run st s Hinv Hc (seq 0 n) 0 st1 Hinv1 Hup1)
    as (st2 & Hrun2 & Hinv2 & Hup2).
  rewrite length_seq in Hup2. simpl in Hup2.
  destruct (get_edges_run_inv st s Hinv st2 Hinv2) as [Hget Hedges].
  pose proof (scan_run st s Hinv Hc (edges_of st2) st2 Hinv2
                (λ e He, proj1 (Hedges e) He)) as Hscan.
  assert (Hrun : bellman_ford k st =
                 (if decide (Exists (relaxable st2 s) (edges_of st2))
                  then Fail NegativeWeightCycle else Ok (), st2)).
  { unfold bellman_ford.
    erewrite bind_run; [|by apply get_vertex_run].
    erewrite bind_run; [|exact Hrun1].
    erewrite bind_run; [|done].
    erewrite bind_run; [|exact Hrun2].
    erewrite bind_run; [|exact Hget]. exact Hscan. }
  assert (Hn : length (stored st) ≤ S n).
  { pose proof (inv_counter _ Hinv) as Hcount.
    rewrite <-(skeleton_num_vertices _ _ (si_skeleton _ _ _ Hinv1)) in Hcount.
    unfold stored. rewrite length_fmap. unfold n. lia. }
  exists st2. split; [done|].
  destruct (decide (Exists (relaxable st2 s) (edges_of st2))) as [Hex|Hex].
  - left. split; [|done].
    apply NNPP. intros Hnc.
    pose proof (upper_all st s Hc n st2 Hn Hnc Hup2) as Hall.
    pose proof (all_settled st s st2 Hinv2 Hall) as Hset.
    apply Exists_exists in Hex as ([[u v] w] & Hin & Hrel).
    apply Hedges in Hin. specialize (Hset _ _ _ Hin).
    unfold relaxable in Hrel. simpl in *. lia.
  - right.
    assert (Hset : ∀ u v w, edge st u v w → (estimate st2 s v ≤ estimate st2 s u + w)%Z).
    { intros u v w He. destruct (decide (estimate st2 s v ≤ estimate st2 s u + w)%Z)
        as [|Hgt]; [done|].
      destruct Hex. apply Exists_exists. exists (u, v, w). split.
      - by apply Hedges.
      - unfold relaxable. simpl. lia. }
    split_and!; [|done|].
    + by eapply settled_no_negative_cycle.
    + intros v Hv. by apply (settled_least st s st2).
Qed.

(** X2. On a graph without stale adjacency entries,
    [bellman_ford] from a stored key raises the negative-cycle error
    exactly if the graph contains a cycle of negative weight, whether it
    can be reached from the source or not.  Otherwise it returns, and
    [dist[source]] of a stored vertex [v] is the least of
    [initial + weight] over the walks that end in [v], where [initial] is
    [0] for a walk from the source and [sys.maxsize] for a walk from
    another vertex.  If the weights are small against [sys.maxsize], this
    is, for a vertex that can be reached from the source, the weight of a
    shortest walk from the source. *)
Theorem bellman_ford_correct (st : state key) (k : key) (s : addr) :
  graph_inv st → closed st → dict_get k (vertices st) = Some s →
  ((bellman_ford k st).1 = Fail NegativeWeightCycle ↔ negative_cycle st) ∧
  (¬ negative_cycle st →
     (bellman_ford k st).1 = Ok () ∧
     ∀ v, v ∈ stored st →
       ∃ d, dist_from (after (bellman_ford k) st) s v = Some d ∧
            least_estimate st s v d ∧
            ∀ W, (0 ≤ W)%Z → (∀ u x w, edge st u x w → (Z.abs w ≤ W)%Z) →
                 (2 * (Z.of_nat (length (stored st)) - 1) * W ≤ sys_maxsize)%Z →
                 reachable st s v → shortest_distance st s v d).
Proof.
  intros Hinv Hc Hk.
  destruct (bellman_ford_run st k s Hinv Hc Hk)
    as (st' & Hinv' & [[Hneg Hrun]|(Hnc & Hrun & Hleast)]).
  - rewrite Hrun. simpl. split; [done|]. intros Hnc. by destruct Hnc.
  - rewrite Hrun. simpl. split; [split; [done|intros Hneg; by destruct Hnc]|].
    intros _. split; [done|]. intros v Hv.
    exists (estimate st' s v). unfold after. rewrite Hrun. simpl.
    split_and!; [by apply (si_defined _ _ _ Hinv')|by apply Hleast|].
    intros W HW0 HW Hsmall (p0 & w0 & Hw0).
    destruct (Hleast v Hv) as [(x & p & w & Hw & Hd) Hle].
    destruct (walk_short _ _ _ _ _ Hc Hnc Hw0) as (p0' & w0' & Hw0' & Hle0 & Hlen0).
    destruct (walk_short _ _ _ _ _ Hc Hnc Hw) as (p' & w' & Hw' & Hle' & Hlen').
    pose proof (walk_weight_bound _ _ _ _ _ _ HW Hw0') as Hb0.
    pose proof (walk_weight_bound _ _ _ _ _ _ HW Hw') as Hb'.
    pose proof (Hle _ _ _ Hw0') as Hd0.
    assert (Hs0 : initial s s = 0%Z) by (unfold initial; by rewrite decide_True).
    split.
    + unfold initial in Hd. destruct (decide (x = s)) as [->|Hne].
      * exists p. by replace (estimate st' s v) with w by lia.
      * exists p0'. replace (estimate st' s v) with w0'; [done|]. nia.
    + intros q wq Hq. pose proof (Hle _ _ _ Hq). lia.
Qed.
End bellman_ford_facts.

(** ** Dijkstra *)
Section dijkstra_facts.
Context {key : Type} `{!EqDecision key} `{!Inhabited key}.
Implicit Types (st : state key).

Variable P : MutablePriorityQueue.
Hypothesis P_lawful : pq_lawful P.

Lemma relax_with_priority_update_run s u v w q st :
  dist_from st s u = Some (estimate st s u) →
  dist_from st s v = Some (estimate st s v) →
  v < length (heap st) →
  relax_with_priority_update P s u v w q st =
  if decide (estimate st s v > estimate st s u + w)%Z
  then (Ok (add_task P q v (estimate st s u + w)),
        lowered s u v (estimate st s u + w) st)
  else (Ok q, st).
Proof.
  intros Hu Hv Hlt. unfold relax_with_priority_update.
  erewrite bind_run; [|by apply get_dist_run].
  erewrite bind_run; [|by apply get_dist_run].
  case_decide; [|done].
  erewrite bind_run; [|by apply get_dist_run].
  erewrite bind_run; [|done]. erewrite bind_run; [|done].
  erewrite bind_run; last first.
  { apply get_dist_run.
    change (set_heap _ (set_heap _ st)) with
      (set_heap (alter (with_predecessor (Some u)) v ∘
                 alter (with_dist (dict_set s (estimate st s u + w)%Z)) v) st).
    unfold dist_from, vtx; simpl.
    rewrite list_lookup_total_alter_eq by (by rewrite length_alter).
    rewrite list_lookup_total_alter_eq by done. simpl. apply dict_get_set_eq. }
  unfold ret, lowered. f_equal. unfold set_heap; simpl. f_equal.
  rewrite list_alter_alter_eq. by apply list_alter_ext.
Qed.

Section fixed.
Variables (st0 : state key) (s : addr).
Hypothesis st0_inv : graph_inv st0.
Hypothesis st0_closed : closed st0.
Hypothesis st0_nonnegative : ∀ u v w, edge st0 u v w → (0 ≤ w)%Z.

Lemma dijkstra_scan_run u done vs q st :
  u ∈ done → u ∈ stored st0 →
  (∀ v, v ∈ vs → is_Some (dict_get v (connected_to (vtx st0 u)))) →
  scan_inv P st0 s u done q st →
  ∃ q' st', dijkstra_scan P s u vs q st = (Ok q', st') ∧
            scan_inv P st0 s u done q' st' ∧
            (∀ x, estimate st' s x ≤ estimate st s x)%Z ∧
            estimate st' s u = estimate st s u ∧
            (∀ v w, v ∈ vs → dict_get v (connected_to (vtx st0 u)) = Some w →
                    (estimate st' s v ≤ estimate st s u + w)%Z).
Proof.
  intros Hu Hus. revert q st.
  induction vs as [|v vs IH]; intros q st Hvs Hinv.
  { exists q, st. split_and!; [done|done|intros; lia|done|].
    by intros v w ?%elem_of_nil. }
  destruct (Hvs v) as [w Hw]; [left|].
  assert (He : edge st0 u v w) by done.
  pose proof (st0_nonnegative _ _ _ He) as Hw0.
  pose proof (sc_sssp _ _ _ _ _ _ _ Hinv) as Hsssp.
  destruct (sssp_inv_edge st0 s st0_inv st0_closed _ _ _ _ Hsssp He)
    as (_ & Hv & Hlt & Hdu & Hdv).
  pose proof (si_skeleton _ _ _ Hsssp) as Hskel.
  set (q1 := if decide (estimate st s v > estimate st s u + w)%Z
             then add_task P q v (estimate st s u + w) else q).
  set (st1 := if decide (estimate st s v > estimate st s u + w)%Z
              then lowered s u v (estimate st s u + w) st else st).
  assert (Hstep : (let* w := get_weight u v in
                   relax_with_priority_update P s u v w q) st = (Ok q1, st1)).
  { erewrite bind_run; last first.
    { unfold get_weight. rewrite (skeleton_connected_to _ _ u Hskel), Hw. done. }
    rewrite relax_with_priority_update_run by done.
    unfold q1, st1. by case_decide. }
  assert (Hinv1 : scan_inv P st0 s u done q1 st1 ∧
                  (∀ x, estimate st1 s x ≤ estimate st s x)%Z ∧
                  estimate st1 s u = estimate st s u ∧
                  (estimate st1 s v ≤ estimate st s u + w)%Z).
  { unfold q1, st1. case_decide as Hgt; [|split_and!; [done|intros; lia|done|lia]].
    assert (Hvd : v ∉ done).
    { intros Hin. pose proof (sc_last _ _ _ _ _ _ _ Hinv v Hin). lia. }
    assert (Hvu : v ≠ u) by (intros ->; done).
    assert (Hest : ∀ x, estimate (lowered s u v (estimate st s u + w) st) s x =
                        if decide (x = v) then (estimate st s u + w)%Z
                        else estimate st s x).
    { intros x. by apply lowered_estimate. }
    split_and!.
    - split.
      + by apply (sssp_inv_lowered st0 s st0_inv st0_closed).
      + intros x. destruct P_lawful as (_ & Hadd & _). rewrite Hadd, Hest.
        destruct (decide (x = v)) as [->|Hne].
        * rewrite lookup_insert_eq. by rewrite decide_True.
        * rewrite lookup_insert_ne by done. apply (sc_tasks _ _ _ _ _ _ _ Hinv).
      + intros a x Ha Hx Hxd. rewrite !Hest.
        rewrite (decide_False (P:=a = v)) by (intros ->; done).
        case_decide; subst.
        * pose proof (sc_last _ _ _ _ _ _ _ Hinv a Ha). lia.
        * by apply (sc_order _ _ _ _ _ _ _ Hinv).
      + intros a Ha. rewrite !Hest.
        rewrite (decide_False (P:=a = v)) by (intros ->; done).
        rewrite (decide_False (P:=u = v)) by done.
        by apply (sc_last _ _ _ _ _ _ _ Hinv).
      + intros a y wy Ha Hau Hay. rewrite !Hest.
        rewrite (decide_False (P:=a = v)) by (intros ->; done).
        pose proof (sc_settled _ _ _ _ _ _ _ Hinv a y wy Ha Hau Hay).
        case_decide; subst; lia.
    - intros x. rewrite Hest. case_decide; subst; lia.
    - rewrite Hest. by rewrite decide_False.
    - rewrite Hest. rewrite decide_True by done. lia. }
  destruct Hinv1 as (Hinv1 & Hle1 & Hu1 & Hv1).
  destruct (IH q1 st1) as (q' & st' & Hrun & Hinv' & Hle & Hu' & Hvs').
  { intros x Hx. apply Hvs. by right. }
  { done. }
  exists q', st'. split_and!.
  - unfold dijkstra_scan in *. simpl. erewrite bind_run; [|exact Hstep]. done.
  - done.
  - intros x. specialize (Hle x). specialize (Hle1 x). lia.
  - lia.
  - intros x wx [->|Hx]%elem_of_cons Hwx.
    + assert (wx = w) as -> by congruence. specialize (Hle v). lia.
    + specialize (Hvs' x wx Hx Hwx). lia.
Qed.

Lemma length_lt_stored done v :
  NoDup done → (∀ u, u ∈ done → u ∈ stored st0) → v ∈ stored st0 → v ∉ done →
  length done < length (stored st0).
Proof.
  intros Hnd Hsub Hv Hvd.
  assert (length (v :: done) ≤ length (stored st0)) as Hlen; [|simpl in Hlen; lia].
  apply submseteq_length, NoDup_submseteq.
  - by apply NoDup_cons.
  - intros x [->|Hx]%elem_of_cons; auto.
Qed.

Lemma dijkstra_while_run fuel done q st :
  dijkstra_inv P st0 s done q st →
  length (stored st0) ≤ fuel + length done →
  ∃ st', dijkstra_while P fuel s q st = (Ok (), st') ∧ sssp_inv st0 s st' ∧
         ∀ u v w, edge st0 u v w → (estimate st' s v ≤ estimate st' s u + w)%Z.
Proof.
  revert done q st. induction fuel as [|fuel IH]; intros done q st Hinv Hfuel.
  all: destruct P_lawful as (_ & _ & Hempty & Hpop).
  all: destruct (empty P q) eqn:He.
  all: try (apply Hempty in He;
            assert (Hall : ∀ u, u ∈ stored st0 → u ∈ done);
            [ intros u Hu; pose proof (di_tasks _ _ _ _ _ _ Hinv u) as Ht;
              rewrite He, lookup_empty in Ht;
              destruct (decide (u ∈ done)) as [|Hn]; [done|];
              by rewrite decide_True in Ht
            | exists st; split_and!;
              [ simpl; by rewrite (proj2 (Hempty q) He)
              | apply (di_sssp _ _ _ _ _ _ Hinv)
              | intros u v w Huv; apply (di_settled _ _ _ _ _ _ Hinv); [|done];
                apply Hall; by destruct Huv ] ]).
  all: assert (Hne : tasks P q ≠ ∅) by
         (intros Hq; apply Hempty in Hq; congruence).
  all: apply map_choose in Hne as (x & px & Hx).
  all: pose proof (di_tasks _ _ _ _ _ _ Hinv x) as Htx; rewrite Hx in Htx.
  all: destruct (decide (x ∈ stored st0 ∧ x ∉ done)) as [[Hxs Hxd]|]; [|done].
  all: destruct (di_done _ _ _ _ _ _ Hinv) as [Hnd Hsub].
  all: pose proof (length_lt_stored done x Hnd Hsub Hxs Hxd) as Hlen.
  { lia. }
  simpl. rewrite He.
  specialize (Hpop q).
  destruct (pop_task P q) as [[u q1]|]; [|by rewrite Hpop in Hx].
  destruct Hpop as [(p & Hup & Hmin) Hq1].
  pose proof (di_tasks _ _ _ _ _ _ Hinv u) as Htu. rewrite Hup in Htu.
  destruct (decide (u ∈ stored st0 ∧ u ∉ done)) as [[Hus Hud]|]; [|done].
  assert (p = estimate st s u) as -> by congruence.
  assert (Hmin' : ∀ y, y ∈ stored st0 → y ∉ done →
                       (estimate st s u ≤ estimate st s y)%Z).
  { intros y Hy Hyd. apply (Hmin y).
    rewrite (di_tasks _ _ _ _ _ _ Hinv y). by rewrite decide_True. }
  assert (Hscan : scan_inv P st0 s u (u :: done) q1 st).
  { split.
    - apply (di_sssp _ _ _ _ _ _ Hinv).
    - intros v. rewrite Hq1. destruct (decide (u = v)) as [->|Hne].
      + rewrite lookup_delete_eq. rewrite decide_False; [done|].
        intros [_ Hn]. apply Hn. left.
      + rewrite lookup_delete_ne by done. rewrite (di_tasks _ _ _ _ _ _ Hinv v).
        destruct (decide (v ∈ stored st0 ∧ v ∉ done)) as [[? ?]|Hn].
        * rewrite decide_True; [done|]. split; [done|].
          intros [?|?]%elem_of_cons; [congruence|done].
        * rewrite decide_False; [done|]. intros [? Hn']. apply Hn. split; [done|].
          intros ?. apply Hn'. by right.
    - intros a y [->|Ha]%elem_of_cons Hy Hyd.
      + apply Hmin'; [done|]. intros ?. apply Hyd. by right.
      + apply (di_order _ _ _ _ _ _ Hinv); [done..|]. intros ?. apply Hyd. by right.
    - intros a [->|Ha]%elem_of_cons; [lia|].
      by apply (di_order _ _ _ _ _ _ Hinv).
    - intros a v w [->|Ha]%elem_of_cons Hau Hav; [done|].
      by apply (di_settled _ _ _ _ _ _ Hinv). }
  pose proof (si_skeleton _ _ _ (di_sssp _ _ _ _ _ _ Hinv)) as Hskel.
  destruct (dijkstra_scan_run u (u :: done) (connected_to (vtx st0 u)).*1 q1 st)
    as (q' & st' & Hrun & Hinv' & Hle & Hu' & Hvs); [left|done| |done|].
  { intros v Hv. by apply dict_get_is_Some. }
  destruct (IH (u :: done) q' st') as (st'' & Hrun' & Hsssp & Hset).
  { split.
    - apply (sc_sssp _ _ _ _ _ _ _ Hinv').
    - split; [by apply NoDup_cons|]. intros a [->|Ha]%elem_of_cons; auto.
    - apply (sc_tasks _ _ _ _ _ _ _ Hinv').
    - apply (sc_order _ _ _ _ _ _ _ Hinv').
    - intros a v w Ha Hav. destruct (decide (a = u)) as [->|Hne].
      + rewrite Hu'. apply Hvs; [|by destruct Hav].
        apply dict_get_is_Some. destruct Hav as [_ Hav]. by exists w.
      + by apply (sc_settled _ _ _ _ _ _ _ Hinv'). }
  { simpl. lia. }
  exists st''. split_and!; [|done..].
  erewrite bind_run; last first.
  { unfold get_connections, gets. by rewrite (skeleton_connected_to _ _ u Hskel). }
  unfold dijkstra_scan in Hrun.
  erewrite bind_run; [|exact Hrun]. done.
Qed.

Lemma dijkstra_load_run (l : list (key * addr)) q st :
  sssp_inv st0 s st →
  (∀ e, e ∈ l → dict_get e.1 (vertices st0) = Some e.2) →
  ∃ q', dijkstra_load P s l.*1 q st = (Ok q', st) ∧
        ∀ v, tasks P q' !! v =
             if decide (v ∈ l.*2) then Some (estimate st s v) else tasks P q !! v.
Proof.
  intros Hinv. revert q. induction l as [|[k a] l IH]; intros q Hl.
  { exists q. split; [done|]. intros v. rewrite decide_False; [done|].
    by intros ?%elem_of_nil. }
  pose proof (Hl (k, a) ltac:(left)) as Hk. simpl in Hk.
  pose proof (get_vertex_stored _ _ _ Hk) as Ha.
  destruct (IH (add_task P q a (estimate st s a))) as (q' & Hrun & Htasks).
  { intros e He. apply Hl. by right. }
  exists q'. split.
  - unfold dijkstra_load in *. simpl. erewrite bind_run; last first.
    { erewrite bind_run; last first.
      { apply get_vertex_run.
        by rewrite (skeleton_vertices _ _ (si_skeleton _ _ _ Hinv)). }
      erewrite bind_run; [|by apply get_dist_run, (si_defined _ _ _ Hinv)].
      done. }
    exact Hrun.
  - intros v. rewrite Htasks. destruct P_lawful as (_ & Hadd & _). rewrite Hadd.
    simpl. destruct (decide (v ∈ l.*2)) as [Hin|Hin].
    + rewrite decide_True; [done|]. by right.
    + destruct (decide (a = v)) as [->|Hne].
      * rewrite lookup_insert_eq. rewrite decide_True; [done|]. left.
      * rewrite lookup_insert_ne by done. rewrite decide_False; [done|].
        intros [?|?]%elem_of_cons; [congruence|done].
Qed.
End fixed.

(** What [dijkstra] does on a graph without stale adjacency entries and
    without negative weights, given enough fuel. *)
Lemma dijkstra_run st k s fuel :
  graph_inv st → closed st → (∀ u v w, edge st u v w → (0 ≤ w)%Z) →
  dict_get k (vertices st) = Some s → length (stored st) ≤ fuel →
  ∃ st', dijkstra P fuel k st = (Ok (), st') ∧ sssp_inv st s st' ∧
         ∀ v, v ∈ stored st → least_estimate st s v (estimate st' s v).
Proof.
  intros Hinv Hc Hnn Hk Hfuel.
  pose proof (get_vertex_stored _ _ _ Hk) as Hs.
  destruct (initialized st s Hinv Hs) as (st1 & Hrun1 & Hinv1 & _ & _).
  destruct (dijkstra_load_run st s (vertices st) (pq_new P) st1 Hinv1)
    as (q0 & Hload & Htasks).
  { intros [k' a] Hin. simpl. apply dict_get_NoDup; [|done]. apply (inv_keys _ Hinv). }
  destruct (dijkstra_while_run st s Hinv Hc Hnn fuel [] q0 st1)
    as (st' & Hrun & Hsssp & Hset).
  { split; [done| | | |].
    - split; [apply NoDup_nil_2|]. by intros u ?%elem_of_nil.
    - intros v. rewrite Htasks. destruct P_lawful as (Hnew & _).
      rewrite Hnew, lookup_empty. fold (stored st).
      destruct (decide (v ∈ stored st)) as [Hv|Hv].
      + rewrite decide_True; [done|]. split; [done|]. by intros ?%elem_of_nil.
      + rewrite decide_False; [done|]. by intros [? _].
    - by intros u x ?%elem_of_nil.
    - by intros u v w ?%elem_of_nil. }
  { simpl. lia. }
  exists st'. split_and!; [|done|].
  - unfold dijkstra.
    erewrite bind_run; [|by apply get_vertex_run].
    erewrite bind_run; [|exact Hrun1].
    erewrite bind_run; last first.
    { unfold get_vertices, gets.
      by rewrite (skeleton_vertices _ _ (si_skeleton _ _ _ Hinv1)). }
    unfold dijkstra_load in Hload.
    erewrite bind_run; [|exact Hload]. exact Hrun.
  - intros v Hv. by apply (settled_least st s st').
Qed.

(** The two algorithms leave the same estimates. *)
Lemma dijkstra_same_dist st k s fuel :
  graph_inv st → closed st → (∀ u v w, edge st u v w → (0 ≤ w)%Z) →
  dict_get k (vertices st) = Some s → length (stored st) ≤ fuel →
  (dijkstra P fuel k st).1 = Ok () ∧
  vertices (after (dijkstra P fuel k) st) = vertices st ∧
  ∀ v, v ∈ stored st →
       dist_from (after (dijkstra P fuel k) st) s v =
       dist_from (after (bellman_ford k) st) s v.
Proof.
  intros Hinv Hc Hnn Hk Hfuel.
  destruct (dijkstra_run st k s fuel Hinv Hc Hnn Hk Hfuel)
    as (st1 & Hrun1 & Hinv1 & Hleast1).
  destruct (bellman_ford_run st k s Hinv Hc Hk)
    as (st2 & Hinv2 & [[Hneg _]|(_ & Hrun2 & Hleast2)]).
  { by destruct (nonnegative_no_negative_cycle st Hnn). }
  unfold after. rewrite Hrun1, Hrun2. simpl. split_and!; [done| |].
  - apply skeleton_vertices, (si_skeleton _ _ _ Hinv1).
  - intros v Hv.
    rewrite (si_defined _ _ _ Hinv1), (si_defined _ _ _ Hinv2) by done. f_equal.
    eapply least_estimate_unique; [by apply Hleast1|by apply Hleast2].
Qed.

(** X3. On a graph without stale adjacency entries in
    which no weight is negative, [dijkstra] (given a queue that meets its
    interface) and [bellman_ford] from the same stored key both return,
    and they leave the same [dist[source]] on every stored vertex. *)
Theorem dijkstra_agrees_with_bellman_ford (st : state key) (k : key) (s : addr)
    (fuel : nat) :
  graph_inv st → closed st → (∀ u v w, edge st u v w → (0 ≤ w)%Z) →
  dict_get k (vertices st) = Some s → length (stored st) ≤ fuel →
  (dijkstra P fuel k st).1 = Ok () ∧
  (bellman_ford k st).1 = Ok () ∧
  ∀ v, v ∈ stored st →
    ∃ d, dist_from (after (dijkstra P fuel k) st) s v = Some d ∧
         dist_from (after (bellman_ford k) st) s v = Some d ∧
         least_estimate st s v d.
Proof.
  intros Hinv Hc Hnn Hk Hfuel.
  destruct (dijkstra_run st k s fuel Hinv Hc Hnn Hk Hfuel)
    as (st1 & Hrun1 & Hinv1 & Hleast1).
  destruct (bellman_ford_run st k s Hinv Hc Hk)
    as (st2 & Hinv2 & [[Hneg _]|(_ & Hrun2 & Hleast2)]).
  { by destruct (nonnegative_no_negative_cycle st Hnn). }
  unfold after. rewrite Hrun1, Hrun2. simpl. split_and!; [done..|].
  intros v Hv. exists (estimate st1 s v). split_and!.
  - by apply (si_defined _ _ _ Hinv1).
  - rewrite (si_defined _ _ _ Hinv2) by done. f_equal.
    eapply least_estimate_unique; [by apply Hleast2|by apply Hleast1].
  - by apply Hleast1.
Qed.
End dijkstra_facts.

(** ** Breadth-first search *)
Section bfs_facts.
Context {key : Type} `{!EqDecision key} `{!Inhabited key}.
Implicit Types (st : state key).

Lemma discovered_skeleton s u v d st : skeleton (discovered s u v d st) = skeleton st.
Proof. by apply skeleton_alter. Qed.

Lemma discovered_vtx s u v d st x :
  v < length (heap st) →
  vtx (discovered s u v d st) x =
  if decide (x = v)
  then mkVertex (id (vtx st v)) (connected_to (vtx st v))
                (dict_set s d (dist (vtx st v))) GRAY (Some u)
  else vtx st x.
Proof.
  intros Hv. unfold discovered. rewrite vtx_alter.
  destruct (decide (x = v)) as [->|Hne].
  - by rewrite decide_True.
  - rewrite decide_False; [done|]. by intros [-> _].
Qed.

Lemma discovered_estimate s u v d st x :
  v < length (heap st) →
  estimate (discovered s u v d st) s x = if decide (x = v) then d else estimate st s x.
Proof.
  intros Hv. unfold estimate, dist_from. rewrite discovered_vtx by done.
  case_decide; [|done]. simpl. by rewrite dict_get_set_eq.
Qed.

Lemma bfs_visit_seen s u n v q st :
  color (vtx st v) ≠ WHITE → bfs_visit s u n v q st = (Ok q, st).
Proof.
  intros Hc. unfold bfs_visit. erewrite bind_run; [|done]. by rewrite decide_False.
Qed.

Lemma bfs_visit_white s u n v q st :
  color (vtx st v) = WHITE →
  dist_from st s u = Some (estimate st s u) → u ≠ v →
  ¬ (0 < n ∧ n ≤ Z.of_nat (length q))%Z →
  bfs_visit s u n v q st = (Ok (q ++ [v]), discovered s u v (estimate st s u + 1) st).
Proof.
  intros Hc Hu Huv Hn. unfold bfs_visit. erewrite bind_run; [|done].
  rewrite decide_True by done.
  erewrite bind_run; [|done].
  erewrite bind_run; last first.
  { apply get_dist_run. unfold dist_from. rewrite vtx_alter_ne; [exact Hu|done]. }
  erewrite bind_run; [|done]. erewrite bind_run; [|done].
  unfold q_put. rewrite decide_False by done.
  unfold ret, discovered. f_equal. unfold set_heap; simpl. f_equal.
  rewrite !list_alter_alter_eq. by apply list_alter_ext.
Qed.

Section fixed.
Variables (st0 : state key) (s : addr) (n : Z).
Hypothesis st0_inv : graph_inv st0.
Hypothesis st0_closed : closed st0.
Hypothesis n_counter : (Z.of_nat (length (stored st0)) ≤ n)%Z.

Lemma length_le_stored (l : list addr) :
  NoDup l → (∀ x, x ∈ l → x ∈ stored st0) → length l ≤ length (stored st0).
Proof. intros Hnd Hsub. by apply submseteq_length, NoDup_submseteq. Qed.

(** The scan of the neighbours [vs] of [u]. *)
Lemma bfs_scan_run u B vs q st k :
  bfs_inv st0 s (B ++ [u] ++ q) st → bfs_levels st0 s B [u] q k st →
  (∀ v, v ∈ vs → ∃ w, edge st0 u v w) →
  ∃ new st', for_fold vs q (bfs_visit s u n) st = (Ok (q ++ new), st') ∧
             bfs_inv st0 s (B ++ [u] ++ q ++ new) st' ∧
             bfs_levels st0 s B [u] (q ++ new) k st' ∧
             (∀ x, x ∈ B ++ [u] ++ q → estimate st' s x = estimate st s x) ∧
             (∀ v, v ∈ vs → v ∈ B ++ [u] ++ q ++ new ∧
                            (estimate st' s v ≤ k + 1)%Z).
Proof.
  revert q st. induction vs as [|v vs IH]; intros q st Hinv Hlev Hvs.
  { exists [], st. rewrite !app_nil_r. split_and!; [done..|].
    by intros v ?%elem_of_nil. }
  destruct (Hvs v) as [w He]; [left|].
  assert (Hus : u ∈ stored st0) by by destruct He.
  assert (Hv : v ∈ stored st0) by by eapply st0_closed.
  pose proof (bi_skeleton _ _ _ _ Hinv) as Hskel.
  assert (Hlt : v < length (heap st)).
  { rewrite (skeleton_length _ _ Hskel). by apply (inv_valid _ st0_inv). }
  assert (Huk : estimate st s u = k).
  { apply (bl_cur _ _ _ _ _ _ _ Hlev). left. }
  assert (Huvis : u ∈ B ++ [u] ++ q).
  { apply elem_of_app. right. left. }
  destruct (decide (v ∈ B ++ [u] ++ q)) as [Hvis|Hnvis].
  - (* [v] was seen before *)
    assert (Hcol : color (vtx st v) ≠ WHITE).
    { intros Hw. by apply (bi_white _ _ _ _ Hinv v Hv) in Hw. }
    destruct (IH q st Hinv Hlev) as (new & st' & Hrun & Hinv' & Hlev' & Hsame & Hdone).
    { intros x Hx. apply Hvs. by right. }
    exists new, st'. split_and!; [|done..|].
    + simpl. erewrite bind_run; [|by apply bfs_visit_seen]. done.
    + intros x [->|Hx]%elem_of_cons; [|by apply Hdone]. split.
      * rewrite !app_assoc. apply elem_of_app. left. by rewrite <-!app_assoc.
      * rewrite Hsame by done.
        apply elem_of_app in Hvis as [Hb|[Hc%list_elem_of_singleton|Hq]%elem_of_app].
        -- pose proof (bl_black _ _ _ _ _ _ _ Hlev v Hb). lia.
        -- subst v. lia.
        -- destruct (bl_queue _ _ _ _ _ _ _ Hlev) as (q1 & q2 & -> & H1 & H2).
           apply elem_of_app in Hq as [Hq|Hq];
             [rewrite (H1 v Hq)|rewrite (H2 v Hq)]; lia.
  - (* [v] is discovered *)
    assert (Hcol : color (vtx st v) = WHITE) by by apply (bi_white _ _ _ _ Hinv v Hv).
    assert (Huv : u ≠ v) by (intros ->; done).
    assert (Hroom : ¬ (0 < n ∧ n ≤ Z.of_nat (length q))%Z).
    { assert (length (v :: B ++ [u] ++ q) ≤ length (stored st0)) as Hlen.
      { apply length_le_stored.
        - apply NoDup_cons. split; [done|apply (bi_nodup _ _ _ _ Hinv)].
        - intros x [->|Hx]%elem_of_cons; [done|by apply (bi_stored _ _ _ _ Hinv)]. }
      simpl in Hlen. rewrite !length_app in Hlen. simpl in Hlen. lia. }
    set (st1 := discovered s u v (estimate st s u + 1) st).
    assert (Hest : ∀ x, estimate st1 s x =
                        if decide (x = v) then (k + 1)%Z else estimate st s x).
    { intros x. unfold st1. rewrite discovered_estimate by done. by rewrite Huk. }
    assert (Hvtx : ∀ x, x ≠ v → vtx st1 x = vtx st x).
    { intros x Hx. unfold st1. rewrite discovered_vtx by done. by rewrite decide_False. }
    assert (Hvtxv : color (vtx st1 v) = GRAY ∧ predecessor (vtx st1 v) = Some u ∧
                    dist_from st1 s v = Some (k + 1)%Z).
    { unfold st1, dist_from. rewrite discovered_vtx by done. rewrite decide_True by done.
      simpl. rewrite dict_get_set_eq, Huk. done. }
    assert (Hk0 : (0 ≤ k)%Z).
    { rewrite <-Huk. by apply (bi_nonneg _ _ _ _ Hinv). }
    assert (Hin1 : ∀ x, x ∈ B ++ [u] ++ q ++ [v] ↔ x ∈ B ++ [u] ++ q ∨ x = v).
    { intros x. rewrite !elem_of_app, !list_elem_of_singleton. tauto. }
    assert (Hinv1 : bfs_inv st0 s (B ++ [u] ++ q ++ [v]) st1).
    { split.
      - unfold st1. by rewrite discovered_skeleton.
      - rewrite !app_assoc. apply NoDup_app. split_and!.
        + rewrite <-!app_assoc. apply (bi_nodup _ _ _ _ Hinv).
        + intros x Hx ->%list_elem_of_singleton. by rewrite <-!app_assoc in Hx.
        + apply NoDup_singleton.
      - intros x [Hx| ->]%Hin1; [by apply (bi_stored _ _ _ _ Hinv)|done].
      - intros x Hx. rewrite Hest. destruct (decide (x = v)) as [->|Hne].
        + by destruct Hvtxv as (_ & _ & ?).
        + unfold dist_from. rewrite Hvtx by done. by apply (bi_defined _ _ _ _ Hinv).
      - intros x Hx. rewrite Hin1. destruct (decide (x = v)) as [->|Hne].
        + destruct Hvtxv as (-> & _). split; [done|]. intros Hn. destruct Hn. by right.
        + rewrite Hvtx by done. rewrite (bi_white _ _ _ _ Hinv x Hx). tauto.
      - intros x Hx Hn. rewrite Hin1 in Hn.
        assert (x ≠ v) by (intros ->; tauto).
        rewrite Hest, decide_False, Hvtx by done.
        apply (bi_unseen _ _ _ _ Hinv); [done|tauto].
      - destruct (bi_source _ _ _ _ Hinv) as (Hs1 & Hs2 & Hs3).
        assert (s ≠ v) by (intros ->; done).
        rewrite Hin1, Hest, decide_False, Hvtx by done. tauto.
      - intros x [Hx| ->]%Hin1 Hxs.
        + destruct (bi_tree _ _ _ _ Hinv x Hx Hxs) as (u' & w' & Hp & He' & Hu' & Hd).
          assert (x ≠ v) by (intros ->; done).
          assert (u' ≠ v) by (intros ->; done).
          exists u', w'. rewrite Hvtx, !Hest, !decide_False by done.
          split_and!; [done..| |done]. apply Hin1. by left.
        + exists u, w. destruct Hvtxv as (_ & -> & _).
          rewrite !Hest, decide_True, decide_False by done.
          split_and!; [done..| |lia]. apply Hin1. by left.
      - intros x [Hx| ->]%Hin1; rewrite Hest.
        + rewrite decide_False by (intros ->; done). by apply (bi_nonneg _ _ _ _ Hinv).
        + rewrite decide_True by done. lia. }
    assert (Hlev1 : bfs_levels st0 s B [u] (q ++ [v]) k st1).
    { assert (Hold : ∀ x, x ∈ B ++ [u] ++ q → estimate st1 s x = estimate st s x).
      { intros x Hx. rewrite Hest. by rewrite decide_False by (intros ->; done). }
      split.
      - intros x Hx. rewrite Hold by (apply elem_of_app; by left).
        by apply (bl_black _ _ _ _ _ _ _ Hlev).
      - intros x Hx. rewrite Hold.
        + by apply (bl_cur _ _ _ _ _ _ _ Hlev).
        + apply elem_of_app. right. apply elem_of_app. by left.
      - destruct (bl_queue _ _ _ _ _ _ _ Hlev) as (q1 & q2 & -> & H1 & H2).
        exists q1, (q2 ++ [v]). split_and!; [by rewrite app_assoc| |].
        + intros x Hx. rewrite Hold; [by apply H1|].
          rewrite !elem_of_app. tauto.
        + intros x [Hx| ->%list_elem_of_singleton]%elem_of_app.
          * rewrite Hold; [by apply H2|]. rewrite !elem_of_app. tauto.
          * rewrite Hest. by rewrite decide_True.
      - intros a b wb Ha Hab.
        destruct (bl_closed _ _ _ _ _ _ _ Hlev a b wb Ha Hab) as [Hb Hle].
        split; [apply Hin1; by left|].
        rewrite !Hold; [done| |done]. apply elem_of_app. by left. }
    destruct (IH (q ++ [v]) st1) as (new & st' & Hrun & Hinv' & Hlev' & Hsame & Hdone).
    { exact Hinv1. }
    { done. }
    { intros x Hx. apply Hvs. by right. }
    rewrite <-?app_assoc in Hrun, Hinv', Hlev', Hdone.
    exists ([v] ++ new), st'. split_and!; [|done..| |].
    + simpl. erewrite bind_run; last first.
      { apply bfs_visit_white; try done. by apply (bi_defined _ _ _ _ Hinv). }
      exact Hrun.
    + intros x Hx. rewrite Hsame.
      * rewrite Hest. by rewrite decide_False by (intros ->; done).
      * apply Hin1. by left.
    + intros x [Hx|Hx]%elem_of_cons; [subst x|by apply Hdone]. split.
      * rewrite !elem_of_app, !list_elem_of_singleton. tauto.
      * rewrite Hsame.
        -- rewrite Hest. rewrite decide_True by done. lia.
        -- apply Hin1. by right.
Qed.
Lemma blackened_estimate u st x :
  estimate (set_heap (alter (with_color BLACK) u) st) s x = estimate st s x.
Proof.
  unfold estimate, dist_from. rewrite vtx_alter. by case_decide.
Qed.

Lemma blackened_inv u vis st :
  u ∈ vis → bfs_inv st0 s vis st →
  bfs_inv st0 s vis (set_heap (alter (with_color BLACK) u) st).
Proof.
  intros Hu Hinv.
  assert (Hd : ∀ x, dist_from (set_heap (alter (with_color BLACK) u) st) s x =
                    dist_from st s x).
  { intros x. unfold dist_from. rewrite vtx_alter. by case_decide. }
  assert (Hp : ∀ x, predecessor (vtx (set_heap (alter (with_color BLACK) u) st) x) =
                    predecessor (vtx st x)).
  { intros x. rewrite vtx_alter. by case_decide. }
  split.
  - rewrite skeleton_alter by done. apply (bi_skeleton _ _ _ _ Hinv).
  - apply (bi_nodup _ _ _ _ Hinv).
  - apply (bi_stored _ _ _ _ Hinv).
  - intros x Hx. rewrite Hd, blackened_estimate. by apply (bi_defined _ _ _ _ Hinv).
  - intros x Hx. rewrite vtx_alter. case_decide as Hc.
    + destruct Hc as [-> _]. simpl. split; [done|]. by intros [].
    + by apply (bi_white _ _ _ _ Hinv).
  - intros x Hx Hn. rewrite Hp, blackened_estimate. by apply (bi_unseen _ _ _ _ Hinv).
  - rewrite Hp, blackened_estimate. apply (bi_source _ _ _ _ Hinv).
  - intros x Hx Hxs. rewrite Hp. setoid_rewrite blackened_estimate.
    by apply (bi_tree _ _ _ _ Hinv).
  - intros x Hx. rewrite blackened_estimate. by apply (bi_nonneg _ _ _ _ Hinv).
Qed.

(** The loop of [bfs]: it empties the queue and leaves the discovered
    vertices closed under the edges. *)
Lemma bfs_while_run fuel B q st k :
  bfs_inv st0 s (B ++ q) st → bfs_levels st0 s B [] q k st →
  length (stored st0) < fuel + length B →
  ∃ vis st', bfs_while fuel s n q st = (Ok (), st') ∧ bfs_inv st0 s vis st' ∧
             ∀ u v w, u ∈ vis → edge st0 u v w →
                      v ∈ vis ∧ (estimate st' s v ≤ estimate st' s u + 1)%Z.
Proof.
  revert B q st k. induction fuel as [|fuel IH]; intros B q st k Hinv Hlev Hfuel.
  - destruct q as [|u q].
    + exists B, st. rewrite app_nil_r in Hinv. split_and!; [done..|].
      intros u v w Hu He.
      destruct (bl_closed _ _ _ _ _ _ _ Hlev u v w Hu He) as [Hv Hle].
      by rewrite !app_nil_r in Hv.
    + pose proof (length_le_stored _ (bi_nodup _ _ _ _ Hinv) (bi_stored _ _ _ _ Hinv)) as Hl.
      rewrite length_app in Hl. simpl in Hl, Hfuel. lia.
  - destruct q as [|u q].
    { exists B, st. rewrite app_nil_r in Hinv. split_and!; [done..|].
      intros u v w Hu He.
      destruct (bl_closed _ _ _ _ _ _ _ Hlev u v w Hu He) as [Hv Hle].
      by rewrite !app_nil_r in Hv. }
    assert (Hus : u ∈ stored st0).
    { apply (bi_stored _ _ _ _ Hinv). rewrite elem_of_app. right. left. }
    (* the level of [u] *)
    assert (∃ k', bfs_levels st0 s B [u] q k' st) as [k' Hlev'].
    { destruct (bl_queue _ _ _ _ _ _ _ Hlev) as (q1 & q2 & Hq & H1 & H2).
      destruct q1 as [|u1 q1]; simpl in Hq.
      - subst q2. exists (k + 1)%Z. split.
        + intros x Hx. pose proof (bl_black _ _ _ _ _ _ _ Hlev x Hx). lia.
        + intros x ->%list_elem_of_singleton. apply H2. left.
        + exists q, []. rewrite app_nil_r. split_and!; [done| |by intros ? ?%elem_of_nil].
          intros x Hx. apply H2. by right.
        + intros a b wb Ha Hab. by apply (bl_closed _ _ _ _ _ _ _ Hlev a b wb).
      - injection Hq as <- ->. exists k. split.
        + apply (bl_black _ _ _ _ _ _ _ Hlev).
        + intros x ->%list_elem_of_singleton. apply H1. left.
        + exists q1, q2. split_and!; [done| |done]. intros x Hx. apply H1. by right.
        + intros a b wb Ha Hab. by apply (bl_closed _ _ _ _ _ _ _ Hlev a b wb). }
    pose proof (bi_skeleton _ _ _ _ Hinv) as Hskel.
    destruct (bfs_scan_run u B (connected_to (vtx st u)).*1 q st k')
      as (new & st1 & Hrun & Hinv1 & Hlev1 & Hsame & Hdone); [done..| |].
    { intros v [w Hw]%dict_get_is_Some. exists w. split; [done|].
      by rewrite <-(skeleton_connected_to _ _ _ Hskel). }
    set (st2 := set_heap (alter (with_color BLACK) u) st1).
    assert (Huk : estimate st1 s u = k').
    { apply (bl_cur _ _ _ _ _ _ _ Hlev1). left. }
    destruct (IH (B ++ [u]) (q ++ new) st2 k') as (vis & st' & Hrun' & Hinv' & Hcl).
    { rewrite <-app_assoc. apply blackened_inv; [|done].
      rewrite elem_of_app. right. left. }
    { split.
      - intros x [Hx| ->%list_elem_of_singleton]%elem_of_app;
          unfold st2; rewrite blackened_estimate.
        + by apply (bl_black _ _ _ _ _ _ _ Hlev1).
        + lia.
      - by intros x ?%elem_of_nil.
      - destruct (bl_queue _ _ _ _ _ _ _ Hlev1) as (q1 & q2 & Hq & H1 & H2).
        exists q1, q2. unfold st2. setoid_rewrite blackened_estimate. done.
      - intros a b wb Ha Hab. unfold st2. rewrite !blackened_estimate.
        rewrite <-app_assoc. simpl.
        apply elem_of_app in Ha as [Ha| ->%list_elem_of_singleton].
        + by apply (bl_closed _ _ _ _ _ _ _ Hlev1 a b wb).
        + destruct (Hdone b) as [Hb Hle].
          * apply dict_get_is_Some. exists wb. destruct Hab as [_ Hab].
            by rewrite (skeleton_connected_to _ _ _ Hskel).
          * split; [done|lia]. }
    { rewrite length_app. simpl. lia. }
    exists vis, st'. split_and!; [|done..].
    simpl. erewrite bind_run; [|done]. erewrite bind_run; [|exact Hrun].
    erewrite bind_run; [|done]. exact Hrun'.
Qed.
End fixed.
End bfs_facts.

Section bfs_correct.
Context {key : Type} `{!EqDecision key} `{!Inhabited key}.
Implicit Types (st : state key).

(** What [bfs] does on a graph without stale adjacency entries. *)
Lemma bfs_run st k s :
  graph_inv st → closed st → dict_get k (vertices st) = Some s →
  ∃ vis st', bfs k st = (Ok (), st') ∧ bfs_inv st s vis st' ∧
             ∀ u v w, u ∈ vis → edge st u v w →
                      v ∈ vis ∧ (estimate st' s v ≤ estimate st' s u + 1)%Z.
Proof.
  intros Hinv Hc Hk.
  pose proof (get_vertex_stored _ _ _ Hk) as Hs.
  destruct (bfs_initialize_run s st Hs) as (st1 & Hrun1 & Hsg & Hlen & Hvtx).
  assert (Hvtx' : ∀ v, v ∈ stored st → vtx st1 v = bfs_reset s v (vtx st v)).
  { intros v Hv. rewrite Hvtx.
    by rewrite decide_True by (split; [done|by apply (inv_valid _ Hinv)]). }
  assert (Hskel : skeleton st1 = skeleton st).
  { apply skeleton_of_vtx; [done..|]. intros a. rewrite Hvtx.
    case_decide; [apply bfs_reset_skeleton|done]. }
  assert (Hest : ∀ v, v ∈ stored st → dist_from st1 s v = Some (initial s v)).
  { intros v Hv. unfold dist_from, initial, bfs_reset. rewrite Hvtx' by done.
    unfold bfs_reset. case_decide; simpl; by rewrite dict_get_set_eq. }
  assert (Hest' : ∀ v, v ∈ stored st → estimate st1 s v = initial s v).
  { intros v Hv. unfold estimate. by rewrite Hest. }
  assert (Hcount : (Z.of_nat (length (stored st)) ≤ num_vertices st1)%Z).
  { pose proof (inv_counter _ Hinv) as Hcount.
    rewrite (skeleton_num_vertices _ _ Hskel).
    unfold stored. by rewrite length_fmap. }
  destruct (bfs_while_run st s (num_vertices st1) Hinv Hc Hcount
              (S (length (heap st1))) [] [s] st1 0)
    as (vis & st' & Hrun & Hinv' & Hcl).
  - simpl. split.
    + done.
    + apply NoDup_singleton.
    + by intros x ->%list_elem_of_singleton.
    + intros x Hx. by rewrite Hest, Hest'.
    + intros x Hx. rewrite Hvtx' by done. unfold bfs_reset.
      rewrite list_elem_of_singleton. case_decide; simpl; split; done.
    + intros x Hx Hn%not_elem_of_cons. destruct Hn as [Hn _].
      rewrite Hest', Hvtx' by done. unfold initial, bfs_reset.
      by rewrite !decide_False by done.
    + rewrite Hest', Hvtx' by done. unfold initial, bfs_reset.
      rewrite !decide_True by done. split_and!; [left|done..].
    + intros x ->%list_elem_of_singleton Hn. done.
    + intros x ->%list_elem_of_singleton. rewrite Hest' by done. unfold initial.
      by rewrite decide_True.
  - split.
    + by intros x ?%elem_of_nil.
    + by intros x ?%elem_of_nil.
    + exists [s], []. split_and!; [done| |by intros x ?%elem_of_nil].
      intros x ->%list_elem_of_singleton. rewrite Hest' by done. unfold initial.
      by rewrite decide_True.
    + by intros u v w ?%elem_of_nil.
  - simpl. rewrite Hlen.
    pose proof (NoDup_submseteq (stored st) (seq 0 (length (heap st)))
                  (inv_objects _ Hinv)) as Hsub.
    apply submseteq_length in Hsub.
    + rewrite length_seq in Hsub. lia.
    + intros x Hx. apply elem_of_seq. pose proof (inv_valid _ Hinv x Hx). lia.
  - exists vis, st'. split; [|done].
    rewrite bfs_split.
    erewrite bind_run; [|by apply get_vertex_run].
    erewrite bind_run; [|exact Hrun1].
    unfold bfs_search.
    erewrite bind_run; [|done].
    erewrite bind_run; last first.
    { unfold q_put. rewrite decide_False; [done|]. simpl. lia. }
    erewrite bind_run; [|done]. exact Hrun.
Qed.

(** Every end of a walk from the source is discovered, at most as far
    as the walk is long. *)
Lemma bfs_reaches st s vis st' p v w :
  bfs_inv st s vis st' →
  (∀ u v w, u ∈ vis → edge st u v w →
            v ∈ vis ∧ (estimate st' s v ≤ estimate st' s u + 1)%Z) →
  walk st s p v w → v ∈ vis ∧ (estimate st' s v ≤ Z.of_nat (length p))%Z.
Proof.
  intros Hinv Hcl Hw.
  remember s as a eqn:Ha. induction Hw as [a Hs|a p b c w w' Hw IH He]; subst.
  - destruct (bi_source _ _ _ _ Hinv) as (? & -> & _). done.
  - destruct IH as [Hb Hle]; [done..|].
    destruct (Hcl b c w' Hb He) as [Hcv Hle']. split; [done|].
    rewrite length_app. simpl. lia.
Qed.

(** A discovered vertex at distance [m] is at the end of a path of [m]
    edges, which the predecessors trace back. *)
Lemma bfs_traces st s vis st' m :
  bfs_inv st s vis st' →
  ∀ x, x ∈ vis → estimate st' s x = Z.of_nat m →
       tree_path st' s x m ∧ ∃ p w, walk st s p x w ∧ length p = m.
Proof.
  intros Hinv. pose proof (bi_source _ _ _ _ Hinv) as (Hs & Hs0 & Hsp).
  induction m as [|m IH]; intros x Hx Hm.
  - destruct (decide (x = s)) as [->|Hne].
    + split; [by apply tree_root|]. exists [], 0%Z. split; [|done].
      apply walk_nil. by apply (bi_stored _ _ _ _ Hinv).
    + destruct (bi_tree _ _ _ _ Hinv x Hx Hne) as (u & w & _ & _ & Hu & Hd).
      pose proof (bi_nonneg _ _ _ _ Hinv u Hu). lia.
  - destruct (decide (x = s)) as [->|Hne]; [lia|].
    destruct (bi_tree _ _ _ _ Hinv x Hx Hne) as (u & w & Hp & He & Hu & Hd).
    destruct (IH u Hu) as (Ht & p & w' & Hw & Hl); [lia|].
    split.
    + eapply tree_step; [exact Ht|exact Hp|].
      by apply (skeleton_edge _ _ _ _ _ (bi_skeleton _ _ _ _ Hinv)).
    + exists (p ++ [u]), (w' + w)%Z. split; [by eapply walk_snoc|].
      rewrite length_app. simpl. lia.
Qed.

(** X1. On a graph in which every adjacency entry refers to
    a stored vertex, [bfs] from a stored key returns, and afterwards a
    vertex reachable from the source has as its distance the least number
    of edges of a path from the source, and following the predecessors
    from it leads back to the source along edges in that many steps;
    a vertex that is not reachable has the distance [sys.maxsize] and no
    predecessor. *)
Theorem bfs_correct (st : state key) (k : key) (s : addr) :
  graph_inv st → closed st → dict_get k (vertices st) = Some s →
  (bfs k st).1 = Ok () ∧
  ∀ v, v ∈ stored st →
    (reachable st s v →
       ∃ m, hop_distance st s v m ∧
            dist_from (after (bfs k) st) s v = Some (Z.of_nat m) ∧
            tree_path (after (bfs k) st) s v m) ∧
    (¬ reachable st s v →
       dist_from (after (bfs k) st) s v = Some sys_maxsize ∧
       predecessor (vtx (after (bfs k) st) v) = None).
Proof.
  intros Hinv Hc Hk.
  destruct (bfs_run st k s Hinv Hc Hk) as (vis & st' & Hrun & Hinv' & Hcl).
  unfold after. rewrite Hrun. simpl. split; [done|].
  intros v Hv. split.
  - intros (p & w & Hw).
    destruct (bfs_reaches _ _ _ _ _ _ _ Hinv' Hcl Hw) as [Hvis Hle].
    pose proof (bi_nonneg _ _ _ _ Hinv' v Hvis) as H0.
    exists (Z.to_nat (estimate st' s v)).
    destruct (bfs_traces st s vis st' (Z.to_nat (estimate st' s v)) Hinv' v Hvis)
      as (Ht & p' & w' & Hw' & Hl'); [lia|].
    split; [split|split; [|done]].
    + by exists p', w'.
    + intros p2 w2 Hw2.
      destruct (bfs_reaches _ _ _ _ _ _ _ Hinv' Hcl Hw2) as [_ Hle2]. lia.
    + rewrite (bi_defined _ _ _ _ Hinv') by done. f_equal. lia.
  - intros Hn.
    assert (Hnv : v ∉ vis).
    { intros Hvis.
      pose proof (bi_nonneg _ _ _ _ Hinv' v Hvis) as H0.
      destruct (bfs_traces st s vis st' (Z.to_nat (estimate st' s v)) Hinv' v Hvis)
        as (_ & p' & w' & Hw' & _); [lia|].
      apply Hn. by exists p', w'. }
    rewrite (bi_defined _ _ _ _ Hinv') by done.
    destruct (bi_unseen _ _ _ _ Hinv' v Hv Hnv) as [-> ->]. done.
Qed.
End bfs_correct.

(** ** Paths that are found *)
Section found_paths.
Context {key : Type} `{!EqDecision key} `{!Inhabited key}.
Implicit Types (st : state key).

Lemma trail_functional st s l l' d : trail st s l d → trail st s l' d → l = l'.
Proof.
  intros Ht. revert l'. induction Ht as [|l p d Ht IH Hp Hd]; intros l' Ht'.
  - inversion Ht' as [|l0 p0 ? Ht0 Hp0 Hd0]; subst; done.
  - inversion Ht' as [|l0 p0 ? Ht0 Hp0 Hd0]; subst; [done|].
    assert (p0 = p) as -> by congruence.
    by rewrite (IH _ Ht0).
Qed.

Lemma trail_prefix st s l d l1 x l2 :
  trail st s l d → l = l1 ++ x :: l2 → trail st s (l1 ++ [x]) x.
Proof.
  intros Ht. revert l1 x l2. induction Ht as [|l p d Ht IH Hp Hd]; intros l1 x l2 Hl.
  - by destruct l1.
  - destruct (decide (l2 = [])) as [->|Hne].
    + apply app_inj_tail in Hl as [-> ->]. by eapply trail_link.
    + destruct (exists_last Hne) as (l2' & y & ->).
      rewrite app_comm_cons, app_assoc in Hl.
      apply app_inj_tail in Hl as [-> _]. by eapply IH.
Qed.

Lemma trail_NoDup st s l d : trail st s l d → NoDup l.
Proof.
  induction 1 as [|l p d Ht IH Hp Hd]; [apply NoDup_nil_2|].
  apply NoDup_app. split_and!; [done| |apply NoDup_singleton].
  intros x Hx ->%list_elem_of_singleton.
  apply list_elem_of_split in Hx as (l1 & l2 & Hl).
  pose proof (trail_prefix _ _ _ _ _ _ _ Ht Hl) as Ht1.
  pose proof (trail_link _ _ _ _ _ Ht Hp Hd) as Ht2.
  pose proof (trail_functional _ _ _ _ _ Ht1 Ht2) as Heq.
  apply app_inj_tail in Heq as [Heq _]. subst l1.
  apply (f_equal length) in Hl. rewrite length_app in Hl; simpl in Hl. lia.
Qed.

Lemma trail_valid st s l d x : trail st s l d → x ∈ l → x < length (heap st).
Proof.
  induction 1 as [|l p d Ht IH Hp Hd]; [by intros ?%elem_of_nil|].
  intros [Hx| ->%list_elem_of_singleton]%elem_of_app; [auto|].
  destruct (decide (d < length (heap st))) as [|Hge]; [done|].
  unfold vtx in Hp. rewrite list_lookup_total_alt in Hp.
  rewrite lookup_ge_None_2 in Hp by lia. done.
Qed.

Lemma trail_length st s l d : trail st s l d → length l ≤ length (heap st).
Proof.
  intros Ht. trans (length (seq 0 (length (heap st)))); [|by rewrite length_seq].
  apply submseteq_length, NoDup_submseteq; [by eapply trail_NoDup|].
  intros x Hx. apply elem_of_seq. pose proof (trail_valid _ _ _ _ _ Ht Hx). lia.
Qed.

Lemma print_path_util_trail st s l d depth :
  trail st s l d → length l < depth →
  _print_path_util depth s d st = (Ok (), printed (ids st (s :: l)) st).
Proof.
  intros Ht. revert depth. induction Ht as [|l p d Ht IH Hp Hd]; intros depth Hf.
  - destruct depth as [|depth]; [simpl in Hf; lia|]. apply print_path_util_same.
  - rewrite length_app in Hf; simpl in Hf.
    destruct depth as [|depth]; [lia|]. simpl.
    rewrite decide_False by done.
    erewrite bind_run; [|done]. rewrite Hp.
    erewrite bind_run; [|apply IH; lia].
    erewrite bind_run; [|done]. unfold print, modify, printed, ids; simpl.
    rewrite fmap_app; simpl. rewrite <-app_assoc. done.
Qed.

(** Each vertex of the trail takes one activation; when the room ends
    before the source is met nothing has been printed yet. *)
Lemma print_path_util_trail_deep st s l d depth :
  trail st s l d → depth ≤ length l →
  _print_path_util depth s d st = (Fail RecursionError, st).
Proof.
  intros Ht. revert depth. induction Ht as [|l p d Ht IH Hp Hd]; intros depth Hf.
  - destruct depth as [|depth]; [done|simpl in Hf; lia].
  - rewrite length_app in Hf; simpl in Hf.
    destruct depth as [|depth]; [done|]. simpl.
    rewrite decide_False by done.
    erewrite bind_run; [|done]. rewrite Hp.
    apply bind_fail, IH. lia.
Qed.

Lemma print_path_trail st depth ks kd s d l :
  dict_get ks (vertices st) = Some s → dict_get kd (vertices st) = Some d →
  trail st s l d →
  (length l < depth →
     print_path depth ks kd st = (Ok (), printed (ids st (s :: l)) st)) ∧
  (depth ≤ length l → print_path depth ks kd st = (Fail RecursionError, st)).
Proof.
  intros Hs Hd Ht. unfold print_path.
  erewrite bind_run; [|by apply get_vertex_run].
  erewrite bind_run; [|by apply get_vertex_run].
  split; intros Hl.
  - by apply print_path_util_trail.
  - by apply (print_path_util_trail_deep st s l d).
Qed.

(** X7. When following the predecessors from the destination meets the
    source, and the interpreter has room for one activation of the
    recursive method for each vertex on the way, [print_path] prints the id
    of the source and then the ids of the vertices on the way to the
    destination, in this order, and nothing else; it leaves the graph as
    it was.  With less room it raises [RecursionError] and prints
    nothing. *)
Theorem print_path_prints_trail (st : state key) (depth : nat) (ks kd : key)
    (s d : addr) (l : list addr) :
  dict_get ks (vertices st) = Some s → dict_get kd (vertices st) = Some d →
  trail st s l d →
  (length l < depth →
     print_path depth ks kd st = (Ok (), printed (ids st (s :: l)) st)) ∧
  (depth ≤ length l → print_path depth ks kd st = (Fail RecursionError, st)).
Proof. apply print_path_trail. Qed.

Lemma tree_path_root st s v n : tree_path st s v n → predecessor (vtx st s) = None.
Proof. by induction 1. Qed.

(** The predecessors a search leaves trace a walk backwards. *)
Lemma tree_path_trail st s v n :
  s ∈ stored st → tree_path st s v n →
  ∃ p w l, walk st s p v w ∧ length p = n ∧ trail st s l v ∧ s :: l = p ++ [v].
Proof.
  intros Hs Ht. pose proof (tree_path_root _ _ _ _ Ht) as Hroot.
  induction Ht as [_|u v n w Ht IH Hp He].
  - exists [], 0%Z, []. split_and!; [by apply walk_nil|done|apply trail_here|done].
  - destruct IH as (p & w0 & l & Hw & Hlen & Htr & Hl).
    exists (p ++ [u]), (w0 + w)%Z, (l ++ [v]). split_and!.
    + by eapply walk_snoc.
    + rewrite length_app. simpl. lia.
    + eapply trail_link; [done..|]. intros ->. congruence.
    + by rewrite app_comm_cons, Hl.
Qed.

Lemma ids_skeleton st st' l : skeleton st' = skeleton st → ids st' l = ids st l.
Proof.
  intros Hskel. unfold ids. apply list_fmap_ext. intros i x _.
  by destruct (skeleton_vtx st st' x Hskel) as [-> _].
Qed.

(** X6. After [bfs] from a stored key, on a graph in which every adjacency
    entry refers to a stored vertex, [print_path] from that key to a
    reachable vertex prints the ids of the vertices of a path from the
    source to it that has the least number of edges, provided the
    interpreter has room for one activation of the recursive method per
    vertex of that path; with less room it raises [RecursionError] and
    prints nothing.  To a vertex that is not reachable it prints the "no
    path" line for the two keys, and nothing else. *)
Theorem bfs_then_print_path (st : state key) (depth : nat) (ks kd : key) (s d : addr) :
  graph_inv st → closed st →
  dict_get ks (vertices st) = Some s → dict_get kd (vertices st) = Some d →
  (reachable st s d →
     ∃ p w, walk st s p d w ∧ hop_distance st s d (length p) ∧
            (length p < depth →
               print_path depth ks kd (after (bfs ks) st) =
               (Ok (), printed (ids st (p ++ [d])) (after (bfs ks) st))) ∧
            (depth ≤ length p →
               print_path depth ks kd (after (bfs ks) st) =
               (Fail RecursionError, after (bfs ks) st))) ∧
  (¬ reachable st s d → 0 < depth →
     print_path depth ks kd (after (bfs ks) st) =
     (Ok (), printed [PrintNoPath ks kd] (after (bfs ks) st))).
Proof.
  intros Hinv Hc Hks Hkd.
  destruct (bfs_run st ks s Hinv Hc Hks) as (vis & st' & Hrun & Hinv' & Hcl).
  unfold after. rewrite Hrun. simpl.
  pose proof (bi_skeleton _ _ _ _ Hinv') as Hskel.
  pose proof (get_vertex_stored _ _ _ Hks) as Hs.
  pose proof (get_vertex_stored _ _ _ Hkd) as Hd.
  assert (Hks' : dict_get ks (vertices st') = Some s).
  { by rewrite (skeleton_vertices _ _ Hskel). }
  assert (Hkd' : dict_get kd (vertices st') = Some d).
  { by rewrite (skeleton_vertices _ _ Hskel). }
  split.
  - intros (p0 & w0 & Hw0).
    destruct (bfs_reaches _ _ _ _ _ _ _ Hinv' Hcl Hw0) as [Hvis Hle].
    pose proof (bi_nonneg _ _ _ _ Hinv' d Hvis) as H0.
    destruct (bfs_traces st s vis st' (Z.to_nat (estimate st' s d)) Hinv' d Hvis)
      as (Ht & _); [lia|].
    destruct (tree_path_trail st' s d (Z.to_nat (estimate st' s d)))
      as (p & w & l & Hw & Hlen & Htr & Hl);
      [by rewrite (skeleton_stored _ _ Hskel)|exact Ht|].
    apply (skeleton_walk st' st _ _ _ _ (eq_sym Hskel)) in Hw.
    assert (Hll : length l = length p).
    { apply (f_equal length) in Hl. rewrite length_app in Hl. simpl in Hl. lia. }
    destruct (print_path_trail st' depth ks kd s d l Hks' Hkd' Htr) as [Hok Hdeep].
    exists p, w. split_and!; [done|split| |].
    + by exists p, w.
    + intros p2 w2 Hw2.
      destruct (bfs_reaches _ _ _ _ _ _ _ Hinv' Hcl Hw2) as [_ Hle2]. lia.
    + intros Hlt. rewrite <-Hl, <-(ids_skeleton st st' _ Hskel). apply Hok. lia.
    + intros Hge. apply Hdeep. lia.
  - intros Hn Hdepth.
    assert (Hnv : d ∉ vis).
    { intros Hvis.
      pose proof (bi_nonneg _ _ _ _ Hinv' d Hvis) as H0.
      destruct (bfs_traces st s vis st' (Z.to_nat (estimate st' s d)) Hinv' d Hvis)
        as (_ & p' & w' & Hw' & _); [lia|].
      apply Hn. by exists p', w'. }
    destruct (bi_unseen _ _ _ _ Hinv' d Hd Hnv) as [_ Hp].
    assert (Hne : s ≠ d).
    { intros ->. by destruct (bi_source _ _ _ _ Hinv') as [? _]. }
    unfold print_path.
    erewrite bind_run; [|by apply get_vertex_run].
    erewrite bind_run; [|by apply get_vertex_run].
    rewrite (print_path_util_chain st' s d [] d); [| by apply chain_root | |simpl; lia].
    + simpl.
      destruct (skeleton_vtx st st' s Hskel) as [-> _].
      destruct (skeleton_vtx st st' d Hskel) as [-> _].
      rewrite (inv_ids _ Hinv ks s), (inv_ids _ Hinv kd d) by (by apply dict_get_Some).
      done.
    + by intros ->%list_elem_of_singleton.
Qed.
End found_paths.

(** ** Absent keys *)
Section absent_keys.
Context {key : Type} `{!EqDecision key} `{!Inhabited key}.
Implicit Types (st : state key).

Lemma get_vertex_absent k st :
  dict_get k (vertices st) = None → get_vertex k st = (Fail KeyError, st).
Proof. intros Hk. unfold get_vertex. by rewrite Hk. Qed.

(** X5. Given a key that is not in the graph, [get_vertex], [bfs],
    [bellman_ford], [dijkstra], [connected] (for its first key) and
    [print_path] (for either key) raise [KeyError] and leave the graph and
    the output as they were. *)
Theorem absent_key_raises (P : MutablePriorityQueue) (st : state key) (k : key) :
  dict_get k (vertices st) = None →
  get_vertex k st = (Fail KeyError, st) ∧
  bfs k st = (Fail KeyError, st) ∧
  bellman_ford k st = (Fail KeyError, st) ∧
  (∀ fuel, dijkstra P fuel k st = (Fail KeyError, st)) ∧
  (∀ k2, connected k k2 st = (Fail KeyError, st) ∧
         ∀ depth, print_path depth k k2 st = (Fail KeyError, st) ∧
                  print_path depth k2 k st = (Fail KeyError, st)).
Proof.
  intros Hk. pose proof (get_vertex_absent k st Hk) as Hg.
  split_and!; [done|by apply bind_fail..| |].
  - intros fuel. by apply bind_fail.
  - intros k2. split; [by apply bind_fail|].
    intros depth. split; [by apply bind_fail|].
    unfold print_path.
    destruct (dict_get k2 (vertices st)) as [a|] eqn:Hk2.
    + erewrite bind_run; [|by apply get_vertex_run]. by apply bind_fail.
    + by apply bind_fail, get_vertex_absent.
Qed.
End absent_keys.

(** ** Shortest paths with [dijkstra] *)
Section dijkstra_alone.
Context {key : Type} `{!EqDecision key} `{!Inhabited key}.
Implicit Types (st : state key).

(** Without negative weights, a vertex that can be reached has a shortest
    distance. *)
Lemma shortest_distance_exists st s v :
  (∀ u x w, edge st u x w → (0 ≤ w)%Z) →
  reachable st s v → ∃ δ, shortest_distance st s v δ.
Proof.
  intros Hnn (p & w & Hw).
  assert (Hall : ∀ n p w, Z.to_nat w ≤ n → walk st s p v w →
                          ∃ δ, shortest_distance st s v δ); [|by eapply Hall].
  clear p w Hw. induction n as [|n IH]; intros p w Hn Hw.
  - pose proof (nonnegative_walk _ _ _ _ _ Hnn Hw) as H0.
    exists w. split; [by exists p|]. intros p' w' Hw'.
    pose proof (nonnegative_walk _ _ _ _ _ Hnn Hw'). lia.
  - destruct (classic (∀ p' w', walk st s p' v w' → (w ≤ w')%Z)) as [Hmin|Hless].
    + exists w. split; [by exists p|done].
    + apply not_all_ex_not in Hless as [p' Hless].
      apply not_all_ex_not in Hless as [w' Hless].
      apply imply_to_and in Hless as [Hw' Hlt].
      pose proof (nonnegative_walk _ _ _ _ _ Hnn Hw') as H0.
      apply (IH p' w'); [lia|done].
Qed.

Variable P : MutablePriorityQueue.
Hypothesis P_lawful : pq_lawful P.

(** X4. On a graph without stale adjacency entries and without negative
    weights, [dijkstra] from a stored key returns, and leaves on every
    vertex that can be reached from the source its shortest distance,
    capped at [sys.maxsize], and on every other stored vertex
    [sys.maxsize]. *)
Theorem dijkstra_correct (st : state key) (k : key) (s : addr) (fuel : nat) :
  graph_inv st → closed st → (∀ u v w, edge st u v w → (0 ≤ w)%Z) →
  dict_get k (vertices st) = Some s → length (stored st) ≤ fuel →
  (dijkstra P fuel k st).1 = Ok () ∧
  ∀ v, v ∈ stored st →
    (reachable st s v →
       ∃ δ, shortest_distance st s v δ ∧
            dist_from (after (dijkstra P fuel k) st) s v = Some (Z.min δ sys_maxsize)) ∧
    (¬ reachable st s v →
       dist_from (after (dijkstra P fuel k) st) s v = Some sys_maxsize).
Proof.
  intros Hinv Hc Hnn Hk Hfuel.
  destruct (dijkstra_run P P_lawful st k s fuel Hinv Hc Hnn Hk Hfuel)
    as (st' & Hrun & Hsssp & Hleast).
  unfold after. rewrite Hrun. simpl. split; [done|].
  intros v Hv. rewrite (si_defined _ _ _ Hsssp) by done.
  destruct (Hleast v Hv) as [(x & p & w & Hw & Hd) Hmin].
  pose proof (nonnegative_walk _ _ _ _ _ Hnn Hw) as H0.
  pose proof (Hmin v [] 0%Z (walk_nil _ _ Hv)) as Hself.
  assert (Hpos : (0 < sys_maxsize)%Z) by done.
  unfold initial in *.
  split.
  - intros Hr. destruct (shortest_distance_exists st s v Hnn Hr) as (δ & Hδ).
    exists δ. split; [done|]. f_equal.
    destruct Hδ as [(pδ & Hwδ) Hδmin].
    pose proof (Hmin s pδ δ Hwδ) as Hle. rewrite decide_True in Hle by done.
    destruct (decide (x = s)) as [->|Hne].
    + pose proof (Hδmin p w Hw). destruct (decide (v = s)); lia.
    + destruct (decide (v = s)); lia.
  - intros Hn. f_equal.
    destruct (decide (x = s)) as [->|Hne].
    + destruct Hn. by exists p, w.
    + destruct (decide (v = s)) as [->|Hvs]; [|lia].
      destruct Hn. exists [], 0%Z. by apply walk_nil.
Qed.
End dijkstra_alone.

(** ** Entering edges and asking for them *)
Section entering_edges.
Context {key : Type} `{!EqDecision key} `{!Inhabited key}.
Implicit Types (st : state key).

Lemma connected_run k1 k2 a st :
  dict_get k1 (vertices st) = Some a →
  connected k1 k2 st =
  (Ok (bool_decide (k2 ∈ (λ n, id (vtx st n)) <$> (connected_to (vtx st a)).*1)), st).
Proof.
  intros Hk. unfold connected.
  erewrite bind_run; [|by apply get_vertex_run].
  erewrite bind_run; [|done]. erewrite bind_run; [|done]. done.
Qed.

Lemma connected_ids k2 a st :
  a ∈ stored st →
  k2 ∈ (λ n, id (vtx st n)) <$> (connected_to (vtx st a)).*1 ↔
  ∃ v w, edge st a v w ∧ id (vtx st v) = k2.
Proof.
  intros Ha. rewrite list_elem_of_fmap. split.
  - intros (v & -> & [w Hw]%dict_get_is_Some). by exists v, w.
  - intros (v & w & [_ Hw] & <-). exists v. split; [done|].
    apply dict_get_is_Some. by exists w.
Qed.

(** X8. [connected(k1, k2)], for a stored key [k1], returns whether some
    adjacency entry of the vertex of [k1] is a vertex object whose id is
    [k2], and changes nothing; [k2] need not be a key of the graph.  On
    a graph in which every adjacency entry refers to a stored vertex this
    is whether there is an edge from the vertex of [k1] to the vertex
    stored under [k2]. *)
Theorem connected_looks_up_ids (st : state key) (k1 k2 : key) (a : addr) :
  dict_get k1 (vertices st) = Some a →
  ∃ b, connected k1 k2 st = (Ok b, st) ∧
       (b = true ↔ ∃ v w, edge st a v w ∧ id (vtx st v) = k2) ∧
       (graph_inv st → closed st →
          (b = true ↔ ∃ a2 w, dict_get k2 (vertices st) = Some a2 ∧ edge st a a2 w)).
Proof.
  intros Hk. pose proof (get_vertex_stored _ _ _ Hk) as Ha.
  eexists. split; [by apply connected_run|].
  rewrite bool_decide_eq_true, connected_ids by done. split; [done|].
  intros Hinv Hc. split.
  - intros (v & w & He & Hid). exists v, w. split; [|done].
    apply dict_get_NoDup; [apply (inv_keys _ Hinv)|].
    rewrite <-Hid. apply stored_id; [done|]. by apply (Hc a v w).
  - intros (a2 & w & Hk2 & He). exists a2, w. split; [done|].
    apply (inv_ids _ Hinv). by apply dict_get_Some.
Qed.

Lemma link2_edge a b w st u v x :
  a < length (heap st) → b < length (heap st) →
  edge (link b a w (link a b w st)) u v x ↔
  u ∈ stored st ∧
  ((u = b ∧ v = a ∧ x = w) ∨ (u = a ∧ v = b ∧ x = w) ∨
   (¬ (u = b ∧ v = a) ∧ ¬ (u = a ∧ v = b) ∧
    dict_get v (connected_to (vtx st u)) = Some x)).
Proof.
  intros Ha Hb.
  assert (Hb' : b < length (heap (link a b w st))).
  { unfold link; simpl. by rewrite length_alter. }
  rewrite link_edge by done. rewrite link_stored. split.
  - intros [Hu [?|[Hn Hg]]]; [tauto|]. split; [done|].
    assert (He : edge (link a b w st) u v x) by done.
    apply link_edge in He; [|done]. tauto.
  - intros [Hu [(-> & -> & ->)|[(-> & -> & ->)|(Hn1 & Hn2 & Hg)]]].
    + split; [done|]. by left.
    + split; [done|]. destruct (decide (a = b ∧ b = a)) as [[-> _]|Hn]; [by left|].
      right. split; [tauto|].
      assert (He : edge (link a b w st) a b w).
      { apply link_edge; [done|]. split; [done|]. by left. }
      by destruct He.
    + split; [done|]. right. split; [done|].
      assert (He : edge (link a b w st) u v x).
      { apply link_edge; [done|]. split; [done|]. by right. }
      by destruct He.
Qed.

Lemma ensure_lookup k k' a st :
  dict_get k' (vertices st) = Some a → dict_get k' (vertices (ensure k st)) = Some a.
Proof.
  intros Hk'. destruct (decide (k ∈ (vertices st).*1)) as [Hin|Hin].
  - by rewrite ensure_present.
  - rewrite ensure_absent by done. simpl. rewrite <-dict_set_absent by done.
    rewrite dict_get_set_ne; [done|]. intros ->. apply Hin.
    apply dict_get_is_Some. by exists a.
Qed.

(** X9. [add_edge(k1, k2)] and [add_edge(k1, k2, w)] return; afterwards
    both keys are stored, the keys that were stored have the vertices they
    had, there is an edge from the vertex of [k1] to the vertex of [k2]
    whose only weight is [w] (0 without a weight), whatever weight it had
    before, in an undirected graph the same holds of the opposite edge,
    every other edge is as it was, and [connected(k1, k2)] is true. *)
Theorem add_edge_enters_edge (st : state key) (e : call_args key) (k1 k2 : key) :
  graph_inv st → e = Args2 k1 k2 ∨ (∃ w, e = Args3 k1 k2 w) →
  (add_edge e st).1 = Ok () ∧
  ∃ a1 a2,
    dict_get k1 (vertices (after (add_edge e) st)) = Some a1 ∧
    dict_get k2 (vertices (after (add_edge e) st)) = Some a2 ∧
    (∀ k a, dict_get k (vertices st) = Some a →
            dict_get k (vertices (after (add_edge e) st)) = Some a) ∧
    (∀ x, edge (after (add_edge e) st) a1 a2 x ↔ x = weight_of e) ∧
    (directed st = false →
       ∀ x, edge (after (add_edge e) st) a2 a1 x ↔ x = weight_of e) ∧
    (∀ u v x, ¬ (u = a1 ∧ v = a2) → (directed st = false → ¬ (u = a2 ∧ v = a1)) →
              edge (after (add_edge e) st) u v x ↔ edge st u v x) ∧
    (connected k1 k2 (after (add_edge e) st)).1 = Ok true ∧
    (directed st = false → (connected k2 k1 (after (add_edge e) st)).1 = Ok true).
Proof.
  intros Hinv He.
  destruct (add_edge_after e k1 k2 st He) as (a1 & a2 & H1 & H2 & Hrun).
  pose proof (add_edge_graph_inv e st Hinv) as Hinv'.
  unfold after in *. rewrite Hrun in *. simpl in *. split; [done|].
  set (S := ensure k2 (ensure k1 st)) in *.
  assert (HinvS : graph_inv S) by by apply ensure_graph_inv, ensure_graph_inv.
  pose proof (get_vertex_stored _ _ _ H1) as Hs1.
  pose proof (get_vertex_stored _ _ _ H2) as Hs2.
  pose proof (inv_valid _ HinvS a1 Hs1) as Hl1.
  pose proof (inv_valid _ HinvS a2 Hs2) as Hl2.
  assert (HedgeS : ∀ u v x, edge S u v x ↔ edge st u v x).
  { intros u v x. unfold S. rewrite ensure_edge by by apply ensure_graph_inv.
    by apply ensure_edge. }
  exists a1, a2.
  assert (Hkeep : ∀ k a, dict_get k (vertices st) = Some a →
                         dict_get k (vertices S) = Some a).
  { intros k a Hk. by apply ensure_lookup, ensure_lookup. }
  destruct (directed st) eqn:Hd.
  - assert (Hedge : ∀ u v x, edge (link a1 a2 (weight_of e) S) u v x ↔
              (u = a1 ∧ v = a2 ∧ x = weight_of e) ∨
              (¬ (u = a1 ∧ v = a2) ∧ edge S u v x)).
    { intros u v x. rewrite link_edge by done. unfold edge. split.
      - intros [Hu [?|[? ?]]]; [by left|by right].
      - intros [(-> & -> & ->)|(? & ? & ?)]; (split; [done|]); [by left|by right]. }
    split_and!; [done|done|exact Hkeep| | | | |done].
    + intros x. rewrite Hedge. split; [intros [(_ & _ & ->)|[Hn _]]; [done|tauto]|].
      intros ->. by left.
    + done.
    + intros u v x Hn _. rewrite Hedge, HedgeS. tauto.
    + erewrite connected_run by exact H1. simpl. f_equal.
      apply bool_decide_eq_true, connected_ids; [done|].
      exists a2, (weight_of e). split; [apply Hedge; by left|].
      apply (inv_ids _ Hinv'). by apply dict_get_Some.
  - assert (Hedge : ∀ u v x,
              edge (link a2 a1 (weight_of e) (link a1 a2 (weight_of e) S)) u v x ↔
              (u = a2 ∧ v = a1 ∧ x = weight_of e) ∨
              (u = a1 ∧ v = a2 ∧ x = weight_of e) ∨
              (¬ (u = a2 ∧ v = a1) ∧ ¬ (u = a1 ∧ v = a2) ∧ edge S u v x)).
    { intros u v x. rewrite link2_edge by done. unfold edge. split.
      - intros [Hu [?|[?|(? & ? & ?)]]]; tauto.
      - intros [(-> & -> & ->)|[(-> & -> & ->)|(? & ? & ? & ?)]]; tauto. }
    split_and!; [done|done|exact Hkeep| | | | |].
    + intros x. rewrite Hedge. split; [|intros ->; tauto].
      intros [(_ & _ & ->)|[(_ & _ & ->)|(_ & Hn & _)]]; [done|done|tauto].
    + intros _ x. rewrite Hedge. split; [|intros ->; tauto].
      intros [(_ & _ & ->)|[(_ & _ & ->)|(Hn & _ & _)]]; [done|done|tauto].
    + intros u v x Hn1 Hn2. rewrite Hedge, HedgeS. specialize (Hn2 eq_refl). tauto.
    + erewrite connected_run by exact H1. simpl. f_equal.
      apply bool_decide_eq_true, connected_ids; [done|].
      exists a2, (weight_of e). split; [apply Hedge; tauto|].
      apply (inv_ids _ Hinv'). by apply dict_get_Some.
    + intros _. erewrite connected_run by exact H2. simpl. f_equal.
      apply bool_decide_eq_true, connected_ids; [done|].
      exists a1, (weight_of e). split; [apply Hedge; tauto|].
      apply (inv_ids _ Hinv'). by apply dict_get_Some.
Qed.
End entering_edges.

(** ** A key that is added again *)
Section adding_again.
Context {key : Type} `{!EqDecision key} `{!Inhabited key}.
Implicit Types (st : state key).

Lemma elem_of_dict_set_iff {K V} `{!EqDecision K} (k k' : K) (v v' : V) d :
  NoDup d.*1 →
  (k', v') ∈ dict_set k v d ↔ (k' = k ∧ v' = v) ∨ (k' ≠ k ∧ (k', v') ∈ d).
Proof.
  intros Hnd.
  assert (Hget : ∀ d', NoDup d'.*1 → (k', v') ∈ d' ↔ dict_get k' d' = Some v').
  { intros d' Hd'. split; [by apply dict_get_NoDup|apply dict_get_Some]. }
  rewrite Hget by by apply dict_set_NoDup. rewrite (Hget d) by done.
  destruct (decide (k' = k)) as [->|Hne].
  - rewrite dict_get_set_eq. split; [intros [= ->]; by left|].
    by intros [[_ ->]|[? _]].
  - rewrite dict_get_set_ne by done. split; [by right|]. by intros [[? _]|[_ ?]].
Qed.

Lemma values_inj {K V} (k k' : K) (v : V) (d : list (K * V)) :
  NoDup d.*2 → (k, v) ∈ d → (k', v) ∈ d → k = k'.
Proof.
  induction d as [|[k0 v0] d IH]; simpl; [by intros _ ?%elem_of_nil|].
  intros [Hv0 Hnd]%NoDup_cons [[= -> ->]|H1]%elem_of_cons [[= ->]|H2]%elem_of_cons.
  - done.
  - destruct Hv0. apply list_elem_of_fmap. by exists (k', v0).
  - simplify_eq. destruct Hv0. apply list_elem_of_fmap. by exists (k, v0).
  - by apply IH.
Qed.

(** X10. [add_vertex] with a key that is already stored returns and keeps
    the keys and their order, but puts a new vertex object under the key:
    the object that was stored under it is not stored any more, the
    edges from it are gone, so that [connected] from the key is false for
    every key, and all other edges stay, those to the old object as well;
    if there is one, the graph has an adjacency entry that refers to a
    vertex object that is not stored. *)
Theorem add_vertex_again (st : state key) (k : key) (a : addr) :
  graph_inv st → dict_get k (vertices st) = Some a →
  (add_vertex k st).1 = Ok () ∧
  (vertices (after (add_vertex k) st)).*1 = (vertices st).*1 ∧
  (∀ u, u ∈ stored (after (add_vertex k) st) ↔
        (u ∈ stored st ∧ u ≠ a) ∨ u = length (heap st)) ∧
  (∀ u v w, edge (after (add_vertex k) st) u v w ↔ u ≠ a ∧ edge st u v w) ∧
  (∀ k2, connected k k2 (after (add_vertex k) st)
         = (Ok false, after (add_vertex k) st)) ∧
  ((∃ u w, u ≠ a ∧ edge st u a w) → ¬ closed (after (add_vertex k) st)).
Proof.
  intros Hinv Hk. unfold after. rewrite add_vertex_after. simpl.
  set (new := length (heap st)).
  set (st' := mkState _ _ _ _ _).
  pose proof (get_vertex_stored _ _ _ Hk) as Ha.
  pose proof (inv_valid _ Hinv a Ha) as Hla.
  assert (Hstored : ∀ u, u ∈ stored st' ↔ (u ∈ stored st ∧ u ≠ a) ∨ u = new).
  { intros u. rewrite !elem_of_stored. simpl. split.
    - intros (k' & [[-> ->]|[Hne Hin]]%elem_of_dict_set_iff); [by right| |apply (inv_keys _ Hinv)].
      left. split; [by exists k'|]. intros ->.
      apply dict_get_Some in Hk.
      by pose proof (values_inj _ _ _ _ (inv_objects _ Hinv) Hin Hk).
    - intros [[(k' & Hin) Hne]| ->].
      + exists k'. apply elem_of_dict_set_iff; [apply (inv_keys _ Hinv)|].
        right. split; [|done]. intros ->.
        apply (dict_get_NoDup _ _ _ (inv_keys _ Hinv)) in Hin. congruence.
      + exists k. apply elem_of_dict_set_iff; [apply (inv_keys _ Hinv)|]. by left. }
  assert (Hedge : ∀ u v w, edge st' u v w ↔ u ≠ a ∧ edge st u v w).
  { intros u v w. unfold edge. rewrite Hstored. unfold st' at 1. rewrite vtx_alloc.
    fold new. split.
    - intros [[[Hu Hne]| ->] Hg].
      + pose proof (inv_valid _ Hinv u Hu). by rewrite decide_True in Hg.
      + rewrite decide_False, decide_True in Hg by lia. done.
    - intros (Hne & Hu & Hg). pose proof (inv_valid _ Hinv u Hu).
      rewrite decide_True by done. tauto. }
  split_and!; [done| |done|done| |].
  - apply dict_set_keys_present, dict_get_is_Some. by exists a.
  - intros k2.
    assert (Hnew : connected_to (vtx st' new) = []).
    { unfold st'. rewrite vtx_alloc. fold new.
      by rewrite decide_False, decide_True by lia. }
    rewrite (connected_run k k2 new st') by apply dict_get_set_eq.
    by rewrite Hnew.
  - intros (u & w & Hne & He) Hc.
    assert (He' : edge st' u a w) by by apply Hedge.
    apply Hc, Hstored in He' as [[_ ?]|Heq]; [done|]. unfold new in Heq. lia.
Qed.
End adding_again.

(** ** What every sequence of calls keeps *)
Section kept.
Context {key : Type} `{!EqDecision key} `{!Inhabited key}.
Implicit Types (st : state key).
Variable P : MutablePriorityQueue.

Lemma add_edges_after es st : after (add_edges es) st = st.
Proof. by destruct es. Qed.

Lemma ensure_see k st : (vertices (ensure k st)).*1 = see (vertices st).*1 k.
Proof.
  unfold see. case_decide as Hin.
  - by rewrite ensure_present.
  - rewrite ensure_absent by done. simpl. by rewrite fmap_app.
Qed.

Lemma exec_keys (c : call key) st :
  (vertices (after (exec P c) st)).*1 = foldl see (vertices st).*1 (mentioned c) ∧
  directed (after (exec P c) st) = directed st.
Proof.
  assert (Hskel : ∀ m : M key unit, stable same_skeleton m →
            (vertices (after m st)).*1 = (vertices st).*1 ∧
            directed (after m st) = directed st).
  { intros m Hm. specialize (Hm st).
    by rewrite (skeleton_vertices _ _ Hm), (skeleton_directed _ _ Hm). }
  destruct c as [k|e|es| |k1 k2|k1 k2|k| |k|fuel k]; cbn [exec mentioned foldl].
  - unfold after. rewrite add_vertex_after. simpl. split; [|done]. unfold see.
    case_decide.
    + by apply dict_set_keys_present.
    + by apply dict_set_keys_absent.
  - destruct e as [k1 k2|k1 k2 w|e]; [| |done].
    + destruct (add_edge_after (Args2 k1 k2) k1 k2 st) as (a1 & a2 & _ & _ & Hrun);
        [by left|].
      unfold after. rewrite Hrun. simpl.
      destruct (directed st) eqn:Hd; simpl; by rewrite !ensure_see, !ensure_directed.
    + destruct (add_edge_after (Args3 k1 k2 w) k1 k2 st) as (a1 & a2 & _ & _ & Hrun);
        [right; by exists w|].
      unfold after. rewrite Hrun. simpl.
      destruct (directed st) eqn:Hd; simpl; by rewrite !ensure_see, !ensure_directed.
  - by rewrite add_edges_after.
  - apply Hskel, stable_bind; [apply _| |intros ?; apply stable_ret; apply _].
    apply get_edges_same_skeleton.
  - apply Hskel, stable_bind; [apply _| |intros ?; apply stable_ret; apply _].
    apply connected_same_skeleton.
  - apply Hskel, print_path_same_skeleton.
  - apply Hskel, bfs_same_skeleton.
  - apply Hskel, dfs_same_skeleton.
  - apply Hskel, bellman_ford_same_skeleton.
  - apply Hskel, dijkstra_same_skeleton.
Qed.

Lemma history_keys (cs : list (call key)) st :
  (vertices (history P cs st)).*1 = foldl see (vertices st).*1 (cs ≫= mentioned) ∧
  directed (history P cs st) = directed st.
Proof.
  revert st. induction cs as [|c cs IH]; intros st; [done|].
  change (history P (c :: cs) st) with (history P cs (after (exec P c) st)).
  destruct (IH (after (exec P c) st)) as [-> ->].
  destruct (exec_keys c st) as [-> ->].
  rewrite bind_cons, foldl_app. done.
Qed.

(** X11. Whatever calls are made on a new graph, raising or not, the
    keys of the graph are distinct and are the keys that were handed to
    [add_vertex] and [add_edge], in the order in which each was first
    seen; iterating over the graph yields distinct vertex objects whose
    ids are these keys, in this order; no vertex has two adjacency
    entries for the same neighbour; and [num_vertices] is at least the
    number of keys. *)
Theorem keys_in_order_of_first_mention (d : bool) (cs : list (call key)) :
  get_vertices (history P cs (Graph d))
    = (Ok (foldl see [] (cs ≫= mentioned)), history P cs (Graph d)) ∧
  NoDup (foldl see [] (cs ≫= mentioned)) ∧
  NoDup (stored (history P cs (Graph d))) ∧
  (λ a, id (vtx (history P cs (Graph d)) a)) <$> stored (history P cs (Graph d))
    = foldl see [] (cs ≫= mentioned) ∧
  (∀ a, NoDup (connected_to (vtx (history P cs (Graph d)) a)).*1) ∧
  (Z.of_nat (length (foldl see [] (cs ≫= mentioned)))
     ≤ num_vertices (history P cs (Graph d)))%Z ∧
  directed (history P cs (Graph d)) = d.
Proof.
  set (st := history P cs (Graph d)).
  assert (Hinv : graph_inv st) by apply history_graph_inv, Graph_graph_inv.
  destruct (history_keys cs (Graph d)) as [Hkeys Hdir]. fold st in Hkeys, Hdir.
  simpl in Hkeys, Hdir. rewrite <-Hkeys.
  split_and!; [done|apply (inv_keys _ Hinv)|apply (inv_objects _ Hinv)| |
               apply (inv_adjacent _ Hinv)| |done].
  - unfold stored. rewrite <-list_fmap_compose.
    apply list_fmap_ext. intros i [k a] Hi. simpl.
    apply (inv_ids _ Hinv). by eapply list_elem_of_lookup_2.
  - rewrite length_fmap. apply (inv_counter _ Hinv).
Qed.

(** X12. As long as no [add_vertex] call is given a key that is already
    stored, every adjacency entry of a stored vertex refers to a stored
    vertex, and in an undirected graph every edge has its opposite edge,
    with the same weight. *)
Theorem distinct_keys_keep_graph_closed (d : bool) (cs : list (call key)) :
  repeated_keys P cs (Graph d) = 0 →
  closed (history P cs (Graph d)) ∧
  (d = false → mirrored (history P cs (Graph d))).
Proof.
  intros Hr.
  destruct (history_well_formed P cs (Graph d) Hr (Graph_well_formed d))
    as (_ & Hc & Hm).
  split; [done|]. intros ->. apply Hm.
  by destruct (history_keys cs (Graph false)) as [_ ->].
Qed.
End kept.

(** ** Depth-first search *)
Section dfs_facts.
Context {key : Type} `{!EqDecision key} `{!Inhabited key}.
Implicit Types (st : state key).

Lemma filter_length_le {A} (P Q : A → Prop) `{!∀ x, Decision (P x)}
    `{!∀ x, Decision (Q x)} (l : list A) :
  (∀ x, x ∈ l → P x → Q x) → length (filter P l) ≤ length (filter Q l).
Proof.
  induction l as [|x l IH]; intros HPQ; [done|].
  rewrite !filter_cons.
  assert (length (filter P l) ≤ length (filter Q l)).
  { apply IH. intros y Hy. apply HPQ. by right. }
  destruct (decide (P x)) as [HP|HP].
  - rewrite decide_True by (apply HPQ; [left|done]). simpl. lia.
  - destruct (decide (Q x)); simpl; lia.
Qed.

Lemma filter_length_lt {A} (P Q : A → Prop) `{!∀ x, Decision (P x)}
    `{!∀ x, Decision (Q x)} (l : list A) u :
  (∀ x, x ∈ l → P x → Q x) → u ∈ l → Q u → ¬ P u →
  length (filter P l) < length (filter Q l).
Proof.
  induction l as [|x l IH]; intros HPQ Hu HQ HP; [by apply elem_of_nil in Hu|].
  rewrite !filter_cons.
  assert (length (filter P l) ≤ length (filter Q l)).
  { apply filter_length_le. intros y Hy. apply HPQ. by right. }
  apply elem_of_cons in Hu as [->|Hu].
  - rewrite decide_False, decide_True by done. simpl. lia.
  - assert (length (filter P l) < length (filter Q l)).
    { apply IH; [|done..]. intros y Hy. apply HPQ. by right. }
    destruct (decide (P x)) as [HPx|HPx].
    + rewrite decide_True by (apply HPQ; [left|done]). simpl. lia.
    + destruct (decide (Q x)); simpl; lia.
Qed.

Lemma dfs_visit_S depth u :
  dfs_visit (key:=key) (S depth) u =
  (let* i := get_id u in
   print (PrintId i) >>
   set_color u GRAY >>
   let* vs := get_connections u in
   for_each vs (λ v,
     let* c := gets (λ st, color (vtx st v)) in
     if decide (c = WHITE) then
       set_predecessor v (Some u) >>
       dfs_visit depth v
     else ret ()) >>
   set_color u BLACK).
Proof. done. Qed.

Lemma ids_app st (l1 l2 : list addr) : ids st (l1 ++ l2) = ids st l1 ++ ids st l2.
Proof. unfold ids. by rewrite fmap_app. Qed.

Section fixed.
Variable st0 : state key.
Hypothesis st0_inv : graph_inv st0.
Hypothesis st0_closed : closed st0.

Lemma dfs_step_nil st : dfs_step st0 [] st st.
Proof.
  split; try done.
  - apply NoDup_nil_2.
  - by intros x ?%elem_of_nil.
  - by intros x ?%elem_of_nil.
  - unfold ids. simpl. by rewrite app_nil_r.
Qed.

(** Two parts of the search, one after the other; between them the
    predecessor of a vertex that the second part visits may be set. *)
Lemma dfs_step_app new new2 st1 st2 st2' st3 :
  dfs_step st0 new st1 st2 →
  skeleton st2' = skeleton st2 → stdout st2' = stdout st2 →
  (∀ x, color (vtx st2' x) = color (vtx st2 x) ∧
        dist (vtx st2' x) = dist (vtx st2 x) ∧
        (x ∉ new2 → vtx st2' x = vtx st2 x)) →
  dfs_step st0 new2 st2' st3 →
  dfs_step st0 (new ++ new2) st1 st3.
Proof.
  intros H1 Hskel Hout Hmid H2.
  assert (Hdisj : ∀ x, x ∈ new → x ∉ new2).
  { intros x Hx Hx2.
    pose proof (dv_black _ _ _ _ H1 x Hx) as Hb.
    destruct (dv_white _ _ _ _ H2 x Hx2) as [_ Hw].
    destruct (Hmid x) as (Hc & _). congruence. }
  split.
  - rewrite (dv_skeleton _ _ _ _ H2), Hskel. apply (dv_skeleton _ _ _ _ H1).
  - apply NoDup_app. split_and!;
      [apply (dv_nodup _ _ _ _ H1)|done|apply (dv_nodup _ _ _ _ H2)].
  - intros x [Hx|Hx]%elem_of_app; [by apply (dv_white _ _ _ _ H1)|].
    destruct (dv_white _ _ _ _ H2 x Hx) as [Hs Hw]. split; [done|].
    destruct (Hmid x) as (Hc & _). rewrite Hc in Hw.
    destruct (decide (x ∈ new)) as [Hn|Hn].
    + pose proof (dv_black _ _ _ _ H1 x Hn). congruence.
    + by rewrite (dv_other _ _ _ _ H1 x Hn) in Hw.
  - intros x [Hx|Hx]%elem_of_app; [|by apply (dv_black _ _ _ _ H2)].
    rewrite (dv_other _ _ _ _ H2 x (Hdisj x Hx)).
    destruct (Hmid x) as (-> & _). by apply (dv_black _ _ _ _ H1).
  - intros x [Hn1 Hn2]%not_elem_of_app.
    rewrite (dv_other _ _ _ _ H2 x Hn2).
    destruct (Hmid x) as (_ & _ & Hm). rewrite Hm by done.
    by apply (dv_other _ _ _ _ H1).
  - intros x. rewrite (dv_dist _ _ _ _ H2).
    destruct (Hmid x) as (_ & -> & _). apply (dv_dist _ _ _ _ H1).
  - rewrite (dv_out _ _ _ _ H2), Hout, (dv_out _ _ _ _ H1), ids_app.
    by rewrite app_assoc.
Qed.

Lemma whites_le st st' :
  (∀ x, x ∈ stored st0 → color (vtx st' x) = WHITE → color (vtx st x) = WHITE) →
  length (whites st0 st') ≤ length (whites st0 st).
Proof. intros H. by apply filter_length_le. Qed.

Lemma whites_lt st st' u :
  (∀ x, x ∈ stored st0 → color (vtx st' x) = WHITE → color (vtx st x) = WHITE) →
  u ∈ stored st0 → color (vtx st u) = WHITE → color (vtx st' u) ≠ WHITE →
  length (whites st0 st') < length (whites st0 st).
Proof. intros H Hu Hw Hn. by apply (filter_length_lt _ _ _ u). Qed.

(** The visit of a WHITE vertex [u]. *)
Lemma dfs_visit_run depth u st :
  skeleton st = skeleton st0 → u ∈ stored st0 → color (vtx st u) = WHITE →
  length (whites st0 st) ≤ depth →
  ∃ rest st', dfs_visit depth u st = (Ok (), st') ∧
              dfs_step st0 (u :: rest) st st' ∧
              predecessor (vtx st' u) = predecessor (vtx st u) ∧
              dfs_parents st0 [u] rest st'.
Proof.
  revert u st. induction depth as [|depth IH]; intros u st Hskel Hu Hw Hroom.
  { assert (Hin : u ∈ whites st0 st) by by apply list_elem_of_filter.
    destruct (whites st0 st); [by apply elem_of_nil in Hin|simpl in Hroom; lia]. }
  pose proof (inv_valid _ st0_inv u Hu) as Hlu.
  rewrite <-(skeleton_length _ _ Hskel) in Hlu.
  set (st1 := set_heap (alter (with_color GRAY) u)
                (printed [PrintId (id (vtx st u))] st)).
  assert (Hskel1 : skeleton st1 = skeleton st0).
  { unfold st1. rewrite skeleton_alter by done. exact Hskel. }
  assert (Hvtx1 : ∀ x, vtx st1 x = if decide (x = u) then with_color GRAY (vtx st u)
                                   else vtx st x).
  { intros x. unfold st1. rewrite vtx_alter. simpl.
    destruct (decide (x = u)) as [->|Hne].
    - by rewrite decide_True.
    - rewrite decide_False; [done|]. intros [? _]. congruence. }
  assert (Hwhite1 : length (whites st0 st1) ≤ depth).
  { assert (length (whites st0 st1) < length (whites st0 st)); [|lia].
    apply (whites_lt _ _ u); [|done|done|].
    - intros x _. rewrite Hvtx1. by case_decide.
    - rewrite Hvtx1. by rewrite decide_True. }
  set (body := λ v : addr,
         let* c := gets (λ st : state key, color (vtx st v)) in
         if decide (c = WHITE) then
           set_predecessor v (Some u) >> dfs_visit depth v
         else ret ()).
  assert (Hloop : ∀ vs new st2,
            (∀ v, v ∈ vs → ∃ w, edge st0 u v w) →
            dfs_step st0 new st1 st2 → dfs_parents st0 [u] new st2 →
            ∃ new' st3, for_each vs body st2 = (Ok (), st3) ∧
                        dfs_step st0 (new ++ new') st1 st3 ∧
                        dfs_parents st0 [u] (new ++ new') st3).
  { induction vs as [|v vs IHvs]; intros new st2 Hvs Hstep Hpar.
    { exists [], st2. by rewrite app_nil_r. }
    destruct (Hvs v) as [w Hedge]; [left|].
    assert (Hv : v ∈ stored st0) by by eapply st0_closed.
    assert (Hskel2 : skeleton st2 = skeleton st0).
    { by rewrite (dv_skeleton _ _ _ _ Hstep). }
    assert (Hun : u ∉ new).
    { intros Hin. destruct (dv_white _ _ _ _ Hstep u Hin) as [_ Hc].
      rewrite Hvtx1, decide_True in Hc by done. done. }
    destruct (decide (color (vtx st2 v) = WHITE)) as [Hcv|Hcv]; last first.
    { destruct (IHvs new st2) as (new' & st3 & Hrun & Hstep' & Hpar');
        [intros x Hx; apply Hvs; by right|done..|].
      exists new', st3. split; [|done].
      assert (Hb : body v st2 = (Ok (), st2)).
      { unfold body. erewrite bind_run; [|done]. by rewrite decide_False. }
      change (for_each (v :: vs) body st2)
        with (bind (body v) (λ _, for_each vs body) st2).
      by rewrite (bind_run _ _ () st2 st2 Hb). }
    assert (Hvn : v ∉ new).
    { intros Hin. pose proof (dv_black _ _ _ _ Hstep v Hin). congruence. }
    assert (Hvu : v ≠ u).
    { intros ->. rewrite (dv_other _ _ _ _ Hstep u Hun), Hvtx1 in Hcv.
      by rewrite decide_True in Hcv. }
    pose proof (inv_valid _ st0_inv v Hv) as Hlv.
    rewrite <-(skeleton_length _ _ Hskel2) in Hlv.
    set (st2' := set_heap (alter (with_predecessor (Some u)) v) st2).
    assert (Hvtx2 : ∀ x, vtx st2' x = if decide (x = v)
                                      then with_predecessor (Some u) (vtx st2 v)
                                      else vtx st2 x).
    { intros x. unfold st2'. rewrite vtx_alter.
      destruct (decide (x = v)) as [->|Hne].
      - by rewrite decide_True.
      - rewrite decide_False; [done|]. intros [? _]. congruence. }
    assert (Hskel2' : skeleton st2' = skeleton st2).
    { unfold st2'. by rewrite skeleton_alter. }
    destruct (IH v st2') as (rest & st3 & Hrun3 & Hstep3 & Hpred3 & Hpar3).
    { by rewrite Hskel2'. }
    { done. }
    { rewrite Hvtx2. by rewrite decide_True. }
    { etrans; [|exact Hwhite1]. apply whites_le. intros x Hx.
      rewrite Hvtx2. intros Hc.
      assert (Hc2 : color (vtx st2 x) = WHITE) by (by case_decide; subst).
      destruct (decide (x ∈ new)) as [Hn|Hn].
      - pose proof (dv_black _ _ _ _ Hstep x Hn). congruence.
      - by rewrite <-(dv_other _ _ _ _ Hstep x Hn). }
    assert (Hstep' : dfs_step st0 (new ++ v :: rest) st1 st3).
    { apply (dfs_step_app new (v :: rest) st1 st2 st2' st3); [done..| |done].
      intros x. rewrite Hvtx2. destruct (decide (x = v)) as [->|Hne].
      - split_and!; [done..|]. intros Hn. destruct Hn. left.
      - done. }
    assert (Hpar' : dfs_parents st0 [u] (new ++ v :: rest) st3).
    { intros x [Hx|[->|Hx]%elem_of_cons]%elem_of_app.
      - destruct (Hpar x Hx) as (p & w' & Hp & Hpp & He).
        exists p, w'. split_and!; [| |done].
        + rewrite !elem_of_app in *. tauto.
        + rewrite (dv_other _ _ _ _ Hstep3); last first.
          { intros Hin. destruct (dv_white _ _ _ _ Hstep3 x Hin) as [_ Hc].
            pose proof (dv_black _ _ _ _ Hstep x Hx) as Hb.
            rewrite Hvtx2 in Hc. case_decide; subst; simpl in Hc; congruence. }
          rewrite Hvtx2. rewrite decide_False by (intros ->; done). done.
      - exists u, w. split_and!; [| |done].
        + apply elem_of_app. left. left.
        + rewrite Hpred3, Hvtx2. by rewrite decide_True.
      - destruct (Hpar3 x Hx) as (p & w' & Hp & Hpp & He).
        exists p, w'. split_and!; [|done..].
        rewrite !elem_of_app, !elem_of_cons in *.
        rewrite elem_of_nil in Hp. tauto. }
    destruct (IHvs (new ++ v :: rest) st3) as (new' & st4 & Hrun & Hstep4 & Hpar4);
      [intros x Hx; apply Hvs; by right|done..|].
    exists ((v :: rest) ++ new'), st4. rewrite app_assoc. split; [|done].
    assert (Hb : body v st2 = (Ok (), st3)).
    { unfold body. erewrite bind_run; [|done]. rewrite decide_True by done.
      erewrite bind_run; [|done]. exact Hrun3. }
    change (for_each (v :: vs) body st2)
      with (bind (body v) (λ _, for_each vs body) st2).
    by rewrite (bind_run _ _ () st2 st3 Hb). }
  destruct (Hloop (connected_to (vtx st1 u)).*1 [] st1)
    as (rest & st3 & Hrun & Hstep & Hpar).
  { intros v [w Hgw]%dict_get_is_Some. exists w. split; [done|].
    by rewrite <-(skeleton_connected_to _ _ _ Hskel1). }
  { apply dfs_step_nil. }
  { by intros x ?%elem_of_nil. }
  simpl in Hstep, Hpar.
  assert (Hun : u ∉ rest).
  { intros Hin. destruct (dv_white _ _ _ _ Hstep u Hin) as [_ Hc].
    rewrite Hvtx1, decide_True in Hc by done. done. }
  set (st4 := set_heap (alter (with_color BLACK) u) st3).
  assert (Hlu3 : u < length (heap st3)).
  { rewrite (skeleton_length _ _ (dv_skeleton _ _ _ _ Hstep)).
    by rewrite (skeleton_length _ _ Hskel1), <-(skeleton_length _ _ Hskel). }
  assert (Hvtx4 : ∀ x, vtx st4 x = if decide (x = u) then with_color BLACK (vtx st3 u)
                                   else vtx st3 x).
  { intros x. unfold st4. rewrite vtx_alter.
    destruct (decide (x = u)) as [->|Hne].
    - by rewrite decide_True.
    - rewrite decide_False; [done|]. intros [? _]. congruence. }
  assert (Hu3 : vtx st3 u = with_color GRAY (vtx st u)).
  { rewrite (dv_other _ _ _ _ Hstep u Hun), Hvtx1. by rewrite decide_True. }
  exists rest, st4. split_and!.
  - rewrite dfs_visit_S.
    erewrite bind_run; [|done]. erewrite bind_run; [|done].
    erewrite bind_run; [|done]. erewrite bind_run; [|done].
    erewrite bind_run; [|exact Hrun]. done.
  - split.
    + unfold st4. rewrite skeleton_alter by done.
      rewrite (dv_skeleton _ _ _ _ Hstep). by rewrite Hskel1.
    + apply NoDup_cons. split; [done|apply (dv_nodup _ _ _ _ Hstep)].
    + intros x [->|Hx]%elem_of_cons; [done|].
      destruct (dv_white _ _ _ _ Hstep x Hx) as [Hs Hc]. split; [done|].
      rewrite Hvtx1 in Hc. by rewrite decide_False in Hc by (intros ->; done).
    + intros x [->|Hx]%elem_of_cons; rewrite Hvtx4.
      * by rewrite decide_True.
      * rewrite decide_False by (intros ->; done). by apply (dv_black _ _ _ _ Hstep).
    + intros x [Hxu Hx]%not_elem_of_cons. rewrite Hvtx4, decide_False by done.
      rewrite (dv_other _ _ _ _ Hstep x Hx), Hvtx1. by rewrite decide_False.
    + intros x. rewrite Hvtx4. destruct (decide (x = u)) as [->|Hne].
      * by rewrite Hu3.
      * rewrite (dv_dist _ _ _ _ Hstep), Hvtx1. by rewrite decide_False.
    + change (stdout st4) with (stdout st3).
      rewrite (dv_out _ _ _ _ Hstep). unfold st1, ids. simpl.
      rewrite <-app_assoc. simpl.
      by destruct (skeleton_vtx st0 st u Hskel) as [-> _].
  - rewrite Hvtx4, decide_True by done. by rewrite Hu3.
  - intros x Hx. destruct (Hpar x Hx) as (p & w & Hp & Hpp & He).
    exists p, w. split_and!; [done| |done].
    rewrite Hvtx4. by rewrite decide_False by (intros ->; done).
Qed.
End fixed.
End dfs_facts.

Section dfs_whole.
Context {key : Type} `{!EqDecision key} `{!Inhabited key}.
Implicit Types (st : state key).

(** The first loop of [dfs]. *)
Lemma dfs_reset_run st :
  ∃ st1, for_each (stored st) (λ u, set_color u WHITE >> set_predecessor u None) st
           = (Ok (), st1) ∧
         same_graph st st1 ∧ length (heap st1) = length (heap st) ∧
         ∀ a, vtx st1 a =
              if decide (a ∈ stored st ∧ a < length (heap st))
              then dfs_reset (vtx st a) else vtx st a.
Proof.
  apply (for_each_alter (λ _, dfs_reset)).
  - intros x st'. unfold bind, set_color, set_predecessor, update, modify; simpl.
    f_equal. unfold set_heap; simpl. f_equal.
    rewrite list_alter_alter_eq. by apply list_alter_ext.
  - done.
Qed.

(** The second loop of [dfs], from a state [st2] that the search has
    reached from the state [st1] in which every stored vertex is WHITE. *)
Lemma dfs_roots_run st0 depth st1 (us done : list addr) st2 :
  graph_inv st0 → closed st0 → skeleton st1 = skeleton st0 →
  (∀ x, x ∈ stored st0 → color (vtx st1 x) = WHITE ∧ predecessor (vtx st1 x) = None) →
  length (stored st0) ≤ depth →
  (∀ u, u ∈ us → u ∈ stored st0) →
  dfs_step st0 done st1 st2 → dfs_forest st0 done st2 →
  ∃ done' st3,
    for_each us (λ u,
      let* c := gets (λ st : state key, color (vtx st u)) in
      if decide (c = WHITE) then dfs_visit depth u else ret ()) st2 = (Ok (), st3) ∧
    dfs_step st0 (done ++ done') st1 st3 ∧ dfs_forest st0 (done ++ done') st3 ∧
    (∀ u, u ∈ us → u ∈ done ++ done') ∧
    (done = [] → head done' = head us).
Proof.
  intros Hinv Hc Hskel1 Hreset Hroom.
  revert done st2. induction us as [|u us IH]; intros done st2 Hus Hstep Hforest.
  { exists [], st2. rewrite app_nil_r. split_and!; [done..| |done].
    by intros u ?%elem_of_nil. }
  set (body := λ u : addr,
         let* c := gets (λ st : state key, color (vtx st u)) in
         if decide (c = WHITE) then dfs_visit depth u else ret ()).
  assert (Hu : u ∈ stored st0) by (apply Hus; left).
  assert (Hskel2 : skeleton st2 = skeleton st0).
  { by rewrite (dv_skeleton _ _ _ _ Hstep). }
  destruct (decide (color (vtx st2 u) = WHITE)) as [Hcu|Hcu]; last first.
  - assert (Hud : u ∈ done).
    { destruct (decide (u ∈ done)) as [|Hn]; [done|].
      rewrite (dv_other _ _ _ _ Hstep u Hn) in Hcu. by destruct (Hreset u Hu). }
    destruct (IH done st2) as (done' & st3 & Hrun & Hstep3 & Hforest3 & Hall & Hhd);
      [intros x Hx; apply Hus; by right|done..|].
    exists done', st3. split_and!; [|done..| |].
    + assert (Hb : body u st2 = (Ok (), st2)).
      { unfold body. erewrite bind_run; [|done]. by rewrite decide_False. }
      change (for_each (u :: us) body st2)
        with (bind (body u) (λ _, for_each us body) st2).
      by rewrite (bind_run _ _ () st2 st2 Hb).
    + intros x [->|Hx]%elem_of_cons; [|by apply Hall].
      apply elem_of_app. by left.
    + intros ->. by apply elem_of_nil in Hud.
  - assert (Hud : u ∉ done).
    { intros Hin. pose proof (dv_black _ _ _ _ Hstep u Hin). congruence. }
    destruct (dfs_visit_run st0 Hinv Hc depth u st2) as (rest & st3 & Hrun3 & Hstep3 & Hpred3 & Hpar3);
      [done..| |].
    { etrans; [|exact Hroom]. apply length_filter. }
    assert (Hstep' : dfs_step st0 (done ++ u :: rest) st1 st3).
    { by apply (dfs_step_app st0 done (u :: rest) st1 st2 st2 st3). }
    assert (Hforest' : dfs_forest st0 (done ++ u :: rest) st3).
    { intros x [Hx|[->|Hx]%elem_of_cons]%elem_of_app.
      - assert (Hxn : x ∉ u :: rest).
        { intros Hin. destruct (dv_white _ _ _ _ Hstep3 x Hin) as [_ Hcx].
          pose proof (dv_black _ _ _ _ Hstep x Hx). congruence. }
        rewrite (dv_other _ _ _ _ Hstep3 x Hxn).
        destruct (Hforest x Hx) as [Hn|(p & w & Hp & Hpp & He)]; [by left|right].
        exists p, w. split; [|done]. apply elem_of_app. by left.
      - left. rewrite Hpred3, (dv_other _ _ _ _ Hstep u Hud). by destruct (Hreset u Hu).
      - right. destruct (Hpar3 x Hx) as (p & w & Hp & Hpp & He).
        exists p, w. split; [|done]. apply elem_of_app. right.
        rewrite elem_of_app, list_elem_of_singleton in Hp.
        destruct Hp as [->|Hp]; [left|by right]. }
    destruct (IH (done ++ u :: rest) st3)
      as (done' & st4 & Hrun & Hstep4 & Hforest4 & Hall & Hhd);
      [intros x Hx; apply Hus; by right|done..|].
    exists ((u :: rest) ++ done'), st4. rewrite app_assoc. split_and!; [|done..| |done].
    + assert (Hb : body u st2 = (Ok (), st3)).
      { unfold body. erewrite bind_run; [|done]. by rewrite decide_True. }
      change (for_each (u :: us) body st2)
        with (bind (body u) (λ _, for_each us body) st2).
      by rewrite (bind_run _ _ () st2 st3 Hb).
    + intros x [->|Hx]%elem_of_cons; [|by apply Hall].
      rewrite !elem_of_app. left. right. left.
Qed.

(** X13. On a graph in which every adjacency entry refers to a stored
    vertex, and with room in the interpreter for as many nested
    activations of [dfs_visit] as the graph has vertices, [dfs] returns; it
    prints the id of every stored vertex exactly once, that of the first
    stored vertex first, and leaves every stored vertex BLACK, with the
    distances it had and with no predecessor or a predecessor that has an
    edge to it. *)
Theorem dfs_visits_every_vertex_once (st : state key) (depth : nat) :
  graph_inv st → closed st → length (stored st) ≤ depth →
  (dfs depth st).1 = Ok () ∧
  ∃ order,
    order ≡ₚ stored st ∧ head order = head (stored st) ∧
    stdout (after (dfs depth) st) = stdout st ++ ids st order ∧
    ∀ v, v ∈ stored st →
      color (vtx (after (dfs depth) st) v) = BLACK ∧
      dist (vtx (after (dfs depth) st) v) = dist (vtx st v) ∧
      (predecessor (vtx (after (dfs depth) st) v) = None ∨
       ∃ u w, predecessor (vtx (after (dfs depth) st) v) = Some u ∧ edge st u v w).
Proof.
  intros Hinv Hc Hdepth.
  destruct (dfs_reset_run st) as (st1 & Hrun1 & Hsg & Hlen & Hvtx).
  assert (Hvtx' : ∀ v, v ∈ stored st → vtx st1 v = dfs_reset (vtx st v)).
  { intros v Hv. rewrite Hvtx.
    by rewrite decide_True by (split; [done|by apply (inv_valid _ Hinv)]). }
  assert (Hskel : skeleton st1 = skeleton st).
  { apply skeleton_of_vtx; [done..|]. intros a. rewrite Hvtx. by case_decide. }
  assert (Hdist : ∀ x, dist (vtx st1 x) = dist (vtx st x)).
  { intros x. rewrite Hvtx. by case_decide. }
  destruct (dfs_roots_run st depth st1 (stored st) [] st1)
    as (order & st' & Hrun & Hstep & Hforest & Hall & Hhd).
  { exact Hinv. }
  { exact Hc. }
  { exact Hskel. }
  { intros x Hx. by rewrite Hvtx'. }
  { exact Hdepth. }
  { done. }
  { by apply dfs_step_nil. }
  { by intros x ?%elem_of_nil. }
  simpl in Hstep, Hforest, Hall.
  assert (Hdfs : dfs depth st = (Ok (), st')).
  { unfold dfs. erewrite bind_run; [|done]. erewrite bind_run; [|exact Hrun1].
    erewrite bind_run; last first.
    { unfold iter_graph, gets. by rewrite (skeleton_vertices _ _ Hskel). }
    exact Hrun. }
  unfold after. rewrite Hdfs. simpl. split; [done|].
  exists order. split_and!.
  - apply NoDup_Permutation; [apply (dv_nodup _ _ _ _ Hstep)|apply (inv_objects _ Hinv)|].
    intros x. split; [|by apply Hall].
    intros Hx. by destruct (dv_white _ _ _ _ Hstep x Hx).
  - by apply Hhd.
  - rewrite (dv_out _ _ _ _ Hstep). by destruct Hsg as (_ & _ & _ & ->).
  - intros v Hv. pose proof (Hall v Hv) as Hin. split_and!.
    + by apply (dv_black _ _ _ _ Hstep).
    + by rewrite (dv_dist _ _ _ _ Hstep).
    + destruct (Hforest v Hin) as [?|(p & w & _ & ? & ?)]; [by left|right].
      by exists p, w.
Qed.
End dfs_whole.

(** ** The distances from other sources *)
Section sources.
Context {key : Type} `{!EqDecision key} `{!Inhabited key}.
Implicit Types (st : state key).

#[global] Instance dists_but_preorder s : PreOrder (dists_but (key:=key) s).
Proof.
  split.
  - by intros st v s' _.
  - intros st1 st2 st3 H12 H23 v s' Hs. by rewrite H23, H12.
Qed.

Lemma update_dists_but s a (f : Vertex key → Vertex key) :
  (∀ x s', s ≠ Some s' → dict_get s' (dist (f x)) = dict_get s' (dist x)) →
  stable (dists_but s) (update a f).
Proof.
  intros Hf st v s' Hs. unfold after, update, modify, dist_from. simpl.
  rewrite vtx_alter. case_decide; [by apply Hf|done].
Qed.

Lemma set_color_dists_but s a c : stable (dists_but s) (set_color (key:=key) a c).
Proof. by apply update_dists_but. Qed.
Lemma set_predecessor_dists_but s a p :
  stable (dists_but s) (set_predecessor (key:=key) a p).
Proof. by apply update_dists_but. Qed.
Lemma set_dist_dists_but s a d : stable (dists_but (Some s)) (set_dist (key:=key) a s d).
Proof.
  apply update_dists_but. intros x s' Hs. simpl.
  apply dict_get_set_ne. congruence.
Qed.
Lemma print_dists_but s o : stable (dists_but s) (print (key:=key) o).
Proof. by intros st v s' _. Qed.
Lemma q_put_dists_but s n q x : stable (dists_but s) (q_put (key:=key) n q x).
Proof. unfold q_put. case_decide; [apply stable_raise | apply stable_ret]; apply _. Qed.

Ltac dists_step :=
  first
    [ apply stable_ret; apply _
    | apply stable_raise; apply _
    | apply stable_gets; apply _
    | apply stable_get_dist; apply _
    | apply stable_get_weight; apply _
    | apply stable_get_vertex; apply _
    | apply set_color_dists_but
    | apply set_predecessor_dists_but
    | apply set_dist_dists_but
    | apply print_dists_but
    | apply q_put_dists_but
    | apply stable_bind; [apply _| |intros ?]
    | apply stable_for_each; [apply _|intros ?]
    | apply stable_for_fold; [apply _|intros ? ?]
    | case_decide
    | case_match ].

(** A call that looks its source up first. *)
Lemma from_source {A} k (body : addr → M key A) st s :
  (∀ s, stable (dists_but (Some s)) (body s)) →
  dict_get k (vertices st) = Some s →
  dists_but (Some s) st (after (bind (get_vertex k) body) st).
Proof.
  intros Hbody Hk. unfold after. erewrite bind_run; [|by apply get_vertex_run].
  apply Hbody.
Qed.

Lemma get_edges_dists_but s : stable (dists_but s) (get_edges (key:=key)).
Proof. unfold get_edges, iter_graph, get_connections. repeat dists_step. Qed.

Lemma bfs_while_dists_but fuel source n q :
  stable (dists_but (Some source)) (bfs_while (key:=key) fuel source n q).
Proof.
  revert q. induction fuel as [|fuel IH]; intros [|u q]; simpl;
    unfold bfs_visit, get_connections; repeat first [apply IH | dists_step].
Qed.

Lemma dfs_visit_dists_but depth u : stable (dists_but None) (dfs_visit (key:=key) depth u).
Proof.
  revert u. induction depth as [|depth IH]; intros u; simpl;
    unfold get_id, get_connections; repeat first [apply IH | dists_step].
Qed.

Lemma print_path_util_dists_but depth s d :
  stable (dists_but None) (_print_path_util (key:=key) depth s d).
Proof.
  revert d. induction depth as [|depth IH]; intros d; simpl; unfold get_id.
  - repeat dists_step.
  - repeat first [apply IH | dists_step].
Qed.

Lemma initialize_single_source_dists_but s :
  stable (dists_but (Some s)) (initialize_single_source (key:=key) s).
Proof. unfold initialize_single_source, iter_graph. repeat dists_step. Qed.

Lemma relax_dists_but s u v w : stable (dists_but (Some s)) (relax (key:=key) s u v w).
Proof. unfold relax. repeat dists_step. Qed.

Section with_queue.
Variable P : MutablePriorityQueue.

Lemma relax_with_priority_update_dists_but s u v w q :
  stable (dists_but (Some s)) (relax_with_priority_update (key:=key) P s u v w q).
Proof. unfold relax_with_priority_update. repeat dists_step. Qed.

Lemma dijkstra_while_dists_but fuel s q :
  stable (dists_but (Some s)) (dijkstra_while (key:=key) P fuel s q).
Proof.
  revert q. induction fuel as [|fuel IH]; intros q; simpl; unfold get_connections;
    repeat first [ apply IH | apply relax_with_priority_update_dists_but
                 | dists_step ].
Qed.

(** X14. The distances are kept per source: [bfs], [bellman_ford] and
    [dijkstra] from a stored key, whether they return or raise, change
    no [dist] entry but those for their own source vertex, so the
    distances from the sources of earlier runs stay; [dfs],
    [print_path], [connected] and [get_edges] change no [dist] entry at
    all. *)
Theorem searches_keep_other_distances (st : state key) (k : key) (s : addr) :
  dict_get k (vertices st) = Some s →
  (∀ v s', s' ≠ s →
     dist_from (after (bfs k) st) s' v = dist_from st s' v ∧
     dist_from (after (bellman_ford k) st) s' v = dist_from st s' v ∧
     ∀ fuel, dist_from (after (dijkstra P fuel k) st) s' v = dist_from st s' v) ∧
  (∀ v s',
     (∀ depth, dist_from (after (dfs depth) st) s' v = dist_from st s' v) ∧
     dist_from (after get_edges st) s' v = dist_from st s' v ∧
     ∀ k1 k2,
       (∀ depth, dist_from (after (print_path depth k1 k2) st) s' v
                 = dist_from st s' v) ∧
       dist_from (after (connected k1 k2) st) s' v = dist_from st s' v).
Proof.
  intros Hk. split.
  - intros v s' Hs. split_and!.
    + apply (from_source k _ st s); [|done|congruence].
      intros source. unfold iter_graph.
      repeat first [apply bfs_while_dists_but | dists_step].
    + apply (from_source k _ st s); [|done|congruence].
      intros source.
      repeat first [ apply initialize_single_source_dists_but
                   | apply get_edges_dists_but
                   | apply relax_dists_but
                   | dists_step ].
    + intros fuel. apply (from_source k _ st s); [|done|congruence].
      intros source. unfold get_vertices.
      repeat first [ apply initialize_single_source_dists_but
                   | apply dijkstra_while_dists_but
                   | dists_step ].
  - intros v s'. split_and!.
    + intros depth.
      assert (Hd : stable (dists_but None) (dfs (key:=key) depth)).
      { unfold dfs, iter_graph. repeat first [apply dfs_visit_dists_but | dists_step]. }
      by apply Hd.
    + by apply (get_edges_dists_but None).
    + intros k1 k2. split.
      * intros depth.
        assert (Hd : stable (dists_but None) (print_path (key:=key) depth k1 k2)).
        { unfold print_path.
          repeat first [apply print_path_util_dists_but | dists_step]. }
        by apply Hd.
      * assert (Hd : stable (dists_but None) (connected (key:=key) k1 k2)).
        { unfold connected, get_connections. repeat dists_step. }
        by apply Hd.
Qed.
End with_queue.
End sources.

(** ** Edges to vertex objects that are not stored *)
Section stale_edges.
Context {key : Type} `{!EqDecision key} `{!Inhabited key}.
Implicit Types (st : state key).

Lemma get_dist_fail v s st : dist_from st s v = None → get_dist v s st = (Fail KeyError, st).
Proof. unfold get_dist, dist_from. by intros ->. Qed.

(** A pass over edges one of which leads to a vertex without a distance
    for the source raises [KeyError]. *)
Lemma relax_all_stuck s edges st :
  (∃ e, e ∈ edges ∧ dist_from st s e.1.2 = None) →
  ∃ st', relax_all s edges st = (Fail KeyError, st').
Proof.
  revert st. induction edges as [|[[u0 v0] w0] edges IH]; intros st (e & He & Hnone).
  { by apply elem_of_nil in He. }
  unfold relax_all in *. simpl.
  destruct (dist_from st s v0) as [dv|] eqn:Hv0; last first.
  { exists st. apply bind_fail. unfold relax. by apply bind_fail, get_dist_fail. }
  destruct (dist_from st s u0) as [du|] eqn:Hu0; last first.
  { exists st. apply bind_fail. unfold relax.
    erewrite bind_run; [|by apply get_dist_run]. by apply bind_fail, get_dist_fail. }
  apply elem_of_cons in He as [->|He]; [simpl in Hnone; congruence|].
  assert (Hne : e.1.2 ≠ v0) by (intros Heq; rewrite Heq in Hnone; congruence).
  set (st1 := if decide (dv > du + w0)%Z then lowered s u0 v0 (du + w0) st else st).
  assert (Hrun : relax s u0 v0 w0 st = (Ok (), st1)).
  { unfold relax, st1.
    erewrite bind_run; [|by apply get_dist_run].
    erewrite bind_run; [|by apply get_dist_run].
    case_decide; [|done].
    erewrite bind_run; [|by apply get_dist_run].
    unfold bind, set_dist, set_predecessor, update, modify, lowered; simpl.
    f_equal. unfold set_heap; simpl. f_equal.
    rewrite list_alter_alter_eq. by apply list_alter_ext. }
  destruct (IH st1) as (st' & Hrun').
  { exists e. split; [done|]. unfold st1. case_decide; [|done].
    unfold dist_from, lowered. by rewrite vtx_alter_ne. }
  exists st'. by erewrite bind_run.
Qed.

(** X15. When a stored vertex has an adjacency entry for a vertex object
    that is not stored and has no [dist] entry for the source, as after
    [add_vertex] was given the key of a vertex with incoming edges a
    second time, [bellman_ford] from a stored key raises [KeyError] in its
    first pass. *)
Theorem bellman_ford_raises_on_stale_edge (st : state key) (k : key)
    (s u v : addr) (w : Z) :
  graph_inv st → dict_get k (vertices st) = Some s → (2 ≤ num_vertices st)%Z →
  edge st u v w → v ∉ stored st → dist_from st s v = None →
  (bellman_ford k st).1 = Fail KeyError.
Proof.
  intros Hinv Hk Hn He Hv Hnone.
  pose proof (get_vertex_stored _ _ _ Hk) as Hs.
  destruct (initialize_single_source_run s st Hs) as (st1 & Hrun1 & Hsg & Hlen & Hvtx).
  assert (Hskel : skeleton st1 = skeleton st).
  { apply skeleton_of_vtx; [done..|]. intros a. rewrite Hvtx. by case_decide. }
  assert (Hnone1 : dist_from st1 s v = None).
  { unfold dist_from. rewrite Hvtx. rewrite decide_False; [done|]. by intros [? _]. }
  assert (Hinv1 : graph_inv st1) by by eapply skeleton_graph_inv.
  destruct (relax_all_stuck s (edges_of st1) st1) as (st' & Hstuck).
  { exists (u, v, w). split; [|done]. apply edges_of_edge; [done|].
    by apply (skeleton_edge _ _ _ _ _ Hskel). }
  unfold bellman_ford.
  erewrite bind_run; [|by apply get_vertex_run].
  erewrite bind_run; [|exact Hrun1].
  erewrite bind_run; [|done].
  rewrite (skeleton_num_vertices _ _ Hskel).
  destruct (Z.to_nat (num_vertices st - 1)) as [|n] eqn:Hpasses; [lia|].
  erewrite bind_fail; [done|]. simpl.
  apply bind_fail. erewrite bind_run; [|by apply get_edges_run]. exact Hstuck.
Qed.
End stale_edges.

(** ** The predecessors that relaxations leave *)
Section tree_facts.
Context {key : Type} `{!EqDecision key} `{!Inhabited key}.
Implicit Types (st : state key).

Lemma chain_root_none st r l d : chain st r l d → predecessor (vtx st r) = None.
Proof. by induction 1. Qed.

Lemma chain_members st r l d y :
  chain st r l d → y ∈ l → is_Some (predecessor (vtx st y)).
Proof.
  induction 1 as [r Hr|r l p d Hc IH Hp]; [by intros ?%elem_of_nil|].
  intros [Hy| ->%list_elem_of_singleton]%elem_of_app; [auto|by exists p].
Qed.

Lemma chain_NoDup_all st r l d : chain st r l d → NoDup (r :: l).
Proof.
  intros Hc. apply NoDup_cons. split; [|by eapply chain_NoDup].
  intros Hr. destruct (chain_members _ _ _ _ _ Hc Hr) as [p Hp].
  rewrite (chain_root_none _ _ _ _ Hc) in Hp. done.
Qed.

Lemma chain_last st r l d : chain st r l d → d ∈ r :: l.
Proof.
  destruct 1; [left|]. right. apply elem_of_app. right. left.
Qed.

Lemma chain_to_trail st r l d : chain st r l d → trail st r l d.
Proof.
  intros Hc. pose proof (chain_root_none _ _ _ _ Hc) as Hr.
  induction Hc as [r _|r l p d Hc IH Hp]; [apply trail_here|].
  apply (trail_link _ _ _ p); [by apply IH|done|]. intros ->. congruence.
Qed.

(** The part of a chain from one of its vertices on. *)
Lemma chain_trail_at st r l d v :
  chain st r l d → v ∈ r :: l → ∃ l1 l2, r :: l = l1 ++ v :: l2 ∧ trail st v l2 d.
Proof.
  induction 1 as [r Hr|r l p d Hc IH Hp]; intros Hv.
  - apply list_elem_of_singleton in Hv as ->. exists [], []. split; [done|].
    apply trail_here.
  - destruct (decide (v = d)) as [->|Hne].
    + exists (r :: l), []. split; [done|]. apply trail_here.
    + destruct IH as (l1 & l2 & Hl & Ht).
      { rewrite app_comm_cons in Hv.
        apply elem_of_app in Hv as [Hv|Hv%list_elem_of_singleton]; done. }
      exists l1, (l2 ++ [d]). split.
      * rewrite app_comm_cons, Hl. by rewrite <-app_assoc.
      * by apply (trail_link _ _ _ p).
Qed.

Lemma chain_frame st st' r l d :
  chain st r l d →
  (∀ x, x ∈ r :: l → predecessor (vtx st' x) = predecessor (vtx st x)) →
  chain st' r l d.
Proof.
  induction 1 as [r Hr|r l p d Hc IH Hp]; intros Hsame.
  - apply chain_root. rewrite Hsame; [done|left].
  - apply (chain_link _ _ _ p).
    + apply IH. intros x Hx. apply Hsame. rewrite app_comm_cons.
      apply elem_of_app. by left.
    + rewrite Hsame; [done|]. right. apply elem_of_app. right. left.
Qed.

Lemma trail_frame st st' v l x :
  trail st v l x →
  (∀ y, y ∈ l → predecessor (vtx st' y) = predecessor (vtx st y)) →
  trail st' v l x.
Proof.
  induction 1 as [|l p d Ht IH Hp Hd]; intros Hsame; [apply trail_here|].
  apply (trail_link _ _ _ p); [|by rewrite Hsame by (apply elem_of_app; right; left)|done].
  apply IH. intros y Hy. apply Hsame. apply elem_of_app. by left.
Qed.

Lemma chain_app_trail st r l v l2 x :
  chain st r l v → trail st v l2 x → chain st r (l ++ l2) x.
Proof.
  intros Hc. induction 1 as [|l2 p d Ht IH Hp Hd].
  - by rewrite app_nil_r.
  - rewrite app_assoc. by apply (chain_link _ _ _ p).
Qed.

Section fixed.
Variables (st0 : state key) (s : addr).
Hypothesis st0_inv : graph_inv st0.
Hypothesis st0_closed : closed st0.
Hypothesis st0_no_negative_cycle : ¬ negative_cycle st0.

(** Following the predecessors backwards is a walk, along which the
    estimates grow at least by the weights. *)
Lemma trail_walk st v l x :
  tree_inv st0 s st → trail st v l x → x ∈ stored st0 →
  ∃ p W, walk st0 v p x W ∧ (estimate st s v + W ≤ estimate st s x)%Z ∧
         v :: l = p ++ [x].
Proof.
  intros Hinv. induction 1 as [|l p0 d Ht IH Hp Hd]; intros Hx.
  - exists [], 0%Z. split_and!; [by apply walk_nil|lia|done].
  - destruct (ti_pred _ _ _ Hinv d p0 Hx Hp) as (_ & w & He & Hle).
    destruct IH as (p & W & Hw & HW & Hl); [by destruct He|].
    exists (p ++ [p0]), (W + w)%Z. split_and!.
    + by eapply walk_snoc.
    + lia.
    + by rewrite app_comm_cons, Hl.
Qed.

Lemma tree_inv_lowered st u v w :
  tree_inv st0 s st → edge st0 u v w →
  (estimate st s v > estimate st s u + w)%Z →
  tree_inv st0 s (lowered s u v (estimate st s u + w) st).
Proof.
  intros Hinv He Hgt.
  pose proof (ti_sssp _ _ _ Hinv) as Hsssp.
  destruct (sssp_inv_edge st0 s st0_inv st0_closed _ _ _ _ Hsssp He)
    as (Hu & Hv & Hlt & _ & _).
  set (st' := lowered s u v (estimate st s u + w) st).
  assert (Hest : ∀ x, estimate st' s x =
                      if decide (x = v) then (estimate st s u + w)%Z
                      else estimate st s x).
  { intros x. by apply lowered_estimate. }
  assert (Hpv : predecessor (vtx st' v) = Some u).
  { unfold st', lowered. by rewrite vtx_alter_eq. }
  assert (Hpo : ∀ x, x ≠ v → predecessor (vtx st' x) = predecessor (vtx st x)).
  { intros x Hx. unfold st', lowered. by rewrite vtx_alter_ne. }
  assert (Hle : ∀ x, (estimate st' s x ≤ estimate st s x)%Z).
  { intros x. rewrite Hest. case_decide; subst; lia. }
  split.
  - by apply (sssp_inv_lowered st0 s st0_inv st0_closed).
  - intros x p Hx Hp. destruct (decide (x = v)) as [->|Hne].
    + rewrite Hpv in Hp. injection Hp as <-. split.
      * rewrite Hest, decide_True by done.
        pose proof (si_initial _ _ _ Hsssp v Hv). lia.
      * exists w. split; [done|]. rewrite (Hest v), decide_True by done.
        specialize (Hle u). lia.
    + rewrite Hpo in Hp by done.
      destruct (ti_pred _ _ _ Hinv x p Hx Hp) as (Hlow & w' & He' & Hle').
      rewrite (Hest x), decide_False by done. split; [done|].
      exists w'. split; [done|]. specialize (Hle p). lia.
  - intros x Hx Hp. destruct (decide (x = v)) as [->|Hne]; [congruence|].
    rewrite Hpo in Hp by done. rewrite Hest, decide_False by done.
    by apply (ti_none _ _ _ Hinv).
  - (* the chain of [u] does not pass [v] *)
    destruct (ti_rooted _ _ _ Hinv u Hu) as (ru & lu & Hcu).
    assert (Hvu : v ∉ ru :: lu).
    { intros Hin.
      destruct (chain_trail_at _ _ _ _ _ Hcu Hin) as (l1 & l2 & _ & Ht).
      destruct (trail_walk st v l2 u Hinv Ht Hu) as (p & W & Hw & HW & _).
      apply st0_no_negative_cycle.
      exists v, (p ++ [u]), (W + w)%Z. split_and!.
      - by eapply walk_snoc.
      - by destruct p.
      - lia. }
    assert (Hcu' : chain st' ru lu u).
    { apply (chain_frame st); [done|]. intros x Hx. apply Hpo. by intros ->. }
    assert (Hcv' : chain st' ru (lu ++ [v]) v).
    { by apply (chain_link _ _ _ u). }
    intros x Hx. destruct (ti_rooted _ _ _ Hinv x Hx) as (r & l & Hc).
    destruct (decide (v ∈ r :: l)) as [Hin|Hnin].
    + destruct (chain_trail_at _ _ _ _ _ Hc Hin) as (l1 & l2 & Hl & Ht).
      exists ru, ((lu ++ [v]) ++ l2). apply (chain_app_trail _ _ _ v); [done|].
      apply (trail_frame st); [done|]. intros y Hy. apply Hpo. intros ->.
      pose proof (chain_NoDup_all _ _ _ _ Hc) as Hnd. rewrite Hl in Hnd.
      apply NoDup_app in Hnd as (_ & _ & Hnd).
      by apply NoDup_cons in Hnd as [? _].
    + exists r, l. apply (chain_frame st); [done|]. intros y Hy. apply Hpo.
      by intros ->.
Qed.

(** The state that [initialize_single_source] leaves. *)
Lemma tree_inv_initial st :
  sssp_inv st0 s st →
  (∀ v, v ∈ stored st0 → estimate st s v = initial s v ∧
                          predecessor (vtx st v) = None) →
  tree_inv st0 s st.
Proof.
  intros Hsssp Hinit. split; [done| | |].
  - intros v p Hv Hp. destruct (Hinit v Hv) as [_ Hn]. congruence.
  - intros v Hv _. by destruct (Hinit v Hv).
  - intros v Hv. exists v, []. apply chain_root. by destruct (Hinit v Hv).
Qed.

Lemma relax_all_tree edges st st' :
  tree_inv st0 s st → (∀ e, e ∈ edges → edge st0 e.1.1 e.1.2 e.2) →
  relax_all s edges st = (Ok (), st') → tree_inv st0 s st'.
Proof.
  revert st. induction edges as [|[[u v] w] edges IH]; intros st Hinv Hedges Hrun.
  { unfold relax_all in Hrun. simpl in Hrun. by injection Hrun as <-. }
  assert (He : edge st0 u v w) by (apply (Hedges (u, v, w)); left).
  destruct (sssp_inv_edge st0 s st0_inv st0_closed _ _ _ _ (ti_sssp _ _ _ Hinv) He)
    as (Hu & Hv & Hlt & Hdu & Hdv).
  unfold relax_all in *. simpl in Hrun.
  erewrite bind_run in Hrun; [|by apply relax_run].
  apply IH in Hrun; [done| |].
  - case_decide; [by apply tree_inv_lowered|done].
  - intros e He'. apply Hedges. by right.
Qed.

Lemma passes_tree {A} (l : list A) st st' :
  tree_inv st0 s st →
  for_each l (λ _, let* edges := get_edges in relax_all s edges) st = (Ok (), st') →
  tree_inv st0 s st'.
Proof.
  revert st. induction l as [|x l IH]; intros st Hinv Hrun.
  { simpl in Hrun. by injection Hrun as <-. }
  pose proof (ti_sssp _ _ _ Hinv) as Hsssp.
  destruct (get_edges_run_inv st0 s st0_inv st Hsssp) as [Hget Hedges].
  destruct (relax_all_run st0 s st0_inv st0_closed (edges_of st) st Hsssp)
    as (st1 & Hrun1 & _); [intros e He; by apply Hedges|].
  simpl in Hrun. erewrite bind_run in Hrun; last first.
  { erewrite bind_run; [|exact Hget]. exact Hrun1. }
  apply IH in Hrun; [done|].
  apply (relax_all_tree (edges_of st) st); [done| |done].
  intros e He. by apply Hedges.
Qed.
End fixed.
End tree_facts.

Section bellman_ford_tree.
Context {key : Type} `{!EqDecision key} `{!Inhabited key}.
Implicit Types (st : state key).

Lemma bellman_ford_tree st k s st' :
  graph_inv st → closed st → ¬ negative_cycle st →
  dict_get k (vertices st) = Some s →
  bellman_ford k st = (Ok (), st') → tree_inv st s st'.
Proof.
  intros Hinv Hc Hnc Hk Hrun.
  pose proof (get_vertex_stored _ _ _ Hk) as Hs.
  destruct (initialized st s Hinv Hs) as (st1 & Hrun1 & Hinv1 & Hup1 & Hinit).
  set (n := Z.to_nat (num_vertices st1 - 1)).
  destruct (passes_run st s Hinv Hc (seq 0 n) 0 st1 Hinv1 Hup1)
    as (st2 & Hrun2 & Hinv2 & _).
  destruct (get_edges_run_inv st s Hinv st2 Hinv2) as [Hget Hedges].
  pose proof (scan_run st s Hinv Hc (edges_of st2) st2 Hinv2
                (λ e He, proj1 (Hedges e) He)) as Hscan.
  unfold bellman_ford in Hrun.
  erewrite bind_run in Hrun; [|by apply get_vertex_run].
  erewrite bind_run in Hrun; [|exact Hrun1].
  erewrite bind_run in Hrun; [|done].
  erewrite bind_run in Hrun; [|exact Hrun2].
  erewrite bind_run in Hrun; [|exact Hget].
  unfold scan in Hscan. rewrite Hscan in Hrun.
  assert (st' = st2) as -> by (by injection Hrun).
  apply (passes_tree st s Hinv Hc Hnc (seq 0 n) st1); [|exact Hrun2].
  apply tree_inv_initial; [done|]. intros v Hv.
  by destruct (Hinit v Hv) as (? & ? & _).
Qed.

(** Where the chain of a vertex with a small estimate begins. *)
Lemma tree_inv_path st s st' d :
  graph_inv st → closed st → tree_inv st s st' → s ∈ stored st → d ∈ stored st →
  (∀ r p W, r ≠ s → walk st r p d W → NoDup (p ++ [d]) →
            (estimate st' s d < sys_maxsize + W)%Z) →
  ∃ p W l, walk st s p d W ∧ (W ≤ estimate st' s d)%Z ∧
           trail st' s l d ∧ s :: l = p ++ [d].
Proof.
  intros Hinv Hc Htree Hs Hd Hsmall.
  destruct (ti_rooted _ _ _ Htree d Hd) as (r & l & Hch).
  pose proof (chain_to_trail _ _ _ _ Hch) as Htr.
  destruct (trail_walk st s st' r l d Htree Htr Hd) as (p & W & Hw & HW & Hl).
  pose proof (walk_start _ _ _ _ _ Hw) as Hr.
  pose proof (ti_none _ _ _ Htree r Hr (chain_root_none _ _ _ _ Hch)) as Hest.
  destruct (decide (r = s)) as [->|Hne].
  - exists p, W, l. split_and!; [done| |done..].
    unfold initial in Hest. rewrite decide_True in Hest by done. lia.
  - pose proof (Hsmall r p W Hne Hw) as Hlt.
    unfold initial in Hest. rewrite decide_False in Hest by done.
    rewrite <-Hl in Hlt. specialize (Hlt (chain_NoDup_all _ _ _ _ Hch)). lia.
Qed.

(** X16. On a graph in which every adjacency entry refers to a stored
    vertex, without a cycle of negative weight and with weights that are
    small against [sys.maxsize], after [bellman_ford] from a stored key
    [print_path] from that key to a vertex that can be reached prints the
    ids of the vertices of a shortest path from the source to it, whose
    weight is the [dist[source]] of that vertex, provided the interpreter
    has room for one activation of the recursive method per vertex of that
    path; with less room it raises [RecursionError] and prints nothing. *)
Theorem bellman_ford_then_print_path (st : state key) (depth : nat) (ks kd : key)
    (s d : addr) (W : Z) :
  graph_inv st → closed st → ¬ negative_cycle st →
  dict_get ks (vertices st) = Some s → dict_get kd (vertices st) = Some d →
  (0 ≤ W)%Z → (∀ u x w, edge st u x w → (Z.abs w ≤ W)%Z) →
  (2 * (Z.of_nat (length (stored st)) - 1) * W < sys_maxsize)%Z →
  reachable st s d →
  ∃ p δ, walk st s p d δ ∧ shortest_distance st s d δ ∧
         dist_from (after (bellman_ford ks) st) s d = Some δ ∧
         (length p < depth →
            print_path depth ks kd (after (bellman_ford ks) st) =
            (Ok (), printed (ids st (p ++ [d])) (after (bellman_ford ks) st))) ∧
         (depth ≤ length p →
            print_path depth ks kd (after (bellman_ford ks) st) =
            (Fail RecursionError, after (bellman_ford ks) st)).
Proof.
  intros Hinv Hc Hnc Hks Hkd HW0 HW Hsmall (p0 & w0 & Hw0).
  pose proof (get_vertex_stored _ _ _ Hks) as Hs.
  pose proof (get_vertex_stored _ _ _ Hkd) as Hd.
  destruct (bellman_ford_run st ks s Hinv Hc Hks)
    as (st' & Hsssp & [[Hneg _]|(_ & Hrun & Hleast)]); [done|].
  pose proof (bellman_ford_tree st ks s st' Hinv Hc Hnc Hks Hrun) as Htree.
  unfold after. rewrite Hrun. simpl.
  pose proof (si_skeleton _ _ _ Hsssp) as Hskel.
  destruct (Hleast d Hd) as [_ Hle].
  destruct (walk_short _ _ _ _ _ Hc Hnc Hw0) as (p0' & w0' & Hw0' & Hle0 & Hlen0).
  pose proof (walk_weight_bound _ _ _ _ _ _ HW Hw0') as Hb0.
  pose proof (Hle _ _ _ Hw0') as Hd0.
  unfold initial in Hd0. rewrite decide_True in Hd0 by done.
  destruct (tree_inv_path st s st' d Hinv Hc Htree Hs Hd) as (p & Wc & l & Hw & HWc & Htr & Hl).
  { intros r pr Wr Hne Hwr Hnd.
    pose proof (walk_weight_bound _ _ _ _ _ _ HW Hwr) as Hbr.
    assert (length (pr ++ [d]) ≤ length (stored st)) as Hlen.
    { apply submseteq_length, NoDup_submseteq; [done|].
      intros x [Hx| ->%list_elem_of_singleton]%elem_of_app; [|done].
      by eapply walk_left. }
    rewrite length_app in Hlen. simpl in Hlen. nia. }
  pose proof (Hle _ _ _ Hw) as Hge. unfold initial in Hge.
  rewrite decide_True in Hge by done.
  assert (Wc = estimate st' s d) as -> by lia.
  assert (Hll : length l = length p).
  { apply (f_equal length) in Hl. rewrite length_app in Hl. simpl in Hl. lia. }
  destruct (print_path_trail st' depth ks kd s d l) as [Hok Hdeep];
    [by rewrite (skeleton_vertices _ _ Hskel)..|done|].
  exists p, (estimate st' s d).
  split_and!; [done| |by apply (si_defined _ _ _ Hsssp)| |].
  - split; [by exists p|]. intros q wq Hq. pose proof (Hle _ _ _ Hq) as Hq'.
    unfold initial in Hq'. rewrite decide_True in Hq' by done. lia.
  - intros Hlt. rewrite <-Hl, <-(ids_skeleton st st' _ Hskel). apply Hok. lia.
  - intros Hroom. apply Hdeep. lia.
Qed.
End bellman_ford_tree.

Section dijkstra_tree.
Context {key : Type} `{!EqDecision key} `{!Inhabited key}.
Implicit Types (st : state key).

Variable P : MutablePriorityQueue.
Hypothesis P_lawful : pq_lawful P.

Lemma bind_inv {A B} (m : M key A) (k : A → M key B) st b st' :
  bind m k st = (Ok b, st') → ∃ a st1, m st = (Ok a, st1) ∧ k a st1 = (Ok b, st').
Proof. unfold bind. destruct (m st) as [[a|f] st1]; [eauto|discriminate]. Qed.

Section fixed.
Variables (st0 : state key) (s : addr).
Hypothesis st0_inv : graph_inv st0.
Hypothesis st0_closed : closed st0.
Hypothesis st0_no_negative_cycle : ¬ negative_cycle st0.

Lemma dijkstra_scan_tree u vs q st q' st' :
  tree_inv st0 s st → u ∈ stored st0 →
  (∀ v, v ∈ vs → is_Some (dict_get v (connected_to (vtx st0 u)))) →
  (∀ a, is_Some (tasks P q !! a) → a ∈ stored st0) →
  dijkstra_scan P s u vs q st = (Ok q', st') →
  tree_inv st0 s st' ∧ (∀ a, is_Some (tasks P q' !! a) → a ∈ stored st0).
Proof.
  intros Hinv Hu. revert q st Hinv.
  induction vs as [|v vs IH]; intros q st Hinv Hvs Hq Hrun.
  { cbv [dijkstra_scan for_fold ret] in Hrun. by simplify_eq. }
  destruct (Hvs v) as [w Hw]; [left|].
  assert (He : edge st0 u v w) by done.
  pose proof (ti_sssp _ _ _ Hinv) as Hsssp.
  destruct (sssp_inv_edge st0 s st0_inv st0_closed _ _ _ _ Hsssp He)
    as (_ & Hv & Hlt & Hdu & Hdv).
  pose proof (si_skeleton _ _ _ Hsssp) as Hskel.
  set (q1 := if decide (estimate st s v > estimate st s u + w)%Z
             then add_task P q v (estimate st s u + w) else q).
  set (st1 := if decide (estimate st s v > estimate st s u + w)%Z
              then lowered s u v (estimate st s u + w) st else st).
  assert (Hstep : (let* w := get_weight u v in
                   relax_with_priority_update P s u v w q) st = (Ok q1, st1)).
  { erewrite bind_run; last first.
    { unfold get_weight. rewrite (skeleton_connected_to _ _ u Hskel), Hw. done. }
    rewrite relax_with_priority_update_run by done.
    unfold q1, st1. by case_decide. }
  unfold dijkstra_scan in *. simpl in Hrun.
  erewrite bind_run in Hrun; [|exact Hstep].
  apply IH in Hrun; [done| | |].
  - unfold st1. case_decide; [by apply tree_inv_lowered|done].
  - intros x Hx. apply Hvs. by right.
  - intros a. unfold q1. case_decide; [|by apply Hq].
    destruct P_lawful as (_ & Hadd & _). rewrite Hadd.
    destruct (decide (v = a)) as [<-|Hne]; [done|].
    rewrite lookup_insert_ne by done. apply Hq.
Qed.

Lemma dijkstra_while_tree fuel q st st' :
  tree_inv st0 s st → (∀ a, is_Some (tasks P q !! a) → a ∈ stored st0) →
  dijkstra_while P fuel s q st = (Ok (), st') → tree_inv st0 s st'.
Proof.
  revert q st. induction fuel as [|fuel IH]; intros q st Hinv Hq Hrun;
    simpl in Hrun; destruct (empty P q) eqn:He;
    try (cbv [ret raise] in Hrun; by simplify_eq).
  destruct P_lawful as (_ & _ & _ & Hpop). specialize (Hpop q).
  destruct (pop_task P q) as [[u q1]|]; [|done].
  destruct Hpop as [(p & Hup & _) Hq1].
  assert (Hu : u ∈ stored st0) by (apply Hq; by exists p).
  pose proof (si_skeleton _ _ _ (ti_sssp _ _ _ Hinv)) as Hskel.
  apply bind_inv in Hrun as (vs & st1 & Hget & Hrun).
  unfold get_connections, gets in Hget. injection Hget as <- <-.
  apply bind_inv in Hrun as (q' & st2 & Hscan & Hrun).
  destruct (dijkstra_scan_tree u (connected_to (vtx st u)).*1 q1 st q' st2 Hinv Hu)
    as [Hinv2 Hq2]; [| |exact Hscan|].
  - intros v Hv. apply dict_get_is_Some.
    by rewrite <-(skeleton_connected_to _ _ u Hskel).
  - intros a. rewrite Hq1. intros [x Hx].
    apply lookup_delete_Some in Hx as [_ Hx]. apply Hq. by exists x.
  - by apply (IH q' st2).
Qed.
End fixed.

Lemma dijkstra_tree st k s fuel st' :
  graph_inv st → closed st → ¬ negative_cycle st →
  dict_get k (vertices st) = Some s →
  dijkstra P fuel k st = (Ok (), st') → tree_inv st s st'.
Proof.
  intros Hinv Hc Hnc Hk Hrun.
  pose proof (get_vertex_stored _ _ _ Hk) as Hs.
  destruct (initialized st s Hinv Hs) as (st1 & Hrun1 & Hinv1 & _ & Hinit).
  destruct (dijkstra_load_run P P_lawful st s (vertices st) (pq_new P) st1 Hinv1)
    as (q0 & Hload & Htasks).
  { intros [k' a] Hin. simpl. apply dict_get_NoDup; [|done]. apply (inv_keys _ Hinv). }
  unfold dijkstra in Hrun.
  erewrite bind_run in Hrun; [|by apply get_vertex_run].
  erewrite bind_run in Hrun; [|exact Hrun1].
  erewrite bind_run in Hrun; last first.
  { unfold get_vertices, gets.
    by rewrite (skeleton_vertices _ _ (si_skeleton _ _ _ Hinv1)). }
  unfold dijkstra_load in Hload.
  erewrite bind_run in Hrun; [|exact Hload].
  apply (dijkstra_while_tree st s Hinv Hc Hnc fuel q0 st1); [| |done].
  - apply tree_inv_initial; [done|]. intros v Hv.
    by destruct (Hinit v Hv) as (? & ? & _).
  - intros a. rewrite Htasks. case_decide; [done|].
    destruct P_lawful as (Hnew & _). rewrite Hnew, lookup_empty. by intros [? ?].
Qed.

(** X17. On a graph in which every adjacency entry refers to a stored
    vertex and no weight is negative, after [dijkstra] from a stored key
    [print_path] from that key to a vertex whose shortest distance is
    below [sys.maxsize] prints the ids of the vertices of a shortest path
    from the source to it, provided the interpreter has room for one
    activation of the recursive method per vertex of that path; with less
    room it raises [RecursionError] and prints nothing.  To a stored vertex
    that cannot be reached it prints the "no path" line for the two keys,
    and nothing else. *)
Theorem dijkstra_then_print_path (st : state key) (depth : nat) (ks kd : key)
    (s d : addr) (fuel : nat) :
  graph_inv st → closed st → (∀ u v w, edge st u v w → (0 ≤ w)%Z) →
  dict_get ks (vertices st) = Some s → dict_get kd (vertices st) = Some d →
  length (stored st) ≤ fuel →
  (∀ δ, shortest_distance st s d δ → (δ < sys_maxsize)%Z →
     ∃ p, walk st s p d δ ∧
          dist_from (after (dijkstra P fuel ks) st) s d = Some δ ∧
          (length p < depth →
             print_path depth ks kd (after (dijkstra P fuel ks) st) =
             (Ok (), printed (ids st (p ++ [d])) (after (dijkstra P fuel ks) st))) ∧
          (depth ≤ length p →
             print_path depth ks kd (after (dijkstra P fuel ks) st) =
             (Fail RecursionError, after (dijkstra P fuel ks) st))) ∧
  (¬ reachable st s d → 0 < depth →
     print_path depth ks kd (after (dijkstra P fuel ks) st) =
     (Ok (), printed [PrintNoPath ks kd] (after (dijkstra P fuel ks) st))).
Proof.
  intros Hinv Hc Hnn Hks Hkd Hfuel.
  pose proof (get_vertex_stored _ _ _ Hks) as Hs.
  pose proof (get_vertex_stored _ _ _ Hkd) as Hd.
  pose proof (nonnegative_no_negative_cycle st Hnn) as Hnc.
  destruct (dijkstra_run P P_lawful st ks s fuel Hinv Hc Hnn Hks Hfuel)
    as (st' & Hrun & Hsssp & Hleast).
  pose proof (dijkstra_tree st ks s fuel st' Hinv Hc Hnc Hks Hrun) as Htree.
  unfold after. rewrite Hrun. simpl.
  pose proof (si_skeleton _ _ _ Hsssp) as Hskel.
  assert (Hks' : dict_get ks (vertices st') = Some s).
  { by rewrite (skeleton_vertices _ _ Hskel). }
  assert (Hkd' : dict_get kd (vertices st') = Some d).
  { by rewrite (skeleton_vertices _ _ Hskel). }
  destruct (Hleast d Hd) as [(x & px & wx & Hwx & Hex) Hle].
  pose proof (nonnegative_walk _ _ _ _ _ Hnn Hwx) as Hwx0.
  split.
  - intros δ [(pδ & Hwδ) Hmin] Hlt.
    pose proof (Hle _ _ _ Hwδ) as Hdδ. unfold initial in Hdδ.
    rewrite decide_True in Hdδ by done.
    destruct (tree_inv_path st s st' d Hinv Hc Htree Hs Hd)
      as (p & Wc & l & Hw & HWc & Htr & Hl).
    { intros r pr Wr Hne Hwr _.
      pose proof (nonnegative_walk _ _ _ _ _ Hnn Hwr). lia. }
    pose proof (Hle _ _ _ Hw) as Hge. unfold initial in Hge.
    rewrite decide_True in Hge by done.
    pose proof (Hmin _ _ Hw) as Hδ.
    assert (Wc = δ) as -> by lia.
    assert (Hll : length l = length p).
    { apply (f_equal length) in Hl. rewrite length_app in Hl. simpl in Hl. lia. }
    destruct (print_path_trail st' depth ks kd s d l Hks' Hkd' Htr) as [Hok Hdeep].
    exists p. split_and!; [done| | |].
    + rewrite (si_defined _ _ _ Hsssp) by done. f_equal. lia.
    + intros Hlt'. rewrite <-Hl, <-(ids_skeleton st st' _ Hskel). apply Hok. lia.
    + intros Hge'. apply Hdeep. lia.
  - intros Hn Hdepth.
    assert (Hxs : x ≠ s) by (intros ->; apply Hn; by exists px, wx).
    assert (Hds : d ≠ s) by (intros ->; apply Hn; exists [], 0%Z; by apply walk_nil).
    pose proof (Hle d [] 0%Z (walk_nil _ _ Hd)) as Hself.
    unfold initial in *.
    rewrite (decide_False (P:=x = s)) in Hex by done.
    rewrite (decide_False (P:=d = s)) in Hself by done.
    assert (Hp : predecessor (vtx st' d) = None).
    { destruct (predecessor (vtx st' d)) as [p|] eqn:Hp; [|done].
      destruct (ti_pred _ _ _ Htree d p Hd Hp) as [Hlow _].
      unfold initial in Hlow. rewrite decide_False in Hlow by done. lia. }
    unfold print_path.
    erewrite bind_run; [|by apply get_vertex_run].
    erewrite bind_run; [|by apply get_vertex_run].
    rewrite (print_path_util_chain st' s d [] d); [|by apply chain_root| |simpl; lia].
    + simpl.
      destruct (skeleton_vtx st st' s Hskel) as [-> _].
      destruct (skeleton_vtx st st' d Hskel) as [-> _].
      rewrite (inv_ids _ Hinv ks s), (inv_ids _ Hinv kd d) by (by apply dict_get_Some).
      done.
    + intros ->%list_elem_of_singleton. done.
Qed.
End dijkstra_tree.

(** ** [bfs] on every graph that the calls can build *)
Section bfs_total.
Context {key : Type} `{!EqDecision key} `{!Inhabited key}.
Implicit Types (st : state key).

Lemma length_le_heap (l : list addr) st :
  NoDup l → (∀ x, x ∈ l → x < length (heap st)) → length l ≤ length (heap st).
Proof.
  intros Hnd Hv. trans (length (seq 0 (length (heap st)))); [|by rewrite length_seq].
  apply submseteq_length, NoDup_submseteq; [done|].
  intros x Hx. apply elem_of_seq. specialize (Hv x Hx). lia.
Qed.

Section fixed.
Variables (st0 : state key) (s : addr) (n : Z).
Hypothesis st0_counted : (Z.of_nat (length (heap st0)) ≤ n)%Z.

Lemma bfs_scan_live u B vs q st :
  bfs_live st0 s (B ++ [u]) q st →
  dist_from st s u = Some (estimate st s u) →
  (∀ v, v ∈ vs → v < length (heap st0)) →
  ∃ q' st', for_fold vs q (bfs_visit s u n) st = (Ok q', st') ∧
            bfs_live st0 s (B ++ [u]) q' st' ∧
            dist_from st' s u = Some (estimate st' s u).
Proof.
  revert q st. induction vs as [|v vs IH]; intros q st Hlive Hdu Hvs.
  { by exists q, st. }
  assert (Hv : v < length (heap st0)) by (apply Hvs; left).
  pose proof (lv_skeleton _ _ _ _ _ Hlive) as Hskel.
  assert (Hlt : v < length (heap st)) by by rewrite (skeleton_length _ _ Hskel).
  destruct (decide (color (vtx st v) = WHITE)) as [Hcv|Hcv]; last first.
  { destruct (IH q st) as (q' & st' & Hrun & Hlive' & Hdu'); [done..| |].
    { intros x Hx. apply Hvs. by right. }
    exists q', st'. split; [|done]. simpl.
    erewrite bind_run; [|by apply bfs_visit_seen]. done. }
  assert (Hvn : v ∉ (B ++ [u]) ++ q).
  { intros Hin. by apply (lv_seen _ _ _ _ _ Hlive v Hin). }
  assert (Huv : u ≠ v).
  { intros ->. apply Hvn. rewrite !elem_of_app, list_elem_of_singleton. tauto. }
  assert (Hroom : ¬ (0 < n ∧ n ≤ Z.of_nat (length q))%Z).
  { assert (length (v :: (B ++ [u]) ++ q) ≤ length (heap st0)) as Hlen.
    { apply length_le_heap.
      - apply NoDup_cons. split; [done|apply (lv_nodup _ _ _ _ _ Hlive)].
      - intros x [->|Hx]%elem_of_cons; [done|by apply (lv_valid _ _ _ _ _ Hlive)]. }
    simpl in Hlen. rewrite !length_app in Hlen. simpl in Hlen. lia. }
  set (st1 := discovered s u v (estimate st s u + 1) st).
  assert (Hvtx : ∀ x, x ≠ v → vtx st1 x = vtx st x).
  { intros x Hx. unfold st1. rewrite discovered_vtx by done. by rewrite decide_False. }
  assert (Hlive1 : bfs_live st0 s (B ++ [u]) (q ++ [v]) st1).
  { split.
    - unfold st1. by rewrite discovered_skeleton.
    - rewrite app_assoc. apply NoDup_app. split_and!.
      + apply (lv_nodup _ _ _ _ _ Hlive).
      + by intros x Hx ->%list_elem_of_singleton.
      + apply NoDup_singleton.
    - rewrite app_assoc. intros x [Hx| ->%list_elem_of_singleton]%elem_of_app;
        [by apply (lv_valid _ _ _ _ _ Hlive)|done].
    - rewrite app_assoc. intros x [Hx| ->%list_elem_of_singleton]%elem_of_app.
      + rewrite Hvtx by (intros ->; done). by apply (lv_seen _ _ _ _ _ Hlive).
      + unfold st1. rewrite discovered_vtx by done. by rewrite decide_True.
    - intros x [Hx| ->%list_elem_of_singleton]%elem_of_app.
      + assert (x ≠ v).
        { intros ->. apply Hvn. apply elem_of_app. by right. }
        unfold estimate, dist_from. rewrite Hvtx by done.
        by apply (lv_dist _ _ _ _ _ Hlive).
      + unfold estimate, dist_from, st1. rewrite discovered_vtx by done.
        rewrite decide_True by done. simpl. by rewrite dict_get_set_eq. }
  destruct (IH (q ++ [v]) st1) as (q' & st' & Hrun & Hlive' & Hdu'); [done| | |].
  { unfold estimate, dist_from. by rewrite Hvtx. }
  { intros x Hx. apply Hvs. by right. }
  exists q', st'. split; [|done]. simpl.
  erewrite bind_run; [|by apply bfs_visit_white]. exact Hrun.
Qed.

Hypothesis st0_grounded :
  ∀ a x, x ∈ (connected_to (vtx st0 a)).*1 → x < length (heap st0).

Lemma bfs_while_live fuel B q st :
  bfs_live st0 s B q st → length (heap st0) < fuel + length B →
  (bfs_while fuel s n q st).1 = Ok ().
Proof.
  revert B q st. induction fuel as [|fuel IH]; intros B [|u q] st Hlive Hfuel;
    [done| |done|].
  - pose proof (length_le_heap _ st0 (lv_nodup _ _ _ _ _ Hlive)
                  (lv_valid _ _ _ _ _ Hlive)) as Hl.
    rewrite length_app in Hl. simpl in Hl, Hfuel. lia.
  - pose proof (lv_skeleton _ _ _ _ _ Hlive) as Hskel.
    assert (Hu : u < length (heap st0)).
    { apply (lv_valid _ _ _ _ _ Hlive). apply elem_of_app. right. left. }
    assert (Hlive0 : bfs_live st0 s (B ++ [u]) q st).
    { destruct Hlive as [H1 H2 H3 H4 H5]. split; [done| | | |].
      - by rewrite <-app_assoc.
      - intros x. rewrite <-app_assoc. apply H3.
      - intros x. rewrite <-app_assoc. apply H4.
      - intros x Hx. apply H5. by right. }
    destruct (bfs_scan_live u B (connected_to (vtx st u)).*1 q st)
      as (q' & st1 & Hrun & Hlive1 & Hdu); [done| | |].
    { apply (lv_dist _ _ _ _ _ Hlive). left. }
    { intros v Hv. apply (st0_grounded u).
      by rewrite <-(skeleton_connected_to _ _ u Hskel). }
    simpl. erewrite bind_run; [|done]. erewrite bind_run; [|exact Hrun].
    erewrite bind_run; [|done].
    apply (IH (B ++ [u]) q'); [|rewrite length_app; simpl; lia].
    set (st2 := set_heap (alter (with_color BLACK) u) st1).
    assert (Hvtx : ∀ x, color (vtx st2 x) ≠ WHITE ∨ vtx st2 x = vtx st1 x).
    { intros x. unfold st2. rewrite vtx_alter. case_decide; [by left|by right]. }
    assert (Hd : ∀ x, dist_from st2 s x = dist_from st1 s x).
    { intros x. unfold dist_from, st2. rewrite vtx_alter. by case_decide. }
    destruct Hlive1 as [H1 H2 H3 H4 H5]. split; [|done|done| |].
    + unfold st2. by rewrite skeleton_alter.
    + intros x Hx. destruct (Hvtx x) as [?| ->]; [done|by apply H4].
    + intros x Hx. unfold estimate. rewrite !Hd. by apply H5.
Qed.
End fixed.

(** [bfs] from a stored key returns whenever the vertex objects are
    counted and connected to vertex objects. *)
Lemma bfs_returns st k s :
  graph_inv st → objects_inv st → dict_get k (vertices st) = Some s →
  (bfs k st).1 = Ok ().
Proof.
  intros Hinv [Hcount Hground] Hk.
  pose proof (get_vertex_stored _ _ _ Hk) as Hs.
  pose proof (inv_valid _ Hinv s Hs) as Hls.
  destruct (bfs_initialize_run s st Hs) as (st1 & Hrun1 & Hsg & Hlen & Hvtx).
  assert (Hvs : vtx st1 s = bfs_reset s s (vtx st s)).
  { rewrite Hvtx. by rewrite decide_True. }
  assert (Hskel : skeleton st1 = skeleton st).
  { apply skeleton_of_vtx; [done..|]. intros a. rewrite Hvtx.
    case_decide; [apply bfs_reset_skeleton|done]. }
  rewrite bfs_split.
  erewrite bind_run; [|by apply get_vertex_run].
  erewrite bind_run; [|exact Hrun1].
  unfold bfs_search.
  erewrite bind_run; [|done].
  erewrite bind_run; last first.
  { unfold q_put. rewrite decide_False; [done|]. simpl. lia. }
  erewrite bind_run; [|done].
  apply (bfs_while_live st s (num_vertices st1)) with (B := []).
  - rewrite (skeleton_num_vertices _ _ Hskel). lia.
  - done.
  - split; [done|apply NoDup_singleton| | |].
    + by intros x ->%list_elem_of_singleton.
    + intros x ->%list_elem_of_singleton. rewrite Hvs. unfold bfs_reset.
      by rewrite decide_True.
    + intros x ->%list_elem_of_singleton. unfold estimate, dist_from.
      rewrite Hvs. unfold bfs_reset. rewrite decide_True by done. simpl.
      by rewrite dict_get_set_eq.
  - simpl. rewrite Hlen. lia.
Qed.
End bfs_total.

Section objects_kept.
Context {key : Type} `{!EqDecision key} `{!Inhabited key}.
Implicit Types (st : state key).
Variable P : MutablePriorityQueue.

Lemma objects_skeleton st st' :
  skeleton st' = skeleton st → objects_inv st → objects_inv st'.
Proof.
  intros Hskel [Hcount Hground]. split.
  - by rewrite (skeleton_length _ _ Hskel), (skeleton_num_vertices _ _ Hskel).
  - intros a x. rewrite (skeleton_connected_to _ _ a Hskel), (skeleton_length _ _ Hskel).
    apply Hground.
Qed.

Lemma add_vertex_objects k st : objects_inv st → objects_inv (after (add_vertex k) st).
Proof.
  intros [Hcount Hground]. unfold after. rewrite add_vertex_after. split; simpl.
  - rewrite length_app. simpl. lia.
  - intros a x. rewrite vtx_alloc, length_app. simpl.
    repeat case_decide; simpl.
    + intros Hx%Hground. lia.
    + by intros ?%elem_of_nil.
    + by intros ?%elem_of_nil.
Qed.

Lemma ensure_objects k st : objects_inv st → objects_inv (ensure k st).
Proof. intros Hst. unfold ensure. case_match; [done|]. by apply add_vertex_objects. Qed.

Lemma link_objects a b w st :
  b < length (heap st) → objects_inv st → objects_inv (link a b w st).
Proof.
  intros Hb [Hcount Hground]. unfold link. split; simpl.
  - by rewrite length_alter.
  - intros a' x. rewrite length_alter, vtx_alter. case_decide; [|apply Hground].
    simpl. destruct (decide (b ∈ (connected_to (vtx st a')).*1)) as [Hin|Hin].
    + rewrite dict_set_keys_present by done. apply Hground.
    + rewrite dict_set_keys_absent by done.
      intros [Hx| ->%list_elem_of_singleton]%elem_of_app; [by apply (Hground a')|done].
Qed.

Lemma exec_objects (c : call key) st :
  graph_inv st → objects_inv st → objects_inv (after (exec P c) st).
Proof.
  intros Hinv Hobj.
  assert (Hskel : ∀ m : M key unit, stable same_skeleton m → objects_inv (after m st)).
  { intros m Hm. apply (objects_skeleton st); [apply Hm|done]. }
  destruct c as [k|e|es| |k1 k2|k1 k2|k| |k|fuel k]; cbn [exec].
  - by apply add_vertex_objects.
  - assert (Hedge : ∀ k1 k2, e = Args2 k1 k2 ∨ (∃ w, e = Args3 k1 k2 w) →
                             objects_inv (after (add_edge e) st)).
    { intros k1 k2 He.
      destruct (add_edge_after e k1 k2 st He) as (a1 & a2 & H1 & H2 & Hrun).
      unfold after. rewrite Hrun. simpl.
      set (S := ensure k2 (ensure k1 st)) in *.
      assert (HinvS : graph_inv S) by by apply ensure_graph_inv, ensure_graph_inv.
      assert (HobjS : objects_inv S) by by apply ensure_objects, ensure_objects.
      pose proof (inv_valid _ HinvS a1 (get_vertex_stored _ _ _ H1)) as Hl1.
      pose proof (inv_valid _ HinvS a2 (get_vertex_stored _ _ _ H2)) as Hl2.
      destruct (directed st).
      - by apply link_objects.
      - apply link_objects; [|by apply link_objects].
        unfold link; simpl. by rewrite length_alter. }
    destruct e as [k1 k2|k1 k2 w|e]; [| |done].
    + apply (Hedge k1 k2). by left.
    + apply (Hedge k1 k2). right. by exists w.
  - by rewrite add_edges_after.
  - apply Hskel, stable_bind; [apply _| |intros ?; apply stable_ret; apply _].
    apply get_edges_same_skeleton.
  - apply Hskel, stable_bind; [apply _| |intros ?; apply stable_ret; apply _].
    apply connected_same_skeleton.
  - apply Hskel, print_path_same_skeleton.
  - apply Hskel, bfs_same_skeleton.
  - apply Hskel, dfs_same_skeleton.
  - apply Hskel, bellman_ford_same_skeleton.
  - apply Hskel, dijkstra_same_skeleton.
Qed.

Lemma history_objects (cs : list (call key)) st :
  graph_inv st → objects_inv st → objects_inv (history P cs st).
Proof.
  revert st. induction cs as [|c cs IH]; intros st Hinv Hobj; [done|].
  change (history P (c :: cs) st) with (history P cs (after (exec P c) st)).
  apply IH; [by apply exec_graph_inv|by apply exec_objects].
Qed.

(** X18. After any sequence of calls on a new graph, with keys added
    twice or not, [num_vertices] is the number of vertex objects that were
    made, every adjacency entry is one of them, and [bfs] from a key of the
    graph returns: its queue, bounded by [num_vertices], is never full
    when a vertex is put into it, and no distance is missing when it is
    read.  From any other key it raises [KeyError] and changes nothing. *)
Theorem bfs_returns_for_every_stored_key (d : bool) (cs : list (call key)) (k : key) :
  (Z.of_nat (length (heap (history P cs (Graph d))))
     = num_vertices (history P cs (Graph d)) ∧
   ∀ a x, x ∈ (connected_to (vtx (history P cs (Graph d)) a)).*1 →
          x < length (heap (history P cs (Graph d)))) ∧
  (k ∈ (vertices (history P cs (Graph d))).*1 →
     (bfs k (history P cs (Graph d))).1 = Ok ()) ∧
  (k ∉ (vertices (history P cs (Graph d))).*1 →
     bfs k (history P cs (Graph d)) = (Fail KeyError, history P cs (Graph d))).
Proof.
  set (st := history P cs (Graph d)).
  assert (Hinv : graph_inv st) by apply history_graph_inv, Graph_graph_inv.
  assert (Hobj : objects_inv st).
  { apply history_objects; [apply Graph_graph_inv|]. split; [done|].
    intros a x. unfold vtx. simpl. by intros ?%elem_of_nil. }
  split; [exact Hobj|split].
  - intros [s Hs]%dict_get_is_Some. by apply (bfs_returns st k s).
  - intros Hk%dict_get_None. by apply bind_fail, get_vertex_absent.
Qed.
End objects_kept.

(** ** Instances and counterexamples *)

Lemma demo_closed : closed demo.
Proof. apply closedb_closed. by vm_compute. Qed.

Lemma demo_graph_inv : graph_inv demo.
Proof. apply graph_invb_graph_inv. by vm_compute. Qed.

Lemma second_run_changes_nothing_demo :
  (bellman_ford 0%Z (after (bellman_ford 0%Z) demo) = bellman_ford 0%Z demo ∧
   after (bellman_ford 0%Z) (after (bellman_ford 0%Z) demo) = after (bellman_ford 0%Z) demo) ∧
  (bfs 0%Z (after (bfs 0%Z) demo) = bfs 0%Z demo ∧
   after (bfs 0%Z) (after (bfs 0%Z) demo) = after (bfs 0%Z) demo) ∧
  (dijkstra gmap_pq 6 0%Z (after (dijkstra gmap_pq 6 0%Z) demo) = dijkstra gmap_pq 6 0%Z demo ∧
   after (dijkstra gmap_pq 6 0%Z) (after (dijkstra gmap_pq 6 0%Z) demo)
     = after (dijkstra gmap_pq 6 0%Z) demo).
Proof.
  destruct (second_run_changes_nothing gmap_pq demo 0%Z 6) as [Hbf Hrest].
  split; [exact Hbf|]. apply Hrest.
  - apply closedb_closed. vm_compute. reflexivity.
  - apply gmap_pq_lawful.
Defined.

(** In [stale], key [1] was added again after the edges 0 -> 1 -> 2 were
    entered.  The first [bfs] from [0] reaches vertex [2] through the vertex
    object that is no longer stored; that run leaves this object BLACK, so a
    second run does not go through it and leaves vertex [2] at the sentinel. *)
Lemma second_run_differs_stale :
  dists 0 (after (bfs 0%Z) stale) = [(0, Some 0); (1, Some sys_maxsize); (2, Some 2)]%Z ∧
  dists 0 (after (bfs 0%Z) (after (bfs 0%Z) stale))
    = [(0, Some 0); (1, Some sys_maxsize); (2, Some sys_maxsize)]%Z ∧
  after (bfs 0%Z) (after (bfs 0%Z) stale) ≠ after (bfs 0%Z) stale.
Proof.
  split_and!; [by vm_compute..|].
  intros Heq. apply (f_equal (dists 0)) in Heq. vm_compute in Heq. discriminate.
Qed.

(** On an undirected graph, [add_edge(7, 7, 5)] makes [get_edges] return a
    single triple, whose first two components are the vertex object at
    address [0], of id [7]. *)
Lemma self_loop_listed_once :
  (get_edges self_loop).1 = Ok [(0, 0, 5%Z)] ∧
  id (vtx self_loop 0) = 7%Z ∧
  ¬ listed_both_ways [(0, 0, 5%Z)].
Proof.
  split_and!; [done..|].
  intros H. destruct (H 0 0 5%Z) as (i & j & Hne & Hi & Hj); [left|].
  destruct i as [|i], j as [|j]; try done.
Qed.


(** In [detour] the vertex of key [0] is connected to a vertex object that is
    no longer stored.  The first [dijkstra] from key [0] lowers the estimate
    of that object, which the queue then hands out, and reaches key [2] at
    distance [4]; the second finds the estimate already lowered, does not
    queue the object again and leaves the sentinel on key [2]. *)
Lemma second_dijkstra_differs_detour :
  dists 0 (after (dijkstra gmap_pq 4 0%Z) detour)
    = [(0, Some 0); (1, Some sys_maxsize); (2, Some 4)]%Z ∧
  dists 0 (after (dijkstra gmap_pq 4 0%Z) (after (dijkstra gmap_pq 4 0%Z) detour))
    = [(0, Some 0); (1, Some sys_maxsize); (2, Some sys_maxsize)]%Z.
Proof. split; by vm_compute. Qed.

(** On the path 0 -> 1 -> 2, with room for two nested activations of
    [dfs_visit], [dfs] prints the ids [0] and [1], has made [1] the
    predecessor of the last vertex and raises [RecursionError] on the call
    for it; with room for three it returns. *)
Lemma dfs_raises_on_deep_path :
  (dfs 2 path3).1 = Fail RecursionError ∧
  stdout (after (dfs 2) path3) = [PrintId 0%Z; PrintId 1%Z] ∧
  predecessor (vtx (after (dfs 2) path3) 2) = Some 1 ∧
  (dfs 3 path3).1 = Ok () ∧
  stdout (after (dfs 3) path3) = [PrintId 0%Z; PrintId 1%Z; PrintId 2%Z].
Proof. split_and!; by vm_compute. Qed.

(** After [bfs] from key [0] on the same path, [print_path(0, 2)] needs
    three activations: with room for two it raises [RecursionError] and
    prints nothing. *)
Lemma print_path_raises_on_deep_path :
  print_path 2 0%Z 2%Z (after (bfs 0%Z) path3) = (Fail RecursionError, after (bfs 0%Z) path3) ∧
  stdout (after (print_path 3 0%Z 2%Z) (after (bfs 0%Z) path3))
    = [PrintId 0%Z; PrintId 1%Z; PrintId 2%Z].
Proof. split; by vm_compute. Qed.


Lemma demo_nonnegative : ∀ u v w, edge demo u v w → (0 ≤ w)%Z.
Proof. apply nonnegativeb_nonnegative. by vm_compute. Qed.

Lemma bfs_correct_demo :
  (bfs 0%Z demo).1 = Ok () ∧
  ∀ v, v ∈ stored demo →
    (reachable demo 0 v →
       ∃ m, hop_distance demo 0 v m ∧
            dist_from (after (bfs 0%Z) demo) 0 v = Some (Z.of_nat m) ∧
            tree_path (after (bfs 0%Z) demo) 0 v m) ∧
    (¬ reachable demo 0 v →
       dist_from (after (bfs 0%Z) demo) 0 v = Some sys_maxsize ∧
       predecessor (vtx (after (bfs 0%Z) demo) v) = None).
Proof.
  apply (bfs_correct demo 0%Z 0).
  - apply graph_invb_graph_inv. vm_compute. reflexivity.
  - apply closedb_closed. vm_compute. reflexivity.
  - reflexivity.
Defined.

(** In [stale] the vertex of key [0] is connected to the vertex object at
    address [1], which is connected to the vertex of key [2] but is no
    longer stored: the vertex now stored under key [1] is at address [3].
    No path through stored vertices leads from key [0] to key [2], yet the
    first [bfs] from [0] leaves the distance [2] on it and a predecessor
    that is not stored; counting the path through the vertex object that is
    not stored, key [2] is two edges away, yet a second [bfs] leaves the
    sentinel on it. *)
Lemma bfs_wrong_on_stale :
  (bfs 0%Z stale).1 = Ok () ∧
  stored stale = [0; 3; 2] ∧
  ¬ reachable stale 0 2 ∧
  dist_from (after (bfs 0%Z) stale) 0 2 = Some 2%Z ∧
  predecessor (vtx (after (bfs 0%Z) stale) 2) = Some 1 ∧
  (connected_to (vtx stale 0) = [(1, 0%Z)] ∧ connected_to (vtx stale 1) = [(2, 0%Z)]) ∧
  (bfs 0%Z (after (bfs 0%Z) stale)).1 = Ok () ∧
  dist_from (after (bfs 0%Z) (after (bfs 0%Z) stale)) 0 2 = Some sys_maxsize.
Proof.
  split_and!; try by vm_compute.
  intros (p & w & Hw). inversion Hw as [a Ha|a p' b c w1 w2 Hw' [Hb He]]; subst.
  change (stored stale) with [0; 3; 2] in Hb.
  repeat (apply elem_of_cons in Hb as [->|Hb]; [by vm_compute in He|]).
  by apply elem_of_nil in Hb.
Qed.

Lemma bellman_ford_correct_demo :
  ((bellman_ford 0%Z demo).1 = Fail NegativeWeightCycle ↔ negative_cycle demo) ∧
  (¬ negative_cycle demo →
     (bellman_ford 0%Z demo).1 = Ok () ∧
     ∀ v, v ∈ stored demo →
       ∃ d, dist_from (after (bellman_ford 0%Z) demo) 0 v = Some d ∧
            least_estimate demo 0 v d ∧
            ∀ W, (0 ≤ W)%Z → (∀ u x w, edge demo u x w → (Z.abs w ≤ W)%Z) →
                 (2 * (Z.of_nat (length (stored demo)) - 1) * W ≤ sys_maxsize)%Z →
                 reachable demo 0 v → shortest_distance demo 0 v d).
Proof.
  apply (bellman_ford_correct demo 0%Z 0).
  - apply graph_invb_graph_inv. vm_compute. reflexivity.
  - apply closedb_closed. vm_compute. reflexivity.
  - reflexivity.
Defined.

(** Every walk of [far_cycle] that starts at the source is empty. *)
Lemma far_cycle_walk a p b w : walk far_cycle a p b w → a = 0 → b = 0 ∧ p = [].
Proof.
  induction 1 as [a Ha|a p b c w w' Hw IH [Hb He]]; intros ->; [done|].
  destruct IH as [-> _]; [done|]. by vm_compute in He.
Qed.

(** In [far_cycle] the source has no edges, so the cycle of weight [-2]
    between the two other vertices cannot be reached from it; yet
    [bellman_ford] from the source raises. *)
Lemma bellman_ford_raises_on_far_cycle :
  (bellman_ford 0%Z far_cycle).1 = Fail NegativeWeightCycle ∧
  dict_get 0%Z (vertices far_cycle) = Some 0 ∧
  ¬ reachable_negative_cycle far_cycle 0.
Proof.
  split_and!; [by vm_compute..|].
  intros (a & p & w & (p0 & w0 & Hr) & Hcyc & Hp & _).
  apply far_cycle_walk in Hr as [-> _]; [|done].
  apply far_cycle_walk in Hcyc as [_ ->]; done.
Qed.

Lemma dijkstra_agrees_with_bellman_ford_demo :
  (dijkstra gmap_pq 6 0%Z demo).1 = Ok () ∧
  (bellman_ford 0%Z demo).1 = Ok () ∧
  ∀ v, v ∈ stored demo →
    ∃ d, dist_from (after (dijkstra gmap_pq 6 0%Z) demo) 0 v = Some d ∧
         dist_from (after (bellman_ford 0%Z) demo) 0 v = Some d ∧
         least_estimate demo 0 v d.
Proof.
  apply (dijkstra_agrees_with_bellman_ford gmap_pq gmap_pq_lawful demo 0%Z 0 6).
  - apply graph_invb_graph_inv. vm_compute. reflexivity.
  - apply closedb_closed. vm_compute. reflexivity.
  - apply nonnegativeb_nonnegative. vm_compute. reflexivity.
  - reflexivity.
  - vm_compute. lia.
Defined.

(** In [detour] no weight is negative.  [dijkstra] from key [0] lowers the
    estimate of the vertex object at address [1], which is no longer stored,
    pops it and reaches key [2] at distance [4]; [bellman_ford] goes through
    the edges of the stored vertices only and leaves the sentinel on
    key [2]. *)
Lemma dijkstra_differs_on_detour :
  Forall (λ x, Forall (λ e : addr * Z, 0 ≤ e.2)%Z (connected_to x)) (heap detour) ∧
  (dijkstra gmap_pq 4 0%Z detour).1 = Ok () ∧
  (bellman_ford 0%Z detour).1 = Ok () ∧
  dists 0 (after (dijkstra gmap_pq 4 0%Z) detour)
    = [(0, Some 0); (1, Some sys_maxsize); (2, Some 4)]%Z ∧
  dists 0 (after (bellman_ford 0%Z) detour)
    = [(0, Some 0); (1, Some sys_maxsize); (2, Some sys_maxsize)]%Z.
Proof.
  split_and!; try by vm_compute.
  let h := eval vm_compute in (heap detour) in change (heap detour) with h.
  repeat (constructor; simpl; try lia).
Qed.

(** On the sample graph of the module's main block, [dijkstra] from key [0], with any
    priority queue that meets its interface, returns and leaves the
    distances 0:0, 1:5, 2:3, 3:12, 4:10, 5:2. *)
Theorem dijkstra_demo (P : MutablePriorityQueue) (fuel : nat) :
  pq_lawful P → 6 ≤ fuel →
  (dijkstra P fuel 0%Z demo).1 = Ok () ∧
  dists 0 (after (dijkstra P fuel 0%Z) demo)
    = [(0, Some 0); (1, Some 5); (2, Some 3); (3, Some 12); (4, Some 10); (5, Some 2)]%Z.
Proof.
  intros HP Hfuel.
  assert (Hk : dict_get 0%Z (vertices demo) = Some 0) by by vm_compute.
  assert (Hlen : length (stored demo) ≤ fuel) by (by vm_compute).
  destruct (dijkstra_same_dist P HP demo 0%Z 0 fuel demo_graph_inv demo_closed
              demo_nonnegative Hk Hlen) as (Hok & Hvs & Hd).
  split; [done|].
  trans (dists 0 (after (bellman_ford 0%Z) demo)); [|by vm_compute].
  unfold dists. rewrite Hvs.
  replace (vertices (after (bellman_ford 0%Z) demo)) with (vertices demo)
    by (by vm_compute).
  apply Forall_fmap_ext_1, Forall_forall. intros [k a] Hin.
  rewrite (Hd a); [done|]. by apply (list_elem_of_fmap_2 snd) in Hin.
Qed.

Lemma dijkstra_demo_gmap_pq :
  (dijkstra gmap_pq 6 0%Z demo).1 = Ok () ∧
  dists 0 (after (dijkstra gmap_pq 6 0%Z) demo)
    = [(0, Some 0); (1, Some 5); (2, Some 3); (3, Some 12); (4, Some 10); (5, Some 2)]%Z.
Proof.
  apply (dijkstra_demo gmap_pq 6).
  - apply gmap_pq_lawful.
  - lia.
Defined.

Lemma demo_distance_3 : shortest_distance demo 0 3 12.
Proof.
  split.
  - exists [0; 5; 2].
    apply (walk_snoc demo 0 [0; 5] 2 3 3 9);
      [|split; [vm_compute; repeat constructor|by vm_compute]].
    apply (walk_snoc demo 0 [0] 5 2 2 1);
      [|split; [vm_compute; repeat constructor|by vm_compute]].
    apply (walk_snoc demo 0 [] 0 5 0 2);
      [|split; [vm_compute; repeat constructor|by vm_compute]].
    apply walk_nil. vm_compute. repeat constructor.
  - intros p w Hw.
    pose (d := λ v : addr, nth v [0; 5; 3; 12; 10; 2]%Z 0%Z).
    assert (d 3%nat ≤ d 0%nat + w)%Z as Hle; [|unfold d in Hle; simpl in Hle; lia].
    apply (settled_walk demo d 0 p 3 w); [|done].
    intros u v x [Hu He]. apply dict_get_Some in He.
    change (stored demo) with [0; 1; 2; 3; 4; 5] in Hu.
    repeat (apply elem_of_cons in Hu as [->|Hu];
            [vm_compute in He;
             repeat (apply elem_of_cons in He as [[= -> ->]|He]; [unfold d; simpl; lia|]);
             by apply elem_of_nil in He|]).
    by apply elem_of_nil in Hu.
Qed.

(** The shortest path from [0] to [3] is 0 -> 5 -> 2 -> 3 of weight 12, and
    that to [4] is 0 -> 5 -> 4 of weight 10, which is what [dijkstra]
    leaves. *)
Lemma dijkstra_demo_not_as_described :
  dist_from (after (dijkstra gmap_pq 6 0%Z) demo) 0 3 = Some 12%Z ∧
  dist_from (after (dijkstra gmap_pq 6 0%Z) demo) 0 4 = Some 10%Z ∧
  shortest_distance demo 0 3 12 ∧
  dists 0 (after (dijkstra gmap_pq 6 0%Z) demo) ≠ described_distances.
Proof.
  split_and!; try by vm_compute.
  apply demo_distance_3.
Qed.

Lemma dijkstra_correct_demo :
  (dijkstra gmap_pq 6 0%Z demo).1 = Ok () ∧
  ∀ v, v ∈ stored demo →
    (reachable demo 0 v →
       ∃ δ, shortest_distance demo 0 v δ ∧
            dist_from (after (dijkstra gmap_pq 6 0%Z) demo) 0 v
              = Some (Z.min δ sys_maxsize)) ∧
    (¬ reachable demo 0 v →
       dist_from (after (dijkstra gmap_pq 6 0%Z) demo) 0 v = Some sys_maxsize).
Proof.
  apply (dijkstra_correct gmap_pq gmap_pq_lawful demo 0%Z 0 6).
  - apply graph_invb_graph_inv. vm_compute. reflexivity.
  - apply closedb_closed. vm_compute. reflexivity.
  - apply nonnegativeb_nonnegative. vm_compute. reflexivity.
  - reflexivity.
  - vm_compute. lia.
Defined.

Lemma absent_key_raises_demo :
  get_vertex 7%Z demo = (Fail KeyError, demo) ∧
  bfs 7%Z demo = (Fail KeyError, demo) ∧
  bellman_ford 7%Z demo = (Fail KeyError, demo) ∧
  (∀ fuel, dijkstra gmap_pq fuel 7%Z demo = (Fail KeyError, demo)) ∧
  (∀ k2, connected 7%Z k2 demo = (Fail KeyError, demo) ∧
         ∀ depth, print_path depth 7%Z k2 demo = (Fail KeyError, demo) ∧
                  print_path depth k2 7%Z demo = (Fail KeyError, demo)).
Proof.
  apply (absent_key_raises gmap_pq demo 7%Z). vm_compute. reflexivity.
Defined.

Lemma bfs_then_print_path_demo :
  (reachable demo 0 3 →
     ∃ p w, walk demo 0 p 3 w ∧ hop_distance demo 0 3 (length p) ∧
            (length p < 1000 →
               print_path 1000 0%Z 3%Z (after (bfs 0%Z) demo) =
               (Ok (), printed (ids demo (p ++ [3])) (after (bfs 0%Z) demo))) ∧
            (1000 ≤ length p →
               print_path 1000 0%Z 3%Z (after (bfs 0%Z) demo) =
               (Fail RecursionError, after (bfs 0%Z) demo))) ∧
  (¬ reachable demo 0 3 → 0 < 1000 →
     print_path 1000 0%Z 3%Z (after (bfs 0%Z) demo) =
     (Ok (), printed [PrintNoPath 0%Z 3%Z] (after (bfs 0%Z) demo))).
Proof.
  apply (bfs_then_print_path demo 1000 0%Z 3%Z 0 3).
  - apply graph_invb_graph_inv. vm_compute. reflexivity.
  - apply closedb_closed. vm_compute. reflexivity.
  - reflexivity.
  - reflexivity.
Defined.

Lemma print_path_prints_trail_demo :
  print_path 1000 0%Z 3%Z (after (bfs 0%Z) demo) =
  (Ok (), printed (ids (after (bfs 0%Z) demo) [0; 1; 2; 3]) (after (bfs 0%Z) demo)).
Proof.
  apply (print_path_prints_trail (after (bfs 0%Z) demo) 1000 0%Z 3%Z 0 3 [1; 2; 3]).
  - vm_compute. reflexivity.
  - vm_compute. reflexivity.
  - apply (trail_link _ 0 [1; 2] 2 3); [|vm_compute; reflexivity|lia].
    apply (trail_link _ 0 [1] 1 2); [|vm_compute; reflexivity|lia].
    apply (trail_link _ 0 [] 0 1); [|vm_compute; reflexivity|lia].
    apply trail_here.
  - simpl. lia.
Defined.

Lemma connected_looks_up_ids_demo :
  ∃ b, connected 0%Z 5%Z demo = (Ok b, demo) ∧
       (b = true ↔ ∃ v w, edge demo 0 v w ∧ id (vtx demo v) = 5%Z) ∧
       (graph_inv demo → closed demo →
          (b = true ↔ ∃ a2 w, dict_get 5%Z (vertices demo) = Some a2 ∧ edge demo 0 a2 w)).
Proof.
  apply (connected_looks_up_ids demo 0%Z 5%Z 0). vm_compute. reflexivity.
Defined.

Lemma add_edge_enters_edge_demo :
  (add_edge (Args3 0 3 4)%Z demo).1 = Ok () ∧
  ∃ a1 a2,
    dict_get 0%Z (vertices (after (add_edge (Args3 0 3 4)%Z) demo)) = Some a1 ∧
    dict_get 3%Z (vertices (after (add_edge (Args3 0 3 4)%Z) demo)) = Some a2 ∧
    (∀ k a, dict_get k (vertices demo) = Some a →
            dict_get k (vertices (after (add_edge (Args3 0 3 4)%Z) demo)) = Some a) ∧
    (∀ x, edge (after (add_edge (Args3 0 3 4)%Z) demo) a1 a2 x
          ↔ x = weight_of (Args3 0 3 4)%Z) ∧
    (directed demo = false →
       ∀ x, edge (after (add_edge (Args3 0 3 4)%Z) demo) a2 a1 x
            ↔ x = weight_of (Args3 0 3 4)%Z) ∧
    (∀ u v x, ¬ (u = a1 ∧ v = a2) → (directed demo = false → ¬ (u = a2 ∧ v = a1)) →
              edge (after (add_edge (Args3 0 3 4)%Z) demo) u v x ↔ edge demo u v x) ∧
    (connected 0%Z 3%Z (after (add_edge (Args3 0 3 4)%Z) demo)).1 = Ok true ∧
    (directed demo = false →
       (connected 3%Z 0%Z (after (add_edge (Args3 0 3 4)%Z) demo)).1 = Ok true).
Proof.
  apply (add_edge_enters_edge demo (Args3 0 3 4)%Z 0%Z 3%Z).
  - apply graph_invb_graph_inv. vm_compute. reflexivity.
  - right. exists 4%Z. reflexivity.
Defined.

Lemma add_vertex_again_demo :
  (add_vertex 1%Z demo).1 = Ok () ∧
  (vertices (after (add_vertex 1%Z) demo)).*1 = (vertices demo).*1 ∧
  (∀ u, u ∈ stored (after (add_vertex 1%Z) demo) ↔
        (u ∈ stored demo ∧ u ≠ 1) ∨ u = length (heap demo)) ∧
  (∀ u v w, edge (after (add_vertex 1%Z) demo) u v w ↔ u ≠ 1 ∧ edge demo u v w) ∧
  (∀ k2, connected 1%Z k2 (after (add_vertex 1%Z) demo)
         = (Ok false, after (add_vertex 1%Z) demo)) ∧
  ((∃ u w, u ≠ 1 ∧ edge demo u 1 w) → ¬ closed (after (add_vertex 1%Z) demo)).
Proof.
  apply (add_vertex_again demo 1%Z 1).
  - apply graph_invb_graph_inv. vm_compute. reflexivity.
  - vm_compute. reflexivity.
Defined.

Lemma distinct_keys_keep_graph_closed_demo :
  closed (history gmap_pq [Call_add_vertex 0%Z; Call_add_edge (Args3 0 1 5)%Z;
                           Call_bfs 0%Z; Call_add_edge (Args2 1 2)%Z] (Graph false)) ∧
  (false = false →
   mirrored (history gmap_pq [Call_add_vertex 0%Z; Call_add_edge (Args3 0 1 5)%Z;
                              Call_bfs 0%Z; Call_add_edge (Args2 1 2)%Z] (Graph false))).
Proof.
  apply (distinct_keys_keep_graph_closed gmap_pq false
           [Call_add_vertex 0%Z; Call_add_edge (Args3 0 1 5)%Z;
            Call_bfs 0%Z; Call_add_edge (Args2 1 2)%Z]).
  vm_compute. reflexivity.
Defined.

Lemma dfs_visits_every_vertex_once_demo :
  (dfs 6 demo).1 = Ok () ∧
  ∃ order,
    order ≡ₚ stored demo ∧ head order = head (stored demo) ∧
    stdout (after (dfs 6) demo) = stdout demo ++ ids demo order ∧
    ∀ v, v ∈ stored demo →
      color (vtx (after (dfs 6) demo) v) = BLACK ∧
      dist (vtx (after (dfs 6) demo) v) = dist (vtx demo v) ∧
      (predecessor (vtx (after (dfs 6) demo) v) = None ∨
       ∃ u w, predecessor (vtx (after (dfs 6) demo) v) = Some u ∧ edge demo u v w).
Proof.
  apply (dfs_visits_every_vertex_once demo 6).
  - apply graph_invb_graph_inv. vm_compute. reflexivity.
  - apply closedb_closed. vm_compute. reflexivity.
  - vm_compute. lia.
Defined.

Lemma searches_keep_other_distances_demo :
  (∀ v s', s' ≠ 0 →
     dist_from (after (bfs 0%Z) demo) s' v = dist_from demo s' v ∧
     dist_from (after (bellman_ford 0%Z) demo) s' v = dist_from demo s' v ∧
     ∀ fuel, dist_from (after (dijkstra gmap_pq fuel 0%Z) demo) s' v
             = dist_from demo s' v) ∧
  (∀ v s',
     (∀ depth, dist_from (after (dfs depth) demo) s' v = dist_from demo s' v) ∧
     dist_from (after get_edges demo) s' v = dist_from demo s' v ∧
     ∀ k1 k2,
       (∀ depth, dist_from (after (print_path depth k1 k2) demo) s' v
                 = dist_from demo s' v) ∧
       dist_from (after (connected k1 k2) demo) s' v = dist_from demo s' v).
Proof.
  apply (searches_keep_other_distances gmap_pq demo 0%Z 0). vm_compute. reflexivity.
Defined.

Lemma bellman_ford_raises_on_stale_edge_stale :
  (bellman_ford 0%Z stale).1 = Fail KeyError.
Proof.
  apply (bellman_ford_raises_on_stale_edge stale 0%Z 0 0 1 0%Z).
  - apply graph_invb_graph_inv. vm_compute. reflexivity.
  - vm_compute. reflexivity.
  - vm_compute. discriminate.
  - split; [vm_compute; repeat constructor|vm_compute; reflexivity].
  - vm_compute. intros Hin.
    repeat (apply elem_of_cons in Hin as [Heq|Hin]; [discriminate|]).
    by apply elem_of_nil in Hin.
  - vm_compute. reflexivity.
Defined.

Lemma bellman_ford_then_print_path_demo :
  ∃ p δ, walk demo 0 p 3 δ ∧ shortest_distance demo 0 3 δ ∧
         dist_from (after (bellman_ford 0%Z) demo) 0 3 = Some δ ∧
         (length p < 1000 →
            print_path 1000 0%Z 3%Z (after (bellman_ford 0%Z) demo) =
            (Ok (), printed (ids demo (p ++ [3])) (after (bellman_ford 0%Z) demo))) ∧
         (1000 ≤ length p →
            print_path 1000 0%Z 3%Z (after (bellman_ford 0%Z) demo) =
            (Fail RecursionError, after (bellman_ford 0%Z) demo)).
Proof.
  apply (bellman_ford_then_print_path demo 1000 0%Z 3%Z 0 3 9%Z).
  - apply graph_invb_graph_inv. vm_compute. reflexivity.
  - apply closedb_closed. vm_compute. reflexivity.
  - apply nonnegative_no_negative_cycle, nonnegativeb_nonnegative.
    vm_compute. reflexivity.
  - vm_compute. reflexivity.
  - vm_compute. reflexivity.
  - lia.
  - apply boundedb_bounded. vm_compute. reflexivity.
  - vm_compute. reflexivity.
  - destruct demo_distance_3 as [[p Hp] _]. exists p, 12%Z. exact Hp.
Defined.

Lemma dijkstra_then_print_path_demo :
  (∀ δ, shortest_distance demo 0 3 δ → (δ < sys_maxsize)%Z →
     ∃ p, walk demo 0 p 3 δ ∧
          dist_from (after (dijkstra gmap_pq 6 0%Z) demo) 0 3 = Some δ ∧
          (length p < 1000 →
             print_path 1000 0%Z 3%Z (after (dijkstra gmap_pq 6 0%Z) demo) =
             (Ok (), printed (ids demo (p ++ [3])) (after (dijkstra gmap_pq 6 0%Z) demo))) ∧
          (1000 ≤ length p →
             print_path 1000 0%Z 3%Z (after (dijkstra gmap_pq 6 0%Z) demo) =
             (Fail RecursionError, after (dijkstra gmap_pq 6 0%Z) demo))) ∧
  (¬ reachable demo 0 3 → 0 < 1000 →
     print_path 1000 0%Z 3%Z (after (dijkstra gmap_pq 6 0%Z) demo) =
     (Ok (), printed [PrintNoPath 0%Z 3%Z] (after (dijkstra gmap_pq 6 0%Z) demo))).
Proof.
  apply (dijkstra_then_print_path gmap_pq gmap_pq_lawful demo 1000 0%Z 3%Z 0 3 6).
  - apply graph_invb_graph_inv. vm_compute. reflexivity.
  - apply closedb_closed. vm_compute. reflexivity.
  - apply nonnegativeb_nonnegative. vm_compute. reflexivity.
  - vm_compute. reflexivity.
  - vm_compute. reflexivity.
  - vm_compute. lia.
Defined.
